(** * SOR relaxation kernels, Thomas solver and membrane driver

    A shallow embedding of the numerical core of the repository:

    - [lab1-pde-modeling/solver.py]: [relax2d], [relax3d], [thomas];
    - [lab2-standing-waves/src/solver.py]: [relax];
    - [lab1-standing-waves/src/simulation.py]: [set_sources],
      [apply_neumann_coeff_mods], [copy_neumann_boundaries],
      [run_simulation];
    - [lab1-standing-waves/src/config.py]: [get_config];
    - [lab2-standing-waves/src/visualization.py]: the arrays
      [create_2d_animation] and [create_3d_animation] prepare for drawing;
    - [lab2-standing-waves/main.py]: [main], with the file system and the
      drawing as steps of the environment that may fail.

    Numbers.  The Python code computes with IEEE doubles.  Here a number is
    an exact rational ([Qc], rationals in lowest terms, with Leibniz
    equality), so every statement below is a statement in exact arithmetic.
    A division of two scalars by zero raises [ZeroDivisionError]: the
    enclosing computation returns [None].  A division of arrays raises
    nothing: a zero divisor leaves [inf] in the result.  The model has no
    [inf] and no [nan], and a computation also returns [None] when its
    numbers leave the rationals.  In [relax2d] and [relax3d], which divide
    the interior block of [b] before a loop that sweeps over that block, this
    is so as soon as the block holds a zero.  In [relax], which divides the
    whole of [b], the result of the division records where the [inf] are,
    and [None] is returned only when a sweep reads one of them.

    Arrays.  A numpy array of rank 1, 2 or 3 is a list, a list of rows, a
    list of planes.  The numba kernels run without bounds checks, so inside
    them a read outside the array yields [0] and a write outside the array
    does nothing; under the shape hypotheses of the theorems no such access
    happens.  Python-level element writes ([set_sources]) are checked and
    fault with [None]. *)

From Stdlib Require Import QArith Qcanon Qcabs ZArith Lia Lqa String.
From stdpp Require Import base list option sorting strings gmap.

Local Open Scope Qc_scope.

(* ================================================================== *)
(** * Numbers *)

(** [qc n d] is the rational [n/d]. *)
Definition qc (n : Z) (d : positive) : Qc := Q2Qc (n # d).

(** An integer as a number. *)
Definition of_int (z : Z) : Qc := Q2Qc (inject_Z z).

(** Scalar division as Python performs it: a zero divisor is an error. *)
Definition fdiv (x y : Qc) : option Qc :=
  if decide (y = 0) then None else Some (x / y).

(** [1.0 / x] inside a division of arrays: a zero divisor raises nothing and
    gives [inf], for which [None] stands here. *)
Definition recip (x : Qc) : option Qc :=
  if decide (x = 0) then None else Some (1 / x).

(** [x > y] on numbers. *)
Definition gtb (x y : Qc) : bool :=
  match x ?= y with Gt => true | _ => false end.

(** [abs] and [max] of Python. *)
Definition fabs (x : Qc) : Qc := Qcabs x.
Definition fmax (x y : Qc) : Qc := if gtb y x then y else x.

(* ================================================================== *)
(** * Loops *)

(** [for i in idxs: s = body(s, i)] where the body may fault. *)
Fixpoint for_each {St : Type} (body : St → nat → option St) (idxs : list nat)
    (s : St) : option St :=
  match idxs with
  | [] => Some s
  | i :: rest => s' ← body s i; for_each body rest s'
  end.

(** [while cond(s): s = body(s)], run with a bound on the number of
    iterations; [None] when the bound is reached with [cond] still true. *)
Fixpoint while_loop {St : Type} (cond : St → bool) (body : St → St) (fuel : nat)
    (s : St) : option St :=
  if cond s then
    match fuel with
    | O => None
    | S k => while_loop cond body k (body s)
    end
  else Some s.

(** The same loop for a body that may fault. *)
Fixpoint while_loopM {St : Type} (cond : St → bool) (body : St → option St)
    (fuel : nat) (s : St) : option St :=
  if cond s then
    match fuel with
    | O => None
    | S k => s' ← body s; while_loopM cond body k s'
    end
  else Some s.

(** Python's [range(lo, hi)]. *)
Definition range (lo hi : nat) : list nat := seq lo (hi - lo).

(** [map] with the position, counting from [i], for a function that may
    fault. *)
Fixpoint mapM_from {A B : Type} (f : nat → A → option B) (i : nat)
    (l : list A) : option (list B) :=
  match l with
  | [] => Some []
  | x :: l' => y ← f i x; ys ← mapM_from f (S i) l'; Some (y :: ys)
  end.

(** Position [i] lies in the slice [1:-1] of an axis of length [len]. *)
Definition inner (len i : nat) : bool :=
  (1 <=? i)%nat && (i + 1 <? len)%nat.

(* ================================================================== *)
(** * Arrays of rank 2 and 3 *)

Abbreviation grid2 := (list (list Qc)).
Abbreviation grid3 := (list (list (list Qc))).

Definition get2 (U : grid2) (i j : nat) : Qc :=
  default 0 (r ← U !! i; r !! j).

Definition set2 (U : grid2) (i j : nat) (v : Qc) : grid2 :=
  alter (λ r, <[j := v]> r) i U.

Definition get3 (U : grid3) (i j k : nat) : Qc :=
  default 0 (p ← U !! i; r ← p !! j; r !! k).

Definition set3 (U : grid3) (i j k : nat) (v : Qc) : grid3 :=
  alter (λ p, alter (λ r, <[k := v]> r) j p) i U.

(** The array has shape [n × m] (resp. [nx × ny × nz]). *)
Definition shape2 (n m : nat) (U : grid2) : Prop :=
  length U = n ∧ Forall (λ r, length r = m) U.

Definition shape3 (nx ny nz : nat) (U : grid3) : Prop :=
  length U = nx ∧ Forall (shape2 ny nz) U.

(** [np.zeros((n, m))] and the array whose entry [(i, j)] is [f i j]. *)
Definition zeros2 (n m : nat) : grid2 := replicate n (replicate m 0).

Definition grid_init (n m : nat) (f : nat → nat → Qc) : grid2 :=
  (λ i, (λ j, f i j) <$> seq 0 m) <$> seq 0 n.

(** Interior nodes in the order the nested loops visit them. *)
Definition interior2 (n m : nat) : list (nat * nat) :=
  i ← range 1 (n - 1); (λ j, (i, j)) <$> range 1 (m - 1).

Definition interior3 (nx ny nz : nat) : list (nat * (nat * nat)) :=
  i ← range 1 (nx - 1); (λ jk, (i, jk)) <$> interior2 ny nz.

(** A node on the boundary ring: some index is [0] or the last one. *)
Definition boundary2 (n m i j : nat) : Prop :=
  i = 0%nat ∨ i = (n - 1)%nat ∨ j = 0%nat ∨ j = (m - 1)%nat.

Definition boundary3 (nx ny nz i j k : nat) : Prop :=
  i = 0%nat ∨ i = (nx - 1)%nat ∨ j = 0%nat ∨ j = (ny - 1)%nat
  ∨ k = 0%nat ∨ k = (nz - 1)%nat.

(** [inv_b = np.zeros_like(b); inv_b[1:-1, 1:-1] = 1.0 / b[1:-1, 1:-1]]:
    only the interior block of [b] is divided. *)
Definition invert_interior2 (b : grid2) : option grid2 :=
  mapM_from (λ i r,
    mapM_from (λ j x,
      if inner (length b) i && inner (length r) j then fdiv 1 x else Some 0)
      0 r) 0 b.

Definition invert_interior3 (b : grid3) : option grid3 :=
  mapM_from (λ i p,
    mapM_from (λ j r,
      mapM_from (λ k x,
        if inner (length b) i && inner (length p) j && inner (length r) k
        then fdiv 1 x else Some 0)
        0 r) 0 p) 0 b.

(** A plane inverted under a guard [g] on its nodes. *)
Definition invert_plane (g : nat → nat → bool) (p : grid2) : option grid2 :=
  mapM_from (λ j r, mapM_from (λ k x, if g j k then fdiv 1 x else Some 0) 0 r)
    0 p.

(** The ring of the grid is zero in [U]. *)
Definition ring_zero (n m : nat) (U : grid2) : Prop :=
  ∀ i j, boundary2 n m i j → get2 U i j = 0.

(** An array of rank 2 whose entries are rationals or [inf]. *)
Abbreviation xgrid2 := (list (list (option Qc))).

(** [inv_b = 1.0 / b]: every entry of [b] is divided, the ring included;
    nothing is raised, and [inv_b] holds [inf] where [b] holds [0]. *)
Definition invert_all2 (b : grid2) : xgrid2 :=
  (λ r : list Qc, recip <$> r) <$> b.

Definition xget2 (inv : xgrid2) (i j : nat) : option (option Qc) :=
  r ← inv !! i; r !! j.

(** What a sweep over the interior of the [n × m] grid reads of such an
    array: the entries [inv_b[i, j]] with [1 <= i < n - 1] and
    [1 <= j < m - 1].  If one of them is [inf], the sweep produces [inf] or
    [nan]: [None].  The other entries are read by no sweep; the array handed
    to the sweep keeps their value, with [0] in the place of [inf]. *)
Definition read_interior2 (n m : nat) (inv : xgrid2) : option grid2 :=
  mapM_from (λ i r,
    mapM_from (λ j x,
      if inner n i && inner m j then x else Some (default 0 x))
      0 r) 0 inv.

(* ================================================================== *)
(** * [lab1-pde-modeling/solver.py]: [relax2d] *)

(** State of the relaxation loop: the field [U], the snapshot [U_old], the
    error [err] and the sweep counter [it]. *)
Record sor2 : Type := Sor2 {
  s2_U : grid2;
  s2_old : grid2;
  s2_err : Qc;
  s2_it : Z
}.

(** The Gauss-Seidel value [t] at node [(i, j)] of the field [U]. *)
Definition stencil2 (ax ay cx cy d_rhs inv_b U : grid2) (i j : nat) : Qc :=
  (get2 ax i j * get2 U (i - 1) j + get2 cx i j * get2 U (i + 1) j +
   get2 ay i j * get2 U i (j - 1) + get2 cy i j * get2 U i (j + 1) -
   get2 d_rhs i j) * get2 inv_b i j.

(** [for i in range(n): for j in range(m): U_old[i, j] = U[i, j]] *)
Definition snapshot2 (n m : nat) (U U_old : grid2) : grid2 :=
  foldl (λ O i, foldl (λ O j, set2 O i j (get2 U i j)) O (range 0 m))
    U_old (range 0 n).

(** The error loop: the largest [abs(U[i, j] - U_old[i, j])] met on the
    interior, starting from [0.0]. *)
Definition max_diff2 (n m : nat) (U U_old : grid2) : Qc :=
  foldl (λ err i,
    foldl (λ err j,
      let diff := fabs (get2 U i j - get2 U_old i j) in
      if gtb diff err then diff else err)
      err (range 1 (m - 1)))
    0 (range 1 (n - 1)).

Section Relax2d.
Variables (ax ay cx cy b d_rhs : grid2) (n m : nat) (U_initial : grid2).
Variables (omega eps : Qc) (max_iter : Z).

(** The update loop over the interior, for a given [inv_b]. *)
Definition relax2d_sweep (inv_b U : grid2) : grid2 :=
  foldl (λ U i,
    foldl (λ U j,
      let t := stencil2 ax ay cx cy d_rhs inv_b U i j in
      set2 U i j (t * omega + get2 U i j * (1 - omega)))
      U (range 1 (m - 1)))
    U (range 1 (n - 1)).

(** [while err > eps and it < max_iter or it < 100] *)
Definition relax2d_cond (s : sor2) : bool :=
  (gtb (s2_err s) eps && (s2_it s <? max_iter)%Z) || (s2_it s <? 100)%Z.

(** One pass through the body of the [while] loop. *)
Definition relax2d_body (inv_b : grid2) (s : sor2) : sor2 :=
  let it := (s2_it s + 1)%Z in
  let U_old := snapshot2 n m (s2_U s) (s2_old s) in
  let U := relax2d_sweep inv_b (s2_U s) in
  let err := max_diff2 n m U U_old in
  Sor2 U U_old err it.

Definition relax2d_init : sor2 := Sor2 U_initial U_initial 1 0.

(** The final state of the loop, [fuel] bounding the number of sweeps. *)
Definition relax2d_run (fuel : nat) : option sor2 :=
  inv_b ← invert_interior2 b;
  while_loop relax2d_cond (relax2d_body inv_b) fuel relax2d_init.

(** [relax2d] returns the field [U]. *)
Definition relax2d (fuel : nat) : option grid2 :=
  s2_U <$> relax2d_run fuel.
End Relax2d.

(* ================================================================== *)
(** * [lab2-standing-waves/src/solver.py]: [relax] *)

(** State of the loop of [relax]: no snapshot is kept. *)
Record sor : Type := Sor {
  s_U : grid2;
  s_err : Qc;
  s_it : Z
}.

Section Relax.
Variables (ax ay cx cy b d_rhs : grid2) (n m : nat) (U_initial : grid2).
Variables (alfa eps : Qc) (max_iter : Z).

(** The two nested loops: the field and the running error are updated
    node by node. *)
Definition relax_sweep (inv_b : grid2) (U : grid2) : grid2 * Qc :=
  foldl (λ s i,
    foldl (λ s j,
      let '(U, err) := s in
      let t := stencil2 ax ay cx cy d_rhs inv_b U i j in
      let deviation := fabs (get2 U i j - t) in
      let err := fmax err deviation in
      (set2 U i j (t * alfa + get2 U i j * (1 - alfa)), err))
      s (range 1 (m - 1)))
    (U, 0) (range 1 (n - 1)).

(** [while err > eps and it < max_iter] *)
Definition relax_cond (s : sor) : bool :=
  gtb (s_err s) eps && (s_it s <? max_iter)%Z.

Definition relax_body (inv_b : grid2) (s : sor) : sor :=
  let it := (s_it s + 1)%Z in
  let '(U, err) := relax_sweep inv_b (s_U s) in
  Sor U err it.

Definition relax_init : sor := Sor U_initial 1 0.

(** One pass through the body of the [while] loop, on the array [inv] that
    the division has left: the sweep reads its interior entries. *)
Definition relax_pass (inv : xgrid2) (s : sor) : option sor :=
  inv_b ← read_interior2 n m inv; Some (relax_body inv_b s).

(** [inv_b = 1.0 / b] is computed before the loop and is read only inside
    it: when the loop is not entered, the initial guess is returned. *)
Definition relax_run (fuel : nat) : option sor :=
  let inv := invert_all2 b in
  while_loopM relax_cond (relax_pass inv) fuel relax_init.

Definition relax (fuel : nat) : option grid2 :=
  s_U <$> relax_run fuel.
End Relax.

(* ================================================================== *)
(** * [lab1-pde-modeling/solver.py]: [relax3d] *)

Record sor3 : Type := Sor3 {
  s3_U : grid3;
  s3_old : grid3;
  s3_err : Qc;
  s3_it : Z
}.

Definition stencil3 (ax ay az cx cy cz d_rhs inv_b U : grid3)
    (i j k : nat) : Qc :=
  (get3 ax i j k * get3 U (i - 1) j k + get3 cx i j k * get3 U (i + 1) j k
   + get3 ay i j k * get3 U i (j - 1) k + get3 cy i j k * get3 U i (j + 1) k
   + get3 az i j k * get3 U i j (k - 1) + get3 cz i j k * get3 U i j (k + 1)
   - get3 d_rhs i j k) * get3 inv_b i j k.

Definition snapshot3 (nx ny nz : nat) (U U_old : grid3) : grid3 :=
  foldl (λ O i,
    foldl (λ O j,
      foldl (λ O k, set3 O i j k (get3 U i j k)) O (range 0 nz))
      O (range 0 ny))
    U_old (range 0 nx).

Definition max_diff3 (nx ny nz : nat) (U U_old : grid3) : Qc :=
  foldl (λ err i,
    foldl (λ err j,
      foldl (λ err k,
        let diff := fabs (get3 U i j k - get3 U_old i j k) in
        if gtb diff err then diff else err)
        err (range 1 (nz - 1)))
      err (range 1 (ny - 1)))
    0 (range 1 (nx - 1)).

Section Relax3d.
Variables (ax ay az cx cy cz b d_rhs : grid3) (nx ny nz : nat).
Variables (U_initial : grid3) (omega eps : Qc) (max_iter min_iter : Z).

Definition relax3d_sweep (inv_b U : grid3) : grid3 :=
  foldl (λ U i,
    foldl (λ U j,
      foldl (λ U k,
        let t := stencil3 ax ay az cx cy cz d_rhs inv_b U i j k in
        set3 U i j k (omega * t + (1 - omega) * get3 U i j k))
        U (range 1 (nz - 1)))
      U (range 1 (ny - 1)))
    U (range 1 (nx - 1)).

(** [while ((err > eps and it < max_iter) or it < min_iter)] *)
Definition relax3d_cond (s : sor3) : bool :=
  (gtb (s3_err s) eps && (s3_it s <? max_iter)%Z) || (s3_it s <? min_iter)%Z.

Definition relax3d_body (inv_b : grid3) (s : sor3) : sor3 :=
  let it := (s3_it s + 1)%Z in
  let U_old := snapshot3 nx ny nz (s3_U s) (s3_old s) in
  let U := relax3d_sweep inv_b (s3_U s) in
  let err := max_diff3 nx ny nz U U_old in
  Sor3 U U_old err it.

Definition relax3d_init : sor3 := Sor3 U_initial U_initial 1 0.

Definition relax3d_run (fuel : nat) : option sor3 :=
  inv_b ← invert_interior3 b;
  while_loop relax3d_cond (relax3d_body inv_b) fuel relax3d_init.

Definition relax3d (fuel : nat) : option grid3 :=
  s3_U <$> relax3d_run fuel.
End Relax3d.


(* ================================================================== *)
(** * [lab1-pde-modeling/solver.py]: [thomas]

    [thomas] writes into the arrays it is given, so the arrays live in a
    store and the function receives their addresses; two arguments may be
    the same array. *)

Abbreviation loc := positive.
Abbreviation heap := (gmap loc (list Qc)).

(** [p[i]] *)
Definition load (h : heap) (p : loc) (i : nat) : option Qc :=
  l ← h !! p; l !! i.

(** [p[-1]] *)
Definition load_last (h : heap) (p : loc) : option Qc :=
  l ← h !! p; last l.

(** [p[i] = v] *)
Definition store (h : heap) (p : loc) (i : nat) (v : Qc) : option heap :=
  l ← h !! p;
  if decide (i < length l)%nat then Some (<[p := <[i := v]> l]> h) else None.

(** A new array, at an address not in use. *)
Definition alloc (h : heap) (l : list Qc) : heap * loc :=
  let p := fresh (dom h) in (<[p := l]> h, p).

(** [len(p)] *)
Definition array_len (h : heap) (p : loc) : option nat :=
  length <$> h !! p.

(** Body of the forward sweep:
    [w = a[i] / b[i - 1]; b[i] = b[i] - w * c[i - 1];
     d[i] = d[i] - w * d[i - 1]]. *)
Definition forward_step (a b c d : loc) (h : heap) (i : nat) : option heap :=
  ai ← load h a i; bp ← load h b (i - 1); w ← fdiv ai bp;
  bi ← load h b i; cp ← load h c (i - 1);
  h1 ← store h b i (bi - w * cp);
  di ← load h1 d i; dp ← load h1 d (i - 1);
  store h1 d i (di - w * dp).

(** Body of the back substitution:
    [y[i] = (d[i] - c[i] * y[i + 1]) / b[i]]. *)
Definition back_step (b c d y : loc) (h : heap) (i : nat) : option heap :=
  di ← load h d i; ci ← load h c i; yn ← load h y (i + 1); bi ← load h b i;
  v ← fdiv (di - ci * yn) bi;
  store h y i v.

(** [thomas(a, b, c, d)]: the store after the call and the address of the
    returned array [y]. *)
Definition thomas (a b c d : loc) (h : heap) : option (heap * loc) :=
  n ← array_len h b;
  h1 ← for_each (forward_step a b c d) (range 1 n) h;
  let '(h2, y) := alloc h1 (replicate n 0) in
  dl ← load_last h2 d; bl ← load_last h2 b;
  v ← fdiv dl bl;
  h3 ← store h2 y (n - 1) v;
  h4 ← for_each (back_step b c d y) (rev (range 0 (n - 1))) h3;
  Some (h4, y).

(** Entry [i] of an array, [0] outside it. *)
Definition at0 (l : list Qc) (i : nat) : Qc := default 0 (l !! i).

(** The diagonal and the right-hand side after forward elimination, and the
    result of back substitution, computed on values (with [x / 0 = 0]):
    [pivot_at a b c i] is what the forward sweep leaves in [b[i]],
    [rhs_at a b c d i] what it leaves in [d[i]], and [sol_back n a b c d k]
    what back substitution puts in [y[n - 1 - k]]. *)
Fixpoint pivot_at (a b c : list Qc) (i : nat) : Qc :=
  match i with
  | O => at0 b 0
  | S j => at0 b (S j) - at0 a (S j) / pivot_at a b c j * at0 c j
  end.

Fixpoint rhs_at (a b c d : list Qc) (i : nat) : Qc :=
  match i with
  | O => at0 d 0
  | S j => at0 d (S j) - at0 a (S j) / pivot_at a b c j * rhs_at a b c d j
  end.

Fixpoint sol_back (n : nat) (a b c d : list Qc) (k : nat) : Qc :=
  match k with
  | O => rhs_at a b c d (n - 1) / pivot_at a b c (n - 1)
  | S k' =>
      (rhs_at a b c d (n - 2 - k')
       - at0 c (n - 2 - k') * sol_back n a b c d k')
      / pivot_at a b c (n - 2 - k')
  end.

Definition pivots (a b c : list Qc) : list Qc :=
  pivot_at a b c <$> seq 0 (length b).

Definition elim_rhs (a b c d : list Qc) : list Qc :=
  rhs_at a b c d <$> seq 0 (length b).

Definition solution (a b c d : list Qc) : list Qc :=
  (λ i, sol_back (length b) a b c d (length b - 1 - i)) <$> seq 0 (length b).

(** The first [k] entries of [new] followed by the entries of [old] from
    [k] on: an array half-way through a loop that overwrites it in
    place. *)
Definition splice (k : nat) (new old : list Qc) : list Qc :=
  take k new ++ drop k old.

(** The store [h] with the arrays at [b] and [d] replaced. *)
Definition canon (h : heap) (b d : loc) (lb ld : list Qc) : heap :=
  <[d := ld]> (<[b := lb]> h).

(** Strict diagonal dominance by rows. *)
Definition diag_dominant (a b c : list Qc) : Prop :=
  ∀ i, (i < length b)%nat → fabs (at0 a i) + fabs (at0 c i) < fabs (at0 b i).

(** Row [i] of the tridiagonal system applied to [y]: the terms whose
    neighbour is out of range are absent. *)
Definition tri_row (a b c y : list Qc) (i : nat) : Qc :=
  (if decide (i = 0)%nat then 0 else at0 a i * at0 y (i - 1))
  + at0 b i * at0 y i
  + (if decide (S i < length y)%nat then at0 c i * at0 y (S i) else 0).


(* ================================================================== *)
(** * [lab1-standing-waves/src/config.py]: [get_config] *)

Local Open Scope string_scope.

(** The configuration dictionary, one field per key. *)
Record config : Type := Config {
  cfg_nx : nat;
  cfg_ny : nat;
  cfg_Lx : Qc;
  cfg_Ly : Qc;
  cfg_amplitude : Qc;
  cfg_frequency_k : Qc;
  cfg_dt : Qc;
  cfg_max_steps : nat;
  cfg_relax_alfa : Qc;
  cfg_relax_eps : Qc;
  cfg_relax_max_iter : Z;
  cfg_experiment_type : string;
  cfg_light_k : Z;
  cfg_ds : Z;
  cfg_boundary_condition : string
}.

(** [get_config(experiment_type)]; [None] stands for the [ValueError]. *)
Definition get_config (experiment_type : string) : option config :=
  let base := Config 101 101 1 1 (qc 2 10000) (of_int 4) (qc 1 100) 500
                (qc 18 10) (qc 1 10000000000000) 5000%Z experiment_type
                2%Z 4%Z in
  if decide (experiment_type = "FREE_CENTER"
             ∨ experiment_type = "FREE_TWO_GENERATORS")
  then Some (base "neumann")
  else if decide (experiment_type = "CLAMPED_CENTER")
  then Some (base "dirichlet")
  else None.

(* ================================================================== *)
(** * [lab1-standing-waves/src/simulation.py] *)

(** Slice assignments of numpy.  [col_update f j U] is
    [U[:, j] = f(row, old)], [row_update f i U] is [U[i, :] = f(col, old)].
    They are used below at the indices [0], [1], [nx - 2], [nx - 1] (and
    likewise for [ny]) of arrays of shape [nx × ny] with [nx, ny >= 2],
    where numpy raises no index error. *)
Definition col_update (f : nat → Qc → Qc) (j : nat) (U : grid2) : grid2 :=
  imap (λ i r, alter (f i) j r) U.

Definition row_update (f : nat → Qc → Qc) (i : nat) (U : grid2) : grid2 :=
  alter (imap f) i U.

(** The six arrays handed to the solver; the helpers below write into
    them. *)
Record coeffs : Type := Coeffs {
  c_ax : grid2;
  c_ay : grid2;
  c_cx : grid2;
  c_cy : grid2;
  c_b : grid2;
  c_d_rhs : grid2
}.

(** [apply_neumann_coeff_mods(b, ax, ay, cx, cy, nx, ny)] *)
Definition apply_neumann_coeff_mods (q : coeffs) (nx ny : nat) : coeffs :=
  let '(Coeffs ax ay cx cy b d_rhs) := q in
  let b := col_update (λ i x, x - get2 ay i 1) 1 b in
  let ay := col_update (λ _ _, 0) 1 ay in
  let b := col_update (λ i x, x - get2 cy i (ny - 2)) (ny - 2) b in
  let cy := col_update (λ _ _, 0) (ny - 2) cy in
  let b := row_update (λ j x, x - get2 ax 1 j) 1 b in
  let ax := row_update (λ _ _, 0) 1 ax in
  let b := row_update (λ j x, x - get2 cx (nx - 2) j) (nx - 2) b in
  let cx := row_update (λ _ _, 0) (nx - 2) cx in
  Coeffs ax ay cx cy b d_rhs.

(** [copy_neumann_boundaries(U, nx, ny)] *)
Definition copy_neumann_boundaries (U : grid2) (nx ny : nat) : grid2 :=
  let half := qc 1 2 in
  let U := col_update (λ i _, get2 U i 1) 0 U in
  let U := col_update (λ i _, get2 U i (ny - 2)) (ny - 1) U in
  let U := row_update (λ j _, get2 U 1 j) 0 U in
  let U := row_update (λ j _, get2 U (nx - 2) j) (nx - 1) U in
  let U := set2 U 0 0 (half * (get2 U 1 0 + get2 U 0 1)) in
  let U := set2 U (nx - 1) (ny - 1)
             (half * (get2 U (nx - 2) (ny - 1) + get2 U (nx - 1) (ny - 2))) in
  let U := set2 U 0 (ny - 1)
             (half * (get2 U 0 (ny - 2) + get2 U 1 (ny - 1))) in
  set2 U (nx - 1) 0 (half * (get2 U (nx - 1) 1 + get2 U (nx - 2) 0)).

(** A checked element write: [U[i, j] = v] raises [IndexError] outside the
    array. *)
Definition set2_chk (U : grid2) (i j : nat) (v : Qc) : option grid2 :=
  r ← U !! i;
  if decide (j < length r)%nat then Some (set2 U i j v) else None.

(** The row of node [(i, j)] becomes the isolated equation
    [b = 1], neighbour coefficients [0], right-hand side [v]. *)
Definition set_source_row (q : coeffs) (i j : nat) (v : Qc) : option coeffs :=
  let '(Coeffs ax ay cx cy b d_rhs) := q in
  ax ← set2_chk ax i j 0; ay ← set2_chk ay i j 0;
  cx ← set2_chk cx i j 0; cy ← set2_chk cy i j 0;
  b ← set2_chk b i j 1;
  d_rhs ← set2_chk d_rhs i j v;
  Some (Coeffs ax ay cx cy b d_rhs).

Section Simulation.
(** [np.pi] and [np.sin] are taken as given. *)
Variables (np_pi : Qc) (np_sin : Qc → Qc).

(** [AA * np.sin(np.pi * KK * k * dt)] *)
Definition source_value (k : nat) (cfg : config) : Qc :=
  cfg_amplitude cfg
  * np_sin (np_pi * cfg_frequency_k cfg * of_int (Z.of_nat k) * cfg_dt cfg).

(** [set_sources(k, ax, ay, cx, cy, b, d_rhs, config)] *)
Definition set_sources (k : nat) (q : coeffs) (cfg : config) : option coeffs :=
  let nx := cfg_nx cfg in
  let ny := cfg_ny cfg in
  let experiment_type := cfg_experiment_type cfg in
  let v := source_value k cfg in
  if decide (experiment_type = "FREE_CENTER"
             ∨ experiment_type = "CLAMPED_CENTER")
  then set_source_row q (nx `div` 2) (ny `div` 2) v
  else if decide (experiment_type = "FREE_TWO_GENERATORS")
  then q ← set_source_row q 1 (ny `div` 2) v;
       set_source_row q (nx - 2) (ny `div` 2) v
  else Some q.

(** The time layers and the history stack. *)
Record sim_state : Type := SimState {
  sim_U0 : grid2;
  sim_U1 : grid2;
  sim_U_stack : list grid2
}.

(** The right-hand side of step [k]: zero on the ring, the discretised
    wave operator on the interior.  [dt ** 2], [hx ** 2] and [hy ** 2] are
    nonzero here: the base coefficients were obtained by dividing by
    them. *)
Definition assemble_rhs (nx ny : nat) (dt hx hy : Qc) (U0 U1 : grid2) : grid2 :=
  grid_init nx ny (λ i j,
    if inner nx i && inner ny j then
      (- of_int 2 * get2 U1 i j + get2 U0 i j) / (dt * dt)
      - qc 1 2 * ((get2 U0 (i - 1) j - of_int 2 * get2 U0 i j
                   + get2 U0 (i + 1) j) / (hx * hx)
                  + (get2 U0 i (j - 1) - of_int 2 * get2 U0 i j
                     + get2 U0 i (j + 1)) / (hy * hy))
    else 0).

(** [U[0, :], U[-1, :], U[:, 0], U[:, -1] = 0.0, 0.0, 0.0, 0.0] *)
Definition zero_ring (U : grid2) : grid2 :=
  let U := row_update (λ _ _, 0) 0 U in
  let U := row_update (λ _ _, 0) (length U - 1) U in
  let U := col_update (λ _ _, 0) 0 U in
  imap (λ _ r, <[(length r - 1)%nat := 0]> r) U.

(** One pass through the body of the time loop, for step [k]. *)
Definition sim_step (cfg : config) (hx hy : Qc) (ax0 ay0 cx0 cy0 b0 : grid2)
    (s : sim_state) (k : nat) : option sim_state :=
  let nx := cfg_nx cfg in
  let ny := cfg_ny cfg in
  let dt := cfg_dt cfg in
  let d_rhs := assemble_rhs nx ny dt hx hy (sim_U0 s) (sim_U1 s) in
  q ← set_sources k (Coeffs ax0 ay0 cx0 cy0 b0 d_rhs) cfg;
  let q := if decide (cfg_boundary_condition cfg = "neumann")
           then apply_neumann_coeff_mods q nx ny else q in
  U ← relax (c_ax q) (c_ay q) (c_cx q) (c_cy q) (c_b q) (c_d_rhs q) nx ny
        (sim_U1 s) (cfg_relax_alfa cfg) (cfg_relax_eps cfg)
        (cfg_relax_max_iter cfg) (Z.to_nat (cfg_relax_max_iter cfg));
  let U := if decide (cfg_boundary_condition cfg = "neumann")
           then copy_neumann_boundaries U nx ny
           else if decide (cfg_boundary_condition cfg = "dirichlet")
           then zero_ring U else U in
  Some (SimState (sim_U1 s) U (<[(k - 1)%nat := U]> (sim_U_stack s))).

(** [np.linspace(0.0, L, n)] *)
Definition linspace (L : Qc) (n : nat) : list Qc :=
  (λ i, of_int (Z.of_nat i) * (L / of_int (Z.of_nat n - 1))) <$> seq 0 n.

(** What [run_simulation] returns. *)
Record sim_result : Type := SimResult {
  res_U_stack : list grid2;
  res_x : list Qc;
  res_y : list Qc;
  res_config : config
}.

(** [run_simulation(config)].  The history stack is the list of its
    [max_steps] frames, frame [k - 1] being [U_stack[:, :, k - 1]]. *)
Definition run_simulation (cfg : config) : option sim_result :=
  let nx := cfg_nx cfg in
  let ny := cfg_ny cfg in
  let dt := cfg_dt cfg in
  hx ← fdiv (cfg_Lx cfg) (of_int (Z.of_nat nx - 1));
  hy ← fdiv (cfg_Ly cfg) (of_int (Z.of_nat ny - 1));
  let U0 := zeros2 nx ny in
  let dU := zeros2 nx ny in
  let U1 := grid_init nx ny (λ i j,
              if inner nx i && inner ny j
              then get2 U0 i j + dt * get2 dU i j else 0) in
  ex ← fdiv (qc 1 2) (hx * hx);
  ey ← fdiv (qc 1 2) (hy * hy);
  et ← fdiv 1 (dt * dt);
  let ax0 := grid_init nx ny (λ _ _, ex * 1) in
  let ay0 := grid_init nx ny (λ _ _, ey * 1) in
  let b0 := grid_init nx ny (λ _ _, ex * 1 + ex * 1 + ey * 1 + ey * 1 + et) in
  let U_stack := replicate (cfg_max_steps cfg) (zeros2 nx ny) in
  s ← for_each (sim_step cfg hx hy ax0 ay0 ax0 ay0 b0)
        (range 1 (cfg_max_steps cfg + 1)) (SimState U0 U1 U_stack);
  Some (SimResult (sim_U_stack s) (linspace (cfg_Lx cfg) nx)
          (linspace (cfg_Ly cfg) ny) cfg).
End Simulation.

Local Close Scope string_scope.

(* ================================================================== *)
(** * [lab2-standing-waves/src/visualization.py]

    The two functions prepare arrays and hand them to matplotlib.  The
    model keeps the preparation: what each function computes from the
    result of [run_simulation] before it draws.  The history stack
    [U_stack], of shape [(nx, ny, steps)], is the list of its frames, as in
    [run_simulation]: a slice along the last axis is a slice of the list, a
    slice along the first two axes is a slice of the rows and of the
    columns of every frame. *)

(** [l[::k]] for [k >= 1]: the entries at the positions [0], [k], [2k],
    ... *)
Definition stride {A : Type} (k : nat) (l : list A) : list A :=
  omap (λ i, l !! (i * k)%nat) (seq 0 (length l)).

(** [l[::k]] for an integer [k]: a zero step is a [ValueError], a negative
    step walks from the last entry backwards. *)
Definition slice_step {A : Type} (k : Z) (l : list A) : option (list A) :=
  if decide (k = 0)%Z then None
  else if decide (0 < k)%Z then Some (stride (Z.to_nat k) l)
  else Some (stride (Z.to_nat (- k)) (rev l)).

(** [np.transpose] of an array of rank 2 with at least one row. *)
Definition transpose2 (U : grid2) : grid2 :=
  grid_init (length (default [] (head U))) (length U) (λ j i, get2 U i j).

(** [a.min()] and [a.max()] over the entries of an array; [None] stands
    for the [ValueError] raised on an array without entries. *)
Definition np_min (l : list Qc) : option Qc :=
  match l with
  | [] => None
  | x :: l' => Some (foldl (λ m y, if gtb m y then y else m) x l')
  end.

Definition np_max (l : list Qc) : option Qc :=
  match l with
  | [] => None
  | x :: l' => Some (foldl (λ m y, if gtb y m then y else m) x l')
  end.

(** The entries of a stack of arrays of rank 2. *)
Definition entries (frames : list grid2) : list Qc := mjoin (mjoin frames).

(** [np.meshgrid(a, b)]: two arrays of shape [(len(b), len(a))], the first
    repeating [a] along its rows, the second [b] along its columns. *)
Definition meshgrid (a b : list Qc) : grid2 * grid2 :=
  (replicate (length b) a, (λ y, replicate (length a) y) <$> b).

(** What [create_2d_animation] draws: the frames, the colour limits, the
    number of frames, the delay between frames in milliseconds, and the
    step number written on frame [i]. *)
Record anim2d : Type := Anim2d {
  a2_frames : list grid2;
  a2_vmin : Qc;
  a2_vmax : Qc;
  a2_count : nat;
  a2_interval : Qc;
  a2_label : nat → Z
}.

(** [create_2d_animation(simulation_results, output_filename, light_k)] *)
Definition create_2d_animation (simulation_results : sim_result)
    (light_k : Z) : option anim2d :=
  let U_stack := res_U_stack simulation_results in
  U_stack_light ← slice_step light_k U_stack;
  let frames := transpose2 <$> U_stack_light in
  vmin ← np_min (entries frames);
  vmax ← np_max (entries frames);
  let interval := of_int 1000 * of_int light_k / of_int 30 in
  Some (Anim2d frames vmin vmax (length frames) interval
          (λ i, (Z.of_nat i * light_k)%Z)).

(** What [create_3d_animation] draws: the coordinate arrays [X], [Y], the
    surfaces [U_stack_light[:, :, i]], the limits, the number of frames,
    the delay and the step number in the title of frame [i]. *)
Record anim3d : Type := Anim3d {
  a3_X : grid2;
  a3_Y : grid2;
  a3_Z : list grid2;
  a3_vmin : Qc;
  a3_vmax : Qc;
  a3_count : nat;
  a3_interval : Qc;
  a3_label : nat → Z
}.

(** [create_3d_animation(simulation_results, output_filename, light_k, ds)] *)
Definition create_3d_animation (simulation_results : sim_result)
    (light_k ds : Z) : option anim3d :=
  let U_stack := res_U_stack simulation_results in
  let x := res_x simulation_results in
  let y := res_y simulation_results in
  frames ← slice_step light_k U_stack;
  U_stack_light ← mapM (λ F, rows ← slice_step ds F;
                             mapM (slice_step ds) rows) frames;
  ys ← slice_step ds y;
  xs ← slice_step ds x;
  let '(X, Y) := meshgrid ys xs in
  vmin ← np_min (entries U_stack_light);
  vmax ← np_max (entries U_stack_light);
  let interval := of_int 1000 * of_int light_k / of_int 30 in
  Some (Anim3d X Y U_stack_light vmin vmax (length U_stack_light) interval
          (λ i, (Z.of_nat i * light_k)%Z)).

(* ================================================================== *)
(** * [lab2-standing-waves/main.py] *)

(** The values the command line accepts for [--experiment_type]: the
    [choices] of the argument parser. *)
Definition experiment_choices : list string :=
  ["FREE_CENTER"; "CLAMPED_CENTER"; "FREE_TWO_GENERATORS"]%string.

(** [main()], for the values of [--experiment_type] and [--output_dir]
    given on the command line.  The parser rejects an experiment type
    outside [choices]; then come the output directory, the configuration,
    the run and the two animations.  The file system, matplotlib and ffmpeg
    are outside the model and each of their steps may raise:
    [os_makedirs] stands for [os.makedirs(output_dir, exist_ok=True)],
    [os_path_join] for [os.path.join], and [save_2d], [save_3d] for what
    [create_2d_animation] and [create_3d_animation] do with the arrays
    they have prepared: the figure, [FuncAnimation], [ani.save] with the
    ffmpeg writer and [plt.close].  The messages printed are left out. *)
Section Main.
Variables (np_pi : Qc) (np_sin : Qc → Qc).
Variable os_makedirs : string → option unit.
Variable os_path_join : string → string → string.
Variable save_2d : string → anim2d → option unit.
Variable save_3d : string → anim3d → option unit.

Definition main (experiment_type output_dir : string) : option unit :=
  if decide (experiment_type ∈ experiment_choices) then
    _ ← os_makedirs output_dir;
    config ← get_config experiment_type;
    results ← run_simulation np_pi np_sin config;
    let base_filename := ("membrane_" +:+ experiment_type)%string in
    let output_2d := os_path_join output_dir (base_filename +:+ "_2d.mp4") in
    a2 ← create_2d_animation results (cfg_light_k config);
    _ ← save_2d output_2d a2;
    let output_3d := os_path_join output_dir (base_filename +:+ "_3d.mp4") in
    a3 ← create_3d_animation results (cfg_light_k config) (cfg_ds config);
    save_3d output_3d a3
  else None.
End Main.

(* ================================================================== *)
(** * Sequential sweeps over an array, node by node

    The definitions of this part serve the proofs: a sweep is an iteration
    over a list of nodes, each node being overwritten with a value computed
    from the current contents of the array. *)

Abbreviation idx2 := (nat * nat)%type.
Abbreviation idx3 := (nat * (nat * nat))%type.

Definition get2p (U : grid2) (p : idx2) : Qc := get2 U p.1 p.2.
Definition set2p (U : grid2) (p : idx2) (v : Qc) : grid2 := set2 U p.1 p.2 v.
Definition get3p (U : grid3) (p : idx3) : Qc := get3 U p.1 p.2.1 p.2.2.
Definition set3p (U : grid3) (p : idx3) (v : Qc) : grid3 :=
  set3 U p.1 p.2.1 p.2.2 v.

(** The node lies inside the array. *)
Definition inb2 (U : grid2) (p : idx2) : Prop :=
  ∃ r, U !! p.1 = Some r ∧ (p.2 < length r)%nat.

Definition inb3 (U : grid3) (p : idx3) : Prop :=
  ∃ pl, U !! p.1 = Some pl ∧ inb2 pl p.2.

Definition sweep_list {A I : Type} (set : A → I → Qc → A) (f : A → I → Qc)
    (ps : list I) (U : A) : A :=
  foldl (λ U p, set U p (f U p)) U ps.

(** Lexicographic order on pairs: the order of nested loops. *)
Definition lex {A B : Type} (R1 : relation A) (R2 : relation B)
    : relation (A * B) :=
  λ p q, R1 p.1 q.1 ∨ (p.1 = q.1 ∧ R2 p.2 q.2).

Definition lt2 : relation idx2 := lex lt lt.
Definition lt3 : relation idx3 := lex lt lt2.

(** All the nodes of an [n × m] (resp. [nx × ny × nz]) array, in loop
    order. *)
Definition all2 (n m : nat) : list idx2 :=
  i ← range 0 n; (λ j, (i, j)) <$> range 0 m.

Definition all3 (nx ny nz : nat) : list idx3 :=
  i ← range 0 nx; (λ jk, (i, jk)) <$> all2 ny nz.

(** The largest of the values [g p], [p] in [ps], and [0]; the first node
    reaching it wins, as in the error loops. *)
Definition max_over {I : Type} (g : I → Qc) (ps : list I) : Qc :=
  foldl (λ err p, if gtb (g p) err then g p else err) 0 ps.

(** [e] is the maximum over [ps] of [g], or [0] over no node at all. *)
Definition is_max_over {I : Type} (g : I → Qc) (ps : list I) (e : Qc) : Prop :=
  (∀ p, p ∈ ps → g p <= e)
  ∧ (ps = [] → e = 0)
  ∧ (ps ≠ [] → ∃ p, p ∈ ps ∧ e = g p).

(** The value the update loop of [relax2d] and of [relax] writes at node
    [p] of the current field [U]; likewise for [relax3d]. *)
Definition upd2 (ax ay cx cy d_rhs : grid2) (omega : Qc) (inv_b U : grid2)
    (p : idx2) : Qc :=
  stencil2 ax ay cx cy d_rhs inv_b U p.1 p.2 * omega
  + get2 U p.1 p.2 * (1 - omega).

Definition upd3 (ax ay az cx cy cz d_rhs : grid3) (omega : Qc)
    (inv_b U : grid3) (p : idx3) : Qc :=
  omega * stencil3 ax ay az cx cy cz d_rhs inv_b U p.1 p.2.1 p.2.2
  + (1 - omega) * get3 U p.1 p.2.1 p.2.2.

(** One sweep of sequential Gauss-Seidel with over-relaxation, as the
    specification words it: [U] is the field before the sweep, [U'] the
    field after it; the neighbours at lower indices are read from [U'], the
    neighbours at higher indices from [U]. *)
Definition gs_value2 (ax ay cx cy b d_rhs U U' : grid2) (i j : nat) : Qc :=
  (get2 ax i j * get2 U' (i - 1) j + get2 cx i j * get2 U (i + 1) j
   + get2 ay i j * get2 U' i (j - 1) + get2 cy i j * get2 U i (j + 1)
   - get2 d_rhs i j) / get2 b i j.

Definition gs_sweep2 (ax ay cx cy b d_rhs : grid2) (n m : nat) (omega : Qc)
    (U U' : grid2) : Prop :=
  ∀ i j, (1 ≤ i < n - 1)%nat → (1 ≤ j < m - 1)%nat →
    get2 U' i j
    = omega * gs_value2 ax ay cx cy b d_rhs U U' i j
      + (1 - omega) * get2 U i j.

Definition gs_value3 (ax ay az cx cy cz b d_rhs U U' : grid3)
    (i j k : nat) : Qc :=
  (get3 ax i j k * get3 U' (i - 1) j k + get3 cx i j k * get3 U (i + 1) j k
   + get3 ay i j k * get3 U' i (j - 1) k + get3 cy i j k * get3 U i (j + 1) k
   + get3 az i j k * get3 U' i j (k - 1) + get3 cz i j k * get3 U i j (k + 1)
   - get3 d_rhs i j k) / get3 b i j k.

Definition gs_sweep3 (ax ay az cx cy cz b d_rhs : grid3) (nx ny nz : nat)
    (omega : Qc) (U U' : grid3) : Prop :=
  ∀ i j k, (1 ≤ i < nx - 1)%nat → (1 ≤ j < ny - 1)%nat →
    (1 ≤ k < nz - 1)%nat →
    get3 U' i j k
    = omega * gs_value3 ax ay az cx cy cz b d_rhs U U' i j k
      + (1 - omega) * get3 U i j k.

(** [b] is nonzero at every interior node. *)
Definition nonzero_interior2 (n m : nat) (b : grid2) : Prop :=
  ∀ i j, (1 ≤ i < n - 1)%nat → (1 ≤ j < m - 1)%nat → get2 b i j ≠ 0.

Definition nonzero_interior3 (nx ny nz : nat) (b : grid3) : Prop :=
  ∀ i j k, (1 ≤ i < nx - 1)%nat → (1 ≤ j < ny - 1)%nat →
    (1 ≤ k < nz - 1)%nat → get3 b i j k ≠ 0.

(** Every entry of [b] is nonzero. *)
Definition nonzero_all (b : grid2) : Prop :=
  Forall (Forall (λ x, x ≠ 0)) b.

(** [inv] holds the reciprocals of [b] at the interior nodes. *)
Definition inverts2 (n m : nat) (b inv : grid2) : Prop :=
  ∀ i j, (1 ≤ i < n - 1)%nat → (1 ≤ j < m - 1)%nat →
    get2 inv i j = 1 / get2 b i j.

Definition inverts3 (nx ny nz : nat) (b inv : grid3) : Prop :=
  ∀ i j k, (1 ≤ i < nx - 1)%nat → (1 ≤ j < ny - 1)%nat →
    (1 ≤ k < nz - 1)%nat → get3 inv i j k = 1 / get3 b i j k.

(** The row of node [(i, j)] is the isolated equation with right-hand
    side [v]. *)
Definition isolated_row (q : coeffs) (i j : nat) (v : Qc) : Prop :=
  get2 (c_ax q) i j = 0 ∧ get2 (c_ay q) i j = 0
  ∧ get2 (c_cx q) i j = 0 ∧ get2 (c_cy q) i j = 0
  ∧ get2 (c_b q) i j = 1 ∧ get2 (c_d_rhs q) i j = v.

(** The six arrays have the shape of the grid. *)
Definition coeffs_shape (n m : nat) (q : coeffs) : Prop :=
  shape2 n m (c_ax q) ∧ shape2 n m (c_ay q) ∧ shape2 n m (c_cx q)
  ∧ shape2 n m (c_cy q) ∧ shape2 n m (c_b q) ∧ shape2 n m (c_d_rhs q).


(** The stopping rule of the specification: the error is within the
    tolerance and the floor on the number of sweeps is met, or the ceiling
    is reached. *)
Definition stop_spec (err eps : Qc) (it max_iter min_iter : Z) : Prop :=
  (err <= eps ∧ (min_iter ≤ it)%Z) ∨ it = max_iter.

(** A relaxation loop, given by its state projections [err] and [it], its
    condition, body and initial state, performs [k] sweeps and then stops:
    [k] is the first sweep count at which the stopping rule holds, [k] is
    at most [max_iter], and the loop run with at least [max_iter] units of
    fuel returns the state reached after these [k] sweeps. *)
Definition sor_stops {St : Type} (err : St → Qc) (it : St → Z)
    (cond : St → bool) (body : St → St) (init : St)
    (eps : Qc) (max_iter min_iter : Z) (k : nat) : Prop :=
  let run j := Nat.iter j body init in
  (Z.of_nat k ≤ max_iter)%Z
  ∧ it (run k) = Z.of_nat k
  ∧ stop_spec (err (run k)) eps (it (run k)) max_iter min_iter
  ∧ (∀ j, (j < k)%nat →
       ¬ stop_spec (err (run j)) eps (it (run j)) max_iter min_iter)
  ∧ ∀ fuel, (Z.to_nat max_iter ≤ fuel)%nat →
      while_loop cond body fuel init = Some (run k).

(* ================================================================== *)
(** * Notions used to state further properties *)

(** [U] satisfies the equation of the docstrings,
    [a_x U[i-1,j] + c_x U[i+1,j] + a_y U[i,j-1] + c_y U[i,j+1] - b U[i,j]
     = d_rhs], at every interior node; likewise with six neighbours. *)
Definition solves2 (ax ay cx cy b d_rhs : grid2) (n m : nat) (U : grid2)
    : Prop :=
  ∀ i j, (1 ≤ i < n - 1)%nat → (1 ≤ j < m - 1)%nat →
    get2 ax i j * get2 U (i - 1) j + get2 cx i j * get2 U (i + 1) j
    + get2 ay i j * get2 U i (j - 1) + get2 cy i j * get2 U i (j + 1)
    - get2 b i j * get2 U i j
    = get2 d_rhs i j.

Definition solves3 (ax ay az cx cy cz b d_rhs : grid3) (nx ny nz : nat)
    (U : grid3) : Prop :=
  ∀ i j k, (1 ≤ i < nx - 1)%nat → (1 ≤ j < ny - 1)%nat →
    (1 ≤ k < nz - 1)%nat →
    get3 ax i j k * get3 U (i - 1) j k + get3 cx i j k * get3 U (i + 1) j k
    + get3 ay i j k * get3 U i (j - 1) k + get3 cy i j k * get3 U i (j + 1) k
    + get3 az i j k * get3 U i j (k - 1) + get3 cz i j k * get3 U i j (k + 1)
    - get3 b i j k * get3 U i j k
    = get3 d_rhs i j k.

(** By how much the diagonal exceeds the sum of the four neighbour
    coefficients at node [(i, j)]. *)
Definition row_excess (q : coeffs) (i j : nat) : Qc :=
  get2 (c_b q) i j - get2 (c_ax q) i j - get2 (c_ay q) i j
  - get2 (c_cx q) i j - get2 (c_cy q) i j.

(** The system is strictly diagonally dominant by rows, with neighbour
    coefficients that are not negative. *)
Definition dominant_rows (n m : nat) (q : coeffs) : Prop :=
  ∀ i j, (i < n)%nat → (j < m)%nat →
    0 <= get2 (c_ax q) i j ∧ 0 <= get2 (c_ay q) i j
    ∧ 0 <= get2 (c_cx q) i j ∧ 0 <= get2 (c_cy q) i j
    ∧ 0 < row_excess q i j.

(** The six arrays of [q'] agree with those of [q] at node [(i, j)]. *)
Definition same_row (q q' : coeffs) (i j : nat) : Prop :=
  get2 (c_ax q') i j = get2 (c_ax q) i j
  ∧ get2 (c_ay q') i j = get2 (c_ay q) i j
  ∧ get2 (c_cx q') i j = get2 (c_cx q) i j
  ∧ get2 (c_cy q') i j = get2 (c_cy q) i j
  ∧ get2 (c_b q') i j = get2 (c_b q) i j
  ∧ get2 (c_d_rhs q') i j = get2 (c_d_rhs q) i j.

(** The interior index nearest to [i] on an axis of length [n >= 3]. *)
Definition nearest_inner (n i : nat) : nat := Nat.max 1 (Nat.min i (n - 2)).

(** Every node of [U] holds the value of the nearest interior node: the
    ring mirrors the first interior line, corners included. *)
Definition mirror_ring (nx ny : nat) (U : grid2) : Prop :=
  ∀ i j, (i < nx)%nat → (j < ny)%nat →
    get2 U i j = get2 U (nearest_inner nx i) (nearest_inner ny j).

(** The boundary correction in the body of the time loop, by boundary
    condition. *)
Definition boundary_fix (cfg : config) (U : grid2) : grid2 :=
  if decide (cfg_boundary_condition cfg = "neumann"%string)
  then copy_neumann_boundaries U (cfg_nx cfg) (cfg_ny cfg)
  else if decide (cfg_boundary_condition cfg = "dirichlet"%string)
  then zero_ring U else U.

(** The time loop of [run_simulation], run from its initial state, for
    given grid steps [hx], [hy] and base coefficients [ex], [ey], [et]. *)
Definition run_loop (np_pi : Qc) (np_sin : Qc → Qc) (cfg : config)
    (hx hy ex ey et : Qc) : option sim_state :=
  let nx := cfg_nx cfg in
  let ny := cfg_ny cfg in
  for_each
    (sim_step np_pi np_sin cfg hx hy
       (grid_init nx ny (λ _ _, ex * 1)) (grid_init nx ny (λ _ _, ey * 1))
       (grid_init nx ny (λ _ _, ex * 1)) (grid_init nx ny (λ _ _, ey * 1))
       (grid_init nx ny (λ _ _, ex * 1 + ex * 1 + ey * 1 + ey * 1 + et)))
    (range 1 (cfg_max_steps cfg + 1))
    (SimState (zeros2 nx ny)
       (grid_init nx ny (λ i j,
          if inner nx i && inner ny j
          then get2 (zeros2 nx ny) i j + cfg_dt cfg * get2 (zeros2 nx ny) i j
          else 0))
       (replicate (cfg_max_steps cfg) (zeros2 nx ny))).

(* ================================================================== *)
(** * Small concrete inputs

    A [3 × 3] and a [3 × 3 × 3] problem with a single interior node, used
    to run the definitions. *)

Definition ex_zero2 : grid2 := zeros2 3 3.
Definition ex_one2 : grid2 := replicate 3 (replicate 3 1).
Definition ex_zero3 : grid3 := replicate 3 (zeros2 3 3).
Definition ex_one3 : grid3 := replicate 3 (replicate 3 (replicate 3 1)).

Definition ex_four2 : grid2 := replicate 3 (replicate 3 (of_int 4)).
Definition ex_six3 : grid3 := replicate 3 (replicate 3 (replicate 3 (of_int 6))).

(** The diagonal is [1] at the interior node and [0] on the whole ring. *)
Definition ex_b2 : grid2 := set2 ex_zero2 1 1 1.
Definition ex_b3 : grid3 := set3 ex_zero3 1 1 1 1.

(** The system [2 y0 + y1 = 1], [y0 + 3 y1 + y2 = 2], [y1 + 4 y2 = 3] in a
    store: [a] at address 1, [b] at 2, [c] at 3, [d] at 4. *)
Definition ex_a : list Qc := of_int <$> [0; 1; 1]%Z.
Definition ex_b : list Qc := of_int <$> [2; 3; 4]%Z.
Definition ex_c : list Qc := of_int <$> [1; 1; 0]%Z.
Definition ex_d : list Qc := of_int <$> [1; 2; 3]%Z.
Definition ex_heap : heap :=
  <[4%positive := ex_d]> (<[3%positive := ex_c]>
    (<[2%positive := ex_b]> (<[1%positive := ex_a]> ∅))).

(** Stand-ins for [np.pi] and [np.sin] when a run is evaluated: the
    fraction [355/113] and the Taylor polynomial of degree five. *)
Definition pi_approx : Qc := qc 355 113.
Definition sin_poly (x : Qc) : Qc :=
  x - x * x * x * qc 1 6 + x * x * x * x * x * qc 1 120.

(** A clamped centre-source experiment on a [3 × 3] grid, one time step,
    the other parameters as [get_config] sets them. *)
Definition ex_config : config :=
  Config 3 3 1 1 (qc 2 10000) (of_int 4) (qc 1 100) 1
    (qc 18 10) (qc 1 10000000000000) 5000%Z "CLAMPED_CENTER" 2%Z 4%Z
    "dirichlet".

(** The system of [ex_heap] with other values in [a[0]] and [c[-1]], the
    two entries outside the matrix. *)
Definition ex_heap2 : heap :=
  <[3%positive := of_int <$> [1; 1; 9]%Z]>
    (<[1%positive := of_int <$> [7; 1; 1]%Z]> ex_heap).

(** The [4 × 4] field whose entry [(i, j)] is [4 i + j]. *)
Definition ex_ramp2 : grid2 :=
  grid_init 4 4 (λ i j, of_int (Z.of_nat (4 * i + j))).

(** A free-edge run with two generators on a [4 × 4] grid: two time steps,
    plain Gauss-Seidel ([alfa = 1]) and a loose tolerance. *)
Definition ex_config_free : config :=
  Config 4 4 1 1 (qc 2 10000) (of_int 4) (qc 1 100) 2
    1 (qc 1 1000) 50%Z "FREE_TWO_GENERATORS" 2%Z 4%Z "neumann".

(** The same run with the source switched off. *)
Definition ex_config_still : config :=
  Config 4 4 1 1 0 (of_int 4) (qc 1 100) 2
    1 (qc 1 1000) 50%Z "FREE_TWO_GENERATORS" 2%Z 4%Z "neumann".

(** A result with three frames of shape [4 × 4]. *)
Definition ex_result : sim_result :=
  SimResult [ex_ramp2; zeros2 4 4; ex_ramp2] (linspace 1 4) (linspace 1 4)
    ex_config_free.

(* ================================================================== *)
(** * Properties *)

(** ** Arrays *)

Lemma get2_set2_eq (U : grid2) (i j : nat) (v : Qc) :
  inb2 U (i, j) → get2 (set2 U i j v) i j = v.
Proof.
  intros (r & Hr & Hj); simpl in *.
  unfold get2, set2. rewrite list_lookup_alter_eq, Hr. simpl.
  rewrite list_lookup_insert_eq by done. done.
Qed.

Lemma get2_set2_ne (U : grid2) (i j i' j' : nat) (v : Qc) :
  (i, j) ≠ (i', j') → get2 (set2 U i j v) i' j' = get2 U i' j'.
Proof.
  intros Hne. unfold get2, set2.
  destruct (decide (i = i')) as [->|Hi].
  - rewrite list_lookup_alter_eq. destruct (U !! i') as [r|]; simpl; [|done].
    rewrite list_lookup_insert_ne by congruence. done.
  - rewrite list_lookup_alter_ne by done. done.
Qed.

Lemma inb2_set2 (U : grid2) (i j : nat) (v : Qc) (q : idx2) :
  inb2 (set2 U i j v) q ↔ inb2 U q.
Proof.
  unfold inb2, set2. destruct (decide (i = q.1)) as [->|Hi].
  - rewrite list_lookup_alter_eq. split.
    + intros (r & Hr & Hl). destruct (U !! q.1) as [r0|]; simplify_eq/=.
      exists r0. split; [done|]. by rewrite length_insert in Hl.
    + intros (r & Hr & Hl). rewrite Hr. simpl. eexists. split; [done|].
      by rewrite length_insert.
  - by rewrite list_lookup_alter_ne.
Qed.

Lemma shape2_set2 (n m : nat) (U : grid2) (i j : nat) (v : Qc) :
  shape2 n m U → shape2 n m (set2 U i j v).
Proof.
  intros [Hn Hm]. split.
  - unfold set2. by rewrite length_alter.
  - unfold set2. apply (Forall_alter (λ r, length r = m)); [exact Hm|].
    intros r _ Hr. by rewrite length_insert.
Qed.

Lemma shape2_inb (n m : nat) (U : grid2) (i j : nat) :
  shape2 n m U → (i < n)%nat → (j < m)%nat → inb2 U (i, j).
Proof.
  intros [Hn Hm] Hi Hj. rewrite <- Hn in Hi.
  destruct (lookup_lt_is_Some_2 U i Hi) as [r Hr].
  exists r. split; [done|]. rewrite Forall_lookup in Hm.
  simpl. by rewrite (Hm _ _ Hr).
Qed.

(** Two arrays of the same shape with the same entries are equal. *)
Lemma grid2_ext (n m : nat) (U V : grid2) :
  shape2 n m U → shape2 n m V →
  (∀ i j, (i < n)%nat → (j < m)%nat → get2 U i j = get2 V i j) → U = V.
Proof.
  intros [HnU HmU] [HnV HmV] Heq.
  apply list_eq_same_length with n; [done..|].
  intros i r r' Hi Hr Hr'.
  rewrite Forall_lookup in HmU, HmV.
  apply list_eq_same_length with m; [by eapply HmV|by eapply HmU|].
  intros j x y Hj Hx Hy.
  specialize (Heq i j Hi Hj). unfold get2 in Heq.
  rewrite Hr, Hr' in Heq. simpl in Heq. rewrite Hx, Hy in Heq. done.
Qed.

Lemma get3_set3_eq (U : grid3) (i j k : nat) (v : Qc) :
  inb3 U (i, (j, k)) → get3 (set3 U i j k v) i j k = v.
Proof.
  intros (pl & Hpl & Hin); simpl in *.
  pose proof (get2_set2_eq pl j k v Hin) as H2.
  unfold get3, set3. rewrite list_lookup_alter_eq, Hpl. simpl.
  unfold get2, set2 in H2. done.
Qed.

Lemma get3_set3_ne (U : grid3) (i j k i' j' k' : nat) (v : Qc) :
  (i, (j, k)) ≠ (i', (j', k')) →
  get3 (set3 U i j k v) i' j' k' = get3 U i' j' k'.
Proof.
  intros Hne. unfold get3, set3.
  destruct (decide (i = i')) as [->|Hi].
  - rewrite list_lookup_alter_eq. destruct (U !! i') as [pl|]; simpl; [|done].
    assert ((j, k) ≠ (j', k')) as Hjk by congruence.
    apply (get2_set2_ne pl j k j' k' v Hjk).
  - rewrite list_lookup_alter_ne by done. done.
Qed.

Lemma inb3_set3 (U : grid3) (i j k : nat) (v : Qc) (q : idx3) :
  inb3 (set3 U i j k v) q ↔ inb3 U q.
Proof.
  unfold inb3, set3. destruct (decide (i = q.1)) as [->|Hi].
  - rewrite list_lookup_alter_eq. split.
    + intros (pl & Hpl & Hin). destruct (U !! q.1) as [pl0|]; simplify_eq/=.
      exists pl0. split; [done|]. by apply (inb2_set2 pl0 j k v).
    + intros (pl & Hpl & Hin). rewrite Hpl. simpl. eexists. split; [done|].
      by apply (inb2_set2 pl j k v).
  - by rewrite list_lookup_alter_ne.
Qed.

Lemma shape3_set3 (nx ny nz : nat) (U : grid3) (i j k : nat) (v : Qc) :
  shape3 nx ny nz U → shape3 nx ny nz (set3 U i j k v).
Proof.
  intros [Hn Hm]. split.
  - unfold set3. by rewrite length_alter.
  - unfold set3. apply (Forall_alter (shape2 ny nz)); [exact Hm|].
    intros pl _ Hpl. by apply (shape2_set2 ny nz pl j k v).
Qed.

Lemma shape3_inb (nx ny nz : nat) (U : grid3) (i j k : nat) :
  shape3 nx ny nz U → (i < nx)%nat → (j < ny)%nat → (k < nz)%nat →
  inb3 U (i, (j, k)).
Proof.
  intros [Hn Hm] Hi Hj Hk. rewrite <- Hn in Hi.
  destruct (lookup_lt_is_Some_2 U i Hi) as [pl Hpl].
  exists pl. split; [done|]. rewrite Forall_lookup in Hm.
  eapply shape2_inb; eauto.
Qed.

Lemma grid3_ext (nx ny nz : nat) (U V : grid3) :
  shape3 nx ny nz U → shape3 nx ny nz V →
  (∀ i j k, (i < nx)%nat → (j < ny)%nat → (k < nz)%nat →
            get3 U i j k = get3 V i j k) → U = V.
Proof.
  intros [HnU HmU] [HnV HmV] Heq.
  apply list_eq_same_length with nx; [done..|].
  intros i pl pl' Hi Hpl Hpl'.
  rewrite Forall_lookup in HmU, HmV.
  apply (grid2_ext ny nz); [by eapply HmU|by eapply HmV|].
  intros j k Hj Hk. specialize (Heq i j k Hi Hj Hk).
  unfold get3 in Heq. rewrite Hpl, Hpl' in Heq. done.
Qed.

(** ** Nested loops as one loop over the list of nodes *)

Lemma foldl_bind {A B C : Type} (f : A → C → A) (g : B → list C)
    (l : list B) (a : A) :
  foldl f a (l ≫= g) = foldl (λ a x, foldl f a (g x)) a l.
Proof.
  revert a. induction l as [|x l IH]; intros a; simpl; [done|].
  by rewrite foldl_app, IH.
Qed.

Lemma foldl_ext {A B : Type} (f g : A → B → A) (l : list B) (a : A) :
  (∀ a x, f a x = g a x) → foldl f a l = foldl g a l.
Proof.
  intros Hfg. revert a. induction l as [|x l IH]; intros a; simpl; [done|].
  by rewrite Hfg, IH.
Qed.

Lemma foldl_interior2 {A : Type} (F : A → nat → nat → A) (n m : nat) (a : A) :
  foldl (λ a i, foldl (λ a j, F a i j) a (range 1 (m - 1))) a (range 1 (n - 1))
  = foldl (λ a p, F a p.1 p.2) a (interior2 n m).
Proof.
  unfold interior2. rewrite foldl_bind.
  apply foldl_ext. intros b i. by rewrite foldl_fmap.
Qed.

Lemma foldl_interior3 {A : Type} (F : A → nat → nat → nat → A)
    (nx ny nz : nat) (a : A) :
  foldl (λ a i,
    foldl (λ a j, foldl (λ a k, F a i j k) a (range 1 (nz - 1)))
      a (range 1 (ny - 1))) a (range 1 (nx - 1))
  = foldl (λ a p, F a p.1 p.2.1 p.2.2) a (interior3 nx ny nz).
Proof.
  unfold interior3. rewrite foldl_bind.
  apply foldl_ext. intros b i.
  rewrite foldl_fmap. apply (foldl_interior2 (λ a j k, F a i j k)).
Qed.

Lemma elem_of_range (lo hi i : nat) :
  i ∈ range lo hi ↔ (lo ≤ i < hi)%nat.
Proof. unfold range. rewrite elem_of_seq. lia. Qed.

Lemma elem_of_interior2 (n m : nat) (p : idx2) :
  p ∈ interior2 n m ↔ (1 ≤ p.1 < n - 1 ∧ 1 ≤ p.2 < m - 1)%nat.
Proof.
  unfold interior2. rewrite list_elem_of_bind. split.
  - intros (i & Hp & Hi). apply list_elem_of_fmap in Hp as (j & -> & Hj).
    apply elem_of_range in Hi, Hj. simpl. lia.
  - intros [Hi Hj]. exists p.1. split.
    + apply list_elem_of_fmap. exists p.2. split; [by destruct p|].
      by apply elem_of_range.
    + by apply elem_of_range.
Qed.

Lemma elem_of_interior3 (nx ny nz : nat) (p : idx3) :
  p ∈ interior3 nx ny nz
  ↔ (1 ≤ p.1 < nx - 1 ∧ 1 ≤ p.2.1 < ny - 1 ∧ 1 ≤ p.2.2 < nz - 1)%nat.
Proof.
  unfold interior3. rewrite list_elem_of_bind. split.
  - intros (i & Hp & Hi). apply list_elem_of_fmap in Hp as (jk & -> & Hjk).
    apply elem_of_range in Hi. apply elem_of_interior2 in Hjk. simpl. lia.
  - intros (Hi & Hj & Hk). exists p.1. split.
    + apply list_elem_of_fmap. exists p.2. split; [by destruct p|].
      by apply elem_of_interior2.
    + by apply elem_of_range.
Qed.

(** ** The loops visit the nodes in increasing lexicographic order *)

Lemma lex_irrefl {A B : Type} (R1 : relation A) (R2 : relation B) :
  Irreflexive R1 → Irreflexive R2 → Irreflexive (lex R1 R2).
Proof.
  intros H1 H2 p [H|[_ H]]; [by apply (H1 p.1)|by apply (H2 p.2)].
Qed.

Lemma lex_trans {A B : Type} (R1 : relation A) (R2 : relation B) :
  Transitive R1 → Transitive R2 → Transitive (lex R1 R2).
Proof.
  intros H1 H2 p q r [Hpq|[Epq Hpq]] [Hqr|[Eqr Hqr]]; unfold lex.
  - left. by etrans.
  - left. by rewrite <- Eqr.
  - left. by rewrite Epq.
  - right. split; [congruence|by etrans].
Qed.

Lemma lex_sorted {A B : Type} (R1 : relation A) (R2 : relation B)
    (l1 : list A) (l2 : list B) :
  StronglySorted R1 l1 → StronglySorted R2 l2 →
  StronglySorted (lex R1 R2) (x ← l1; (λ y, (x, y)) <$> l2).
Proof.
  intros Hs1 Hs2. induction Hs1 as [|x l1 Hs1 IH Hx]; simpl; [constructor|].
  apply StronglySorted_app_2; [| |done].
  - intros p q Hp Hq. apply list_elem_of_fmap in Hp as (y & -> & Hy).
    apply list_elem_of_bind in Hq as (x' & Hq & Hx').
    apply list_elem_of_fmap in Hq as (y' & -> & Hy').
    left. simpl. rewrite Forall_forall in Hx. by apply Hx.
  - apply (StronglySorted_fmap _ R2); [|done].
    intros y y' Hy. right. done.
Qed.

Lemma range_sorted (lo hi : nat) : StronglySorted lt (range lo hi).
Proof.
  unfold range. generalize (hi - lo)%nat as k. intros k. revert lo.
  induction k as [|k IH]; intros lo; simpl; constructor; [apply IH|].
  apply Forall_forall. intros x Hx. apply elem_of_seq in Hx. lia.
Qed.

Lemma interior2_sorted (n m : nat) : StronglySorted lt2 (interior2 n m).
Proof. apply lex_sorted; apply range_sorted. Qed.

Lemma interior3_sorted (nx ny nz : nat) :
  StronglySorted lt3 (interior3 nx ny nz).
Proof. apply lex_sorted; [apply range_sorted|apply interior2_sorted]. Qed.

#[local] Instance lt2_irrefl : Irreflexive lt2.
Proof. apply lex_irrefl; intros x; unfold complement; lia. Qed.
#[local] Instance lt2_trans : Transitive lt2.
Proof. apply lex_trans; intros x y z; lia. Qed.
#[local] Instance lt3_irrefl : Irreflexive lt3.
Proof. apply lex_irrefl; [intros x; unfold complement; lia|apply _]. Qed.
#[local] Instance lt3_trans : Transitive lt3.
Proof. apply lex_trans; [intros x y z; lia|apply _]. Qed.

(** ** A sweep over a sorted list of nodes *)

Section Sweep.
Context {A I : Type}.
Variables (get : A → I → Qc) (set : A → I → Qc → A) (inb : A → I → Prop).
Hypothesis get_set_eq : ∀ U p v, inb U p → get (set U p v) p = v.
Hypothesis get_set_ne : ∀ U p q v, p ≠ q → get (set U p v) q = get U q.
Hypothesis inb_set : ∀ U p q v, inb U q → inb (set U p v) q.
Variable f : A → I → Qc.

(** A node that is not visited keeps its value. *)
Lemma sweep_frame (ps : list I) (U : A) (q : I) :
  q ∉ ps → get (sweep_list set f ps U) q = get U q.
Proof.
  revert U. induction ps as [|p ps IH]; intros U Hq; simpl; [done|].
  apply not_elem_of_cons in Hq as [Hne Hq].
  unfold sweep_list in *. simpl. rewrite IH by done.
  by apply get_set_ne.
Qed.

Lemma sweep_inb (ps : list I) (U : A) (q : I) :
  inb U q → inb (sweep_list set f ps U) q.
Proof.
  revert U. induction ps as [|p ps IH]; intros U Hq; simpl; [done|].
  unfold sweep_list in *. simpl. apply IH. by apply inb_set.
Qed.

(** A visited node receives [f] of the array as it was when the node was
    reached: that array already holds the final values of the earlier
    nodes, and still holds the initial values of all other nodes. *)
Lemma sweep_sorted (R : relation I) `{!Irreflexive R, !Transitive R}
    (ps : list I) (U : A) (p : I) :
  StronglySorted R ps → p ∈ ps → inb U p →
  ∃ Up, get (sweep_list set f ps U) p = f Up p
        ∧ (∀ q, R q p → get Up q = get (sweep_list set f ps U) q)
        ∧ (∀ q, ¬ R q p → get Up q = get U q).
Proof.
  intros Hs. revert U. induction Hs as [|x l Hs IH Hx]; intros U Hp Hin.
  { by apply elem_of_nil in Hp. }
  rewrite Forall_forall in Hx.
  assert (∀ q, q ∈ l → q ≠ x) as Hxl.
  { intros q Hq ->. by apply (irreflexivity R x), Hx. }
  change (sweep_list set f (x :: l) U)
    with (sweep_list set f l (set U x (f U x))).
  apply elem_of_cons in Hp as [->|Hp].
  - exists U. split; [|split; [|done]].
    + rewrite sweep_frame; [by apply get_set_eq|].
      intros Hq. by apply (Hxl x).
    + intros q Hq. rewrite sweep_frame.
      * symmetry. apply get_set_ne. intros ->. by apply (irreflexivity R q).
      * intros Hql. apply (irreflexivity R q). etrans; [done|by apply Hx].
  - destruct (IH (set U x (f U x)) Hp) as (Up & Hv & Hlo & Hhi).
    { by apply inb_set. }
    exists Up. split; [done|]. split; [done|].
    intros q Hq. rewrite (Hhi q Hq). apply get_set_ne.
    intros ->. by apply Hq, Hx.
Qed.
End Sweep.

(** The running maximum of the error loops. *)
Lemma max_over_spec {I : Type} (g : I → Qc) (ps : list I) :
  (∀ p, 0 <= g p) → is_max_over g ps (max_over g ps).
Proof.
  intros Hg. unfold max_over.
  assert (∀ e0 : Qc, 0 <= e0 →
    let e := foldl (λ err p, if gtb (g p) err then g p else err) e0 ps in
    e0 <= e ∧ (∀ p, p ∈ ps → g p <= e)
    ∧ (e = e0 ∨ ∃ p, p ∈ ps ∧ e = g p)) as Hgen.
  { induction ps as [|p ps IH]; intros e0 He0; simpl.
    - split; [apply Qcle_refl|]. split; [|by left].
      intros p Hp. by apply elem_of_nil in Hp.
    - set (e1 := if gtb (g p) e0 then g p else e0).
      assert (e0 <= e1 ∧ g p <= e1 ∧ (e1 = e0 ∨ e1 = g p)) as (H01 & Hp1 & Hc).
      { unfold e1, gtb. destruct (g p ?= e0) eqn:Hcmp.
        - apply Qceq_alt in Hcmp. rewrite Hcmp.
          split; [apply Qcle_refl|]. split; [apply Qcle_refl|by left].
        - apply Qclt_alt in Hcmp.
          split; [apply Qcle_refl|]. split; [by apply Qclt_le_weak|by left].
        - apply Qcgt_alt in Hcmp.
          split; [by apply Qclt_le_weak|]. split; [apply Qcle_refl|by right]. }
      destruct (IH e1) as (H1e & Hall & Hex).
      { eapply Qcle_trans; [apply He0|done]. }
      split; [eapply Qcle_trans; [apply H01|done]|]. split.
      + intros q Hq. apply elem_of_cons in Hq as [->|Hq]; [|by apply Hall].
        eapply Qcle_trans; [apply Hp1|done].
      + destruct Hex as [Hex|(q & Hq & Hex)].
        * destruct Hc as [Hc|Hc]; [left; congruence|].
          right. exists p. split; [apply elem_of_cons; by left|congruence].
        * right. exists q. split; [apply elem_of_cons; by right|done]. }
  destruct (Hgen 0 (Qcle_refl 0)) as (H0 & Hall & Hex).
  split; [done|]. split; [by intros ->|].
  intros Hne. destruct Hex as [Hex|Hex]; [|done].
  destruct ps as [|p ps]; [done|]. exists p. split; [apply elem_of_cons; by left|].
  apply Qcle_antisym.
  - rewrite Hex. apply Hg.
  - apply Hall. apply elem_of_cons. by left.
Qed.

(** ** The update loops are sweeps *)

Lemma sweep_preserves {A I : Type} (set : A → I → Qc → A) (f : A → I → Qc)
    (P : A → Prop) (ps : list I) (U : A) :
  (∀ U p v, P U → P (set U p v)) → P U → P (sweep_list set f ps U).
Proof.
  intros Hset. revert U. induction ps as [|p ps IH]; intros U HU; [done|].
  apply IH. by apply Hset.
Qed.

Lemma relax2d_sweep_list ax ay cx cy d_rhs n m omega inv_b U :
  relax2d_sweep ax ay cx cy d_rhs n m omega inv_b U
  = sweep_list set2p (upd2 ax ay cx cy d_rhs omega inv_b) (interior2 n m) U.
Proof.
  unfold relax2d_sweep.
  by rewrite (foldl_interior2 (λ U i j, set2 U i j
    (stencil2 ax ay cx cy d_rhs inv_b U i j * omega + get2 U i j * (1 - omega)))).
Qed.

Lemma relax3d_sweep_list ax ay az cx cy cz d_rhs nx ny nz omega inv_b U :
  relax3d_sweep ax ay az cx cy cz d_rhs nx ny nz omega inv_b U
  = sweep_list set3p (upd3 ax ay az cx cy cz d_rhs omega inv_b)
      (interior3 nx ny nz) U.
Proof.
  unfold relax3d_sweep.
  by rewrite (foldl_interior3 (λ U i j k, set3 U i j k
    (omega * stencil3 ax ay az cx cy cz d_rhs inv_b U i j k
     + (1 - omega) * get3 U i j k))).
Qed.

(** In [relax] the field is updated exactly as in [relax2d]; the running
    error rides along. *)
Lemma foldl_pair_fst {A E B : Type} (g : A → B → A) (h : A → E → B → E)
    (l : list B) (a : A) (e : E) :
  (foldl (λ s x, let '(a, e) := s in (g a x, h a e x)) (a, e) l).1
  = foldl g a l.
Proof.
  revert a e. induction l as [|x l IH]; intros a e; simpl; [done|]. apply IH.
Qed.

Lemma relax_sweep_flat ax ay cx cy d_rhs n m alfa inv_b U :
  relax_sweep ax ay cx cy d_rhs n m alfa inv_b U
  = foldl (λ s p,
      let '(U, err) := s in
      (set2p U p (upd2 ax ay cx cy d_rhs alfa inv_b U p),
       fmax err (fabs (get2p U p
                       - stencil2 ax ay cx cy d_rhs inv_b U p.1 p.2))))
      (U, 0) (interior2 n m).
Proof.
  unfold relax_sweep.
  etrans; [exact (foldl_interior2 (λ (s : grid2 * Qc) i j,
    let '(U, err) := s in
    (set2 U i j (stencil2 ax ay cx cy d_rhs inv_b U i j * alfa
                 + get2 U i j * (1 - alfa)),
     fmax err (fabs (get2 U i j - stencil2 ax ay cx cy d_rhs inv_b U i j))))
    n m (U, 0))|].
  apply foldl_ext. by intros [V e] [i j].
Qed.

Lemma relax_sweep_fst ax ay cx cy d_rhs n m alfa inv_b U :
  (relax_sweep ax ay cx cy d_rhs n m alfa inv_b U).1
  = relax2d_sweep ax ay cx cy d_rhs n m alfa inv_b U.
Proof.
  rewrite relax_sweep_flat, relax2d_sweep_list.
  apply (foldl_pair_fst
    (λ U p, set2p U p (upd2 ax ay cx cy d_rhs alfa inv_b U p))
    (λ U err p, fmax err (fabs (get2p U p
                   - stencil2 ax ay cx cy d_rhs inv_b U p.1 p.2)))).
Qed.

(** ** Frame, shape and Gauss-Seidel order of one sweep *)

Lemma get2p_set2p_eq (U : grid2) (p : idx2) (v : Qc) :
  inb2 U p → get2p (set2p U p v) p = v.
Proof. destruct p as [i j]. apply get2_set2_eq. Qed.

Lemma get2p_set2p_ne (U : grid2) (p q : idx2) (v : Qc) :
  p ≠ q → get2p (set2p U p v) q = get2p U q.
Proof. destruct p as [i j], q as [i' j']. apply get2_set2_ne. Qed.

Lemma inb2_set2p (U : grid2) (p q : idx2) (v : Qc) :
  inb2 U q → inb2 (set2p U p v) q.
Proof. destruct p as [i j]. apply inb2_set2. Qed.

Lemma get3p_set3p_eq (U : grid3) (p : idx3) (v : Qc) :
  inb3 U p → get3p (set3p U p v) p = v.
Proof. destruct p as [i [j k]]. apply get3_set3_eq. Qed.

Lemma get3p_set3p_ne (U : grid3) (p q : idx3) (v : Qc) :
  p ≠ q → get3p (set3p U p v) q = get3p U q.
Proof. destruct p as [i [j k]], q as [i' [j' k']]. apply get3_set3_ne. Qed.

Lemma inb3_set3p (U : grid3) (p q : idx3) (v : Qc) :
  inb3 U q → inb3 (set3p U p v) q.
Proof. destruct p as [i [j k]]. apply inb3_set3. Qed.

Lemma relax2d_sweep_frame ax ay cx cy d_rhs n m omega inv_b U i j :
  (i, j) ∉ interior2 n m →
  get2 (relax2d_sweep ax ay cx cy d_rhs n m omega inv_b U) i j = get2 U i j.
Proof.
  intros Hq. rewrite relax2d_sweep_list.
  apply (sweep_frame get2p set2p get2p_set2p_ne _ _ U (i, j) Hq).
Qed.

Lemma relax3d_sweep_frame ax ay az cx cy cz d_rhs nx ny nz omega inv_b U i j k :
  (i, (j, k)) ∉ interior3 nx ny nz →
  get3 (relax3d_sweep ax ay az cx cy cz d_rhs nx ny nz omega inv_b U) i j k
  = get3 U i j k.
Proof.
  intros Hq. rewrite relax3d_sweep_list.
  apply (sweep_frame get3p set3p get3p_set3p_ne _ _ U (i, (j, k)) Hq).
Qed.

Lemma relax2d_sweep_shape ax ay cx cy d_rhs n m omega inv_b U n' m' :
  shape2 n' m' U →
  shape2 n' m' (relax2d_sweep ax ay cx cy d_rhs n m omega inv_b U).
Proof.
  intros HU. rewrite relax2d_sweep_list.
  apply (sweep_preserves set2p _ (shape2 n' m')); [|done].
  intros V [i j] v. apply shape2_set2.
Qed.

Lemma relax3d_sweep_shape ax ay az cx cy cz d_rhs nx ny nz omega inv_b U
    nx' ny' nz' :
  shape3 nx' ny' nz' U →
  shape3 nx' ny' nz'
    (relax3d_sweep ax ay az cx cy cz d_rhs nx ny nz omega inv_b U).
Proof.
  intros HU. rewrite relax3d_sweep_list.
  apply (sweep_preserves set3p _ (shape3 nx' ny' nz')); [|done].
  intros V [i [j k]] v. apply shape3_set3.
Qed.

Lemma boundary2_not_interior (n m i j : nat) :
  boundary2 n m i j → (i, j) ∉ interior2 n m.
Proof.
  intros Hb Hin. apply elem_of_interior2 in Hin. unfold boundary2 in Hb.
  simpl in Hin. lia.
Qed.

Lemma boundary3_not_interior (nx ny nz i j k : nat) :
  boundary3 nx ny nz i j k → (i, (j, k)) ∉ interior3 nx ny nz.
Proof.
  intros Hb Hin. apply elem_of_interior3 in Hin. unfold boundary3 in Hb.
  simpl in Hin. lia.
Qed.

(** One sweep of [relax2d] is a sweep of sequential Gauss-Seidel. *)
Lemma relax2d_sweep_gs ax ay cx cy b d_rhs n m omega inv_b U :
  shape2 n m U → inverts2 n m b inv_b →
  gs_sweep2 ax ay cx cy b d_rhs n m omega U
    (relax2d_sweep ax ay cx cy d_rhs n m omega inv_b U).
Proof.
  intros HU Hinv i j Hi Hj. rewrite relax2d_sweep_list.
  destruct (sweep_sorted get2p set2p inb2 get2p_set2p_eq get2p_set2p_ne
              inb2_set2p (upd2 ax ay cx cy d_rhs omega inv_b) lt2
              (interior2 n m) U (i, j)) as (Up & Hv & Hlo & Hhi).
  { apply interior2_sorted. }
  { apply elem_of_interior2. simpl. lia. }
  { eapply shape2_inb; [done|lia..]. }
  set (U' := sweep_list set2p (upd2 ax ay cx cy d_rhs omega inv_b)
               (interior2 n m) U) in *.
  assert (get2 Up (i - 1) j = get2 U' (i - 1) j) as E1.
  { apply (Hlo (i - 1, j)%nat). left. simpl. lia. }
  assert (get2 Up i (j - 1) = get2 U' i (j - 1)) as E2.
  { apply (Hlo (i, j - 1)%nat). right. simpl. lia. }
  assert (get2 Up (i + 1) j = get2 U (i + 1) j) as E3.
  { apply (Hhi (i + 1, j)%nat). unfold lt2, lex. simpl. lia. }
  assert (get2 Up i (j + 1) = get2 U i (j + 1)) as E4.
  { apply (Hhi (i, j + 1)%nat). unfold lt2, lex. simpl. lia. }
  assert (get2 Up i j = get2 U i j) as E5.
  { apply (Hhi (i, j)). unfold lt2, lex. simpl. lia. }
  change (get2p U' (i, j)) with (get2 U' i j) in Hv.
  rewrite Hv. unfold upd2, stencil2, gs_value2. simpl.
  rewrite E1, E2, E3, E4, E5, (Hinv i j Hi Hj). unfold Qcdiv. ring.
Qed.

(** One sweep of [relax3d] is a sweep of sequential Gauss-Seidel. *)
Lemma relax3d_sweep_gs ax ay az cx cy cz b d_rhs nx ny nz omega inv_b U :
  shape3 nx ny nz U → inverts3 nx ny nz b inv_b →
  gs_sweep3 ax ay az cx cy cz b d_rhs nx ny nz omega U
    (relax3d_sweep ax ay az cx cy cz d_rhs nx ny nz omega inv_b U).
Proof.
  intros HU Hinv i j k Hi Hj Hk. rewrite relax3d_sweep_list.
  destruct (sweep_sorted get3p set3p inb3 get3p_set3p_eq get3p_set3p_ne
              inb3_set3p (upd3 ax ay az cx cy cz d_rhs omega inv_b) lt3
              (interior3 nx ny nz) U (i, (j, k))) as (Up & Hv & Hlo & Hhi).
  { apply interior3_sorted. }
  { apply elem_of_interior3. simpl. lia. }
  { eapply shape3_inb; [done|lia..]. }
  set (U' := sweep_list set3p (upd3 ax ay az cx cy cz d_rhs omega inv_b)
               (interior3 nx ny nz) U) in *.
  assert (get3 Up (i - 1) j k = get3 U' (i - 1) j k) as E1.
  { apply (Hlo (i - 1, (j, k))%nat). left. simpl. lia. }
  assert (get3 Up i (j - 1) k = get3 U' i (j - 1) k) as E2.
  { apply (Hlo (i, (j - 1, k))%nat). right. split; [done|]. left. simpl. lia. }
  assert (get3 Up i j (k - 1) = get3 U' i j (k - 1)) as E3.
  { apply (Hlo (i, (j, k - 1))%nat). right. split; [done|]. right. simpl. lia. }
  assert (get3 Up (i + 1) j k = get3 U (i + 1) j k) as E4.
  { apply (Hhi (i + 1, (j, k))%nat). unfold lt3, lt2, lex. simpl. lia. }
  assert (get3 Up i (j + 1) k = get3 U i (j + 1) k) as E5.
  { apply (Hhi (i, (j + 1, k))%nat). unfold lt3, lt2, lex. simpl. lia. }
  assert (get3 Up i j (k + 1) = get3 U i j (k + 1)) as E6.
  { apply (Hhi (i, (j, k + 1))%nat). unfold lt3, lt2, lex. simpl. lia. }
  assert (get3 Up i j k = get3 U i j k) as E7.
  { apply (Hhi (i, (j, k))). unfold lt3, lt2, lex. simpl. lia. }
  change (get3p U' (i, (j, k))) with (get3 U' i j k) in Hv.
  rewrite Hv. unfold upd3, stencil3, gs_value3. simpl.
  rewrite E1, E2, E3, E4, E5, E6, E7, (Hinv i j k Hi Hj Hk).
  unfold Qcdiv. ring.
Qed.

(** ** Inverting the diagonal *)

Lemma fdiv_Some (x y z : Qc) : fdiv x y = Some z ↔ y ≠ 0 ∧ z = x / y.
Proof.
  unfold fdiv. destruct (decide (y = 0)) as [->|Hy]; split.
  - done.
  - by intros [? _].
  - intros [= <-]. done.
  - intros [_ ->]. done.
Qed.

Lemma fdiv_None (x y : Qc) : fdiv x y = None ↔ y = 0.
Proof. unfold fdiv. destruct (decide (y = 0)); split; done. Qed.

Lemma mapM_from_Some {A B : Type} (f : nat → A → option B) (i : nat)
    (l : list A) (k : list B) :
  mapM_from f i l = Some k ↔
  length k = length l
  ∧ ∀ j x, l !! j = Some x → ∃ y, k !! j = Some y ∧ f (i + j)%nat x = Some y.
Proof.
  revert i k. induction l as [|x l IH]; intros i k; simpl.
  - split.
    + intros [= <-]. split; [done|]. intros j x Hx. done.
    + intros [Hlen _]. by destruct k.
  - split.
    + intros Hk. destruct (f i x) as [y|] eqn:Hy; simpl in Hk; [|done].
      destruct (mapM_from f (S i) l) as [ys|] eqn:Hys; simpl in Hk; [|done].
      injection Hk as <-. apply IH in Hys as [Hlen Hall].
      split; [simpl; by rewrite Hlen|].
      intros [|j] x' Hx'; simpl in *.
      * injection Hx' as <-. exists y. by rewrite Nat.add_0_r.
      * destruct (Hall j x' Hx') as (y' & Hy' & Hf). exists y'.
        split; [done|]. by rewrite <- Nat.add_succ_comm.
    + intros [Hlen Hall]. destruct k as [|y ys]; [done|].
      destruct (Hall 0%nat x eq_refl) as (y' & [= <-] & Hf).
      rewrite Nat.add_0_r in Hf. rewrite Hf. simpl.
      assert (mapM_from f (S i) l = Some ys) as ->; [|done].
      apply IH. split; [simpl in Hlen; lia|].
      intros j x' Hx'. destruct (Hall (S j) x' Hx') as (y' & Hy' & Hf').
      exists y'. split; [done|]. by rewrite Nat.add_succ_comm.
Qed.

Lemma mapM_from_is_Some {A B : Type} (f : nat → A → option B) (i : nat)
    (l : list A) :
  (∀ j x, l !! j = Some x → is_Some (f (i + j)%nat x)) →
  is_Some (mapM_from f i l).
Proof.
  revert i. induction l as [|x l IH]; intros i Hall; simpl; [done|].
  destruct (Hall 0%nat x eq_refl) as [y Hy]. rewrite Nat.add_0_r in Hy.
  rewrite Hy. simpl. destruct (IH (S i)) as [ys Hys].
  { intros j x' Hx'. rewrite Nat.add_succ_comm. by apply (Hall (S j)). }
  rewrite Hys. done.
Qed.

Lemma inner_spec (len i : nat) :
  inner len i = true ↔ (1 ≤ i < len - 1)%nat.
Proof.
  unfold inner. rewrite andb_true_iff, Nat.leb_le, Nat.ltb_lt. lia.
Qed.

Lemma get2_lookup (U : grid2) (i j : nat) (r : list Qc) (x : Qc) :
  U !! i = Some r → r !! j = Some x → get2 U i j = x.
Proof. intros Hr Hx. unfold get2. by rewrite Hr; simpl; rewrite Hx. Qed.

Lemma get3_lookup (U : grid3) (i j k : nat) (pl : grid2) :
  U !! i = Some pl → get3 U i j k = get2 pl j k.
Proof. intros Hpl. unfold get3, get2. by rewrite Hpl. Qed.

(** Inverting a row, then a plane, of the interior block. *)
Lemma invert_row_Some (g : nat → bool) (r inv : list Qc) :
  mapM_from (λ j x, if g j then fdiv 1 x else Some 0) 0 r = Some inv →
  length inv = length r
  ∧ ∀ j, (j < length r)%nat → g j = true →
      default 0 (r !! j) ≠ 0 ∧ default 0 (inv !! j) = 1 / default 0 (r !! j).
Proof.
  intros H. apply mapM_from_Some in H as [Hlen Hall]. split; [done|].
  intros j Hj Hg. destruct (lookup_lt_is_Some_2 r j Hj) as [x Hx].
  destruct (Hall j x Hx) as (y & Hy & Hf). simpl in Hf. rewrite Hg in Hf.
  apply fdiv_Some in Hf as [Hne ->]. by rewrite Hx, Hy.
Qed.

Lemma invert_row_is_Some (g : nat → bool) (r : list Qc) :
  (∀ j, (j < length r)%nat → g j = true → default 0 (r !! j) ≠ 0) →
  is_Some (mapM_from (λ j x, if g j then fdiv 1 x else Some 0) 0 r).
Proof.
  intros Hnz. apply mapM_from_is_Some. intros j x Hx. simpl.
  destruct (g j) eqn:Hg; [|done].
  assert (x ≠ 0) as Hne.
  { specialize (Hnz j (lookup_lt_Some _ _ _ Hx) Hg). by rewrite Hx in Hnz. }
  unfold fdiv. by destruct (decide (x = 0)).
Qed.

Lemma invert_interior2_Some (n m : nat) (b inv : grid2) :
  shape2 n m b → invert_interior2 b = Some inv →
  shape2 n m inv ∧ inverts2 n m b inv ∧ nonzero_interior2 n m b.
Proof.
  intros [Hn Hm] H. apply mapM_from_Some in H as [Hlen Hall].
  rewrite Forall_lookup in Hm.
  assert (∀ i r, b !! i = Some r → ∃ ri, inv !! i = Some ri
            ∧ length ri = m
            ∧ ∀ j, (j < m)%nat → inner n i && inner m j = true →
                default 0 (r !! j) ≠ 0
                ∧ default 0 (ri !! j) = 1 / default 0 (r !! j)) as Hrow.
  { intros i r Hr. destruct (Hall i r Hr) as (ri & Hri & Hf). simpl in Hf.
    exists ri. split; [done|].
    apply (invert_row_Some (λ j, inner (length b) i && inner (length r) j))
      in Hf as [Hl Hf].
    rewrite (Hm i r Hr), Hn in *. split; [done|]. intros j Hj Hg.
    by apply Hf. }
  split; [|split].
  - split; [congruence|]. apply Forall_lookup. intros i ri Hri.
    destruct (lookup_lt_is_Some_2 b i) as [r Hr].
    { rewrite <- Hlen. by eapply lookup_lt_Some. }
    destruct (Hrow i r Hr) as (ri' & Hri' & Hl & _). congruence.
  - intros i j Hi Hj.
    destruct (lookup_lt_is_Some_2 b i) as [r Hr]; [lia|].
    destruct (Hrow i r Hr) as (ri & Hri & Hl & Hv).
    destruct (Hv j) as [_ Hq]; [lia|..].
    { apply andb_true_iff. split; apply inner_spec; lia. }
    unfold get2. by rewrite Hr, Hri.
  - intros i j Hi Hj.
    destruct (lookup_lt_is_Some_2 b i) as [r Hr]; [lia|].
    destruct (Hrow i r Hr) as (ri & Hri & Hl & Hv).
    destruct (Hv j) as [Hq _]; [lia|..].
    { apply andb_true_iff. split; apply inner_spec; lia. }
    unfold get2. by rewrite Hr.
Qed.

Lemma invert_interior2_is_Some (n m : nat) (b : grid2) :
  shape2 n m b → nonzero_interior2 n m b → is_Some (invert_interior2 b).
Proof.
  intros [Hn Hm] Hnz. rewrite Forall_lookup in Hm.
  apply mapM_from_is_Some. intros i r Hr. simpl.
  apply (invert_row_is_Some (λ j, inner (length b) i && inner (length r) j)).
  intros j Hj Hg. apply andb_true_iff in Hg as [Hi Hg].
  apply inner_spec in Hi, Hg. rewrite (Hm i r Hr) in Hg. rewrite Hn in Hi.
  specialize (Hnz i j Hi Hg). unfold get2 in Hnz. by rewrite Hr in Hnz.
Qed.

Lemma mapM_from_ext {A B : Type} (f f' : nat → A → option B) (i : nat)
    (l : list A) :
  (∀ j x, l !! j = Some x → f (i + j)%nat x = f' (i + j)%nat x) →
  mapM_from f i l = mapM_from f' i l.
Proof.
  revert i. induction l as [|x l IH]; intros i Hext; simpl; [done|].
  pose proof (Hext 0%nat x eq_refl) as H0. rewrite Nat.add_0_r in H0.
  rewrite H0, (IH (S i)); [done|].
  intros j x' Hx'. rewrite Nat.add_succ_comm. by apply (Hext (S j)).
Qed.

Lemma invert_plane_Some (g : nat → nat → bool) (ny nz : nat) (p inv : grid2) :
  shape2 ny nz p → invert_plane g p = Some inv →
  shape2 ny nz inv
  ∧ ∀ j k, (j < ny)%nat → (k < nz)%nat → g j k = true →
      get2 p j k ≠ 0 ∧ get2 inv j k = 1 / get2 p j k.
Proof.
  intros [Hn Hm] H. apply mapM_from_Some in H as [Hlen Hall].
  rewrite Forall_lookup in Hm.
  assert (∀ j r, p !! j = Some r → ∃ ri, inv !! j = Some ri
            ∧ length ri = nz
            ∧ ∀ k, (k < nz)%nat → g j k = true →
                default 0 (r !! k) ≠ 0
                ∧ default 0 (ri !! k) = 1 / default 0 (r !! k)) as Hrow.
  { intros j r Hr. destruct (Hall j r Hr) as (ri & Hri & Hf). simpl in Hf.
    exists ri. split; [done|].
    apply (invert_row_Some (g j)) in Hf as [Hl Hf].
    rewrite (Hm j r Hr) in *. split; [done|]. intros k Hk Hg. by apply Hf. }
  split.
  - split; [congruence|]. apply Forall_lookup. intros j ri Hri.
    destruct (lookup_lt_is_Some_2 p j) as [r Hr].
    { rewrite <- Hlen. by eapply lookup_lt_Some. }
    destruct (Hrow j r Hr) as (ri' & Hri' & Hl & _). congruence.
  - intros j k Hj Hk Hg.
    destruct (lookup_lt_is_Some_2 p j) as [r Hr]; [lia|].
    destruct (Hrow j r Hr) as (ri & Hri & Hl & Hv).
    destruct (Hv k Hk Hg) as [Hq1 Hq2].
    unfold get2. by rewrite Hr, Hri.
Qed.

Lemma invert_plane_is_Some (g : nat → nat → bool) (ny nz : nat) (p : grid2) :
  shape2 ny nz p →
  (∀ j k, (j < ny)%nat → (k < nz)%nat → g j k = true → get2 p j k ≠ 0) →
  is_Some (invert_plane g p).
Proof.
  intros [Hn Hm] Hnz. rewrite Forall_lookup in Hm.
  apply mapM_from_is_Some. intros j r Hr. simpl.
  apply (invert_row_is_Some (g j)). intros k Hk Hg.
  rewrite (Hm j r Hr) in Hk.
  assert (j < ny)%nat as Hj by (rewrite <- Hn; by eapply lookup_lt_Some).
  specialize (Hnz j k Hj Hk Hg). unfold get2 in Hnz. by rewrite Hr in Hnz.
Qed.

Lemma invert_interior3_plane (nx ny nz : nat) (b : grid3) :
  shape3 nx ny nz b →
  invert_interior3 b
  = mapM_from (λ i p,
      invert_plane (λ j k, inner nx i && inner ny j && inner nz k) p) 0 b.
Proof.
  intros [Hn Hm]. rewrite Forall_lookup in Hm. unfold invert_interior3.
  apply mapM_from_ext. intros i p Hp. simpl. unfold invert_plane.
  destruct (Hm i p Hp) as [Hlp Hrows]. rewrite Forall_lookup in Hrows.
  apply mapM_from_ext. intros j r Hr. simpl.
  apply mapM_from_ext. intros k x Hx. simpl.
  by rewrite Hn, Hlp, (Hrows j r Hr).
Qed.

Lemma invert_interior3_Some (nx ny nz : nat) (b inv : grid3) :
  shape3 nx ny nz b → invert_interior3 b = Some inv →
  shape3 nx ny nz inv ∧ inverts3 nx ny nz b inv ∧ nonzero_interior3 nx ny nz b.
Proof.
  intros Hb H. rewrite (invert_interior3_plane nx ny nz b Hb) in H.
  destruct Hb as [Hn Hm]. rewrite Forall_lookup in Hm.
  apply mapM_from_Some in H as [Hlen Hall].
  assert (∀ i p, b !! i = Some p → ∃ pi, inv !! i = Some pi
            ∧ shape2 ny nz pi
            ∧ ∀ j k, (j < ny)%nat → (k < nz)%nat →
                inner nx i && inner ny j && inner nz k = true →
                get2 p j k ≠ 0 ∧ get2 pi j k = 1 / get2 p j k) as Hpl.
  { intros i p Hp. destruct (Hall i p Hp) as (pi & Hpi & Hf). simpl in Hf.
    exists pi. split; [done|].
    by apply (invert_plane_Some _ ny nz p pi (Hm i p Hp)) in Hf. }
  assert (∀ i j k, (1 ≤ i < nx - 1)%nat → (1 ≤ j < ny - 1)%nat →
            (1 ≤ k < nz - 1)%nat →
            inner nx i && inner ny j && inner nz k = true) as Hg.
  { intros i j k Hi Hj Hk. rewrite !andb_true_iff, !inner_spec. lia. }
  split; [|split].
  - split; [congruence|]. apply Forall_lookup. intros i pi Hpi.
    destruct (lookup_lt_is_Some_2 b i) as [p Hp].
    { rewrite <- Hlen. by eapply lookup_lt_Some. }
    destruct (Hpl i p Hp) as (pi' & Hpi' & Hs & _). congruence.
  - intros i j k Hi Hj Hk.
    destruct (lookup_lt_is_Some_2 b i) as [p Hp]; [lia|].
    destruct (Hpl i p Hp) as (pi & Hpi & Hs & Hv).
    destruct (Hv j k) as [_ Hq]; [lia|lia|by apply Hg|].
    by rewrite (get3_lookup b i j k p Hp), (get3_lookup inv i j k pi Hpi).
  - intros i j k Hi Hj Hk.
    destruct (lookup_lt_is_Some_2 b i) as [p Hp]; [lia|].
    destruct (Hpl i p Hp) as (pi & Hpi & Hs & Hv).
    destruct (Hv j k) as [Hq _]; [lia|lia|by apply Hg|].
    by rewrite (get3_lookup b i j k p Hp).
Qed.

Lemma invert_interior3_is_Some (nx ny nz : nat) (b : grid3) :
  shape3 nx ny nz b → nonzero_interior3 nx ny nz b →
  is_Some (invert_interior3 b).
Proof.
  intros Hb Hnz. rewrite (invert_interior3_plane nx ny nz b Hb).
  destruct Hb as [Hn Hm]. rewrite Forall_lookup in Hm.
  apply mapM_from_is_Some. intros i p Hp. simpl.
  apply (invert_plane_is_Some _ ny nz p (Hm i p Hp)).
  intros j k Hj Hk Hg. rewrite !andb_true_iff, !inner_spec in Hg.
  rewrite <- (get3_lookup b i j k p Hp). apply Hnz; lia.
Qed.

(** [1.0 / b] on the whole array, and what the sweeps read of it. *)
Lemma recip_Some (x y : Qc) : recip x = Some y ↔ x ≠ 0 ∧ y = 1 / x.
Proof. apply fdiv_Some. Qed.

Lemma recip_None (x : Qc) : recip x = None ↔ x = 0.
Proof. apply fdiv_None. Qed.

Lemma xget2_invert_all2 (n m : nat) (b : grid2) (i j : nat) :
  shape2 n m b → (i < n)%nat → (j < m)%nat →
  xget2 (invert_all2 b) i j = Some (recip (get2 b i j)).
Proof.
  intros [Hn Hm] Hi Hj. rewrite Forall_lookup in Hm.
  destruct (lookup_lt_is_Some_2 b i) as [r Hr]; [lia|].
  destruct (lookup_lt_is_Some_2 r j) as [x Hx]; [rewrite (Hm i r Hr); lia|].
  unfold xget2, invert_all2. rewrite list_lookup_fmap, Hr. simpl.
  rewrite list_lookup_fmap, Hx. simpl.
  by rewrite (get2_lookup b i j r x Hr Hx).
Qed.

Lemma read_interior2_Some (n m : nat) (b inv : grid2) :
  read_interior2 n m (invert_all2 b) = Some inv →
  length inv = length b
  ∧ ∀ i r, b !! i = Some r →
      ∃ ri, inv !! i = Some ri ∧ length ri = length r
        ∧ ∀ j x, r !! j = Some x →
            ∃ y, ri !! j = Some y
              ∧ if inner n i && inner m j then x ≠ 0 ∧ y = 1 / x
                else y = default 0 (recip x).
Proof.
  intros H. apply mapM_from_Some in H as [Hlen Hall].
  unfold invert_all2 in *. rewrite length_fmap in Hlen. split; [done|].
  intros i r Hr.
  destruct (Hall i (recip <$> r)) as (ri & Hri & Hf).
  { by rewrite list_lookup_fmap, Hr. }
  simpl in Hf. apply mapM_from_Some in Hf as [Hl Hrow].
  rewrite length_fmap in Hl. exists ri. split; [done|]. split; [done|].
  intros j x Hx. destruct (Hrow j (recip x)) as (y & Hy & Hg).
  { by rewrite list_lookup_fmap, Hx. }
  simpl in Hg. exists y. split; [done|].
  destruct (inner n i && inner m j).
  - by apply recip_Some.
  - by injection Hg as <-.
Qed.

Lemma read_interior2_inverts (n m : nat) (b inv : grid2) :
  shape2 n m b → read_interior2 n m (invert_all2 b) = Some inv →
  shape2 n m inv ∧ inverts2 n m b inv ∧ nonzero_interior2 n m b.
Proof.
  intros [Hn Hm] H. apply read_interior2_Some in H as [Hlen Hall].
  rewrite Forall_lookup in Hm.
  assert (∀ i j, (1 ≤ i < n - 1)%nat → (1 ≤ j < m - 1)%nat →
            get2 b i j ≠ 0 ∧ get2 inv i j = 1 / get2 b i j) as Hnode.
  { intros i j Hi Hj.
    destruct (lookup_lt_is_Some_2 b i) as [r Hr]; [lia|].
    destruct (lookup_lt_is_Some_2 r j) as [x Hx]; [rewrite (Hm i r Hr); lia|].
    destruct (Hall i r Hr) as (ri & Hri & _ & Hrow).
    destruct (Hrow j x Hx) as (y & Hy & Hg).
    rewrite (proj2 (inner_spec n i) Hi), (proj2 (inner_spec m j) Hj) in Hg.
    simpl in Hg. destruct Hg as [Hne ->].
    by rewrite (get2_lookup b i j r x Hr Hx), (get2_lookup inv i j ri _ Hri Hy). }
  split; [|split].
  - split; [congruence|]. apply Forall_lookup. intros i ri Hri.
    destruct (lookup_lt_is_Some_2 b i) as [r Hr].
    { rewrite <- Hlen. by eapply lookup_lt_Some. }
    destruct (Hall i r Hr) as (ri' & Hri' & Hl & _).
    rewrite <- (Hm i r Hr). congruence.
  - intros i j Hi Hj. by apply Hnode.
  - intros i j Hi Hj. by apply Hnode.
Qed.

Lemma read_interior2_is_Some (n m : nat) (b : grid2) :
  nonzero_interior2 n m b → is_Some (read_interior2 n m (invert_all2 b)).
Proof.
  intros Hnz. apply mapM_from_is_Some. intros i r' Hr'. simpl.
  unfold invert_all2 in Hr'. rewrite list_lookup_fmap in Hr'.
  destruct (b !! i) as [r|] eqn:Hr; simpl in Hr'; [|done].
  injection Hr' as <-. apply mapM_from_is_Some. intros j x' Hx'. simpl.
  rewrite list_lookup_fmap in Hx'.
  destruct (r !! j) as [x|] eqn:Hx; simpl in Hx'; [|done].
  injection Hx' as <-.
  destruct (inner n i && inner m j) eqn:Hg; [|done].
  apply andb_true_iff in Hg as [Hi Hj]. apply inner_spec in Hi, Hj.
  specialize (Hnz i j Hi Hj). rewrite (get2_lookup b i j r x Hr Hx) in Hnz.
  unfold recip. by rewrite decide_False.
Qed.

(** Outside the interior the array handed to the sweeps holds [0] at a zero
    of [b], and the reciprocal elsewhere. *)
Lemma read_interior2_ring (n m : nat) (b inv : grid2) (i j : nat) :
  shape2 n m b → read_interior2 n m (invert_all2 b) = Some inv →
  (i < n)%nat → (j < m)%nat → boundary2 n m i j →
  get2 inv i j = default 0 (recip (get2 b i j)).
Proof.
  intros [Hn Hm] H Hi Hj Hbd. apply read_interior2_Some in H as [Hlen Hall].
  rewrite Forall_lookup in Hm.
  destruct (lookup_lt_is_Some_2 b i) as [r Hr]; [lia|].
  destruct (lookup_lt_is_Some_2 r j) as [x Hx]; [rewrite (Hm i r Hr); lia|].
  destruct (Hall i r Hr) as (ri & Hri & _ & Hrow).
  destruct (Hrow j x Hx) as (y & Hy & Hg).
  assert (inner n i && inner m j = false) as Hin.
  { apply andb_false_iff. destruct (inner n i) eqn:E1; [|by left].
    destruct (inner m j) eqn:E2; [|by right].
    apply inner_spec in E1, E2. unfold boundary2 in Hbd. lia. }
  rewrite Hin in Hg.
  by rewrite (get2_lookup b i j r x Hr Hx), (get2_lookup inv i j ri y Hri Hy).
Qed.

(** ** While loops *)

Lemma gtb_false (x y : Qc) : gtb x y = false ↔ x <= y.
Proof.
  unfold gtb. split.
  - intros H. destruct (x ?= y) eqn:Hc; [| |done].
    + apply Qceq_alt in Hc. rewrite Hc. apply Qcle_refl.
    + apply Qclt_alt in Hc. by apply Qclt_le_weak.
  - intros H. destruct (x ?= y) eqn:Hc; [done..|].
    apply Qcgt_alt in Hc. by apply Qcle_not_lt in H.
Qed.

Lemma gtb_true (x y : Qc) : gtb x y = true ↔ y < x.
Proof.
  unfold gtb. split.
  - intros H. destruct (x ?= y) eqn:Hc; [done..|]. by apply Qcgt_alt.
  - intros H. apply Qcgt_alt in H. by rewrite H.
Qed.

Section While.
Context {St : Type}.
Variables (cond : St → bool) (body : St → St).

Lemma while_loop_iter (fuel : nat) (s s' : St) :
  while_loop cond body fuel s = Some s' ↔
  ∃ k, (k ≤ fuel)%nat ∧ s' = Nat.iter k body s ∧ cond s' = false
       ∧ ∀ j, (j < k)%nat → cond (Nat.iter j body s) = true.
Proof.
  revert s. induction fuel as [|fuel IH]; intros s; simpl.
  - destruct (cond s) eqn:Hc; split.
    + done.
    + intros (k & Hk & -> & Hf & _). assert (k = 0%nat) as -> by lia.
      simpl in Hf. congruence.
    + intros [= <-]. exists 0%nat. split; [lia|]. split; [done|].
      split; [done|]. intros j Hj. lia.
    + intros (k & Hk & -> & Hf & Hj). assert (k = 0%nat) as -> by lia. done.
  - destruct (cond s) eqn:Hc; split.
    + intros H. apply IH in H as (k & Hk & -> & Hf & Hj).
      exists (S k). split; [lia|]. rewrite <- Nat.iter_succ_r in *.
      split; [done|]. split; [done|]. intros [|j] Hlt; [done|].
      rewrite Nat.iter_succ_r. apply Hj. lia.
    + intros (k & Hk & -> & Hf & Hj). destruct k as [|k].
      { simpl in Hf. congruence. }
      apply IH. exists k. split; [lia|]. rewrite <- Nat.iter_succ_r.
      split; [done|]. split; [done|]. intros j Hlt.
      rewrite <- Nat.iter_succ_r. apply Hj. lia.
    + intros [= <-]. exists 0%nat. split; [lia|]. split; [done|].
      split; [done|]. intros j Hj. lia.
    + intros (k & Hk & -> & Hf & Hj). destruct k as [|k]; [done|].
      specialize (Hj 0%nat). simpl in Hj. rewrite Hj in Hc; [done|lia].
Qed.

(** A property kept by the body holds when the loop returns. *)
Lemma while_loop_inv (P : St → Prop) (fuel : nat) (s s' : St) :
  (∀ s, P s → P (body s)) → P s →
  while_loop cond body fuel s = Some s' → P s'.
Proof.
  intros Hbody. revert s. induction fuel as [|fuel IH]; intros s Hs; simpl.
  - destruct (cond s); [done|]. by intros [= <-].
  - destruct (cond s); [|by intros [= <-]]. apply IH. by apply Hbody.
Qed.

Lemma iter_inv (P : St → Prop) (k : nat) (s : St) :
  (∀ s, P s → P (body s)) → P s → P (Nat.iter k body s).
Proof.
  intros Hbody Hs. induction k as [|k IH]; simpl; [done|]. by apply Hbody.
Qed.
End While.

(** The loop whose body may fault. *)
Lemma while_loopM_Some {St : Type} (cond : St → bool) (body : St → St)
    (fuel : nat) (s : St) :
  while_loopM cond (λ s, Some (body s)) fuel s = while_loop cond body fuel s.
Proof.
  revert s. induction fuel as [|fuel IH]; intros s; simpl; [done|].
  destruct (cond s); [|done]. apply IH.
Qed.

Lemma while_loopM_skip {St : Type} (cond : St → bool) (body : St → option St)
    (fuel : nat) (s : St) :
  cond s = false → while_loopM cond body fuel s = Some s.
Proof. intros H. destruct fuel; simpl; by rewrite H. Qed.

Lemma while_loopM_None {St : Type} (cond : St → bool) (fuel : nat) (s : St) :
  cond s = true → while_loopM cond (λ _, None) fuel s = None.
Proof. intros H. destruct fuel; simpl; by rewrite H. Qed.

Lemma while_loopM_inv {St : Type} (cond : St → bool) (body : St → option St)
    (P : St → Prop) (fuel : nat) (s s' : St) :
  (∀ s s', P s → body s = Some s' → P s') → P s →
  while_loopM cond body fuel s = Some s' → P s'.
Proof.
  intros Hbody. revert s. induction fuel as [|fuel IH]; intros s Hs; simpl.
  - destruct (cond s); [done|]. by intros [= <-].
  - destruct (cond s); [|by intros [= <-]].
    destruct (body s) as [s1|] eqn:H1; simpl; [|done].
    apply IH. by eapply Hbody.
Qed.

(** ** Termination of the relaxation loops *)

Lemma first_false (p : nat → bool) (N : nat) :
  p N = false →
  ∃ k, (k ≤ N)%nat ∧ p k = false ∧ ∀ j, (j < k)%nat → p j = true.
Proof.
  revert p. induction N as [|N IH]; intros p HN.
  - exists 0%nat. split; [done|]. split; [done|]. intros j Hj. lia.
  - destruct (p 0%nat) eqn:H0.
    + destruct (IH (λ j, p (S j)) HN) as (k & Hk & Hf & Hj).
      exists (S k). split; [lia|]. split; [done|].
      intros [|j] Hlt; [done|]. apply Hj. lia.
    + exists 0%nat. split; [lia|]. split; [done|]. intros j Hj. lia.
Qed.

Section SorLoop.
Context {St : Type}.
Variables (err : St → Qc) (it : St → Z) (cond : St → bool) (body : St → St).
Variables (eps : Qc) (max_iter min_iter : Z).
Hypothesis cond_def : ∀ s, (0 ≤ it s)%Z →
  cond s = (gtb (err s) eps && (it s <? max_iter)%Z) || (it s <? min_iter)%Z.
Hypothesis body_it : ∀ s, it (body s) = (it s + 1)%Z.

Lemma iter_it (k : nat) (s : St) :
  it (Nat.iter k body s) = (it s + Z.of_nat k)%Z.
Proof.
  induction k as [|k IH]; simpl; [lia|]. rewrite body_it, IH. lia.
Qed.

(** While the counter is within [0 .. max_iter], the loop condition fails
    exactly when the stopping rule holds. *)
Lemma cond_stop (s : St) :
  (min_iter ≤ max_iter)%Z → (0 ≤ it s ≤ max_iter)%Z →
  cond s = false ↔ stop_spec (err s) eps (it s) max_iter min_iter.
Proof.
  intros Hmm Hit. rewrite cond_def, orb_false_iff, andb_false_iff by lia.
  rewrite gtb_false, !Z.ltb_ge. unfold stop_spec. split.
  - intros [[He|Hm] Hmin]; [left; done|right; lia].
  - intros [[He Hmin]|Hm]; [split; [by left|done]|split; [right|]; lia].
Qed.

Lemma sor_loop_stops (init : St) :
  it init = 0%Z → (0 ≤ min_iter)%Z → (min_iter ≤ max_iter)%Z →
  ∃ k, sor_stops err it cond body init eps max_iter min_iter k.
Proof.
  intros H0 Hmin Hmm.
  destruct (first_false (λ j, cond (Nat.iter j body init))
              (Z.to_nat max_iter)) as (k & Hk & Hf & Hj).
  { rewrite cond_def, iter_it, H0 by (rewrite iter_it, H0; lia).
    rewrite (proj2 (Z.ltb_ge _ _)), (proj2 (Z.ltb_ge _ _)) by lia.
    by rewrite andb_false_r. }
  exists k. unfold sor_stops.
  assert (∀ j, (j ≤ k)%nat → (0 ≤ it (Nat.iter j body init) ≤ max_iter)%Z)
    as Hle.
  { intros j Hjk. rewrite iter_it, H0. lia. }
  split; [lia|]. split; [rewrite iter_it, H0; lia|]. split; [|split].
  - apply cond_stop; [done|by apply Hle|done].
  - intros j Hlt Hstop. apply cond_stop in Hstop; [|done|apply Hle; lia].
    rewrite Hj in Hstop; done.
  - intros fuel Hfuel. apply while_loop_iter. exists k.
    split; [lia|]. done.
Qed.
End SorLoop.

Lemma relax2d_run_unfold ax ay cx cy b d_rhs n m U_initial omega eps max_iter
    fuel inv_b :
  invert_interior2 b = Some inv_b →
  relax2d_run ax ay cx cy b d_rhs n m U_initial omega eps max_iter fuel
  = while_loop (relax2d_cond eps max_iter)
      (relax2d_body ax ay cx cy d_rhs n m omega inv_b) fuel
      (relax2d_init U_initial).
Proof. intros H. unfold relax2d_run. by rewrite H. Qed.

Lemma relax_run_unfold ax ay cx cy b d_rhs n m U_initial alfa eps max_iter
    fuel inv_b :
  read_interior2 n m (invert_all2 b) = Some inv_b →
  relax_run ax ay cx cy b d_rhs n m U_initial alfa eps max_iter fuel
  = while_loop (relax_cond eps max_iter)
      (relax_body ax ay cx cy d_rhs n m alfa inv_b) fuel
      (relax_init U_initial).
Proof.
  intros H. unfold relax_run, relax_pass. rewrite H. simpl.
  apply while_loopM_Some.
Qed.

(** When a sweep would read an [inf], [relax] returns a field exactly when
    the loop is not entered. *)
Lemma relax_run_inf ax ay cx cy b d_rhs n m U_initial alfa eps max_iter fuel :
  read_interior2 n m (invert_all2 b) = None →
  relax_run ax ay cx cy b d_rhs n m U_initial alfa eps max_iter fuel
  = if relax_cond eps max_iter (relax_init U_initial) then None
    else Some (relax_init U_initial).
Proof.
  intros H. unfold relax_run, relax_pass. rewrite H. simpl.
  destruct (relax_cond eps max_iter (relax_init U_initial)) eqn:Hc.
  - by apply while_loopM_None.
  - by apply while_loopM_skip.
Qed.

Lemma relax_pass_Some ax ay cx cy b d_rhs n m alfa s s' :
  relax_pass ax ay cx cy d_rhs n m alfa (invert_all2 b) s = Some s' →
  ∃ inv_b, read_interior2 n m (invert_all2 b) = Some inv_b
           ∧ s' = relax_body ax ay cx cy d_rhs n m alfa inv_b s.
Proof.
  unfold relax_pass. intros H.
  destruct (read_interior2 n m (invert_all2 b)) as [inv_b|]; simpl in H;
    [|done].
  injection H as <-. by exists inv_b.
Qed.

Lemma relax3d_run_unfold ax ay az cx cy cz b d_rhs nx ny nz U_initial omega
    eps max_iter min_iter fuel inv_b :
  invert_interior3 b = Some inv_b →
  relax3d_run ax ay az cx cy cz b d_rhs nx ny nz U_initial omega eps max_iter
    min_iter fuel
  = while_loop (relax3d_cond eps max_iter min_iter)
      (relax3d_body ax ay az cx cy cz d_rhs nx ny nz omega inv_b) fuel
      (relax3d_init U_initial).
Proof. intros H. unfold relax3d_run. by rewrite H. Qed.

Lemma relax_body_it ax ay cx cy d_rhs n m alfa inv_b s :
  s_it (relax_body ax ay cx cy d_rhs n m alfa inv_b s) = (s_it s + 1)%Z.
Proof.
  unfold relax_body.
  by destruct (relax_sweep ax ay cx cy d_rhs n m alfa inv_b (s_U s)).
Qed.

Lemma relax_body_U ax ay cx cy d_rhs n m alfa inv_b s :
  s_U (relax_body ax ay cx cy d_rhs n m alfa inv_b s)
  = relax2d_sweep ax ay cx cy d_rhs n m alfa inv_b (s_U s).
Proof.
  rewrite <- relax_sweep_fst. unfold relax_body.
  by destruct (relax_sweep ax ay cx cy d_rhs n m alfa inv_b (s_U s)).
Qed.

(** C3. With [max_iter >= min_iter >= 0] the sweep loop of every variant
    terminates: it performs some number [k] of sweeps, [k] being the first
    count at which (the error is at most [eps] and the count is at least the
    floor) or the count equals [max_iter]; so [k <= max_iter], and the loop
    returns the state reached after [k] sweeps.  The floor is [min_iter] in
    [relax3d], [0] in [relax], and the literal [100] in [relax2d], whose
    ceiling must then be at least [100]. *)
Theorem C3_sweep_loop_stops
    (ax ay cx cy d_rhs inv_b U_initial : grid2) (n m : nat)
    (ax3 ay3 az3 cx3 cy3 cz3 d_rhs3 inv_b3 U_initial3 : grid3)
    (nx ny nz : nat) (omega eps : Qc) (max_iter min_iter : Z) :
  (0 ≤ min_iter)%Z → (min_iter ≤ max_iter)%Z →
  (∃ k, sor_stops s3_err s3_it (relax3d_cond eps max_iter min_iter)
          (relax3d_body ax3 ay3 az3 cx3 cy3 cz3 d_rhs3 nx ny nz omega inv_b3)
          (relax3d_init U_initial3) eps max_iter min_iter k)
  ∧ (∃ k, sor_stops s_err s_it (relax_cond eps max_iter)
            (relax_body ax ay cx cy d_rhs n m omega inv_b)
            (relax_init U_initial) eps max_iter 0 k)
  ∧ ((100 ≤ max_iter)%Z →
     ∃ k, sor_stops s2_err s2_it (relax2d_cond eps max_iter)
            (relax2d_body ax ay cx cy d_rhs n m omega inv_b)
            (relax2d_init U_initial) eps max_iter 100 k).
Proof.
  intros Hmin Hmm. split; [|split].
  - apply sor_loop_stops; [done| |done..]. intros s. done.
  - apply sor_loop_stops; [| |done|lia..].
    + intros s Hs. unfold relax_cond.
      rewrite (proj2 (Z.ltb_ge (s_it s) 0)) by lia. by rewrite orb_false_r.
    + apply relax_body_it.
  - intros H100. apply sor_loop_stops; [done| |done|lia..]. intros s. done.
Qed.

Lemma C3_sweep_loop_stops_witness :
  (0 ≤ 2)%Z ∧ (2 ≤ 100)%Z
  ∧ (∃ k, sor_stops s3_err s3_it (relax3d_cond (qc 1 10) 100 2)
            (relax3d_body ex_zero3 ex_zero3 ex_zero3 ex_zero3 ex_zero3
               ex_zero3 ex_one3 3 3 3 (qc 9 5) ex_b3)
            (relax3d_init ex_zero3) (qc 1 10) 100 2 k)
  ∧ (∃ k, sor_stops s_err s_it (relax_cond (qc 1 10) 100)
            (relax_body ex_zero2 ex_zero2 ex_zero2 ex_zero2 ex_one2 3 3
               (qc 9 5) ex_b2)
            (relax_init ex_zero2) (qc 1 10) 100 0 k)
  ∧ ((100 ≤ 100)%Z →
     ∃ k, sor_stops s2_err s2_it (relax2d_cond (qc 1 10) 100)
            (relax2d_body ex_zero2 ex_zero2 ex_zero2 ex_zero2 ex_one2 3 3
               (qc 9 5) ex_b2)
            (relax2d_init ex_zero2) (qc 1 10) 100 100 k).
Proof.
  split; [lia|]. split; [lia|].
  apply (C3_sweep_loop_stops ex_zero2 ex_zero2 ex_zero2 ex_zero2 ex_one2 ex_b2
           ex_zero2 3 3 ex_zero3 ex_zero3 ex_zero3 ex_zero3 ex_zero3 ex_zero3
           ex_one3 ex_b3 ex_zero3 3 3 3 (qc 9 5) (qc 1 10) 100 2); lia.
Defined.

(** ** The loops return, whatever the bounds *)

Section SorLoopAny.
Context {St : Type}.
Variables (err : St → Qc) (it : St → Z) (cond : St → bool) (body : St → St).
Variables (eps : Qc) (max_iter min_iter : Z).
Hypothesis cond_def : ∀ s, (0 ≤ it s)%Z →
  cond s = (gtb (err s) eps && (it s <? max_iter)%Z) || (it s <? min_iter)%Z.
Hypothesis body_it : ∀ s, it (body s) = (it s + 1)%Z.

Lemma sor_loop_returns (init : St) (fuel : nat) :
  it init = 0%Z → (Z.to_nat (Z.max max_iter min_iter) ≤ fuel)%nat →
  ∃ k, (k ≤ Z.to_nat (Z.max max_iter min_iter))%nat
       ∧ while_loop cond body fuel init = Some (Nat.iter k body init).
Proof.
  intros H0 Hfuel.
  destruct (first_false (λ j, cond (Nat.iter j body init))
              (Z.to_nat (Z.max max_iter min_iter))) as (k & Hk & Hf & Hj).
  { rewrite cond_def; rewrite (iter_it it body body_it), H0; [|lia].
    rewrite (proj2 (Z.ltb_ge _ _)), (proj2 (Z.ltb_ge _ _)) by lia.
    by rewrite andb_false_r. }
  exists k. split; [done|]. apply while_loop_iter. exists k.
  split; [lia|]. done.
Qed.

(** A floor above the ceiling wins: the loop performs exactly [min_iter]
    sweeps. *)
Lemma sor_loop_floor (init : St) (fuel : nat) :
  it init = 0%Z → (0 ≤ min_iter)%Z → (max_iter < min_iter)%Z →
  (Z.to_nat min_iter ≤ fuel)%nat →
  while_loop cond body fuel init
  = Some (Nat.iter (Z.to_nat min_iter) body init).
Proof.
  intros H0 Hmin Hlt Hfuel. apply while_loop_iter.
  exists (Z.to_nat min_iter). split; [done|]. split; [done|]. split.
  - rewrite cond_def; rewrite (iter_it it body body_it), H0; [|lia].
    rewrite (proj2 (Z.ltb_ge _ _)), (proj2 (Z.ltb_ge _ _)) by lia.
    by rewrite andb_false_r.
  - intros j Hj. rewrite cond_def; rewrite (iter_it it body body_it), H0;
      [|lia].
    rewrite (proj2 (Z.ltb_lt _ min_iter)) by lia. by rewrite orb_true_r.
Qed.
End SorLoopAny.

(** [relax2d] and [relax3d] return a field as soon as [b] is nonzero on the
    interior: the ring of [b] is never divided. *)
Lemma relax2d_returns ax ay cx cy b d_rhs n m U_initial omega eps max_iter
    fuel :
  shape2 n m b → nonzero_interior2 n m b →
  (Z.to_nat (Z.max max_iter 100) ≤ fuel)%nat →
  is_Some (relax2d ax ay cx cy b d_rhs n m U_initial omega eps max_iter fuel).
Proof.
  intros Hb Hnz Hfuel.
  destruct (invert_interior2_is_Some n m b Hb Hnz) as [inv_b Hinv].
  unfold relax2d. rewrite (relax2d_run_unfold _ _ _ _ _ _ _ _ _ _ _ _ _ _ Hinv).
  destruct (sor_loop_returns s2_err s2_it (relax2d_cond eps max_iter)
              (relax2d_body ax ay cx cy d_rhs n m omega inv_b) eps max_iter 100
              (λ s _, eq_refl) (λ s, eq_refl) (relax2d_init U_initial) fuel
              eq_refl Hfuel) as (k & _ & ->).
  done.
Qed.

Lemma relax3d_returns ax ay az cx cy cz b d_rhs nx ny nz U_initial omega eps
    max_iter min_iter fuel :
  shape3 nx ny nz b → nonzero_interior3 nx ny nz b →
  (Z.to_nat (Z.max max_iter min_iter) ≤ fuel)%nat →
  is_Some (relax3d ax ay az cx cy cz b d_rhs nx ny nz U_initial omega eps
             max_iter min_iter fuel).
Proof.
  intros Hb Hnz Hfuel.
  destruct (invert_interior3_is_Some nx ny nz b Hb Hnz) as [inv_b Hinv].
  unfold relax3d.
  rewrite (relax3d_run_unfold _ _ _ _ _ _ _ _ _ _ _ _ _ _ _ _ _ _ Hinv).
  destruct (sor_loop_returns s3_err s3_it (relax3d_cond eps max_iter min_iter)
              (relax3d_body ax ay az cx cy cz d_rhs nx ny nz omega inv_b) eps
              max_iter min_iter (λ s _, eq_refl) (λ s, eq_refl)
              (relax3d_init U_initial) fuel eq_refl Hfuel) as (k & _ & ->).
  done.
Qed.

(** [relax] returns a field as soon as [b] is nonzero on the interior,
    whatever its ring holds. *)
Lemma relax_returns_interior ax ay cx cy b d_rhs n m U_initial alfa eps
    max_iter fuel :
  nonzero_interior2 n m b → (Z.to_nat max_iter ≤ fuel)%nat →
  is_Some (relax ax ay cx cy b d_rhs n m U_initial alfa eps max_iter fuel).
Proof.
  intros Hb Hfuel. destruct (read_interior2_is_Some n m b Hb) as [inv_b Hinv].
  unfold relax. rewrite (relax_run_unfold _ _ _ _ _ _ _ _ _ _ _ _ _ _ Hinv).
  destruct (sor_loop_returns s_err s_it (relax_cond eps max_iter)
              (relax_body ax ay cx cy d_rhs n m alfa inv_b) eps max_iter 0)
    with (init := relax_init U_initial) (fuel := fuel) as (k & _ & ->).
  - intros s Hs. unfold relax_cond.
    rewrite (proj2 (Z.ltb_ge (s_it s) 0)) by lia. by rewrite orb_false_r.
  - apply relax_body_it.
  - done.
  - lia.
  - done.
Qed.

(** ** The boundary ring *)

Lemma relax2d_boundary ax ay cx cy b d_rhs n m U_initial omega eps max_iter
    fuel U i j :
  relax2d ax ay cx cy b d_rhs n m U_initial omega eps max_iter fuel = Some U →
  boundary2 n m i j → get2 U i j = get2 U_initial i j.
Proof.
  unfold relax2d, relax2d_run. intros H Hb.
  destruct (invert_interior2 b) as [inv_b|]; simpl in H; [|done].
  destruct (while_loop _ _ _ _) as [s|] eqn:Hs; simpl in H; [|done].
  injection H as <-. revert Hs.
  apply (while_loop_inv _ _
    (λ s, get2 (s2_U s) i j = get2 U_initial i j)); [|done].
  intros s0 IH. simpl. rewrite relax2d_sweep_frame; [done|].
  by apply boundary2_not_interior.
Qed.

Lemma relax_boundary ax ay cx cy b d_rhs n m U_initial alfa eps max_iter
    fuel U i j :
  relax ax ay cx cy b d_rhs n m U_initial alfa eps max_iter fuel = Some U →
  boundary2 n m i j → get2 U i j = get2 U_initial i j.
Proof.
  unfold relax, relax_run. intros H Hb.
  destruct (while_loopM _ _ _ _) as [s|] eqn:Hs; simpl in H; [|done].
  injection H as <-. revert Hs.
  apply (while_loopM_inv _ _
    (λ s, get2 (s_U s) i j = get2 U_initial i j)); [|done].
  intros s0 s1 IH Hp. apply relax_pass_Some in Hp as (inv_b & _ & ->).
  rewrite relax_body_U, relax2d_sweep_frame; [done|].
  by apply boundary2_not_interior.
Qed.

Lemma relax3d_boundary ax ay az cx cy cz b d_rhs nx ny nz U_initial omega eps
    max_iter min_iter fuel U i j k :
  relax3d ax ay az cx cy cz b d_rhs nx ny nz U_initial omega eps max_iter
    min_iter fuel = Some U →
  boundary3 nx ny nz i j k → get3 U i j k = get3 U_initial i j k.
Proof.
  unfold relax3d, relax3d_run. intros H Hb.
  destruct (invert_interior3 b) as [inv_b|]; simpl in H; [|done].
  destruct (while_loop _ _ _ _) as [s|] eqn:Hs; simpl in H; [|done].
  injection H as <-. revert Hs.
  apply (while_loop_inv _ _
    (λ s, get3 (s3_U s) i j k = get3 U_initial i j k)); [|done].
  intros s0 IH. simpl. rewrite relax3d_sweep_frame; [done|].
  by apply boundary3_not_interior.
Qed.

(** C2. Whatever the inputs, the field returned by [relax2d], by [relax]
    and by [relax3d] equals the initial guess at every node whose index is
    [0] or [N - 1] on some axis.  A field is returned whenever [b] has the
    shape of the grid and is nonzero at the interior nodes, whatever the
    ring of [b] holds. *)
Theorem C2_boundary_ring_untouched
    (ax ay cx cy b d_rhs U_initial : grid2) (n m : nat)
    (ax3 ay3 az3 cx3 cy3 cz3 b3 d_rhs3 U_initial3 : grid3) (nx ny nz : nat)
    (omega eps : Qc) (max_iter min_iter : Z) (fuel : nat) :
  (∀ U i j,
     relax2d ax ay cx cy b d_rhs n m U_initial omega eps max_iter fuel
     = Some U →
     boundary2 n m i j → get2 U i j = get2 U_initial i j)
  ∧ (∀ U i j,
       relax ax ay cx cy b d_rhs n m U_initial omega eps max_iter fuel
       = Some U →
       boundary2 n m i j → get2 U i j = get2 U_initial i j)
  ∧ (∀ U i j k,
       relax3d ax3 ay3 az3 cx3 cy3 cz3 b3 d_rhs3 nx ny nz U_initial3 omega
         eps max_iter min_iter fuel = Some U →
       boundary3 nx ny nz i j k → get3 U i j k = get3 U_initial3 i j k)
  ∧ (shape2 n m b → nonzero_interior2 n m b →
     ((Z.to_nat (Z.max max_iter 100) ≤ fuel)%nat →
      is_Some (relax2d ax ay cx cy b d_rhs n m U_initial omega eps max_iter
                 fuel))
     ∧ ((Z.to_nat max_iter ≤ fuel)%nat →
        is_Some (relax ax ay cx cy b d_rhs n m U_initial omega eps max_iter
                   fuel)))
  ∧ (shape3 nx ny nz b3 → nonzero_interior3 nx ny nz b3 →
     (Z.to_nat (Z.max max_iter min_iter) ≤ fuel)%nat →
     is_Some (relax3d ax3 ay3 az3 cx3 cy3 cz3 b3 d_rhs3 nx ny nz U_initial3
                omega eps max_iter min_iter fuel)).
Proof.
  split; [|split; [|split; [|split]]].
  - intros U i j. apply relax2d_boundary.
  - intros U i j. apply relax_boundary.
  - intros U i j k. apply relax3d_boundary.
  - intros Hb Hnz. split; intros Hfuel.
    + by apply relax2d_returns.
    + by apply relax_returns_interior.
  - intros Hb Hnz Hfuel. by apply relax3d_returns.
Qed.

Lemma C2_boundary_ring_untouched_witness :
  (∃ U, relax2d ex_one2 ex_one2 ex_one2 ex_one2 ex_b2 ex_one2 3 3 ex_one2
          (qc 9 5) (qc 1 10) 50 200 = Some U
        ∧ get2 U 0 1 = get2 ex_one2 0 1)
  ∧ (∃ U, relax ex_one2 ex_one2 ex_one2 ex_one2 ex_b2 ex_one2 3 3 ex_one2
            (qc 9 5) (qc 1 10) 50 200 = Some U
          ∧ get2 U 2 1 = get2 ex_one2 2 1)
  ∧ (∃ U, relax3d ex_one3 ex_one3 ex_one3 ex_one3 ex_one3 ex_one3 ex_b3
            ex_one3 3 3 3 ex_one3 (qc 9 5) (qc 1 10) 50 2 200 = Some U
          ∧ get3 U 1 1 2 = get3 ex_one3 1 1 2).
Proof.
  pose proof (C2_boundary_ring_untouched ex_one2 ex_one2 ex_one2 ex_one2
    ex_b2 ex_one2 ex_one2 3 3 ex_one3 ex_one3 ex_one3 ex_one3 ex_one3
    ex_one3 ex_b3 ex_one3 ex_one3 3 3 3 (qc 9 5) (qc 1 10) 50 2 200)
    as (H2 & H & H3 & _).
  split; [|split].
  - set (r := relax2d ex_one2 ex_one2 ex_one2 ex_one2 ex_b2 ex_one2 3 3
                ex_one2 (qc 9 5) (qc 1 10) 50 200) in *.
    assert (r = Some (default [] r)) as HU by (vm_compute; reflexivity).
    exists (default [] r). split; [exact HU|].
    apply (H2 _ 0%nat 1%nat HU). left. reflexivity.
  - set (r := relax ex_one2 ex_one2 ex_one2 ex_one2 ex_b2 ex_one2 3 3
                ex_one2 (qc 9 5) (qc 1 10) 50 200) in *.
    assert (r = Some (default [] r)) as HU by (vm_compute; reflexivity).
    exists (default [] r). split; [exact HU|].
    apply (H _ 2%nat 1%nat HU). right. left. reflexivity.
  - set (r := relax3d ex_one3 ex_one3 ex_one3 ex_one3 ex_one3 ex_one3 ex_b3
                ex_one3 3 3 3 ex_one3 (qc 9 5) (qc 1 10) 50 2 200) in *.
    assert (r = Some (default [] r)) as HU by (vm_compute; reflexivity).
    exists (default [] r). split; [exact HU|].
    apply (H3 _ 1%nat 1%nat 2%nat HU). do 5 right. reflexivity.
Defined.

(** ** Every sweep is a Gauss-Seidel sweep *)

Lemma relax2d_iter_shape ax ay cx cy d_rhs n m omega inv_b U_initial k :
  shape2 n m U_initial →
  shape2 n m (s2_U (Nat.iter k (relax2d_body ax ay cx cy d_rhs n m omega inv_b)
                      (relax2d_init U_initial))).
Proof.
  intros HU. apply (iter_inv _ (λ s, shape2 n m (s2_U s))); [|done].
  intros s Hs. simpl. by apply relax2d_sweep_shape.
Qed.

Lemma relax_iter_shape ax ay cx cy d_rhs n m alfa inv_b U_initial k :
  shape2 n m U_initial →
  shape2 n m (s_U (Nat.iter k (relax_body ax ay cx cy d_rhs n m alfa inv_b)
                     (relax_init U_initial))).
Proof.
  intros HU. apply (iter_inv _ (λ s, shape2 n m (s_U s))); [|done].
  intros s Hs. rewrite relax_body_U. by apply relax2d_sweep_shape.
Qed.

Lemma relax3d_iter_shape ax ay az cx cy cz d_rhs nx ny nz omega inv_b
    U_initial k :
  shape3 nx ny nz U_initial →
  shape3 nx ny nz
    (s3_U (Nat.iter k
             (relax3d_body ax ay az cx cy cz d_rhs nx ny nz omega inv_b)
             (relax3d_init U_initial))).
Proof.
  intros HU. apply (iter_inv _ (λ s, shape3 nx ny nz (s3_U s))); [|done].
  intros s Hs. simpl. by apply relax3d_sweep_shape.
Qed.

(** C1. Let the arrays have the shape of the grid and let [b] be nonzero
    at every interior node, whatever its ring holds.  Then the sweeps of
    [relax2d], of [relax] and of [relax3d] read rational reciprocals
    [inv_b], and every sweep takes the field [U] before the sweep to a
    field [U'] with, at every interior node,
    [U'[i,j] = omega * t + (1 - omega) * U[i,j]] where
    [t = (ax*U'[i-1,j] + cx*U[i+1,j] + ay*U'[i,j-1] + cy*U[i,j+1] - d_rhs) / b]:
    the neighbours at lower indices carry the values of the current sweep,
    those at higher indices the values of the previous one.  In three
    dimensions the same holds with six neighbours. *)
Theorem C1_every_sweep_is_gauss_seidel
    (ax ay cx cy b d_rhs U_initial : grid2) (n m : nat)
    (ax3 ay3 az3 cx3 cy3 cz3 b3 d_rhs3 U_initial3 : grid3) (nx ny nz : nat)
    (omega : Qc) :
  shape2 n m b → shape2 n m U_initial → nonzero_interior2 n m b →
  shape3 nx ny nz b3 → shape3 nx ny nz U_initial3 →
  nonzero_interior3 nx ny nz b3 →
  (∃ inv_b, invert_interior2 b = Some inv_b ∧ ∀ k,
     let s := Nat.iter k (relax2d_body ax ay cx cy d_rhs n m omega inv_b)
                (relax2d_init U_initial) in
     gs_sweep2 ax ay cx cy b d_rhs n m omega (s2_U s)
       (s2_U (relax2d_body ax ay cx cy d_rhs n m omega inv_b s)))
  ∧ (∃ inv_b, read_interior2 n m (invert_all2 b) = Some inv_b ∧ ∀ k,
       let s := Nat.iter k (relax_body ax ay cx cy d_rhs n m omega inv_b)
                  (relax_init U_initial) in
       relax_pass ax ay cx cy d_rhs n m omega (invert_all2 b) s
       = Some (relax_body ax ay cx cy d_rhs n m omega inv_b s)
       ∧ gs_sweep2 ax ay cx cy b d_rhs n m omega (s_U s)
           (s_U (relax_body ax ay cx cy d_rhs n m omega inv_b s)))
  ∧ (∃ inv_b, invert_interior3 b3 = Some inv_b ∧ ∀ k,
       let s := Nat.iter k
                  (relax3d_body ax3 ay3 az3 cx3 cy3 cz3 d_rhs3 nx ny nz omega
                     inv_b)
                  (relax3d_init U_initial3) in
       gs_sweep3 ax3 ay3 az3 cx3 cy3 cz3 b3 d_rhs3 nx ny nz omega (s3_U s)
         (s3_U (relax3d_body ax3 ay3 az3 cx3 cy3 cz3 d_rhs3 nx ny nz omega
                  inv_b s))).
Proof.
  intros Hb HU Hnz Hb3 HU3 Hnz3. split; [|split].
  - destruct (invert_interior2_is_Some n m b Hb Hnz) as [inv_b Hinv].
    exists inv_b. split; [done|]. intros k s.
    destruct (invert_interior2_Some n m b inv_b Hb Hinv) as (_ & Hi & _).
    apply relax2d_sweep_gs; [|done]. by apply relax2d_iter_shape.
  - destruct (read_interior2_is_Some n m b Hnz) as [inv_b Hinv].
    exists inv_b. split; [done|]. intros k s.
    destruct (read_interior2_inverts n m b inv_b Hb Hinv) as (_ & Hi & _).
    split; [unfold relax_pass; by rewrite Hinv|].
    rewrite relax_body_U.
    apply relax2d_sweep_gs; [by apply relax_iter_shape|done].
  - destruct (invert_interior3_is_Some nx ny nz b3 Hb3 Hnz3) as [inv_b Hinv].
    exists inv_b. split; [done|]. intros k s.
    destruct (invert_interior3_Some nx ny nz b3 inv_b Hb3 Hinv) as (_ & Hi & _).
    apply relax3d_sweep_gs; [|done]. by apply relax3d_iter_shape.
Qed.

(** Closed facts about the small inputs. *)
Ltac qc_neq := let H := fresh in intros H; vm_compute in H; discriminate H.

Lemma ex_four2_shape : shape2 3 3 ex_four2.
Proof. split; [reflexivity|]. repeat constructor. Defined.

Lemma ex_one2_shape : shape2 3 3 ex_one2.
Proof. split; [reflexivity|]. repeat constructor. Defined.

Lemma ex_six3_shape : shape3 3 3 3 ex_six3.
Proof. split; [reflexivity|]. repeat constructor. Defined.

Lemma ex_one3_shape : shape3 3 3 3 ex_one3.
Proof. split; [reflexivity|]. repeat constructor. Defined.

Lemma ex_four2_nonzero : nonzero_interior2 3 3 ex_four2.
Proof.
  intros i j Hi Hj. assert (i = 1%nat) as -> by lia.
  assert (j = 1%nat) as -> by lia. qc_neq.
Defined.

Lemma ex_six3_nonzero : nonzero_interior3 3 3 3 ex_six3.
Proof.
  intros i j k Hi Hj Hk. assert (i = 1%nat) as -> by lia.
  assert (j = 1%nat) as -> by lia. assert (k = 1%nat) as -> by lia. qc_neq.
Defined.

Lemma ex_b2_shape : shape2 3 3 ex_b2.
Proof. split; [reflexivity|]. repeat constructor. Defined.

Lemma ex_b3_shape : shape3 3 3 3 ex_b3.
Proof. split; [reflexivity|]. repeat constructor. Defined.

Lemma ex_b2_nonzero : nonzero_interior2 3 3 ex_b2.
Proof.
  intros i j Hi Hj. assert (i = 1%nat) as -> by lia.
  assert (j = 1%nat) as -> by lia. qc_neq.
Defined.

Lemma ex_b3_nonzero : nonzero_interior3 3 3 3 ex_b3.
Proof.
  intros i j k Hi Hj Hk. assert (i = 1%nat) as -> by lia.
  assert (j = 1%nat) as -> by lia. assert (k = 1%nat) as -> by lia. qc_neq.
Defined.

Lemma C1_every_sweep_is_gauss_seidel_witness :
  (∃ inv_b, invert_interior2 ex_b2 = Some inv_b ∧ ∀ k,
     let s := Nat.iter k
                (relax2d_body ex_one2 ex_one2 ex_one2 ex_one2 ex_one2 3 3
                   (qc 9 5) inv_b)
                (relax2d_init ex_one2) in
     gs_sweep2 ex_one2 ex_one2 ex_one2 ex_one2 ex_b2 ex_one2 3 3 (qc 9 5)
       (s2_U s)
       (s2_U (relax2d_body ex_one2 ex_one2 ex_one2 ex_one2 ex_one2 3 3
                (qc 9 5) inv_b s)))
  ∧ (∃ inv_b, read_interior2 3 3 (invert_all2 ex_b2) = Some inv_b ∧ ∀ k,
       let s := Nat.iter k
                  (relax_body ex_one2 ex_one2 ex_one2 ex_one2 ex_one2 3 3
                     (qc 9 5) inv_b)
                  (relax_init ex_one2) in
       relax_pass ex_one2 ex_one2 ex_one2 ex_one2 ex_one2 3 3 (qc 9 5)
         (invert_all2 ex_b2) s
       = Some (relax_body ex_one2 ex_one2 ex_one2 ex_one2 ex_one2 3 3
                 (qc 9 5) inv_b s)
       ∧ gs_sweep2 ex_one2 ex_one2 ex_one2 ex_one2 ex_b2 ex_one2 3 3
           (qc 9 5) (s_U s)
           (s_U (relax_body ex_one2 ex_one2 ex_one2 ex_one2 ex_one2 3 3
                   (qc 9 5) inv_b s)))
  ∧ (∃ inv_b, invert_interior3 ex_b3 = Some inv_b ∧ ∀ k,
       let s := Nat.iter k
                  (relax3d_body ex_one3 ex_one3 ex_one3 ex_one3 ex_one3
                     ex_one3 ex_one3 3 3 3 (qc 9 5) inv_b)
                  (relax3d_init ex_one3) in
       gs_sweep3 ex_one3 ex_one3 ex_one3 ex_one3 ex_one3 ex_one3 ex_b3
         ex_one3 3 3 3 (qc 9 5) (s3_U s)
         (s3_U (relax3d_body ex_one3 ex_one3 ex_one3 ex_one3 ex_one3 ex_one3
                  ex_one3 3 3 3 (qc 9 5) inv_b s))).
Proof.
  exact (C1_every_sweep_is_gauss_seidel ex_one2 ex_one2 ex_one2 ex_one2
           ex_b2 ex_one2 ex_one2 3 3 ex_one3 ex_one3 ex_one3 ex_one3
           ex_one3 ex_one3 ex_b3 ex_one3 ex_one3 3 3 3 (qc 9 5)
           ex_b2_shape ex_one2_shape ex_b2_nonzero
           ex_b3_shape ex_one3_shape ex_b3_nonzero).
Defined.

(** ** The array a sweep sees when it reaches a node *)

Lemma foldl_product {A B C : Type} (F : A → B → C → A) (l1 : list B)
    (l2 : list C) (a : A) :
  foldl (λ a i, foldl (λ a j, F a i j) a l2) a l1
  = foldl (λ a p, F a p.1 p.2) a (i ← l1; (λ j, (i, j)) <$> l2).
Proof.
  rewrite foldl_bind. apply foldl_ext. intros b i. by rewrite foldl_fmap.
Qed.

Section SweepAt.
Context {A I : Type}.
Variables (get : A → I → Qc) (set : A → I → Qc → A).
Hypothesis get_set_ne : ∀ U p q v, p ≠ q → get (set U p v) q = get U q.
Variable f : A → I → Qc.

Lemma sweep_list_app (l1 l2 : list I) (U : A) :
  sweep_list set f (l1 ++ l2) U = sweep_list set f l2 (sweep_list set f l1 U).
Proof. unfold sweep_list. by rewrite foldl_app. Qed.

(** When the sweep reaches [p], the nodes before [p] already hold their
    final values and all the others still hold their initial values. *)
Lemma sweep_split (R : relation I) `{!Irreflexive R, !Transitive R}
    (pre post : list I) (p : I) (U : A) :
  StronglySorted R (pre ++ p :: post) →
  (∀ q, R q p →
     get (sweep_list set f pre U) q
     = get (sweep_list set f (pre ++ p :: post) U) q)
  ∧ (∀ q, ¬ R q p → get (sweep_list set f pre U) q = get U q).
Proof.
  intros Hs. apply StronglySorted_app in Hs as (Hcross & Hpre & Hpost).
  apply StronglySorted_inv in Hpost as [_ Hpost].
  rewrite Forall_forall in Hpost. split.
  - intros q Hq. rewrite sweep_list_app. symmetry.
    apply (sweep_frame get set get_set_ne). intros Hin.
    apply elem_of_cons in Hin as [->|Hin].
    + by apply (irreflexivity R p).
    + apply (irreflexivity R q). etrans; [done|by apply Hpost].
  - intros q Hq. apply (sweep_frame get set get_set_ne). intros Hin.
    apply Hq, Hcross; [done|]. apply elem_of_cons. by left.
Qed.

(** A running maximum carried along a sweep. *)
Lemma sweep_acc_snd (h : A → I → Qc) (h' : I → Qc) (ps : list I) (U : A)
    (e0 : Qc) :
  (∀ pre p post, ps = pre ++ p :: post →
     h (sweep_list set f pre U) p = h' p) →
  (foldl (λ s p, let '(U, e) := s in (set U p (f U p), fmax e (h U p)))
     (U, e0) ps).2
  = foldl (λ e p, fmax e (h' p)) e0 ps.
Proof.
  revert U e0. induction ps as [|p ps IH]; intros U e0 Hh; simpl; [done|].
  pose proof (Hh [] p ps eq_refl) as H0. unfold sweep_list in H0.
  simpl in H0. rewrite H0. apply IH.
  intros pre q post ->. apply (Hh (p :: pre) q post eq_refl).
Qed.
End SweepAt.

(** A sweep that copies [g] into the array. *)
Lemma sweep_copy {A I : Type} `{EqDecision I} (get : A → I → Qc) (set : A → I → Qc → A)
    (inb : A → I → Prop) (g : I → Qc) (ps : list I) (U : A) (p : I) :
  (∀ U p v, inb U p → get (set U p v) p = v) →
  (∀ U p q v, p ≠ q → get (set U p v) q = get U q) →
  (∀ U p q v, inb U q → inb (set U p v) q) →
  p ∈ ps → inb U p → get (sweep_list set (λ _ q, g q) ps U) p = g p.
Proof.
  intros Heq Hne Hinb. revert U.
  induction ps as [|x ps IH]; intros U Hp Hin.
  { by apply elem_of_nil in Hp. }
  change (sweep_list set (λ _ q, g q) (x :: ps) U)
    with (sweep_list set (λ _ q, g q) ps (set U x (g x))).
  destruct (decide_rel elem_of p ps) as [Hps|Hps].
  - apply IH; [done|]. by apply Hinb.
  - apply elem_of_cons in Hp as [->|Hp]; [|done].
    rewrite (sweep_frame get set Hne); [|done]. by apply Heq.
Qed.

(** ** The snapshot and the error of [relax2d] and [relax3d] *)

Lemma elem_of_all2 (n m : nat) (p : idx2) :
  p ∈ all2 n m ↔ (p.1 < n ∧ p.2 < m)%nat.
Proof.
  unfold all2. rewrite list_elem_of_bind. split.
  - intros (i & Hp & Hi). apply list_elem_of_fmap in Hp as (j & -> & Hj).
    apply elem_of_range in Hi, Hj. simpl. lia.
  - intros [Hi Hj]. exists p.1. split.
    + apply list_elem_of_fmap. exists p.2. split; [by destruct p|].
      apply elem_of_range. lia.
    + apply elem_of_range. lia.
Qed.

Lemma elem_of_all3 (nx ny nz : nat) (p : idx3) :
  p ∈ all3 nx ny nz ↔ (p.1 < nx ∧ p.2.1 < ny ∧ p.2.2 < nz)%nat.
Proof.
  unfold all3. rewrite list_elem_of_bind. split.
  - intros (i & Hp & Hi). apply list_elem_of_fmap in Hp as (jk & -> & Hjk).
    apply elem_of_range in Hi. apply elem_of_all2 in Hjk. simpl. lia.
  - intros (Hi & Hj & Hk). exists p.1. split.
    + apply list_elem_of_fmap. exists p.2. split; [by destruct p|].
      by apply elem_of_all2.
    + apply elem_of_range. lia.
Qed.

Lemma snapshot2_list (n m : nat) (U O : grid2) :
  snapshot2 n m U O = sweep_list set2p (λ _ q, get2p U q) (all2 n m) O.
Proof.
  unfold snapshot2.
  apply (foldl_product (λ O i j, set2 O i j (get2 U i j))).
Qed.

Lemma snapshot3_list (nx ny nz : nat) (U O : grid3) :
  snapshot3 nx ny nz U O
  = sweep_list set3p (λ _ q, get3p U q) (all3 nx ny nz) O.
Proof.
  unfold snapshot3, all3. unfold sweep_list. rewrite foldl_bind.
  apply foldl_ext. intros V i. rewrite foldl_fmap.
  apply (foldl_product (λ O j k, set3 O i j k (get3 U i j k))).
Qed.

(** The copy loop leaves [U_old] equal to [U]. *)
Lemma snapshot2_eq (n m : nat) (U O : grid2) :
  shape2 n m U → shape2 n m O → snapshot2 n m U O = U.
Proof.
  intros HU HO. rewrite snapshot2_list. apply (grid2_ext n m); [|done|].
  - apply (sweep_preserves set2p _ (shape2 n m)); [|done].
    intros V [i j] v. apply shape2_set2.
  - intros i j Hi Hj.
    apply (sweep_copy get2p set2p inb2 (get2p U) (all2 n m) O (i, j)
             get2p_set2p_eq get2p_set2p_ne inb2_set2p).
    + by apply elem_of_all2.
    + by eapply shape2_inb.
Qed.

Lemma snapshot3_eq (nx ny nz : nat) (U O : grid3) :
  shape3 nx ny nz U → shape3 nx ny nz O → snapshot3 nx ny nz U O = U.
Proof.
  intros HU HO. rewrite snapshot3_list. apply (grid3_ext nx ny nz); [|done|].
  - apply (sweep_preserves set3p _ (shape3 nx ny nz)); [|done].
    intros V [i [j k]] v. apply shape3_set3.
  - intros i j k Hi Hj Hk.
    apply (sweep_copy get3p set3p inb3 (get3p U) (all3 nx ny nz) O
             (i, (j, k)) get3p_set3p_eq get3p_set3p_ne inb3_set3p).
    + by apply elem_of_all3.
    + by eapply shape3_inb.
Qed.

Lemma max_diff2_max_over (n m : nat) (U O : grid2) :
  max_diff2 n m U O
  = max_over (λ p, fabs (get2p U p - get2p O p)) (interior2 n m).
Proof.
  unfold max_diff2, max_over.
  apply (foldl_interior2 (λ err i j,
    if gtb (fabs (get2 U i j - get2 O i j)) err
    then fabs (get2 U i j - get2 O i j) else err)).
Qed.

Lemma max_diff3_max_over (nx ny nz : nat) (U O : grid3) :
  max_diff3 nx ny nz U O
  = max_over (λ p, fabs (get3p U p - get3p O p)) (interior3 nx ny nz).
Proof.
  unfold max_diff3, max_over.
  apply (foldl_interior3 (λ err i j k,
    if gtb (fabs (get3 U i j k - get3 O i j k)) err
    then fabs (get3 U i j k - get3 O i j k) else err)).
Qed.

Lemma fabs_nonneg (x : Qc) : 0 <= fabs x.
Proof. apply Qcabs_nonneg. Qed.

Lemma relax2d_iter_shapes ax ay cx cy d_rhs n m omega inv_b U_initial k :
  shape2 n m U_initial →
  let s := Nat.iter k (relax2d_body ax ay cx cy d_rhs n m omega inv_b)
             (relax2d_init U_initial) in
  shape2 n m (s2_U s) ∧ shape2 n m (s2_old s).
Proof.
  intros HU.
  apply (iter_inv _ (λ s, shape2 n m (s2_U s) ∧ shape2 n m (s2_old s)));
    [|done].
  intros s [Hs Ho]. simpl. split; [by apply relax2d_sweep_shape|].
  by rewrite snapshot2_eq.
Qed.

Lemma relax3d_iter_shapes ax ay az cx cy cz d_rhs nx ny nz omega inv_b
    U_initial k :
  shape3 nx ny nz U_initial →
  let s := Nat.iter k
             (relax3d_body ax ay az cx cy cz d_rhs nx ny nz omega inv_b)
             (relax3d_init U_initial) in
  shape3 nx ny nz (s3_U s) ∧ shape3 nx ny nz (s3_old s).
Proof.
  intros HU.
  apply (iter_inv _ (λ s, shape3 nx ny nz (s3_U s)
                          ∧ shape3 nx ny nz (s3_old s))); [|done].
  intros s [Hs Ho]. simpl. split; [by apply relax3d_sweep_shape|].
  by rewrite snapshot3_eq.
Qed.

(** The error of [relax2d] after a sweep is the max-norm, over the interior,
    of the difference between the field after and before the sweep. *)
Lemma relax2d_body_err ax ay cx cy d_rhs n m omega inv_b s :
  shape2 n m (s2_U s) → shape2 n m (s2_old s) →
  let s' := relax2d_body ax ay cx cy d_rhs n m omega inv_b s in
  s2_old s' = s2_U s
  ∧ is_max_over (λ p, fabs (get2p (s2_U s') p - get2p (s2_U s) p))
      (interior2 n m) (s2_err s').
Proof.
  intros HU HO. simpl. rewrite snapshot2_eq by done. split; [done|].
  rewrite max_diff2_max_over. apply max_over_spec.
  intros p. apply fabs_nonneg.
Qed.

Lemma relax3d_body_err ax ay az cx cy cz d_rhs nx ny nz omega inv_b s :
  shape3 nx ny nz (s3_U s) → shape3 nx ny nz (s3_old s) →
  let s' := relax3d_body ax ay az cx cy cz d_rhs nx ny nz omega inv_b s in
  s3_old s' = s3_U s
  ∧ is_max_over (λ p, fabs (get3p (s3_U s') p - get3p (s3_U s) p))
      (interior3 nx ny nz) (s3_err s').
Proof.
  intros HU HO. simpl. rewrite snapshot3_eq by done. split; [done|].
  rewrite max_diff3_max_over. apply max_over_spec.
  intros p. apply fabs_nonneg.
Qed.

(** ** The error of [relax] *)

(** What [relax] measures at a node: the distance from the value of the
    node before the sweep to its Gauss-Seidel value [t]. *)
Lemma relax_sweep_err ax ay cx cy b d_rhs n m alfa inv_b U :
  shape2 n m U → inverts2 n m b inv_b →
  let r := relax_sweep ax ay cx cy d_rhs n m alfa inv_b U in
  is_max_over
    (λ p, fabs (get2p U p - gs_value2 ax ay cx cy b d_rhs U r.1 p.1 p.2))
    (interior2 n m) r.2.
Proof.
  intros HU Hinv r.
  set (h' := λ p : idx2,
         fabs (get2p U p - gs_value2 ax ay cx cy b d_rhs U r.1 p.1 p.2)).
  assert (r.2 = max_over h' (interior2 n m)) as ->.
  { unfold r at 1. rewrite relax_sweep_flat.
    apply (sweep_acc_snd set2p (upd2 ax ay cx cy d_rhs alfa inv_b)
             (λ V p, fabs (get2p V p
                           - stencil2 ax ay cx cy d_rhs inv_b V p.1 p.2))
             h' (interior2 n m) U 0).
    intros pre [i j] post Hsplit.
    assert ((i, j) ∈ interior2 n m) as Hin.
    { rewrite Hsplit. apply elem_of_app. right. apply elem_of_cons. by left. }
    apply elem_of_interior2 in Hin as [Hi Hj]. simpl in Hi, Hj.
    destruct (sweep_split get2p set2p get2p_set2p_ne
                (upd2 ax ay cx cy d_rhs alfa inv_b) lt2 pre post (i, j) U)
      as [Hlo Hhi].
    { rewrite <- Hsplit. apply interior2_sorted. }
    rewrite <- Hsplit, <- relax2d_sweep_list, <- relax_sweep_fst in Hlo.
    fold r in Hlo.
    set (Up := sweep_list set2p (upd2 ax ay cx cy d_rhs alfa inv_b) pre U)
      in *.
    assert (get2 Up (i - 1) j = get2 r.1 (i - 1) j) as E1.
    { apply (Hlo (i - 1, j)%nat). left. simpl. lia. }
    assert (get2 Up i (j - 1) = get2 r.1 i (j - 1)) as E2.
    { apply (Hlo (i, j - 1)%nat). right. simpl. lia. }
    assert (get2 Up (i + 1) j = get2 U (i + 1) j) as E3.
    { apply (Hhi (i + 1, j)%nat). unfold lt2, lex. simpl. lia. }
    assert (get2 Up i (j + 1) = get2 U i (j + 1)) as E4.
    { apply (Hhi (i, j + 1)%nat). unfold lt2, lex. simpl. lia. }
    assert (get2 Up i j = get2 U i j) as E5.
    { apply (Hhi (i, j)). unfold lt2, lex. simpl. lia. }
    unfold h', get2p, stencil2, gs_value2. simpl.
    rewrite E1, E2, E3, E4, E5, (Hinv i j Hi Hj). f_equal.
    unfold Qcdiv. ring. }
  apply max_over_spec. intros p. apply fabs_nonneg.
Qed.

Lemma relax_body_err ax ay cx cy b d_rhs n m alfa inv_b s :
  shape2 n m (s_U s) → inverts2 n m b inv_b →
  let s' := relax_body ax ay cx cy d_rhs n m alfa inv_b s in
  is_max_over
    (λ p, fabs (get2p (s_U s) p
                - gs_value2 ax ay cx cy b d_rhs (s_U s) (s_U s') p.1 p.2))
    (interior2 n m) (s_err s').
Proof.
  intros HU Hinv.
  pose proof (relax_sweep_err ax ay cx cy b d_rhs n m alfa inv_b (s_U s) HU
                Hinv) as H.
  unfold relax_body. simpl in *.
  by destruct (relax_sweep ax ay cx cy d_rhs n m alfa inv_b (s_U s)).
Qed.

(** In [relax] the change of a node over a sweep is [alfa] times the
    distance that its error measures. *)
Lemma gs_sweep2_delta ax ay cx cy b d_rhs n m alfa U U' i j :
  gs_sweep2 ax ay cx cy b d_rhs n m alfa U U' →
  (1 ≤ i < n - 1)%nat → (1 ≤ j < m - 1)%nat →
  fabs (get2 U' i j - get2 U i j)
  = fabs alfa * fabs (get2 U i j - gs_value2 ax ay cx cy b d_rhs U U' i j).
Proof.
  intros Hgs Hi Hj. rewrite (Hgs i j Hi Hj). unfold fabs.
  rewrite <- Qcabs_Qcmult, <- (Qcabs_opp (alfa * _)). f_equal. ring.
Qed.

(** The largest value of a function scaled by a constant [c >= 0]. *)
Lemma is_max_over_scaled {I : Type} (g g' : I → Qc) (ps : list I) (c e : Qc) :
  0 <= c → (∀ p, p ∈ ps → g' p = c * g p) →
  is_max_over g ps e → is_max_over g' ps (c * e).
Proof.
  intros Hc Hg (Hle & Hnil & Hex). split; [|split].
  - intros p Hp. rewrite (Hg p Hp), !(Qcmult_comm c).
    apply Qcmult_le_compat_r; [by apply Hle|done].
  - intros E. rewrite (Hnil E). ring.
  - intros Hne. destruct (Hex Hne) as (p & Hp & ->). exists p.
    split; [done|]. by rewrite (Hg p Hp).
Qed.

(** C4, on [relax]: one pass of its loop from the zero field with right-hand
    side [1], unit diagonal and [alfa = 9/5] moves the interior node from
    [0] to [-9/5], yet the error the loop compares with [eps] is [1]: it is
    not the max-norm of the difference between the field after and before
    the sweep. *)
Lemma C4_relax_error_counterexample :
  ∃ s', let s := relax_init ex_zero2 in
    relax_pass ex_zero2 ex_zero2 ex_zero2 ex_zero2 ex_one2 3 3 (qc 9 5)
      (invert_all2 ex_one2) s = Some s'
    ∧ get2 (s_U s) 1 1 = 0 ∧ get2 (s_U s') 1 1 = qc (-9) 5 ∧ s_err s' = 1
    ∧ ¬ is_max_over (λ p, fabs (get2p (s_U s') p - get2p (s_U s) p))
          (interior2 3 3) (s_err s').
Proof.
  set (r := relax_pass ex_zero2 ex_zero2 ex_zero2 ex_zero2 ex_one2 3 3
              (qc 9 5) (invert_all2 ex_one2) (relax_init ex_zero2)).
  exists (default (relax_init ex_zero2) r). simpl.
  split; [vm_compute; reflexivity|].
  split; [vm_compute; reflexivity|].
  split; [apply Qc_is_canon; vm_compute; reflexivity|].
  split; [apply Qc_is_canon; vm_compute; reflexivity|].
  intros (Hle & _ & _). specialize (Hle (1, 1)%nat).
  assert ((1, 1)%nat ∈ interior2 3 3) as Hin.
  { apply elem_of_interior2. simpl. lia. }
  specialize (Hle Hin). vm_compute in Hle. by apply Hle.
Qed.

(** C4, as the code has it.  In [relax2d] and [relax3d] the copy loop makes
    [U_old] the field before the sweep, and the error compared with [eps]
    after the sweep is the maximum over the interior nodes of
    [|U[p] - U_old[p]|]: the max-norm against the snapshot.  In [relax] no
    snapshot is taken: the error is the maximum over the interior nodes of
    [|old[p] - t[p]|], where [old] is the value of the node before the
    sweep and [t] its Gauss-Seidel value; the change of the node over the
    sweep is [|alfa|] times that distance, so the max-norm of the change of
    the field over the sweep is [|alfa|] times the error of [relax]. *)
Theorem C4_error_after_a_sweep
    (ax ay cx cy b d_rhs U_initial : grid2) (n m : nat)
    (ax3 ay3 az3 cx3 cy3 cz3 d_rhs3 U_initial3 : grid3) (nx ny nz : nat)
    (omega : Qc) :
  shape2 n m U_initial → shape2 n m b → shape3 nx ny nz U_initial3 →
  (∀ inv_b k,
     let s := Nat.iter k (relax2d_body ax ay cx cy d_rhs n m omega inv_b)
                (relax2d_init U_initial) in
     let s' := relax2d_body ax ay cx cy d_rhs n m omega inv_b s in
     s2_old s' = s2_U s
     ∧ is_max_over (λ p, fabs (get2p (s2_U s') p - get2p (s2_old s') p))
         (interior2 n m) (s2_err s'))
  ∧ (∀ inv_b k,
       let s := Nat.iter k
                  (relax3d_body ax3 ay3 az3 cx3 cy3 cz3 d_rhs3 nx ny nz omega
                     inv_b)
                  (relax3d_init U_initial3) in
       let s' := relax3d_body ax3 ay3 az3 cx3 cy3 cz3 d_rhs3 nx ny nz omega
                   inv_b s in
       s3_old s' = s3_U s
       ∧ is_max_over (λ p, fabs (get3p (s3_U s') p - get3p (s3_old s') p))
           (interior3 nx ny nz) (s3_err s'))
  ∧ (nonzero_interior2 n m b →
     ∃ inv_b, read_interior2 n m (invert_all2 b) = Some inv_b ∧ ∀ k,
       let s := Nat.iter k (relax_body ax ay cx cy d_rhs n m omega inv_b)
                  (relax_init U_initial) in
       let s' := relax_body ax ay cx cy d_rhs n m omega inv_b s in
       let dist p := fabs (get2p (s_U s) p
                           - gs_value2 ax ay cx cy b d_rhs (s_U s) (s_U s')
                               p.1 p.2) in
       relax_pass ax ay cx cy d_rhs n m omega (invert_all2 b) s = Some s'
       ∧ is_max_over dist (interior2 n m) (s_err s')
       ∧ (∀ p, p ∈ interior2 n m →
            fabs (get2p (s_U s') p - get2p (s_U s) p) = fabs omega * dist p)
       ∧ is_max_over (λ p, fabs (get2p (s_U s') p - get2p (s_U s) p))
           (interior2 n m) (fabs omega * s_err s')).
Proof.
  intros HU Hb HU3. split; [|split].
  - intros inv_b k s s'.
    destruct (relax2d_iter_shapes ax ay cx cy d_rhs n m omega inv_b U_initial
                k HU) as [Hs Ho].
    destruct (relax2d_body_err ax ay cx cy d_rhs n m omega inv_b s Hs Ho)
      as [Hold Hmax].
    split; [done|]. fold s' in Hold. by rewrite Hold.
  - intros inv_b k s s'.
    destruct (relax3d_iter_shapes ax3 ay3 az3 cx3 cy3 cz3 d_rhs3 nx ny nz
                omega inv_b U_initial3 k HU3) as [Hs Ho].
    destruct (relax3d_body_err ax3 ay3 az3 cx3 cy3 cz3 d_rhs3 nx ny nz omega
                inv_b s Hs Ho) as [Hold Hmax].
    split; [done|]. fold s' in Hold. by rewrite Hold.
  - intros Hnz. destruct (read_interior2_is_Some n m b Hnz) as [inv_b Hinv].
    exists inv_b. split; [done|]. intros k s s' dist.
    pose proof (relax_iter_shape ax ay cx cy d_rhs n m omega inv_b U_initial
                  k HU) as Hs.
    destruct (read_interior2_inverts n m b inv_b Hb Hinv) as (_ & Hi & _).
    pose proof (relax_body_err ax ay cx cy b d_rhs n m omega inv_b _ Hs Hi)
      as Herr.
    assert (∀ p, p ∈ interior2 n m →
              fabs (get2p (s_U s') p - get2p (s_U s) p) = fabs omega * dist p)
      as Hd.
    { intros [i j] Hp. apply elem_of_interior2 in Hp as [Hpi Hpj].
      apply (gs_sweep2_delta ax ay cx cy b d_rhs n m omega); [|done..].
      unfold s'. rewrite relax_body_U. by apply relax2d_sweep_gs. }
    split; [unfold relax_pass; by rewrite Hinv|].
    split; [done|]. split; [done|].
    by apply (is_max_over_scaled dist _ _ _ _ (fabs_nonneg omega) Hd).
Qed.

Lemma C4_error_after_a_sweep_witness :
  shape2 3 3 ex_one2 ∧ shape2 3 3 ex_b2 ∧ shape3 3 3 3 ex_one3
  ∧ nonzero_interior2 3 3 ex_b2
  ∧ ∃ inv_b, read_interior2 3 3 (invert_all2 ex_b2) = Some inv_b ∧ ∀ k,
      let s := Nat.iter k
                 (relax_body ex_one2 ex_one2 ex_one2 ex_one2 ex_one2 3 3
                    (qc 9 5) inv_b)
                 (relax_init ex_one2) in
      let s' := relax_body ex_one2 ex_one2 ex_one2 ex_one2 ex_one2 3 3
                  (qc 9 5) inv_b s in
      let dist p := fabs (get2p (s_U s) p
                          - gs_value2 ex_one2 ex_one2 ex_one2 ex_one2 ex_b2
                              ex_one2 (s_U s) (s_U s') p.1 p.2) in
      relax_pass ex_one2 ex_one2 ex_one2 ex_one2 ex_one2 3 3 (qc 9 5)
        (invert_all2 ex_b2) s = Some s'
      ∧ is_max_over dist (interior2 3 3) (s_err s')
      ∧ (∀ p, p ∈ interior2 3 3 →
           fabs (get2p (s_U s') p - get2p (s_U s) p) = fabs (qc 9 5) * dist p)
      ∧ is_max_over (λ p, fabs (get2p (s_U s') p - get2p (s_U s) p))
          (interior2 3 3) (fabs (qc 9 5) * s_err s').
Proof.
  split; [exact ex_one2_shape|]. split; [exact ex_b2_shape|].
  split; [exact ex_one3_shape|]. split; [exact ex_b2_nonzero|].
  exact (proj2 (proj2 (C4_error_after_a_sweep ex_one2 ex_one2 ex_one2 ex_one2
    ex_b2 ex_one2 ex_one2 3 3 ex_one3 ex_one3 ex_one3 ex_one3 ex_one3
    ex_one3 ex_one3 ex_one3 3 3 3 (qc 9 5)
    ex_one2_shape ex_b2_shape ex_one3_shape)) ex_b2_nonzero).
Defined.

(** ** The diagonal and its ring *)

(** Where the guard fails, the inverted block keeps the [0] of
    [np.zeros_like]. *)
Lemma invert_row_ring (g : nat → bool) (r inv : list Qc) (j : nat) :
  mapM_from (λ j x, if g j then fdiv 1 x else Some 0) 0 r = Some inv →
  g j = false → default 0 (inv !! j) = 0.
Proof.
  intros H Hg. apply mapM_from_Some in H as [Hlen Hall].
  destruct (r !! j) as [x|] eqn:Hx.
  - destruct (Hall j x Hx) as (y & Hy & Hf). simpl in Hf. rewrite Hg in Hf.
    injection Hf as <-. by rewrite Hy.
  - rewrite (lookup_ge_None_2 inv j); [done|]. rewrite Hlen.
    by apply lookup_ge_None.
Qed.

Lemma invert_plane_ring (g : nat → nat → bool) (p inv : grid2) (j k : nat) :
  invert_plane g p = Some inv → g j k = false → get2 inv j k = 0.
Proof.
  intros H Hg. apply mapM_from_Some in H as [Hlen Hall]. unfold get2.
  destruct (p !! j) as [r|] eqn:Hr.
  - destruct (Hall j r Hr) as (ri & Hri & Hf). simpl in Hf. rewrite Hri.
    simpl. by apply (invert_row_ring (g j) r ri k).
  - rewrite (lookup_ge_None_2 inv j); [done|]. rewrite Hlen.
    by apply lookup_ge_None.
Qed.

Lemma invert_interior2_ring (n m : nat) (b inv : grid2) (i j : nat) :
  shape2 n m b → invert_interior2 b = Some inv →
  boundary2 n m i j → get2 inv i j = 0.
Proof.
  intros [Hn Hm] H Hbd. rewrite Forall_lookup in Hm.
  apply (invert_plane_ring (λ i j, inner n i && inner m j) b inv i j).
  - rewrite <- H. unfold invert_plane, invert_interior2.
    apply mapM_from_ext. intros i' r Hr. simpl.
    apply mapM_from_ext. intros j' x Hx. simpl.
    by rewrite Hn, (Hm i' r Hr).
  - apply andb_false_iff. destruct (inner n i) eqn:E1; [|by left].
    destruct (inner m j) eqn:E2; [|by right].
    apply inner_spec in E1, E2. unfold boundary2 in Hbd. lia.
Qed.

Lemma invert_interior3_ring (nx ny nz : nat) (b inv : grid3) (i j k : nat) :
  shape3 nx ny nz b → invert_interior3 b = Some inv →
  boundary3 nx ny nz i j k → get3 inv i j k = 0.
Proof.
  intros Hb H Hbd. rewrite (invert_interior3_plane nx ny nz b Hb) in H.
  apply mapM_from_Some in H as [Hlen Hall].
  destruct (b !! i) as [p|] eqn:Hp.
  - destruct (Hall i p Hp) as (pi & Hpi & Hf). simpl in Hf.
    rewrite (get3_lookup inv i j k pi Hpi).
    apply (invert_plane_ring _ p pi j k Hf).
    destruct (inner nx i) eqn:E1; [|done].
    destruct (inner ny j) eqn:E2; [|done].
    destruct (inner nz k) eqn:E3; [|done].
    apply inner_spec in E1, E2, E3. unfold boundary3 in Hbd. lia.
  - unfold get3. rewrite (lookup_ge_None_2 inv i); [done|]. rewrite Hlen.
    by apply lookup_ge_None.
Qed.

(** A sweep of [relax] reads [inv_b] at the interior nodes only. *)
Lemma foldl_ext_elem {A B : Type} (f g : A → B → A) (l : list B) (a : A) :
  (∀ a x, x ∈ l → f a x = g a x) → foldl f a l = foldl g a l.
Proof.
  revert a. induction l as [|x l IH]; intros a Hfg; simpl; [done|].
  rewrite Hfg by left. apply IH. intros a' y Hy. apply Hfg. by right.
Qed.

Lemma relax_sweep_reads_interior ax ay cx cy d_rhs n m alfa inv1 inv2 U :
  (∀ i j, (1 ≤ i < n - 1)%nat → (1 ≤ j < m - 1)%nat →
     get2 inv1 i j = get2 inv2 i j) →
  relax_sweep ax ay cx cy d_rhs n m alfa inv1 U
  = relax_sweep ax ay cx cy d_rhs n m alfa inv2 U.
Proof.
  intros Hinv. rewrite !relax_sweep_flat. apply foldl_ext_elem.
  intros [V e] [i j] Hp. apply elem_of_interior2 in Hp as [Hi Hj].
  simpl in Hi, Hj. unfold upd2, stencil2. simpl. by rewrite (Hinv i j Hi Hj).
Qed.

(** C5, at an input inside the premise of the claim: a [3 × 3] diagonal [b]
    that is [1] at the interior node and [0] on the whole ring.  The array
    division [1.0 / b] of [relax] divides by the zero at the corner
    [(0, 0)] and leaves [inf] there; on a ring of [4] it leaves the
    reciprocal [1/4], where the [inv_b] of [relax2d] keeps [0].  [relax]
    returns a field all the same. *)
Lemma C5_relax_divides_the_ring :
  shape2 3 3 ex_b2 ∧ nonzero_interior2 3 3 ex_b2
  ∧ boundary2 3 3 0 0 ∧ get2 ex_b2 0 0 = 0
  ∧ xget2 (invert_all2 ex_b2) 0 0 = Some None
  ∧ xget2 (invert_all2 ex_four2) 0 0 = Some (Some (qc 1 4))
  ∧ (∃ inv_b, invert_interior2 ex_four2 = Some inv_b ∧ get2 inv_b 0 0 = 0)
  ∧ is_Some (relax ex_zero2 ex_zero2 ex_zero2 ex_zero2 ex_b2 ex_one2 3 3
               ex_zero2 (qc 9 5) (qc 1 10) 200 200).
Proof.
  split; [exact ex_b2_shape|]. split; [exact ex_b2_nonzero|].
  split; [by left|]. split; [reflexivity|]. split; [reflexivity|].
  split; [vm_compute; reflexivity|]. split.
  - exists (default [] (invert_interior2 ex_four2)).
    split; vm_compute; reflexivity.
  - apply relax_returns_interior; [exact ex_b2_nonzero|vm_compute; lia].
Qed.

(** C5, as the code has it.  Let [b] have the shape of the grid and be
    nonzero at every interior node.  [relax2d] and [relax3d] divide the
    interior block of [b] only: their [inv_b] is [0] at every node of the
    ring.  [relax] divides the whole of [b]: its [inv_b] holds at every
    node the reciprocal of the entry of [b], and [inf] where that entry is
    [0], the ring included; but a sweep reads [inv_b] at the interior nodes
    only.  So every variant returns a field, whatever the ring of [b]
    holds. *)
Theorem C5_only_the_interior_reciprocals_are_read
    (ax ay cx cy b d_rhs U_initial : grid2) (n m : nat)
    (ax3 ay3 az3 cx3 cy3 cz3 b3 d_rhs3 U_initial3 : grid3) (nx ny nz : nat)
    (omega eps : Qc) (max_iter min_iter : Z) :
  shape2 n m b → nonzero_interior2 n m b →
  shape3 nx ny nz b3 → nonzero_interior3 nx ny nz b3 →
  (∃ inv_b, invert_interior2 b = Some inv_b
     ∧ (∀ i j, boundary2 n m i j → get2 inv_b i j = 0)
     ∧ ∀ fuel, (Z.to_nat (Z.max max_iter 100) ≤ fuel)%nat →
         is_Some (relax2d ax ay cx cy b d_rhs n m U_initial omega eps
                    max_iter fuel))
  ∧ (∃ inv_b, invert_interior3 b3 = Some inv_b
       ∧ (∀ i j k, boundary3 nx ny nz i j k → get3 inv_b i j k = 0)
       ∧ ∀ fuel, (Z.to_nat (Z.max max_iter min_iter) ≤ fuel)%nat →
           is_Some (relax3d ax3 ay3 az3 cx3 cy3 cz3 b3 d_rhs3 nx ny nz
                      U_initial3 omega eps max_iter min_iter fuel))
  ∧ (∀ i j, (i < n)%nat → (j < m)%nat →
       xget2 (invert_all2 b) i j = Some (recip (get2 b i j)))
  ∧ (∀ inv1 inv2 U,
       (∀ i j, (1 ≤ i < n - 1)%nat → (1 ≤ j < m - 1)%nat →
          get2 inv1 i j = get2 inv2 i j) →
       relax_sweep ax ay cx cy d_rhs n m omega inv1 U
       = relax_sweep ax ay cx cy d_rhs n m omega inv2 U)
  ∧ (∀ fuel, (Z.to_nat max_iter ≤ fuel)%nat →
       is_Some (relax ax ay cx cy b d_rhs n m U_initial omega eps max_iter
                  fuel)).
Proof.
  intros Hb Hnz Hb3 Hnz3. split; [|split; [|split; [|split]]].
  - destruct (invert_interior2_is_Some n m b Hb Hnz) as [inv_b Hinv].
    exists inv_b. split; [done|]. split.
    + intros i j. by apply (invert_interior2_ring n m b).
    + intros fuel Hfuel. by apply relax2d_returns.
  - destruct (invert_interior3_is_Some nx ny nz b3 Hb3 Hnz3) as [inv_b Hinv].
    exists inv_b. split; [done|]. split.
    + intros i j k. by apply (invert_interior3_ring nx ny nz b3).
    + intros fuel Hfuel. by apply relax3d_returns.
  - intros i j. by apply xget2_invert_all2.
  - intros inv1 inv2 U. apply relax_sweep_reads_interior.
  - intros fuel Hfuel. by apply relax_returns_interior.
Qed.

Lemma C5_only_the_interior_reciprocals_are_read_witness :
  shape2 3 3 ex_b2 ∧ nonzero_interior2 3 3 ex_b2
  ∧ shape3 3 3 3 ex_b3 ∧ nonzero_interior3 3 3 3 ex_b3
  ∧ is_Some (relax2d ex_zero2 ex_zero2 ex_zero2 ex_zero2 ex_b2 ex_one2 3 3
               ex_zero2 (qc 9 5) (qc 1 10) 200 200)
  ∧ is_Some (relax3d ex_zero3 ex_zero3 ex_zero3 ex_zero3 ex_zero3 ex_zero3
               ex_b3 ex_one3 3 3 3 ex_zero3 (qc 9 5) (qc 1 10) 200 2 200)
  ∧ xget2 (invert_all2 ex_b2) 1 1 = Some (recip (get2 ex_b2 1 1))
  ∧ is_Some (relax ex_zero2 ex_zero2 ex_zero2 ex_zero2 ex_b2 ex_one2 3 3
               ex_zero2 (qc 9 5) (qc 1 10) 200 200).
Proof.
  destruct (C5_only_the_interior_reciprocals_are_read
              ex_zero2 ex_zero2 ex_zero2 ex_zero2 ex_b2 ex_one2 ex_zero2 3 3
              ex_zero3 ex_zero3 ex_zero3 ex_zero3 ex_zero3 ex_zero3 ex_b3
              ex_one3 ex_zero3 3 3 3 (qc 9 5) (qc 1 10) 200 2
              ex_b2_shape ex_b2_nonzero ex_b3_shape ex_b3_nonzero)
    as ((i2 & _ & _ & H2) & (i3 & _ & _ & H3) & Hx & _ & H).
  split; [exact ex_b2_shape|]. split; [exact ex_b2_nonzero|].
  split; [exact ex_b3_shape|]. split; [exact ex_b3_nonzero|].
  split; [apply H2; vm_compute; lia|].
  split; [apply H3; vm_compute; lia|].
  split; [apply Hx; lia|].
  apply H. vm_compute. lia.
Defined.

(** ** A floor above the ceiling *)

Lemma get_config_None (e : string) :
  get_config e = None
  ↔ ¬ (e = "FREE_CENTER" ∨ e = "FREE_TWO_GENERATORS" ∨ e = "CLAMPED_CENTER")%string.
Proof.
  unfold get_config.
  destruct (decide (e = "FREE_CENTER"%string ∨ e = "FREE_TWO_GENERATORS"%string))
    as [H|H]; [split; [done|tauto]|].
  destruct (decide (e = "CLAMPED_CENTER"%string)) as [H'|H'];
    [split; [done|tauto]|].
  split; [tauto|done].
Qed.

(** C7, at a concrete call: [relax3d] with [max_iter = 1] and
    [min_iter = 3] is not rejected; it returns a field after three sweeps. *)
Lemma C7_min_above_max_counterexample :
  (1 < 3)%Z
  ∧ ∃ s, relax3d_run ex_one3 ex_one3 ex_one3 ex_one3 ex_one3 ex_one3 ex_six3
           ex_one3 3 3 3 ex_one3 (qc 9 5) (qc 1 10) 1 3 10 = Some s
         ∧ s3_it s = 3%Z.
Proof.
  split; [lia|].
  set (r := relax3d_run ex_one3 ex_one3 ex_one3 ex_one3 ex_one3 ex_one3
              ex_six3 ex_one3 3 3 3 ex_one3 (qc 9 5) (qc 1 10) 1 3 10).
  assert (s3_it <$> r = Some 3%Z) as Hr by (vm_compute; reflexivity).
  destruct r as [s|]; [|done]. exists s. split; [done|]. by injection Hr.
Qed.

(** C7, as the code has it.  Nothing rejects a floor above the ceiling:
    [get_config] fails on an unknown experiment type and on nothing else,
    and the solvers take the bounds as they come.  With
    [min_iter > max_iter] (and [b] nonzero on the interior) [relax3d]
    performs exactly [min_iter] sweeps and returns; [relax2d], whose floor
    is the literal [100], performs exactly [100] sweeps when
    [max_iter < 100]. *)
Theorem C7_floor_overrides_ceiling
    (ax ay cx cy b d_rhs U_initial : grid2) (n m : nat)
    (ax3 ay3 az3 cx3 cy3 cz3 b3 d_rhs3 U_initial3 : grid3) (nx ny nz : nat)
    (omega eps : Qc) (max_iter min_iter : Z) (fuel : nat) :
  (0 ≤ min_iter)%Z → (max_iter < min_iter)%Z →
  (Z.to_nat min_iter ≤ fuel)%nat → (100 ≤ fuel)%nat →
  shape2 n m b → nonzero_interior2 n m b →
  shape3 nx ny nz b3 → nonzero_interior3 nx ny nz b3 →
  (∃ s, relax3d_run ax3 ay3 az3 cx3 cy3 cz3 b3 d_rhs3 nx ny nz U_initial3
          omega eps max_iter min_iter fuel = Some s
        ∧ s3_it s = min_iter)
  ∧ ((max_iter < 100)%Z →
     ∃ s, relax2d_run ax ay cx cy b d_rhs n m U_initial omega eps max_iter
            fuel = Some s
          ∧ s2_it s = 100%Z)
  ∧ (∀ e, get_config e = None
          ↔ ¬ (e = "FREE_CENTER" ∨ e = "FREE_TWO_GENERATORS"
               ∨ e = "CLAMPED_CENTER")%string).
Proof.
  intros Hmin Hlt Hfuel H100 Hb Hnz Hb3 Hnz3. split; [|split].
  - destruct (invert_interior3_is_Some nx ny nz b3 Hb3 Hnz3) as [inv_b Hinv].
    rewrite (relax3d_run_unfold _ _ _ _ _ _ _ _ _ _ _ _ _ _ _ _ _ _ Hinv).
    rewrite (sor_loop_floor s3_err s3_it (relax3d_cond eps max_iter min_iter)
               (relax3d_body ax3 ay3 az3 cx3 cy3 cz3 d_rhs3 nx ny nz omega
                  inv_b) eps max_iter min_iter (λ s _, eq_refl)
               (λ s, eq_refl) (relax3d_init U_initial3) fuel eq_refl Hmin Hlt
               Hfuel).
    eexists. split; [done|].
    rewrite (iter_it s3_it (relax3d_body ax3 ay3 az3 cx3 cy3 cz3 d_rhs3 nx ny
                              nz omega inv_b) (λ s, eq_refl)).
    simpl. lia.
  - intros Hmax.
    destruct (invert_interior2_is_Some n m b Hb Hnz) as [inv_b Hinv].
    rewrite (relax2d_run_unfold _ _ _ _ _ _ _ _ _ _ _ _ _ _ Hinv).
    rewrite (sor_loop_floor s2_err s2_it (relax2d_cond eps max_iter)
               (relax2d_body ax ay cx cy d_rhs n m omega inv_b) eps max_iter
               100 (λ s _, eq_refl) (λ s, eq_refl) (relax2d_init U_initial)
               fuel eq_refl); [|lia..].
    eexists. split; [done|].
    rewrite (iter_it s2_it (relax2d_body ax ay cx cy d_rhs n m omega inv_b)
               (λ s, eq_refl)).
    simpl. lia.
  - apply get_config_None.
Qed.

Lemma C7_floor_overrides_ceiling_witness :
  (0 ≤ 120)%Z ∧ (50 < 120)%Z
  ∧ (∃ s, relax3d_run ex_one3 ex_one3 ex_one3 ex_one3 ex_one3 ex_one3 ex_six3
            ex_one3 3 3 3 ex_one3 (qc 9 5) (qc 1 10) 50 120 200 = Some s
          ∧ s3_it s = 120%Z)
  ∧ ((50 < 100)%Z →
     ∃ s, relax2d_run ex_one2 ex_one2 ex_one2 ex_one2 ex_four2 ex_one2 3 3
            ex_one2 (qc 9 5) (qc 1 10) 50 200 = Some s
          ∧ s2_it s = 100%Z).
Proof.
  split; [lia|]. split; [lia|].
  destruct (C7_floor_overrides_ceiling ex_one2 ex_one2 ex_one2 ex_one2
              ex_four2 ex_one2 ex_one2 3 3 ex_one3 ex_one3 ex_one3 ex_one3
              ex_one3 ex_one3 ex_six3 ex_one3 ex_one3 3 3 3 (qc 9 5) (qc 1 10)
              50 120 200) as (H3 & H2 & _);
    [lia|lia|lia|lia|exact ex_four2_shape|exact ex_four2_nonzero
    |exact ex_six3_shape|exact ex_six3_nonzero|].
  split; [exact H3|exact H2].
Defined.

(** ** Source injection *)

Lemma set2_chk_Some (U : grid2) (i j : nat) (v : Qc) :
  inb2 U (i, j) → set2_chk U i j v = Some (set2 U i j v).
Proof.
  intros (r & Hr & Hj). simpl in *. unfold set2_chk. rewrite Hr. simpl.
  by rewrite decide_True.
Qed.

Lemma set_source_row_Some (n m : nat) (q : coeffs) (i j : nat) (v : Qc) :
  coeffs_shape n m q → (i < n)%nat → (j < m)%nat →
  ∃ q', set_source_row q i j v = Some q'
        ∧ coeffs_shape n m q' ∧ isolated_row q' i j v
        ∧ ∀ i' j', (i', j') ≠ (i, j) →
            get2 (c_ax q') i' j' = get2 (c_ax q) i' j'
            ∧ get2 (c_ay q') i' j' = get2 (c_ay q) i' j'
            ∧ get2 (c_cx q') i' j' = get2 (c_cx q) i' j'
            ∧ get2 (c_cy q') i' j' = get2 (c_cy q) i' j'
            ∧ get2 (c_b q') i' j' = get2 (c_b q) i' j'
            ∧ get2 (c_d_rhs q') i' j' = get2 (c_d_rhs q) i' j'.
Proof.
  destruct q as [ax ay cx cy b d_rhs].
  intros (Hax & Hay & Hcx & Hcy & Hb & Hd) Hi Hj. simpl in *.
  pose proof (shape2_inb n m ax i j Hax Hi Hj) as Iax.
  pose proof (shape2_inb n m ay i j Hay Hi Hj) as Iay.
  pose proof (shape2_inb n m cx i j Hcx Hi Hj) as Icx.
  pose proof (shape2_inb n m cy i j Hcy Hi Hj) as Icy.
  pose proof (shape2_inb n m b i j Hb Hi Hj) as Ib.
  pose proof (shape2_inb n m d_rhs i j Hd Hi Hj) as Id.
  exists (Coeffs (set2 ax i j 0) (set2 ay i j 0) (set2 cx i j 0)
            (set2 cy i j 0) (set2 b i j 1) (set2 d_rhs i j v)).
  split; [|split; [|split]].
  - unfold set_source_row.
    rewrite !set2_chk_Some by done. done.
  - unfold coeffs_shape. simpl.
    do 5 (split; [by apply shape2_set2|]). by apply shape2_set2.
  - repeat split; simpl; by apply get2_set2_eq.
  - intros i' j' Hne. repeat split; simpl; by apply get2_set2_ne.
Qed.


(** Slice updates, read back at a node. *)
Lemma get2_col_update (f : nat → Qc → Qc) (j : nat) (U : grid2) (i j' : nat) :
  inb2 U (i, j') →
  get2 (col_update f j U) i j'
  = if decide (j' = j) then f i (get2 U i j') else get2 U i j'.
Proof.
  intros (r & Hr & Hj). simpl in *. unfold get2, col_update.
  rewrite list_lookup_imap, Hr. simpl.
  destruct (lookup_lt_is_Some_2 r j' Hj) as [x Hx].
  destruct (decide (j' = j)) as [->|Hne].
  - by rewrite list_lookup_alter_eq, Hx.
  - by rewrite list_lookup_alter_ne.
Qed.

Lemma get2_row_update (f : nat → Qc → Qc) (i : nat) (U : grid2) (i' j : nat) :
  inb2 U (i', j) →
  get2 (row_update f i U) i' j
  = if decide (i' = i) then f j (get2 U i' j) else get2 U i' j.
Proof.
  intros (r & Hr & Hj). simpl in *. unfold get2, row_update.
  destruct (lookup_lt_is_Some_2 r j Hj) as [x Hx].
  destruct (decide (i' = i)) as [->|Hne].
  - rewrite list_lookup_alter_eq, Hr. simpl.
    by rewrite list_lookup_imap, Hx.
  - by rewrite list_lookup_alter_ne.
Qed.

Lemma inb2_col_update (f : nat → Qc → Qc) (j : nat) (U : grid2) (p : idx2) :
  inb2 U p → inb2 (col_update f j U) p.
Proof.
  intros (r & Hr & Hj). unfold inb2, col_update.
  rewrite list_lookup_imap, Hr. simpl. eexists. split; [done|].
  by rewrite length_alter.
Qed.

Lemma inb2_row_update (f : nat → Qc → Qc) (i : nat) (U : grid2) (p : idx2) :
  inb2 U p → inb2 (row_update f i U) p.
Proof.
  intros (r & Hr & Hj). unfold inb2, row_update.
  destruct (decide (i = p.1)) as [->|Hne].
  - rewrite list_lookup_alter_eq, Hr. simpl. eexists. split; [done|].
    by rewrite length_imap.
  - rewrite list_lookup_alter_ne by done. by exists r.
Qed.


(** ** The solver at an isolated row *)







(** ** The clamped ring *)

Lemma get2_oob (n m : nat) (U : grid2) (i j : nat) :
  shape2 n m U → ¬ (i < n ∧ j < m)%nat → get2 U i j = 0.
Proof.
  intros [Hn Hm] Hout. unfold get2. rewrite Forall_lookup in Hm.
  destruct (U !! i) as [r|] eqn:Hr; simpl; [|done].
  pose proof (lookup_lt_Some _ _ _ Hr) as Hi. pose proof (Hm i r Hr) as Hl.
  rewrite lookup_ge_None_2; [done|]. lia.
Qed.

Lemma shape2_row_update (n m : nat) (f : nat → Qc → Qc) (i : nat) (U : grid2) :
  shape2 n m U → shape2 n m (row_update f i U).
Proof.
  intros [Hn Hm]. unfold row_update. split; [by rewrite length_alter|].
  apply (Forall_alter (λ r, length r = m)); [done|].
  intros r _ Hr. by rewrite length_imap.
Qed.

Lemma shape2_imap (n m : nat) (g : nat → list Qc → list Qc) (U : grid2) :
  (∀ i r, length (g i r) = length r) →
  shape2 n m U → shape2 n m (imap g U).
Proof.
  intros Hg [Hn Hm]. split; [by rewrite length_imap|].
  rewrite Forall_lookup in Hm. apply Forall_lookup. intros i r Hr.
  apply list_lookup_imap_Some in Hr as (r0 & Hr0 & ->).
  rewrite Hg. by eapply Hm.
Qed.

Lemma shape2_col_update (n m : nat) (f : nat → Qc → Qc) (j : nat) (U : grid2) :
  shape2 n m U → shape2 n m (col_update f j U).
Proof.
  apply shape2_imap. intros i r. by rewrite length_alter.
Qed.

Lemma zero_ring_shape (n m : nat) (U : grid2) :
  shape2 n m U → shape2 n m (zero_ring U).
Proof.
  intros HU. unfold zero_ring.
  apply shape2_imap; [intros i r; by rewrite length_insert|].
  by apply shape2_col_update, shape2_row_update, shape2_row_update.
Qed.

Lemma get2_last_col (U : grid2) (i j : nat) (m : nat) :
  Forall (λ r, length r = m) U → inb2 U (i, j) →
  get2 (imap (λ _ r, <[(length r - 1)%nat := 0]> r) U) i j
  = if decide (j = (m - 1)%nat) then 0 else get2 U i j.
Proof.
  intros Hm (r & Hr & Hj). simpl in *. rewrite Forall_lookup in Hm.
  pose proof (Hm i r Hr) as Hl. unfold get2.
  rewrite list_lookup_imap, Hr. simpl. rewrite Hl.
  destruct (decide (j = (m - 1)%nat)) as [->|Hne].
  - rewrite list_lookup_insert_eq by lia. done.
  - by rewrite list_lookup_insert_ne.
Qed.

(** After the Dirichlet fix-up the ring is zero. *)
Lemma zero_ring_boundary (n m : nat) (U : grid2) (i j : nat) :
  shape2 n m U → boundary2 n m i j → get2 (zero_ring U) i j = 0.
Proof.
  intros HU Hb.
  destruct (decide (i < n ∧ j < m)%nat) as [[Hi Hj]|Hout].
  2: { apply (get2_oob n m); [by apply zero_ring_shape|done]. }
  pose proof (shape2_row_update n m (λ _ _, 0) 0 U HU) as H1.
  pose proof (shape2_row_update n m (λ _ _, 0) (n - 1) _ H1) as H2.
  pose proof (shape2_col_update n m (λ _ _, 0) 0 _ H2) as H3.
  unfold zero_ring. rewrite (proj1 H1).
  rewrite (get2_last_col _ i j m (proj2 H3)) by (by eapply shape2_inb).
  destruct (decide (j = (m - 1)%nat)) as [|Hjm]; [done|].
  rewrite get2_col_update by (by eapply shape2_inb).
  destruct (decide (j = 0%nat)) as [|Hj0]; [done|].
  rewrite get2_row_update by (by eapply shape2_inb).
  destruct (decide (i = (n - 1)%nat)) as [|Hin]; [done|].
  rewrite get2_row_update by (by eapply shape2_inb).
  destruct (decide (i = 0%nat)) as [|Hi0]; [done|].
  unfold boundary2 in Hb. lia.
Qed.

Lemma for_each_inv {St : Type} (P : St → Prop) (body : St → nat → option St)
    (idxs : list nat) (s s' : St) :
  (∀ s i s', P s → body s i = Some s' → P s') →
  P s → for_each body idxs s = Some s' → P s'.
Proof.
  intros Hbody. revert s. induction idxs as [|i idxs IH]; intros s Hs; simpl.
  - by intros [= <-].
  - destruct (body s i) as [s1|] eqn:H1; simpl; [|done].
    apply IH. by eapply Hbody.
Qed.

Lemma relax_shape ax ay cx cy b d_rhs n m U_initial alfa eps max_iter fuel U
    n' m' :
  shape2 n' m' U_initial →
  relax ax ay cx cy b d_rhs n m U_initial alfa eps max_iter fuel = Some U →
  shape2 n' m' U.
Proof.
  unfold relax, relax_run. intros HU H.
  destruct (while_loopM _ _ _ _) as [s|] eqn:Hs; simpl in H; [|done].
  injection H as <-. revert Hs.
  apply (while_loopM_inv _ _ (λ s, shape2 n' m' (s_U s))); [|done].
  intros s0 s1 IH Hp. apply relax_pass_Some in Hp as (inv_b & _ & ->).
  rewrite relax_body_U. by apply relax2d_sweep_shape.
Qed.

Lemma grid_init_shape (n m : nat) (f : nat → nat → Qc) :
  shape2 n m (grid_init n m f).
Proof.
  unfold grid_init. split; [by rewrite length_fmap, length_seq|].
  apply Forall_fmap, Forall_forall. intros i _. simpl.
  by rewrite length_fmap, length_seq.
Qed.

Lemma zeros2_get (n m i j : nat) : get2 (zeros2 n m) i j = 0.
Proof.
  unfold get2, zeros2.
  destruct (replicate n (replicate m 0) !! i) as [r|] eqn:Hr; simpl; [|done].
  apply lookup_replicate in Hr as [-> _].
  destruct (replicate m 0 !! j) as [x|] eqn:Hx; simpl; [|done].
  by apply lookup_replicate in Hx as [-> _].
Qed.

Lemma sim_step_dirichlet np_pi np_sin cfg hx hy ax0 ay0 cx0 cy0 b0 s k s' :
  cfg_boundary_condition cfg = "dirichlet"%string →
  shape2 (cfg_nx cfg) (cfg_ny cfg) (sim_U1 s) →
  Forall (ring_zero (cfg_nx cfg) (cfg_ny cfg)) (sim_U_stack s) →
  sim_step np_pi np_sin cfg hx hy ax0 ay0 cx0 cy0 b0 s k = Some s' →
  shape2 (cfg_nx cfg) (cfg_ny cfg) (sim_U1 s')
  ∧ Forall (ring_zero (cfg_nx cfg) (cfg_ny cfg)) (sim_U_stack s').
Proof.
  intros Hbc Hs1 Hst. unfold sim_step. rewrite Hbc.
  destruct (set_sources _ _ _ _ _) as [q|]; simpl; [|done].
  destruct (relax _ _ _ _ _ _ _ _ _ _ _ _ _) as [U|] eqn:HU; simpl; [|done].
  intros [= <-]. simpl.
  pose proof (relax_shape _ _ _ _ _ _ _ _ _ _ _ _ _ _ _ _ Hs1 HU) as HsU.
  split; [by apply zero_ring_shape|].
  apply Forall_insert; [done|].
  intros i j Hb. by apply (zero_ring_boundary (cfg_nx cfg) (cfg_ny cfg)).
Qed.

(** C9. Under the Dirichlet condition every frame of the history stack
    returned by [run_simulation] is zero at every node whose index is [0]
    or the last one on either axis. *)
Theorem C9_dirichlet_frames_have_zero_ring
    (np_pi : Qc) (np_sin : Qc → Qc) (cfg : config) (r : sim_result)
    (U : grid2) (i j : nat) :
  cfg_boundary_condition cfg = "dirichlet"%string →
  run_simulation np_pi np_sin cfg = Some r →
  U ∈ res_U_stack r →
  boundary2 (cfg_nx cfg) (cfg_ny cfg) i j →
  get2 U i j = 0.
Proof.
  intros Hbc Hrun HU Hb. unfold run_simulation in Hrun.
  destruct (fdiv (cfg_Lx cfg) _) as [hx|]; simpl in Hrun; [|done].
  destruct (fdiv (cfg_Ly cfg) _) as [hy|]; simpl in Hrun; [|done].
  destruct (fdiv (qc 1 2) (hx * hx)) as [ex|]; simpl in Hrun; [|done].
  destruct (fdiv (qc 1 2) (hy * hy)) as [ey|]; simpl in Hrun; [|done].
  destruct (fdiv 1 _) as [et|]; simpl in Hrun; [|done].
  destruct (for_each _ _ _) as [s|] eqn:Hs; simpl in Hrun; [|done].
  injection Hrun as <-. simpl in HU.
  apply (for_each_inv
    (λ s, shape2 (cfg_nx cfg) (cfg_ny cfg) (sim_U1 s)
          ∧ Forall (ring_zero (cfg_nx cfg) (cfg_ny cfg)) (sim_U_stack s)))
    in Hs as [_ Hst].
  - rewrite Forall_forall in Hst. by apply (Hst U HU).
  - intros s0 k s1 [H1 H2] Hstep. by eapply sim_step_dirichlet.
  - simpl. split; [apply grid_init_shape|].
    apply Forall_replicate. intros i' j' _. apply zeros2_get.
Qed.

Lemma C9_dirichlet_frames_have_zero_ring_witness :
  ∃ r U, cfg_boundary_condition ex_config = "dirichlet"%string
    ∧ run_simulation pi_approx sin_poly ex_config = Some r
    ∧ U ∈ res_U_stack r
    ∧ get2 U 1 1 ≠ 0
    ∧ get2 U 0 1 = 0 ∧ get2 U 2 2 = 0.
Proof.
  set (r' := default (SimResult [] [] [] ex_config)
               (run_simulation pi_approx sin_poly ex_config)).
  set (U := default [] (res_U_stack r' !! 0%nat)).
  assert (run_simulation pi_approx sin_poly ex_config = Some r') as Hr
    by (vm_compute; reflexivity).
  assert (res_U_stack r' !! 0%nat = Some U) as HU by (vm_compute; reflexivity).
  assert (get2 U 1 1 < 0) as Hneg by (vm_compute; reflexivity).
  clearbody U r'.
  pose proof (list_elem_of_lookup_2 _ _ _ HU) as Hin.
  exists r', U. split; [reflexivity|]. split; [exact Hr|]. split; [exact Hin|].
  split.
  { intros E. rewrite E in Hneg. exact (Qclt_not_eq _ _ Hneg eq_refl). }
  split.
  - apply (C9_dirichlet_frames_have_zero_ring pi_approx sin_poly ex_config r'
             U 0 1 eq_refl Hr Hin). left. reflexivity.
  - apply (C9_dirichlet_frames_have_zero_ring pi_approx sin_poly ex_config r'
             U 2 2 eq_refl Hr Hin). right. left. reflexivity.
Defined.

(** ** A clamped run returns *)

Lemma Qc_mul_pos (x y : Qc) : 0 < x → 0 < y → 0 < x * y.
Proof.
  unfold Qclt. simpl. intros Hx Hy. rewrite !Qred_correct in *.
  by apply Qmult_lt_0_compat.
Qed.

Lemma Qc_add_pos (x y : Qc) : 0 < x → 0 < y → 0 < x + y.
Proof.
  unfold Qclt. simpl. intros Hx Hy. rewrite !Qred_correct in *. lra.
Qed.

Lemma Qc_sq_pos (x : Qc) : x ≠ 0 → 0 < x * x.
Proof.
  intros Hx. unfold Qclt. simpl. rewrite !Qred_correct.
  assert (¬ (this x == 0)%Q) as Hq.
  { intros E. apply Hx, Qc_is_canon. by rewrite E. }
  destruct (Q_dec (this x) 0) as [[Hlt|Hgt]|Heq]; [nra|nra|done].
Qed.

Lemma Qc_div_pos (x y : Qc) : 0 < x → 0 < y → 0 < x / y.
Proof.
  unfold Qclt. simpl. intros Hx Hy. rewrite !Qred_correct in *.
  apply Qmult_lt_0_compat; [done|]. by apply Qinv_lt_0_compat.
Qed.

Lemma fdiv_nonzero (x y : Qc) : y ≠ 0 → fdiv x y = Some (x / y).
Proof. intros Hy. unfold fdiv. by rewrite decide_False. Qed.

Lemma Qc_pos_neq (x : Qc) : 0 < x → x ≠ 0.
Proof. intros H E. rewrite E in H. by apply Qclt_not_eq in H. Qed.

Lemma nonzero_all_interior (n m : nat) (b : grid2) :
  shape2 n m b → nonzero_all b → nonzero_interior2 n m b.
Proof.
  intros [Hn Hm] Hb i j Hi Hj. rewrite Forall_lookup in Hm.
  destruct (lookup_lt_is_Some_2 b i) as [r Hr]; [lia|].
  destruct (lookup_lt_is_Some_2 r j) as [x Hx]; [rewrite (Hm i r Hr); lia|].
  rewrite (get2_lookup b i j r x Hr Hx).
  unfold nonzero_all in Hb. rewrite Forall_lookup in Hb.
  specialize (Hb i r Hr). rewrite Forall_lookup in Hb. by apply (Hb j x).
Qed.

Lemma read_all_is_Some (n m : nat) (b : grid2) :
  nonzero_all b → is_Some (read_interior2 n m (invert_all2 b)).
Proof.
  intros Hb. apply mapM_from_is_Some. intros i r' Hr'. simpl.
  unfold invert_all2 in Hr'. rewrite list_lookup_fmap in Hr'.
  destruct (b !! i) as [r|] eqn:Hr; simpl in Hr'; [|done].
  injection Hr' as <-. apply mapM_from_is_Some. intros j x' Hx'. simpl.
  rewrite list_lookup_fmap in Hx'.
  destruct (r !! j) as [x|] eqn:Hx; simpl in Hx'; [|done].
  injection Hx' as <-.
  destruct (inner n i && inner m j); [|done].
  unfold nonzero_all in Hb. rewrite Forall_lookup in Hb.
  specialize (Hb i r Hr). rewrite Forall_lookup in Hb.
  specialize (Hb j x Hx). simpl in Hb. unfold recip. by rewrite decide_False.
Qed.

Lemma grid_init_nonzero (n m : nat) (v : Qc) :
  v ≠ 0 → nonzero_all (grid_init n m (λ _ _, v)).
Proof.
  intros Hv. unfold nonzero_all, grid_init.
  apply Forall_fmap, Forall_forall. intros i _. simpl.
  apply Forall_fmap, Forall_forall. intros j _. done.
Qed.

Lemma set2_nonzero (b : grid2) (i j : nat) (v : Qc) :
  v ≠ 0 → nonzero_all b → nonzero_all (set2 b i j v).
Proof.
  intros Hv Hb. unfold nonzero_all, set2.
  apply (Forall_alter (Forall (λ x, x ≠ 0))); [done|].
  intros r _ Hr. by apply Forall_insert.
Qed.

Lemma set_source_row_nonzero (q q' : coeffs) (i j : nat) (v : Qc) :
  set_source_row q i j v = Some q' →
  nonzero_all (c_b q) → nonzero_all (c_b q').
Proof.
  destruct q as [ax ay cx cy b d_rhs]. unfold set_source_row. simpl.
  intros H Hb.
  destruct (set2_chk ax i j 0) as [ax'|]; simpl in H; [|done].
  destruct (set2_chk ay i j 0) as [ay'|]; simpl in H; [|done].
  destruct (set2_chk cx i j 0) as [cx'|]; simpl in H; [|done].
  destruct (set2_chk cy i j 0) as [cy'|]; simpl in H; [|done].
  destruct (set2_chk b i j 1) as [b'|] eqn:Eb; simpl in H; [|done].
  destruct (set2_chk d_rhs i j v) as [d'|]; simpl in H; [|done].
  injection H as <-. simpl. unfold set2_chk in Eb.
  destruct (b !! i) as [r|]; simpl in Eb; [|done].
  destruct (decide (j < length r)%nat); [|done]. injection Eb as <-.
  apply set2_nonzero; [|done]. apply Qc_pos_neq. reflexivity.
Qed.

Lemma relax_returns ax ay cx cy b d_rhs n m U_initial alfa eps max_iter fuel :
  nonzero_all b → (Z.to_nat max_iter ≤ fuel)%nat →
  is_Some (relax ax ay cx cy b d_rhs n m U_initial alfa eps max_iter fuel).
Proof.
  intros Hb Hfuel. destruct (read_all_is_Some n m b Hb) as [inv_b Hinv].
  unfold relax. rewrite (relax_run_unfold _ _ _ _ _ _ _ _ _ _ _ _ _ _ Hinv).
  destruct (sor_loop_returns s_err s_it (relax_cond eps max_iter)
              (relax_body ax ay cx cy d_rhs n m alfa inv_b) eps max_iter 0)
    with (init := relax_init U_initial) (fuel := fuel) as (k & _ & ->).
  - intros s Hs. unfold relax_cond.
    rewrite (proj2 (Z.ltb_ge (s_it s) 0)) by lia. by rewrite orb_false_r.
  - apply relax_body_it.
  - done.
  - lia.
  - done.
Qed.

Lemma for_each_is_Some {St : Type} (body : St → nat → option St)
    (idxs : list nat) (s : St) :
  (∀ s i, is_Some (body s i)) → is_Some (for_each body idxs s).
Proof.
  intros Hbody. revert s. induction idxs as [|i idxs IH]; intros s; simpl.
  - done.
  - destruct (Hbody s i) as [s' ->]. simpl. apply IH.
Qed.

Lemma for_each_stack_length (body : sim_state → nat → option sim_state)
    (idxs : list nat) (s s' : sim_state) :
  (∀ s i s', body s i = Some s' →
     length (sim_U_stack s') = length (sim_U_stack s)) →
  for_each body idxs s = Some s' →
  length (sim_U_stack s') = length (sim_U_stack s).
Proof.
  intros Hbody. revert s. induction idxs as [|i idxs IH]; intros s; simpl.
  - by intros [= <-].
  - destruct (body s i) as [s1|] eqn:H1; simpl; [|done].
    intros H. rewrite (IH s1 H). by eapply Hbody.
Qed.

Section ClampedRun.
Variables (np_pi : Qc) (np_sin : Qc → Qc) (cfg : config).
Hypothesis Hbc : cfg_boundary_condition cfg = "dirichlet"%string.
Hypothesis Hnx : (2 ≤ cfg_nx cfg)%nat.
Hypothesis Hny : (2 ≤ cfg_ny cfg)%nat.

Lemma set_sources_returns k q :
  coeffs_shape (cfg_nx cfg) (cfg_ny cfg) q → nonzero_all (c_b q) →
  ∃ q', set_sources np_pi np_sin k q cfg = Some q' ∧ nonzero_all (c_b q').
Proof.
  intros Hq Hb. unfold set_sources.
  pose proof (Nat.Div0.div_lt_upper_bound (cfg_nx cfg) 2 (cfg_nx cfg)) as Hdx.
  pose proof (Nat.Div0.div_lt_upper_bound (cfg_ny cfg) 2 (cfg_ny cfg)) as Hdy.
  destruct (decide _) as [_|_].
  - destruct (set_source_row_Some _ _ q (cfg_nx cfg `div` 2)
                (cfg_ny cfg `div` 2) (source_value np_pi np_sin k cfg) Hq)
      as (q' & Hq' & _); [lia..|].
    exists q'. split; [done|]. by eapply set_source_row_nonzero.
  - destruct (decide _) as [_|_]; [|by exists q].
    destruct (set_source_row_Some _ _ q 1 (cfg_ny cfg `div` 2)
                (source_value np_pi np_sin k cfg) Hq)
      as (q1 & Hq1 & Hs1 & _); [lia..|].
    destruct (set_source_row_Some _ _ q1 (cfg_nx cfg - 2) (cfg_ny cfg `div` 2)
                (source_value np_pi np_sin k cfg) Hs1)
      as (q2 & Hq2 & _); [lia..|].
    exists q2. rewrite Hq1. simpl. split; [done|].
    eapply set_source_row_nonzero; [done|].
    by eapply set_source_row_nonzero.
Qed.

Lemma sim_step_returns hx hy ax0 ay0 cx0 cy0 b0 s k :
  shape2 (cfg_nx cfg) (cfg_ny cfg) ax0 → shape2 (cfg_nx cfg) (cfg_ny cfg) ay0 →
  shape2 (cfg_nx cfg) (cfg_ny cfg) cx0 → shape2 (cfg_nx cfg) (cfg_ny cfg) cy0 →
  shape2 (cfg_nx cfg) (cfg_ny cfg) b0 → nonzero_all b0 →
  is_Some (sim_step np_pi np_sin cfg hx hy ax0 ay0 cx0 cy0 b0 s k).
Proof.
  intros Hax Hay Hcx Hcy Hb0 Hnz. unfold sim_step.
  destruct (set_sources_returns k
              (Coeffs ax0 ay0 cx0 cy0 b0
                 (assemble_rhs (cfg_nx cfg) (cfg_ny cfg) (cfg_dt cfg) hx hy
                    (sim_U0 s) (sim_U1 s)))) as (q & -> & Hq).
  { unfold coeffs_shape. simpl. repeat (split; [done|]).
    apply grid_init_shape. }
  { done. }
  simpl. rewrite Hbc. simpl.
  destruct (relax_returns (c_ax q) (c_ay q) (c_cx q) (c_cy q) (c_b q)
              (c_d_rhs q) (cfg_nx cfg) (cfg_ny cfg) (sim_U1 s)
              (cfg_relax_alfa cfg) (cfg_relax_eps cfg)
              (cfg_relax_max_iter cfg) (Z.to_nat (cfg_relax_max_iter cfg)) Hq)
    as [U ->]; [lia|].
  done.
Qed.

(** With the Dirichlet condition, a grid of at least [2 × 2] nodes and
    nonzero [Lx], [Ly] and [dt], [run_simulation] returns a history of
    [max_steps] frames. *)
Lemma run_simulation_dirichlet_returns :
  cfg_Lx cfg ≠ 0 → cfg_Ly cfg ≠ 0 → cfg_dt cfg ≠ 0 →
  ∃ r, run_simulation np_pi np_sin cfg = Some r
       ∧ length (res_U_stack r) = cfg_max_steps cfg.
Proof.
  intros HLx HLy Hdt. unfold run_simulation.
  assert (∀ n : nat, (2 ≤ n)%nat → of_int (Z.of_nat n - 1) ≠ 0) as Hof.
  { intros n Hn E. apply (f_equal this) in E. unfold of_int in E. simpl in E.
    assert (inject_Z (Z.of_nat n - 1) == 0)%Q as E'.
    { rewrite <- (Qred_correct (inject_Z _)). by rewrite E. }
    unfold Qeq in E'. simpl in E'. lia. }
  rewrite (fdiv_nonzero (cfg_Lx cfg) _ (Hof _ Hnx)). simpl.
  rewrite (fdiv_nonzero (cfg_Ly cfg) _ (Hof _ Hny)). simpl.
  set (hx := cfg_Lx cfg / of_int (Z.of_nat (cfg_nx cfg) - 1)).
  set (hy := cfg_Ly cfg / of_int (Z.of_nat (cfg_ny cfg) - 1)).
  assert (hx ≠ 0) as Hhx.
  { unfold hx. intros E. apply HLx.
    rewrite <- (Qcmult_div_r (cfg_Lx cfg) _ (Hof _ Hnx)), E. ring. }
  assert (hy ≠ 0) as Hhy.
  { unfold hy. intros E. apply HLy.
    rewrite <- (Qcmult_div_r (cfg_Ly cfg) _ (Hof _ Hny)), E. ring. }
  pose proof (Qc_sq_pos hx Hhx) as Hx2.
  pose proof (Qc_sq_pos hy Hhy) as Hy2.
  pose proof (Qc_sq_pos (cfg_dt cfg) Hdt) as Ht2.
  rewrite (fdiv_nonzero (qc 1 2) (hx * hx)) by (by apply Qc_pos_neq). simpl.
  rewrite (fdiv_nonzero (qc 1 2) (hy * hy)) by (by apply Qc_pos_neq). simpl.
  rewrite (fdiv_nonzero 1 (cfg_dt cfg * cfg_dt cfg)) by (by apply Qc_pos_neq).
  simpl.
  assert (0 < qc 1 2) as Hhalf by reflexivity.
  assert (0 < (1 : Qc)) as Hone by reflexivity.
  pose proof (Qc_div_pos _ _ Hhalf Hx2) as Hex.
  pose proof (Qc_div_pos _ _ Hhalf Hy2) as Hey.
  pose proof (Qc_div_pos _ _ Hone Ht2) as Het.
  set (ex := qc 1 2 / (hx * hx)) in *. set (ey := qc 1 2 / (hy * hy)) in *.
  set (et := 1 / (cfg_dt cfg * cfg_dt cfg)) in *.
  assert (ex * 1 + ex * 1 + ey * 1 + ey * 1 + et ≠ 0) as Hb0.
  { apply Qc_pos_neq. rewrite !Qcmult_1_r.
    by repeat apply Qc_add_pos. }
  destruct (for_each_is_Some
              (sim_step np_pi np_sin cfg hx hy
                 (grid_init (cfg_nx cfg) (cfg_ny cfg) (λ _ _, ex * 1))
                 (grid_init (cfg_nx cfg) (cfg_ny cfg) (λ _ _, ey * 1))
                 (grid_init (cfg_nx cfg) (cfg_ny cfg) (λ _ _, ex * 1))
                 (grid_init (cfg_nx cfg) (cfg_ny cfg) (λ _ _, ey * 1))
                 (grid_init (cfg_nx cfg) (cfg_ny cfg)
                    (λ _ _, ex * 1 + ex * 1 + ey * 1 + ey * 1 + et)))
              (range 1 (cfg_max_steps cfg + 1))
              (SimState (zeros2 (cfg_nx cfg) (cfg_ny cfg))
                 (grid_init (cfg_nx cfg) (cfg_ny cfg)
                    (λ i j, if inner (cfg_nx cfg) i && inner (cfg_ny cfg) j
                            then get2 (zeros2 (cfg_nx cfg) (cfg_ny cfg)) i j
                                 + cfg_dt cfg
                                   * get2 (zeros2 (cfg_nx cfg) (cfg_ny cfg)) i j
                            else 0))
                 (replicate (cfg_max_steps cfg)
                    (zeros2 (cfg_nx cfg) (cfg_ny cfg)))))
    as [s Hs].
  { intros s k. apply sim_step_returns; try apply grid_init_shape.
    by apply grid_init_nonzero. }
  rewrite Hs. simpl. eexists. split; [done|]. simpl.
  apply for_each_stack_length in Hs.
  - rewrite Hs. simpl. by rewrite length_replicate.
  - intros s0 k s1 Hstep. unfold sim_step in Hstep.
    destruct (set_sources _ _ _ _ _) as [q|]; simpl in Hstep; [|done].
    destruct (relax _ _ _ _ _ _ _ _ _ _ _ _ _) as [U|]; simpl in Hstep;
      [|done].
    injection Hstep as <-. simpl. by rewrite length_insert.
Qed.
End ClampedRun.

(** ** The Thomas solver *)

Lemma for_each_app {St : Type} (body : St → nat → option St)
    (l1 l2 : list nat) (s : St) :
  for_each body (l1 ++ l2) s = for_each body l1 s ≫= for_each body l2.
Proof.
  revert s. induction l1 as [|i l1 IH]; intros s; simpl; [done|].
  destruct (body s i) as [s'|]; simpl; [apply IH|done].
Qed.

Lemma range_snoc (lo hi : nat) :
  (lo ≤ hi)%nat → range lo (S hi) = range lo hi ++ [hi].
Proof.
  intros H. unfold range. replace (S hi - lo)%nat with (S (hi - lo)) by lia.
  rewrite seq_S. do 2 f_equal. lia.
Qed.

Lemma splice_length (k : nat) (new old : list Qc) :
  length new = length old → length (splice k new old) = length old.
Proof.
  intros H. unfold splice. rewrite length_app, length_take, length_drop. lia.
Qed.

Lemma splice_lookup_lt (k j : nat) (new old : list Qc) :
  (j < k)%nat → (k ≤ length new)%nat → splice k new old !! j = new !! j.
Proof.
  intros Hj Hk. unfold splice.
  rewrite lookup_app_l by (rewrite length_take; lia).
  by rewrite lookup_take_lt.
Qed.

Lemma splice_lookup_ge (k j : nat) (new old : list Qc) :
  (k ≤ j)%nat → (k ≤ length new)%nat → splice k new old !! j = old !! j.
Proof.
  intros Hj Hk. unfold splice.
  rewrite lookup_app_r by (rewrite length_take; lia).
  rewrite length_take, lookup_drop. f_equal. lia.
Qed.

Lemma splice_insert (k : nat) (new old : list Qc) (v : Qc) :
  length new = length old → new !! k = Some v →
  <[k := v]> (splice k new old) = splice (S k) new old.
Proof.
  intros Hlen Hv. pose proof (lookup_lt_Some _ _ _ Hv) as Hk. unfold splice.
  rewrite insert_app_r_alt by (rewrite length_take; lia).
  rewrite length_take. replace (k - k `min` length new)%nat with 0%nat by lia.
  destruct (lookup_lt_is_Some_2 old k) as [x Hx]; [lia|].
  rewrite (drop_S _ _ _ Hx). simpl.
  rewrite (take_S_r _ _ _ Hv), <- app_assoc. done.
Qed.

Lemma splice_0 (new old : list Qc) : splice 0 new old = old.
Proof. unfold splice. by rewrite take_0, drop_0. Qed.

Lemma splice_all (new old : list Qc) :
  length new = length old → splice (length old) new old = new.
Proof.
  intros H. unfold splice. rewrite drop_all, app_nil_r, <- H. apply take_ge. lia.
Qed.

Lemma splice_head (new old : list Qc) :
  length new = length old → new !! 0%nat = old !! 0%nat →
  splice 1 new old = old.
Proof.
  destruct new as [|x new], old as [|y old]; simpl; intros Hl H0; try done.
  injection H0 as ->. unfold splice. simpl. by rewrite drop_0.
Qed.

Lemma at0_lookup (l : list Qc) (i : nat) :
  (i < length l)%nat → l !! i = Some (at0 l i).
Proof.
  intros Hi. unfold at0. by destruct (lookup_lt_is_Some_2 l i Hi) as [x ->].
Qed.

Lemma pivots_length (a b c : list Qc) : length (pivots a b c) = length b.
Proof. unfold pivots. by rewrite length_fmap, length_seq. Qed.

Lemma elim_rhs_length (a b c d : list Qc) :
  length (elim_rhs a b c d) = length b.
Proof. unfold elim_rhs. by rewrite length_fmap, length_seq. Qed.

Lemma solution_length (a b c d : list Qc) :
  length (solution a b c d) = length b.
Proof. unfold solution. by rewrite length_fmap, length_seq. Qed.

Lemma pivots_lookup (a b c : list Qc) (i : nat) :
  (i < length b)%nat → pivots a b c !! i = Some (pivot_at a b c i).
Proof.
  intros Hi. unfold pivots. rewrite list_lookup_fmap, lookup_seq_lt by done.
  done.
Qed.

Lemma elim_rhs_lookup (a b c d : list Qc) (i : nat) :
  (i < length b)%nat → elim_rhs a b c d !! i = Some (rhs_at a b c d i).
Proof.
  intros Hi. unfold elim_rhs. rewrite list_lookup_fmap, lookup_seq_lt by done.
  done.
Qed.

Lemma solution_lookup (a b c d : list Qc) (i : nat) :
  (i < length b)%nat →
  solution a b c d !! i = Some (sol_back (length b) a b c d (length b - 1 - i)).
Proof.
  intros Hi. unfold solution. rewrite list_lookup_fmap, lookup_seq_lt by done.
  done.
Qed.

(** The store seen by the loops of [thomas]: [a] and [c] hold the given
    arrays, [b] and [d] the current ones. *)
Section ThomasStore.
Variables (h : heap) (a b c d : loc) (la lc : list Qc).
Hypothesis Ha : h !! a = Some la.
Hypothesis Hc : h !! c = Some lc.
Hypothesis Hab : a ≠ b.
Hypothesis Had : a ≠ d.
Hypothesis Hcb : c ≠ b.
Hypothesis Hcd : c ≠ d.
Hypothesis Hbd : b ≠ d.

Lemma canon_a lb ld : canon h b d lb ld !! a = Some la.
Proof. unfold canon. by rewrite !lookup_insert_ne. Qed.

Lemma canon_c lb ld : canon h b d lb ld !! c = Some lc.
Proof. unfold canon. by rewrite !lookup_insert_ne. Qed.

Lemma canon_b lb ld : canon h b d lb ld !! b = Some lb.
Proof. unfold canon. by rewrite lookup_insert_ne, lookup_insert_eq. Qed.

Lemma canon_d lb ld : canon h b d lb ld !! d = Some ld.
Proof. unfold canon. by rewrite lookup_insert_eq. Qed.

Lemma canon_other lb ld p : p ≠ b → p ≠ d → canon h b d lb ld !! p = h !! p.
Proof. intros. unfold canon. by rewrite !lookup_insert_ne. Qed.

Lemma store_canon_b lb ld i v :
  (i < length lb)%nat →
  store (canon h b d lb ld) b i v = Some (canon h b d (<[i := v]> lb) ld).
Proof.
  intros Hi. unfold store. rewrite canon_b. simpl. rewrite decide_True by done.
  f_equal. unfold canon. rewrite insert_insert_ne by done.
  by rewrite insert_insert_eq.
Qed.

Lemma store_canon_d lb ld i v :
  (i < length ld)%nat →
  store (canon h b d lb ld) d i v = Some (canon h b d lb (<[i := v]> ld)).
Proof.
  intros Hi. unfold store. rewrite canon_d. simpl. rewrite decide_True by done.
  f_equal. unfold canon. by rewrite insert_insert_eq.
Qed.

Lemma forward_step_canon lb ld i ai bp bi cp di dp :
  (1 ≤ i)%nat →
  la !! i = Some ai → lb !! (i - 1)%nat = Some bp → bp ≠ 0 →
  lb !! i = Some bi → lc !! (i - 1)%nat = Some cp →
  ld !! i = Some di → ld !! (i - 1)%nat = Some dp →
  forward_step a b c d (canon h b d lb ld) i
  = Some (canon h b d (<[i := bi - ai / bp * cp]> lb)
                (<[i := di - ai / bp * dp]> ld)).
Proof.
  intros Hi Hai Hbp Hnz Hbi Hcp Hdi Hdp. unfold forward_step, load.
  rewrite canon_a, canon_b, canon_c. simpl. rewrite Hai, Hbp. simpl.
  unfold fdiv at 1. rewrite decide_False by done. simpl.
  rewrite Hbi, Hcp. simpl.
  rewrite store_canon_b by (by eapply lookup_lt_Some). simpl.
  rewrite canon_d. simpl. rewrite Hdi, Hdp. simpl.
  by rewrite store_canon_d by (by eapply lookup_lt_Some).
Qed.

Lemma forward_step_zero lb ld i ai :
  la !! i = Some ai → lb !! (i - 1)%nat = Some 0 →
  forward_step a b c d (canon h b d lb ld) i = None.
Proof.
  intros Hai Hbp. unfold forward_step, load.
  rewrite canon_a, canon_b. simpl. rewrite Hai, Hbp. simpl. done.
Qed.

Variables (lb ld : list Qc) (n : nat).
Hypothesis Hlb : length lb = n.
Hypothesis Hla : length la = n.
Hypothesis Hlc : length lc = n.
Hypothesis Hld : length ld = n.

Let P := pivots la lb lc.
Let E := elim_rhs la lb lc ld.

Lemma splice_1 : splice 1 P lb = lb ∧ splice 1 E ld = ld.
Proof.
  split; apply splice_head.
  - unfold P. by rewrite pivots_length.
  - unfold P, pivots. rewrite list_lookup_fmap.
    destruct lb as [|b0 lb']; simpl; done.
  - unfold E. rewrite elim_rhs_length. lia.
  - unfold E, elim_rhs. rewrite list_lookup_fmap.
    destruct lb as [|b0 lb'], ld as [|d0 ld']; simpl; try done.
    all: simpl in *; lia.
Qed.

(** The forward sweep, up to row [k]. *)
Lemma forward_loop_canon (k : nat) :
  (k < n)%nat → (∀ j, (j < k)%nat → pivot_at la lb lc j ≠ 0) →
  for_each (forward_step a b c d) (range 1 (S k)) (canon h b d lb ld)
  = Some (canon h b d (splice (S k) P lb) (splice (S k) E ld)).
Proof.
  induction k as [|k IH]; intros Hk Hnz.
  - destruct splice_1 as [-> ->]. done.
  - rewrite range_snoc by lia. rewrite for_each_app, IH; [|lia|].
    2: { intros j Hj. apply Hnz. lia. }
    simpl.
    assert (length P = n) as HP by (unfold P; by rewrite pivots_length).
    assert (length E = n) as HE by (unfold E; by rewrite elim_rhs_length).
    rewrite (forward_step_canon _ _ (S k) (at0 la (S k)) (pivot_at la lb lc k)
               (at0 lb (S k)) (at0 lc k) (at0 ld (S k)) (rhs_at la lb lc ld k)).
    + simpl. f_equal. f_equal.
      * apply splice_insert; [lia|]. unfold P. rewrite pivots_lookup by lia.
        done.
      * apply splice_insert; [lia|]. unfold E. rewrite elim_rhs_lookup by lia.
        done.
    + lia.
    + apply at0_lookup. lia.
    + replace (S k - 1)%nat with k by lia.
      rewrite splice_lookup_lt by lia. unfold P. apply pivots_lookup. lia.
    + apply Hnz. lia.
    + rewrite splice_lookup_ge by lia. apply at0_lookup. lia.
    + replace (S k - 1)%nat with k by lia. apply at0_lookup. lia.
    + rewrite splice_lookup_ge by lia. apply at0_lookup. lia.
    + replace (S k - 1)%nat with k by lia.
      rewrite splice_lookup_lt by lia. unfold E. apply elim_rhs_lookup. lia.
Qed.

Lemma forward_loop_done :
  (1 ≤ n)%nat → (∀ j, (j < n - 1)%nat → pivot_at la lb lc j ≠ 0) →
  for_each (forward_step a b c d) (range 1 n) (canon h b d lb ld)
  = Some (canon h b d P E).
Proof.
  intros Hn Hnz. replace n with (S (n - 1)) at 1 by lia.
  rewrite forward_loop_canon by (done || lia).
  replace (S (n - 1)) with n by lia.
  assert (splice n P lb = P) as ->.
  { rewrite <- Hlb. apply splice_all. unfold P. by rewrite pivots_length. }
  assert (splice n E ld = E) as ->; [|done].
  rewrite <- Hld. apply splice_all. unfold E. rewrite elim_rhs_length. lia.
Qed.

(** A zero pivot before the last row stops the forward sweep. *)
Lemma forward_loop_zero (k : nat) :
  (S k < n)%nat → (∀ j, (j < k)%nat → pivot_at la lb lc j ≠ 0) →
  pivot_at la lb lc k = 0 →
  for_each (forward_step a b c d) (range 1 n) (canon h b d lb ld) = None.
Proof.
  intros Hk Hnz Hz.
  assert (range 1 n = range 1 (S k) ++ [S k] ++ range (S (S k)) n) as ->.
  { unfold range. replace (n - 1)%nat with ((S k - 1) + (1 + (n - S (S k))))%nat
      by lia.
    rewrite seq_app, seq_app. simpl. do 3 f_equal; lia. }
  rewrite for_each_app, forward_loop_canon by (done || lia). simpl.
  rewrite (forward_step_zero _ _ (S k) (at0 la (S k))); [done|..].
  - apply at0_lookup. lia.
  - replace (S k - 1)%nat with k by lia.
    rewrite splice_lookup_lt.
    + unfold P. rewrite pivots_lookup by lia. by rewrite Hz.
    + lia.
    + unfold P. rewrite pivots_length. lia.
Qed.
End ThomasStore.

Lemma splice_insert_l (i : nat) (new old : list Qc) (v : Qc) :
  length new = length old → old !! i = Some v →
  <[i := v]> (splice (S i) new old) = splice i new old.
Proof.
  intros Hlen Hv. pose proof (lookup_lt_Some _ _ _ Hv) as Hi. unfold splice.
  destruct (lookup_lt_is_Some_2 new i) as [x Hx]; [lia|].
  rewrite (take_S_r _ _ _ Hx), <- app_assoc.
  rewrite insert_app_r_alt by (rewrite length_take; lia).
  rewrite length_take. replace (i - i `min` length new)%nat with 0%nat by lia.
  simpl. by rewrite (drop_S _ _ _ Hv).
Qed.

Lemma splice_full (new old : list Qc) :
  length new = length old → splice (length new) new old = new.
Proof.
  intros H. unfold splice. rewrite take_ge by lia.
  rewrite drop_ge by lia. by rewrite app_nil_r.
Qed.

Lemma last_at0 (l : list Qc) :
  (1 ≤ length l)%nat → last l = Some (at0 l (length l - 1)).
Proof.
  intros H. rewrite last_lookup.
  replace (pred (length l)) with (length l - 1)%nat by lia.
  apply at0_lookup. lia.
Qed.

(** The store seen by the back substitution: [y] is the new array. *)
Section ThomasBack.
Variables (h1 : heap) (b c d y : loc) (lP lc lE : list Qc).
Hypothesis Hb : h1 !! b = Some lP.
Hypothesis Hc : h1 !! c = Some lc.
Hypothesis Hd : h1 !! d = Some lE.
Hypothesis Hy : h1 !! y = None.

Lemma fresh_ne : y ≠ b ∧ y ≠ c ∧ y ≠ d.
Proof. repeat split; intros ->; congruence. Qed.

Lemma back_step_canon ly i di ci yn bi :
  lE !! i = Some di → lc !! i = Some ci → ly !! (i + 1)%nat = Some yn →
  lP !! i = Some bi → bi ≠ 0 → (i < length ly)%nat →
  back_step b c d y (<[y := ly]> h1) i
  = Some (<[y := <[i := (di - ci * yn) / bi]> ly]> h1).
Proof.
  intros Hdi Hci Hyn Hbi Hnz Hi. destruct fresh_ne as (Nb & Nc & Nd).
  unfold back_step, load.
  rewrite (lookup_insert_ne _ y d), (lookup_insert_ne _ y c),
    (lookup_insert_ne _ y b) by done.
  rewrite Hd, Hc, Hb. simpl.
  rewrite Hdi, Hci. simpl. rewrite lookup_insert_eq. simpl. rewrite Hyn, Hbi.
  simpl. unfold fdiv. rewrite decide_False by done. simpl.
  unfold store. rewrite lookup_insert_eq. simpl. rewrite decide_True by done.
  by rewrite insert_insert_eq.
Qed.
End ThomasBack.

Section ThomasBackLoop.
Variables (h1 : heap) (b c d y : loc) (la lb lc ld : list Qc) (n : nat).
Hypothesis Hlb : length lb = n.
Hypothesis Hlc : length lc = n.
Hypothesis Hb : h1 !! b = Some (pivots la lb lc).
Hypothesis Hc : h1 !! c = Some lc.
Hypothesis Hd : h1 !! d = Some (elim_rhs la lb lc ld).
Hypothesis Hy : h1 !! y = None.
Hypothesis Hnz : ∀ j, (j < n)%nat → pivot_at la lb lc j ≠ 0.

Lemma back_loop_canon (m : nat) :
  (m ≤ n - 1)%nat →
  for_each (back_step b c d y) (rev (range (n - 1 - m) (n - 1)))
    (<[y := splice (n - 1) (replicate n 0) (solution la lb lc ld)]> h1)
  = Some (<[y := splice (n - 1 - m) (replicate n 0)
                   (solution la lb lc ld)]> h1).
Proof.
  induction m as [|m IH]; intros Hm.
  { replace (n - 1 - 0)%nat with (n - 1)%nat by lia.
    unfold range. by rewrite Nat.sub_diag. }
  set (i := (n - 1 - S m)%nat).
  assert (range i (n - 1) = i :: range (n - 1 - m) (n - 1)) as ->.
  { unfold range. replace (n - 1 - i)%nat with (S (n - 1 - (n - 1 - m))) by lia.
    simpl. do 2 f_equal. lia. }
  simpl. rewrite for_each_app, IH by lia. simpl.
  replace (n - 1 - m)%nat with (S i) by lia.
  assert (length (solution la lb lc ld) = n) as Hs
    by (by rewrite solution_length).
  assert (length (replicate n 0 : list Qc) = n) as Hz
    by (by rewrite length_replicate).
  rewrite (back_step_canon h1 b c d y _ lc _ Hb Hc Hd Hy _ i
             (rhs_at la lb lc ld i) (at0 lc i)
             (sol_back n la lb lc ld m) (pivot_at la lb lc i)).
  - simpl. do 2 f_equal. apply splice_insert_l; [lia|].
    rewrite solution_lookup by lia. rewrite Hlb. f_equal.
    replace (n - 1 - i)%nat with (S m) by lia. simpl.
    replace (n - 2 - m)%nat with i by lia. done.
  - apply elim_rhs_lookup. lia.
  - apply at0_lookup. lia.
  - rewrite splice_lookup_ge by lia.
    rewrite solution_lookup by lia. rewrite Hlb. do 2 f_equal. lia.
  - apply pivots_lookup. lia.
  - apply Hnz. lia.
  - rewrite splice_length by lia. lia.
Qed.
End ThomasBackLoop.

(** ** What [thomas] returns *)

Section ThomasRun.
Variables (h : heap) (a b c d : loc) (la lb lc ld : list Qc) (n : nat).
Hypothesis Ha : h !! a = Some la.
Hypothesis Hb : h !! b = Some lb.
Hypothesis Hc : h !! c = Some lc.
Hypothesis Hd : h !! d = Some ld.
Hypothesis Hab : a ≠ b.
Hypothesis Had : a ≠ d.
Hypothesis Hcb : c ≠ b.
Hypothesis Hcd : c ≠ d.
Hypothesis Hbd : b ≠ d.
Hypothesis Hla : length la = n.
Hypothesis Hlb : length lb = n.
Hypothesis Hlc : length lc = n.
Hypothesis Hld : length ld = n.

Lemma canon_init : canon h b d lb ld = h.
Proof.
  unfold canon. rewrite (insert_id h b lb Hb). by rewrite insert_id.
Qed.

Lemma canon_dom lb' ld' : dom (canon h b d lb' ld') = dom h.
Proof.
  unfold canon. rewrite !dom_insert_L.
  pose proof (elem_of_dom_2 _ _ _ Hb) as Eb.
  pose proof (elem_of_dom_2 _ _ _ Hd) as Ed.
  rewrite (subseteq_union_1_L {[b]} (dom h)) by (by apply singleton_subseteq_l).
  by rewrite (subseteq_union_1_L {[d]} (dom h)) by (by apply singleton_subseteq_l).
Qed.

(** With nonzero pivots the call returns: [b] and [d] hold the eliminated
    diagonal and right-hand side, and a new array holds the solution. *)
Lemma thomas_ok :
  (1 ≤ n)%nat → (∀ j, (j < n)%nat → pivot_at la lb lc j ≠ 0) →
  thomas a b c d h
  = Some (<[fresh (dom h) := solution la lb lc ld]>
            (canon h b d (pivots la lb lc) (elim_rhs la lb lc ld)),
          fresh (dom h)).
Proof.
  intros Hn Hnz. unfold thomas, array_len. rewrite Hb. simpl. rewrite Hlb.
  rewrite <- canon_init at 1.
  rewrite (forward_loop_done h a b c d la lc Ha Hc Hab Had Hcb Hcd Hbd lb ld n)
    by (done || (intros; apply Hnz; lia)).
  simpl. unfold alloc. rewrite canon_dom.
  set (h1 := canon h b d (pivots la lb lc) (elim_rhs la lb lc ld)).
  set (y := fresh (dom h)).
  assert (h1 !! y = None) as Hy.
  { apply not_elem_of_dom. unfold h1. rewrite canon_dom. apply is_fresh. }
  assert (h1 !! b = Some (pivots la lb lc)) as Hb1 by (by apply canon_b).
  assert (h1 !! d = Some (elim_rhs la lb lc ld)) as Hd1 by (by apply canon_d).
  assert (h1 !! c = Some lc) as Hc1 by (by apply canon_c).
  destruct (fresh_ne h1 b c d y _ lc _ Hb1 Hc1 Hd1 Hy) as (Nb & Nc & Nd).
  unfold load_last.
  rewrite (lookup_insert_ne _ y d), (lookup_insert_ne _ y b) by done.
  rewrite Hd1, Hb1. simpl.
  rewrite !last_at0
    by (rewrite ?pivots_length, ?elim_rhs_length; lia).
  rewrite pivots_length, elim_rhs_length, Hlb. simpl.
  assert (at0 (pivots la lb lc) (n - 1) = pivot_at la lb lc (n - 1)) as ->.
  { unfold at0. rewrite pivots_lookup by lia. done. }
  assert (at0 (elim_rhs la lb lc ld) (n - 1) = rhs_at la lb lc ld (n - 1)) as ->.
  { unfold at0. rewrite elim_rhs_lookup by lia. done. }
  unfold fdiv. rewrite decide_False by (apply Hnz; lia). simpl.
  unfold store. rewrite lookup_insert_eq. simpl.
  rewrite decide_True by (rewrite length_replicate; lia). simpl.
  rewrite insert_insert_eq.
  assert (<[(n - 1)%nat := rhs_at la lb lc ld (n - 1) / pivot_at la lb lc (n - 1)]>
            (replicate n 0)
          = splice (n - 1) (replicate n 0) (solution la lb lc ld)) as ->.
  { rewrite <- (splice_insert_l (n - 1) (replicate n 0) (solution la lb lc ld)
                 (rhs_at la lb lc ld (n - 1) / pivot_at la lb lc (n - 1))).
    - f_equal. replace (S (n - 1)) with (length (replicate n (0 : Qc)))
        by (rewrite length_replicate; lia).
      symmetry. apply splice_full.
      by rewrite length_replicate, solution_length.
    - by rewrite length_replicate, solution_length.
    - rewrite solution_lookup by lia. rewrite Hlb.
      replace (n - 1 - (n - 1))%nat with 0%nat by lia. done. }
  pose proof (back_loop_canon h1 b c d y la lb lc ld n Hlb Hlc Hb1 Hc1 Hd1 Hy
                Hnz (n - 1)) as Hback.
  replace (n - 1 - (n - 1))%nat with 0%nat in Hback by lia.
  rewrite Hback by lia. simpl. rewrite splice_0. done.
Qed.

(** A zero pivot makes the call fault. *)
Lemma thomas_zero (k : nat) :
  (k < n)%nat → (∀ j, (j < k)%nat → pivot_at la lb lc j ≠ 0) →
  pivot_at la lb lc k = 0 → thomas a b c d h = None.
Proof.
  intros Hk Hnz Hz. unfold thomas, array_len. rewrite Hb. simpl. rewrite Hlb.
  rewrite <- canon_init at 1.
  destruct (decide (S k < n)%nat) as [Hlt|Hge].
  - by rewrite (forward_loop_zero h a b c d la lc Ha Hc Hab Had Hcb Hcd Hbd
                  lb ld n Hlb Hla Hlc Hld k).
  - assert (k = (n - 1)%nat) as -> by lia.
    rewrite (forward_loop_done h a b c d la lc Ha Hc Hab Had Hcb Hcd Hbd lb ld
               n) by (done || lia).
    simpl. unfold alloc. rewrite canon_dom.
    set (h1 := canon h b d (pivots la lb lc) (elim_rhs la lb lc ld)).
    set (y := fresh (dom h)).
    assert (h1 !! y = None) as Hy.
    { apply not_elem_of_dom. unfold h1. rewrite canon_dom. apply is_fresh. }
    assert (h1 !! b = Some (pivots la lb lc)) as Hb1 by (by apply canon_b).
    assert (h1 !! d = Some (elim_rhs la lb lc ld)) as Hd1 by (by apply canon_d).
    assert (h1 !! c = Some lc) as Hc1 by (by apply canon_c).
    destruct (fresh_ne h1 b c d y _ lc _ Hb1 Hc1 Hd1 Hy) as (Nb & Nc & Nd).
    unfold load_last.
    rewrite (lookup_insert_ne _ y d), (lookup_insert_ne _ y b) by done.
    rewrite Hd1, Hb1. simpl.
    rewrite !last_at0
      by (rewrite ?pivots_length, ?elim_rhs_length; lia).
    rewrite pivots_length, elim_rhs_length, Hlb. simpl.
    assert (at0 (pivots la lb lc) (n - 1) = 0) as ->.
    { unfold at0. rewrite pivots_lookup by lia. by rewrite Hz. }
    done.
Qed.
End ThomasRun.

(** ** The solution solves the system *)

Section ThomasAlgebra.
Variables (la lb lc ld : list Qc) (n : nat).
Hypothesis Hlb : length lb = n.
Hypothesis Hnz : ∀ j, (j < n)%nat → pivot_at la lb lc j ≠ 0.

Let sol (i : nat) : Qc := sol_back n la lb lc ld (n - 1 - i).

(** Row [i] of the eliminated, upper bidiagonal system. *)
Lemma sol_upper (i : nat) :
  (i < n)%nat →
  pivot_at la lb lc i * sol i
  + (if decide (S i < n)%nat then at0 lc i * sol (S i) else 0)
  = rhs_at la lb lc ld i.
Proof.
  intros Hi. unfold sol. destruct (decide (S i < n)%nat) as [Hlt|Hge].
  - replace (n - 1 - i)%nat with (S (n - 1 - S i)) by lia. simpl.
    replace (n - 2 - (n - 1 - S i))%nat with i by lia.
    field. apply Hnz. lia.
  - assert (i = (n - 1)%nat) as -> by lia.
    replace (n - 1 - (n - 1))%nat with 0%nat by lia. simpl.
    field. apply Hnz. lia.
Qed.

Lemma solution_at0 (i : nat) :
  (i < n)%nat → at0 (solution la lb lc ld) i = sol i.
Proof.
  intros Hi. unfold at0. rewrite solution_lookup by lia. by rewrite Hlb.
Qed.

Lemma solution_solves (i : nat) :
  (i < n)%nat →
  tri_row la lb lc (solution la lb lc ld) i = at0 ld i.
Proof.
  intros Hi. unfold tri_row. rewrite solution_length, Hlb.
  rewrite (solution_at0 i) by done.
  pose proof (sol_upper i Hi) as Hrow.
  destruct i as [|i].
  - rewrite decide_True by done.
    change (pivot_at la lb lc 0) with (at0 lb 0) in Hrow.
    change (rhs_at la lb lc ld 0) with (at0 ld 0) in Hrow.
    destruct (decide (1 < n)%nat) as [H1|H1].
    + rewrite (solution_at0 1) by done. rewrite <- Hrow. ring.
    + rewrite <- Hrow. ring.
  - rewrite decide_False by done.
    replace (S i - 1)%nat with i by lia.
    rewrite (solution_at0 i) by lia.
    pose proof (sol_upper i ltac:(lia)) as Hprev.
    rewrite decide_True in Hprev by lia.
    pose proof (Hnz i ltac:(lia)) as Hp.
    assert (at0 lb (S i)
            = pivot_at la lb lc (S i)
              + at0 la (S i) / pivot_at la lb lc i * at0 lc i) as ->.
    { simpl. ring. }
    assert (at0 ld (S i)
            = rhs_at la lb lc ld (S i)
              + at0 la (S i) / pivot_at la lb lc i * rhs_at la lb lc ld i) as ->.
    { simpl. ring. }
    rewrite <- Hrow, <- Hprev.
    destruct (decide (S (S i) < n)%nat) as [H2|H2].
    + rewrite (solution_at0 (S (S i))) by done. field. done.
    + field. done.
Qed.
End ThomasAlgebra.

Lemma first_zero_pivot (la lb lc : list Qc) (n : nat) :
  (∀ j, (j < n)%nat → pivot_at la lb lc j ≠ 0)
  ∨ ∃ k, (k < n)%nat ∧ pivot_at la lb lc k = 0
         ∧ ∀ j, (j < k)%nat → pivot_at la lb lc j ≠ 0.
Proof.
  induction n as [|n [IH|(k & Hk & Hz & Hlt)]].
  - left. intros j Hj. lia.
  - destruct (decide (pivot_at la lb lc n = 0)) as [Hz|Hnz].
    + right. exists n. split; [lia|]. split; [done|]. intros j Hj. by apply IH.
    + left. intros j Hj. destruct (decide (j = n)) as [->|Hne]; [done|].
      apply IH. lia.
  - right. exists k. split; [lia|]. done.
Qed.

Lemma pivots_Forall (la lb lc : list Qc) :
  Forall (λ p, p ≠ 0) (pivots la lb lc)
  ↔ ∀ j, (j < length lb)%nat → pivot_at la lb lc j ≠ 0.
Proof.
  rewrite Forall_lookup. split.
  - intros H j Hj. apply (H j). by apply pivots_lookup.
  - intros H j p Hp. pose proof (lookup_lt_Some _ _ _ Hp) as Hj.
    rewrite pivots_length in Hj. rewrite pivots_lookup in Hp by done.
    injection Hp as <-. by apply H.
Qed.

(** ** Diagonal dominance keeps the pivots away from zero *)

Lemma Qclt_sub_r (x y z : Qc) : x + y < z → y < z - x.
Proof.
  intros H. apply Qclt_minus_iff in H. apply Qclt_minus_iff.
  by replace (z - x + - y) with (z + - (x + y)) by ring.
Qed.

Lemma Qcle_sub_l (x y y' : Qc) : y <= y' → x - y' <= x - y.
Proof.
  intros H. apply Qcle_minus_iff in H. apply Qcle_minus_iff.
  by replace (x - y + - (x - y')) with (y' + - y) by ring.
Qed.

Lemma pivot_dominates (a b c : list Qc) (i : nat) :
  diag_dominant a b c → (i < length b)%nat →
  fabs (at0 c i) < fabs (pivot_at a b c i).
Proof.
  intros Hdd. induction i as [|i IH]; intros Hi.
  - simpl. eapply Qcle_lt_trans; [|apply (Hdd 0%nat Hi)].
    apply Qcle_minus_iff.
    replace (fabs (at0 a 0) + fabs (at0 c 0) + - fabs (at0 c 0))
      with (fabs (at0 a 0)) by ring.
    apply fabs_nonneg.
  - specialize (IH ltac:(lia)).
    set (p := pivot_at a b c i) in *.
    set (q := at0 a (S i) / p * at0 c i).
    assert (0 < fabs p) as Hp.
    { eapply Qcle_lt_trans; [apply fabs_nonneg|apply IH]. }
    assert (p ≠ 0) as Hp0.
    { intros E. rewrite E in Hp. apply (Qclt_not_eq _ _ Hp).
      apply Qc_is_canon. reflexivity. }
    assert (fabs q <= fabs (at0 a (S i))) as Hq.
    { apply (Qcmult_lt_0_le_reg_r _ _ (fabs p) Hp). unfold fabs.
      rewrite <- Qcabs_Qcmult.
      assert (q * p = at0 c i * at0 a (S i)) as -> by (unfold q; field; done).
      rewrite Qcabs_Qcmult, (Qcmult_comm (Qcabs (at0 a (S i)))).
      apply Qcmult_le_compat_r; [|apply Qcabs_nonneg].
      by apply Qclt_le_weak. }
    change (pivot_at a b c (S i)) with (at0 b (S i) - q).
    eapply Qclt_le_trans; [|apply Qcabs_triangle_reverse].
    eapply Qclt_le_trans; [|apply Qcle_sub_l, Hq].
    apply Qclt_sub_r, (Hdd (S i) Hi).
Qed.

Lemma diag_dominant_pivots (a b c : list Qc) :
  diag_dominant a b c → Forall (λ p, p ≠ 0) (pivots a b c).
Proof.
  intros Hdd. apply pivots_Forall. intros j Hj E.
  pose proof (pivot_dominates a b c j Hdd Hj) as H. rewrite E in H.
  apply (Qcle_not_lt _ _ (fabs_nonneg (at0 c j))).
  assert (fabs 0 = 0) as E0 by (apply Qc_is_canon; reflexivity).
  by rewrite E0 in H.
Qed.

Lemma thomas_empty (h : heap) (a b c d : loc) :
  h !! b = Some [] → h !! d = Some [] → b ≠ d → thomas a b c d h = None.
Proof.
  intros Hb Hd Hbd. unfold thomas, array_len. rewrite Hb. simpl.
  assert (fresh (dom h) ≠ d) as Nd.
  { intros E. pose proof (is_fresh (dom h)) as Hf. rewrite E in Hf.
    by apply Hf, elem_of_dom_2 with []. }
  unfold load_last. rewrite (lookup_insert_ne _ _ d) by done. by rewrite Hd.
Qed.

(** C8. Take a tridiagonal system whose four arrays have length [n >= 1],
    with [b] and [d] distinct arrays, distinct from [a] and [c], and whose
    pivots are all nonzero.  Then [thomas] returns; the pivots are what the
    forward elimination has left in [b]; and the returned array [y] has
    length [n] and satisfies every row of the original system:
    [a[i] * y[i-1] + b[i] * y[i] + c[i] * y[i+1] = d[i]], the terms with an
    index out of range being absent. *)
Theorem C8_thomas_solves_the_system
    (h : heap) (a b c d : loc) (la lb lc ld : list Qc) (n : nat) :
  h !! a = Some la → h !! b = Some lb → h !! c = Some lc →
  h !! d = Some ld →
  a ≠ b → a ≠ d → c ≠ b → c ≠ d → b ≠ d →
  length la = n → length lb = n → length lc = n → length ld = n →
  (1 ≤ n)%nat →
  Forall (λ p, p ≠ 0) (pivots la lb lc) →
  ∃ h' y ly, thomas a b c d h = Some (h', y)
    ∧ h' !! b = Some (pivots la lb lc)
    ∧ h' !! y = Some ly ∧ length ly = n
    ∧ ∀ i, (i < n)%nat → tri_row la lb lc ly i = at0 ld i.
Proof.
  intros Ha Hb Hc Hd Hab Had Hcb Hcd Hbd Hla Hlb Hlc Hld Hn Hpiv.
  pose proof (proj1 (pivots_Forall la lb lc) Hpiv) as Hnz.
  rewrite Hlb in Hnz.
  eexists _, _, (solution la lb lc ld). split; [|split; [|split; [|split]]].
  - by apply (thomas_ok h a b c d la lb lc ld n).
  - rewrite lookup_insert_ne; [by apply canon_b|].
    intros E. pose proof (is_fresh (dom h)) as Hf. rewrite E in Hf.
    by apply Hf, elem_of_dom_2 with lb.
  - by rewrite lookup_insert_eq.
  - by rewrite solution_length.
  - intros i Hi. by apply (solution_solves la lb lc ld n).
Qed.

Lemma ex_heap_lookups :
  ex_heap !! 1%positive = Some ex_a ∧ ex_heap !! 2%positive = Some ex_b
  ∧ ex_heap !! 3%positive = Some ex_c ∧ ex_heap !! 4%positive = Some ex_d.
Proof. repeat split; vm_compute; reflexivity. Defined.

Lemma ex_pivots_nonzero : Forall (λ p, p ≠ 0) (pivots ex_a ex_b ex_c).
Proof. repeat constructor; qc_neq. Defined.

Lemma C8_thomas_solves_the_system_witness :
  ∃ h' y ly, thomas 1%positive 2%positive 3%positive 4%positive ex_heap
             = Some (h', y)
    ∧ h' !! 2%positive = Some (pivots ex_a ex_b ex_c)
    ∧ h' !! y = Some ly ∧ length ly = 3%nat
    ∧ ∀ i, (i < 3)%nat → tri_row ex_a ex_b ex_c ly i = at0 ex_d i.
Proof.
  destruct ex_heap_lookups as (Ha & Hb & Hc & Hd).
  apply (C8_thomas_solves_the_system ex_heap 1%positive 2%positive 3%positive
           4%positive ex_a ex_b ex_c ex_d 3 Ha Hb Hc Hd);
    [discriminate..|reflexivity|reflexivity|reflexivity|reflexivity|lia
    |exact ex_pivots_nonzero].
Defined.

(** C10. Let [a], [b], [c], [d] hold arrays of one length [n], [b] and [d]
    being distinct arrays, distinct from [a] and [c].  When
    [thomas(a, b, c, d)] returns, the arrays [a] and [c] (and every other
    array of the caller) are as before; [b] and [d] hold the result of the
    forward elimination: entry [0] is unchanged and, for every [i >= 1],
    [b[i]] and [d[i]] were replaced by [b[i] - w * c[i-1]] and
    [d[i] - w * d[i-1]] with [w = a[i] / b[i-1]], where [b[i-1]] and [d[i-1]]
    are the entries already replaced; and the returned array [y] is a new
    one, at an address the caller's store did not use. *)
Theorem C10_thomas_overwrites_b_and_d
    (h h' : heap) (a b c d y : loc) (la lb lc ld : list Qc) (n : nat) :
  h !! a = Some la → h !! b = Some lb → h !! c = Some lc →
  h !! d = Some ld →
  a ≠ b → a ≠ d → c ≠ b → c ≠ d → b ≠ d →
  length la = n → length lb = n → length lc = n → length ld = n →
  thomas a b c d h = Some (h', y) →
  (y ∉ dom h) ∧ is_Some (h' !! y)
  ∧ h' !! a = Some la ∧ h' !! c = Some lc
  ∧ (∀ p, p ≠ b → p ≠ d → p ≠ y → h' !! p = h !! p)
  ∧ ∃ lb' ld', h' !! b = Some lb' ∧ h' !! d = Some ld'
      ∧ length lb' = n ∧ length ld' = n
      ∧ at0 lb' 0 = at0 lb 0 ∧ at0 ld' 0 = at0 ld 0
      ∧ ∀ i, (1 ≤ i < n)%nat →
          let w := at0 la i / at0 lb' (i - 1) in
          at0 lb' i = at0 lb i - w * at0 lc (i - 1)
          ∧ at0 ld' i = at0 ld i - w * at0 ld' (i - 1).
Proof.
  intros Ha Hb Hc Hd Hab Had Hcb Hcd Hbd Hla Hlb Hlc Hld Hrun.
  destruct (decide (n = 0%nat)) as [->|Hn].
  { apply nil_length_inv in Hlb, Hld. subst lb ld.
    by rewrite (thomas_empty h a b c d Hb Hd Hbd) in Hrun. }
  destruct (first_zero_pivot la lb lc n) as [Hnz|(k & Hk & Hz & Hlt)].
  2: { by rewrite (thomas_zero h a b c d la lb lc ld n Ha Hb Hc Hd Hab Had Hcb
                     Hcd Hbd Hla Hlb Hlc Hld k Hk Hlt Hz) in Hrun. }
  rewrite (thomas_ok h a b c d la lb lc ld n) in Hrun by (done || lia).
  injection Hrun as <- <-.
  pose proof (is_fresh (dom h)) as Hf.
  assert (∀ p x, h !! p = Some x → fresh (dom h) ≠ p) as Hne.
  { intros p x Hp E. rewrite E in Hf. by apply Hf, elem_of_dom_2 with x. }
  split; [done|]. split; [by rewrite lookup_insert_eq|].
  split. { rewrite lookup_insert_ne by (by eapply Hne). by apply canon_a. }
  split. { rewrite lookup_insert_ne by (by eapply Hne). by apply canon_c. }
  split.
  { intros p Hpb Hpd Hpy. rewrite lookup_insert_ne by done.
    by apply canon_other. }
  exists (pivots la lb lc), (elim_rhs la lb lc ld).
  split. { rewrite lookup_insert_ne by (by eapply Hne). by apply canon_b. }
  split. { rewrite lookup_insert_ne by (by eapply Hne). by apply canon_d. }
  split; [by rewrite pivots_length|]. split; [by rewrite elim_rhs_length|].
  assert (∀ i, (i < n)%nat → at0 (pivots la lb lc) i = pivot_at la lb lc i)
    as HP.
  { intros i Hi. unfold at0. by rewrite pivots_lookup by lia. }
  assert (∀ i, (i < n)%nat
               → at0 (elim_rhs la lb lc ld) i = rhs_at la lb lc ld i) as HE.
  { intros i Hi. unfold at0. by rewrite elim_rhs_lookup by lia. }
  split; [by rewrite HP by lia|]. split; [by rewrite HE by lia|].
  intros i Hi w. unfold w. rewrite !HP, !HE by lia.
  destruct i as [|i]; [lia|]. replace (S i - 1)%nat with i by lia. done.
Qed.

Lemma C10_thomas_overwrites_b_and_d_witness :
  ∃ h' y, thomas 1%positive 2%positive 3%positive 4%positive ex_heap
          = Some (h', y)
    ∧ (y ∉ dom ex_heap)
    ∧ h' !! 1%positive = Some ex_a ∧ h' !! 3%positive = Some ex_c
    ∧ h' !! 2%positive = Some [of_int 2; qc 5 2; qc 18 5]
    ∧ h' !! 4%positive = Some [of_int 1; qc 3 2; qc 12 5].
Proof.
  set (r := thomas 1%positive 2%positive 3%positive 4%positive ex_heap).
  set (h' := (default (∅, 1%positive) r).1).
  set (y := (default (∅, 1%positive) r).2).
  assert (r = Some (h', y)) as Hr by (vm_compute; reflexivity).
  assert (h' !! 2%positive = Some [of_int 2; qc 5 2; qc 18 5]) as H2
    by (vm_compute; reflexivity).
  assert (h' !! 4%positive = Some [of_int 1; qc 3 2; qc 12 5]) as H4
    by (vm_compute; reflexivity).
  clearbody h' y. subst r.
  destruct ex_heap_lookups as (Ea & Eb & Ec & Ed).
  destruct (C10_thomas_overwrites_b_and_d ex_heap h' 1%positive 2%positive
              3%positive 4%positive y ex_a ex_b ex_c ex_d 3 Ea Eb Ec Ed)
    as (Hy & _ & Ha & Hc & _);
    [discriminate..|reflexivity|reflexivity|reflexivity|reflexivity
    |exact Hr|].
  exists h', y. split; [exact Hr|]. split; [exact Hy|]. split; [exact Ha|].
  split; [exact Hc|]. split; [exact H2|exact H4].
Defined.

(* ================================================================== *)
(** * Further properties

    What follows is read off the code alone. *)

(** ** The kernels at an exact solution *)

(** Writing back what is there. *)

Lemma list_alter_same {A : Type} (f : A → A) (l : list A) (i : nat) :
  (∀ x, l !! i = Some x → f x = x) → alter f i l = l.
Proof.
  intros H. apply list_eq. intros k.
  destruct (decide (i = k)) as [->|Hne].
  - rewrite list_lookup_alter_eq. destruct (l !! k) as [x|] eqn:E; simpl; [|done].
    by rewrite H.
  - by rewrite list_lookup_alter_ne.
Qed.

Lemma list_insert_same (l : list Qc) (j : nat) :
  <[j := default 0 (l !! j)]> l = l.
Proof.
  destruct (l !! j) as [x|] eqn:E; simpl.
  - by apply list_insert_id.
  - apply list_insert_ge. by apply lookup_ge_None.
Qed.

Lemma set2_get2_same (U : grid2) (i j : nat) : set2 U i j (get2 U i j) = U.
Proof.
  unfold set2, get2. apply list_alter_same. intros r Hr. rewrite Hr. simpl.
  apply list_insert_same.
Qed.

Lemma set3_get3_same (U : grid3) (i j k : nat) :
  set3 U i j k (get3 U i j k) = U.
Proof.
  unfold set3, get3. apply list_alter_same. intros p Hp. rewrite Hp. simpl.
  apply list_alter_same. intros r Hr. rewrite Hr. simpl.
  apply list_insert_same.
Qed.

Lemma sweep_list_same {A I : Type} (get : A → I → Qc) (set : A → I → Qc → A)
    (f : A → I → Qc) (ps : list I) (U : A) :
  (∀ p, set U p (get U p) = U) → (∀ p, p ∈ ps → f U p = get U p) →
  sweep_list set f ps U = U.
Proof.
  intros Hset. induction ps as [|p ps IH]; intros Hf; simpl; [done|].
  rewrite Hf by left. rewrite Hset. apply IH. intros q Hq. apply Hf. by right.
Qed.

Lemma sweep_list_ext {A I : Type} (set : A → I → Qc → A) (f g : A → I → Qc)
    (ps : list I) (U : A) :
  (∀ V p, p ∈ ps → f V p = g V p) →
  sweep_list set f ps U = sweep_list set g ps U.
Proof.
  revert U. induction ps as [|p ps IH]; intros U Hf; simpl; [done|].
  rewrite Hf by left. apply IH. intros V q Hq. apply Hf. by right.
Qed.

(** ** An exact solution is left alone by a sweep *)

Lemma relax2d_sweep_solved ax ay cx cy b d_rhs n m omega inv_b U :
  inverts2 n m b inv_b → nonzero_interior2 n m b →
  solves2 ax ay cx cy b d_rhs n m U →
  relax2d_sweep ax ay cx cy d_rhs n m omega inv_b U = U.
Proof.
  intros Hinv Hnz Hsol. rewrite relax2d_sweep_list.
  apply (sweep_list_same get2p).
  - intros [i j]. apply set2_get2_same.
  - intros [i j] Hp. apply elem_of_interior2 in Hp as [Hi Hj]. simpl in *.
    unfold upd2, get2p, stencil2. simpl.
    rewrite (Hinv i j Hi Hj). pose proof (Hsol i j Hi Hj) as E.
    pose proof (Hnz i j Hi Hj) as Hb.
    assert (get2 ax i j * get2 U (i - 1) j + get2 cx i j * get2 U (i + 1) j
            + get2 ay i j * get2 U i (j - 1) + get2 cy i j * get2 U i (j + 1)
            - get2 d_rhs i j = get2 b i j * get2 U i j) as ->.
    { rewrite <- E. ring. }
    field. done.
Qed.

Lemma relax3d_sweep_solved ax ay az cx cy cz b d_rhs nx ny nz omega inv_b U :
  inverts3 nx ny nz b inv_b → nonzero_interior3 nx ny nz b →
  solves3 ax ay az cx cy cz b d_rhs nx ny nz U →
  relax3d_sweep ax ay az cx cy cz d_rhs nx ny nz omega inv_b U = U.
Proof.
  intros Hinv Hnz Hsol. rewrite relax3d_sweep_list.
  apply (sweep_list_same get3p).
  - intros [i [j k]]. apply set3_get3_same.
  - intros [i [j k]] Hp. apply elem_of_interior3 in Hp as (Hi & Hj & Hk).
    simpl in *. unfold upd3, get3p, stencil3. simpl.
    rewrite (Hinv i j k Hi Hj Hk). pose proof (Hsol i j k Hi Hj Hk) as E.
    pose proof (Hnz i j k Hi Hj Hk) as Hb.
    assert (get3 ax i j k * get3 U (i - 1) j k
            + get3 cx i j k * get3 U (i + 1) j k
            + get3 ay i j k * get3 U i (j - 1) k
            + get3 cy i j k * get3 U i (j + 1) k
            + get3 az i j k * get3 U i j (k - 1)
            + get3 cz i j k * get3 U i j (k + 1)
            - get3 d_rhs i j k = get3 b i j k * get3 U i j k) as ->.
    { rewrite <- E. ring. }
    field. done.
Qed.

Lemma relax2d_solved ax ay cx cy b d_rhs n m U_initial omega eps max_iter
    fuel :
  shape2 n m b → nonzero_interior2 n m b →
  solves2 ax ay cx cy b d_rhs n m U_initial →
  (Z.to_nat (Z.max max_iter 100) ≤ fuel)%nat →
  relax2d ax ay cx cy b d_rhs n m U_initial omega eps max_iter fuel
  = Some U_initial.
Proof.
  intros Hb Hnz Hsol Hfuel.
  destruct (invert_interior2_is_Some n m b Hb Hnz) as [inv_b Hinv].
  destruct (invert_interior2_Some n m b inv_b Hb Hinv) as (_ & Hi & _).
  unfold relax2d. rewrite (relax2d_run_unfold _ _ _ _ _ _ _ _ _ _ _ _ _ _ Hinv).
  destruct (sor_loop_returns s2_err s2_it (relax2d_cond eps max_iter)
              (relax2d_body ax ay cx cy d_rhs n m omega inv_b) eps max_iter 100
              (λ s _, eq_refl) (λ s, eq_refl) (relax2d_init U_initial) fuel
              eq_refl Hfuel) as (k & _ & ->).
  simpl. f_equal.
  apply (iter_inv _ (λ s, s2_U s = U_initial)); [|done].
  intros s Hs. simpl. rewrite Hs. by apply (relax2d_sweep_solved _ _ _ _ b).
Qed.

Lemma relax_solved ax ay cx cy b d_rhs n m U_initial alfa eps max_iter fuel :
  shape2 n m b → nonzero_interior2 n m b →
  solves2 ax ay cx cy b d_rhs n m U_initial →
  (Z.to_nat max_iter ≤ fuel)%nat →
  relax ax ay cx cy b d_rhs n m U_initial alfa eps max_iter fuel
  = Some U_initial.
Proof.
  intros Hb Hnz Hsol Hfuel.
  destruct (read_interior2_is_Some n m b Hnz) as [inv_b Hinv].
  destruct (read_interior2_inverts n m b inv_b Hb Hinv) as (_ & Hi & _).
  unfold relax. rewrite (relax_run_unfold _ _ _ _ _ _ _ _ _ _ _ _ _ _ Hinv).
  destruct (sor_loop_returns s_err s_it (relax_cond eps max_iter)
              (relax_body ax ay cx cy d_rhs n m alfa inv_b) eps max_iter 0)
    with (init := relax_init U_initial) (fuel := fuel) as (k & _ & ->).
  - intros s Hs. unfold relax_cond.
    rewrite (proj2 (Z.ltb_ge (s_it s) 0)) by lia. by rewrite orb_false_r.
  - apply relax_body_it.
  - done.
  - lia.
  - simpl. f_equal.
    apply (iter_inv _ (λ s, s_U s = U_initial)); [|done].
    intros s Hs. rewrite relax_body_U, Hs.
    by apply (relax2d_sweep_solved _ _ _ _ b).
Qed.

Lemma relax3d_solved ax ay az cx cy cz b d_rhs nx ny nz U_initial omega eps
    max_iter min_iter fuel :
  shape3 nx ny nz b → nonzero_interior3 nx ny nz b →
  solves3 ax ay az cx cy cz b d_rhs nx ny nz U_initial →
  (Z.to_nat (Z.max max_iter min_iter) ≤ fuel)%nat →
  relax3d ax ay az cx cy cz b d_rhs nx ny nz U_initial omega eps max_iter
    min_iter fuel
  = Some U_initial.
Proof.
  intros Hb Hnz Hsol Hfuel.
  destruct (invert_interior3_is_Some nx ny nz b Hb Hnz) as [inv_b Hinv].
  destruct (invert_interior3_Some nx ny nz b inv_b Hb Hinv) as (_ & Hi & _).
  unfold relax3d.
  rewrite (relax3d_run_unfold _ _ _ _ _ _ _ _ _ _ _ _ _ _ _ _ _ _ Hinv).
  destruct (sor_loop_returns s3_err s3_it (relax3d_cond eps max_iter min_iter)
              (relax3d_body ax ay az cx cy cz d_rhs nx ny nz omega inv_b) eps
              max_iter min_iter (λ s _, eq_refl) (λ s, eq_refl)
              (relax3d_init U_initial) fuel eq_refl Hfuel) as (k & _ & ->).
  simpl. f_equal.
  apply (iter_inv _ (λ s, s3_U s = U_initial)); [|done].
  intros s Hs. simpl. rewrite Hs.
  by apply (relax3d_sweep_solved _ _ _ _ _ _ b).
Qed.

(** X1. A field that satisfies the discrete equation at every interior node
    is a fixed point of the three kernels: with [b] nonzero on the interior
    (everywhere, for [relax], which divides by all of [b]), [relax2d],
    [relax] and [relax3d] return the initial guess itself, whatever
    [omega], [eps] and the iteration bounds. *)
Theorem X1_exact_solution_is_returned_unchanged
    (ax ay cx cy b d_rhs U_initial : grid2) (n m : nat)
    (ax3 ay3 az3 cx3 cy3 cz3 b3 d_rhs3 U_initial3 : grid3) (nx ny nz : nat)
    (omega eps : Qc) (max_iter min_iter : Z) :
  shape2 n m b → nonzero_interior2 n m b →
  solves2 ax ay cx cy b d_rhs n m U_initial →
  shape3 nx ny nz b3 → nonzero_interior3 nx ny nz b3 →
  solves3 ax3 ay3 az3 cx3 cy3 cz3 b3 d_rhs3 nx ny nz U_initial3 →
  (∀ fuel, (Z.to_nat (Z.max max_iter 100) ≤ fuel)%nat →
     relax2d ax ay cx cy b d_rhs n m U_initial omega eps max_iter fuel
     = Some U_initial)
  ∧ (nonzero_all b → ∀ fuel, (Z.to_nat max_iter ≤ fuel)%nat →
       relax ax ay cx cy b d_rhs n m U_initial omega eps max_iter fuel
       = Some U_initial)
  ∧ (∀ fuel, (Z.to_nat (Z.max max_iter min_iter) ≤ fuel)%nat →
       relax3d ax3 ay3 az3 cx3 cy3 cz3 b3 d_rhs3 nx ny nz U_initial3 omega
         eps max_iter min_iter fuel
       = Some U_initial3).
Proof.
  intros Hb Hnz Hsol Hb3 Hnz3 Hsol3. split; [|split].
  - intros fuel Hfuel. by apply relax2d_solved.
  - intros Hall fuel Hfuel. by apply relax_solved.
  - intros fuel Hfuel. by apply relax3d_solved.
Qed.

Lemma ex_four2_nonzero_all : nonzero_all ex_four2.
Proof. repeat constructor; qc_neq. Defined.

Lemma ex_solves2 : solves2 ex_one2 ex_one2 ex_one2 ex_one2 ex_four2 ex_zero2 3 3 ex_one2.
Proof.
  intros i j Hi Hj. assert (i = 1%nat) as -> by lia.
  assert (j = 1%nat) as -> by lia. apply Qc_is_canon. reflexivity.
Defined.

Lemma ex_solves3 :
  solves3 ex_one3 ex_one3 ex_one3 ex_one3 ex_one3 ex_one3 ex_six3 ex_zero3
    3 3 3 ex_one3.
Proof.
  intros i j k Hi Hj Hk. assert (i = 1%nat) as -> by lia.
  assert (j = 1%nat) as -> by lia. assert (k = 1%nat) as -> by lia.
  apply Qc_is_canon. reflexivity.
Defined.

Lemma X1_exact_solution_is_returned_unchanged_witness :
  relax2d ex_one2 ex_one2 ex_one2 ex_one2 ex_four2 ex_zero2 3 3 ex_one2
    (qc 18 10) (qc 1 1000) 5 100 = Some ex_one2
  ∧ relax ex_one2 ex_one2 ex_one2 ex_one2 ex_four2 ex_zero2 3 3 ex_one2
      (qc 18 10) (qc 1 1000) 5 5 = Some ex_one2
  ∧ relax3d ex_one3 ex_one3 ex_one3 ex_one3 ex_one3 ex_one3 ex_six3 ex_zero3
      3 3 3 ex_one3 (qc 18 10) (qc 1 1000) 5 2 5 = Some ex_one3.
Proof.
  destruct (X1_exact_solution_is_returned_unchanged
              ex_one2 ex_one2 ex_one2 ex_one2 ex_four2 ex_zero2 ex_one2 3 3
              ex_one3 ex_one3 ex_one3 ex_one3 ex_one3 ex_one3 ex_six3 ex_zero3
              ex_one3 3 3 3 (qc 18 10) (qc 1 1000) 5 2
              ex_four2_shape ex_four2_nonzero ex_solves2
              ex_six3_shape ex_six3_nonzero ex_solves3) as (H2 & H & H3).
  split; [|split].
  - apply H2. vm_compute. lia.
  - apply H; [exact ex_four2_nonzero_all|]. vm_compute. lia.
  - apply H3. vm_compute. lia.
Defined.

(** ** The entry test of the loops *)

(** X2. The error starts at [1.0] and the loop of [relax] is entered only if
    [err > eps and it < max_iter]: with [eps >= 1] or [max_iter <= 0],
    [relax] performs no sweep and returns the initial guess, whatever the
    arrays hold: [inv_b] is computed and never read. *)
Theorem X2_no_sweep_when_entry_test_fails
    (ax ay cx cy b d_rhs U_initial : grid2) (n m : nat)
    (alfa eps : Qc) (max_iter : Z) (fuel : nat) :
  1 <= eps ∨ (max_iter ≤ 0)%Z →
  relax ax ay cx cy b d_rhs n m U_initial alfa eps max_iter fuel
  = Some U_initial.
Proof.
  intros Hstop.
  assert (relax_cond eps max_iter (relax_init U_initial) = false) as Hc.
  { unfold relax_cond. simpl. destruct Hstop as [He|Hm].
    - by rewrite (proj2 (gtb_false 1 eps) He).
    - rewrite (proj2 (Z.ltb_ge 0 max_iter)) by lia. apply andb_false_r. }
  unfold relax, relax_run. by rewrite while_loopM_skip.
Qed.

Lemma X2_no_sweep_when_entry_test_fails_witness :
  relax ex_one2 ex_one2 ex_one2 ex_one2 ex_zero2 ex_one2 3 3 ex_one2
    (qc 18 10) 1 5000 7 = Some ex_one2.
Proof.
  apply (X2_no_sweep_when_entry_test_fails ex_one2 ex_one2 ex_one2 ex_one2
           ex_zero2 ex_one2 ex_one2 3 3 (qc 18 10) 1 5000 7).
  left. apply Qcle_refl.
Defined.

(** ** [relax] and [relax2d] sweep alike *)

Lemma relax2d_sweep_inv_ext ax ay cx cy b d_rhs n m omega inv1 inv2 U :
  inverts2 n m b inv1 → inverts2 n m b inv2 →
  relax2d_sweep ax ay cx cy d_rhs n m omega inv1 U
  = relax2d_sweep ax ay cx cy d_rhs n m omega inv2 U.
Proof.
  intros H1 H2. rewrite !relax2d_sweep_list. apply sweep_list_ext.
  intros V [i j] Hp. apply elem_of_interior2 in Hp as [Hi Hj]. simpl in *.
  unfold upd2, stencil2. simpl. by rewrite (H1 i j Hi Hj), (H2 i j Hi Hj).
Qed.

Lemma is_max_over_scale {I : Type} (g g' : I → Qc) (ps : list I)
    (c e e' : Qc) :
  0 <= c → (∀ p, p ∈ ps → g' p = c * g p) →
  is_max_over g ps e → is_max_over g' ps e' → e' = c * e.
Proof.
  intros Hc Hg (Hle & Hnil & Hex) (Hle' & Hnil' & Hex').
  destruct ps as [|p0 ps].
  - rewrite Hnil, Hnil' by done. ring.
  - destruct Hex as (p & Hp & ->); [done|].
    destruct Hex' as (p' & Hp' & ->); [done|].
    apply Qcle_antisym.
    + rewrite (Hg p' Hp'). rewrite !(Qcmult_comm c).
      apply Qcmult_le_compat_r; [by apply Hle|done].
    + rewrite <- (Hg p Hp). by apply Hle'.
Qed.

(** X3. [relax] and [relax2d] apply the same sweep.  On a system whose
    diagonal is nonzero at the interior nodes, whatever its ring holds, and
    started from the same guess, their loop bodies hold the same field and
    the same counter after any number [k] of passes; and from the first
    pass on the error [relax2d] has computed is [|omega|] times the error
    [relax] has computed. *)
Theorem X3_relax_and_relax2d_sweep_alike
    (ax ay cx cy b d_rhs U_initial : grid2) (n m : nat)
    (omega : Qc) (k : nat) :
  shape2 n m b → shape2 n m U_initial → nonzero_interior2 n m b →
  ∃ inv1 inv2,
    read_interior2 n m (invert_all2 b) = Some inv1
    ∧ invert_interior2 b = Some inv2
    ∧ let s := Nat.iter k (relax_body ax ay cx cy d_rhs n m omega inv1)
                 (relax_init U_initial) in
      let s2 := Nat.iter k (relax2d_body ax ay cx cy d_rhs n m omega inv2)
                  (relax2d_init U_initial) in
      s_U s = s2_U s2
      ∧ s_it s = s2_it s2
      ∧ ((1 ≤ k)%nat → s2_err s2 = fabs omega * s_err s).
Proof.
  intros Hb HU Hnz.
  destruct (read_interior2_is_Some n m b Hnz) as [inv1 Hinv1].
  destruct (invert_interior2_is_Some n m b Hb Hnz) as [inv2 Hinv2].
  exists inv1, inv2. split; [done|]. split; [done|].
  destruct (read_interior2_inverts n m b inv1 Hb Hinv1) as (_ & Hi1 & _).
  destruct (invert_interior2_Some n m b inv2 Hb Hinv2) as (_ & Hi2 & _).
  assert (∀ k,
    s_U (Nat.iter k (relax_body ax ay cx cy d_rhs n m omega inv1)
           (relax_init U_initial))
    = s2_U (Nat.iter k (relax2d_body ax ay cx cy d_rhs n m omega inv2)
              (relax2d_init U_initial))) as HUk.
  { intros j. induction j as [|j IH]; [done|]. simpl.
    rewrite relax_body_U, IH. by apply (relax2d_sweep_inv_ext _ _ _ _ b). }
  intros s s2. split; [apply HUk|]. split.
  { unfold s, s2. clear s s2. induction k as [|j IH]; [done|]. simpl.
    by rewrite relax_body_it, IH. }
  intros Hk. destruct k as [|j]; [lia|]. unfold s, s2. simpl.
  set (t := Nat.iter j (relax_body ax ay cx cy d_rhs n m omega inv1)
              (relax_init U_initial)).
  set (t2 := Nat.iter j (relax2d_body ax ay cx cy d_rhs n m omega inv2)
               (relax2d_init U_initial)).
  pose proof (relax_iter_shape ax ay cx cy d_rhs n m omega inv1 U_initial j HU)
    as Hs. fold t in Hs.
  destruct (relax2d_iter_shapes ax ay cx cy d_rhs n m omega inv2 U_initial j HU)
    as [Hs2 Ho2]. fold t2 in Hs2, Ho2.
  pose proof (relax_body_err ax ay cx cy b d_rhs n m omega inv1 t Hs Hi1) as H1.
  destruct (relax2d_body_err ax ay cx cy d_rhs n m omega inv2 t2 Hs2 Ho2)
    as [_ H2].
  simpl in H1, H2.
  assert (s_U t = s2_U t2) as Et by apply (HUk j).
  assert (s_U (relax_body ax ay cx cy d_rhs n m omega inv1 t)
          = relax2d_sweep ax ay cx cy d_rhs n m omega inv2 (s2_U t2)) as Et'.
  { rewrite relax_body_U, Et. by apply (relax2d_sweep_inv_ext _ _ _ _ b). }
  rewrite Et' in H1.
  refine (is_max_over_scale _ _ _ _ _ _ (fabs_nonneg omega) _ H1 H2).
  intros [i j'] Hp. apply elem_of_interior2 in Hp as [Hpi Hpj].
  unfold get2p. simpl. rewrite Et.
  apply (gs_sweep2_delta ax ay cx cy b d_rhs n m omega); [|done..].
  by apply relax2d_sweep_gs.
Qed.

Lemma X3_relax_and_relax2d_sweep_alike_witness :
  ∃ inv1 inv2,
    read_interior2 3 3 (invert_all2 ex_b2) = Some inv1
    ∧ invert_interior2 ex_b2 = Some inv2
    ∧ let s := Nat.iter 2 (relax_body ex_one2 ex_one2 ex_one2 ex_one2 ex_one2
                             3 3 (qc 18 10) inv1) (relax_init ex_zero2) in
      let s2 := Nat.iter 2 (relax2d_body ex_one2 ex_one2 ex_one2 ex_one2
                              ex_one2 3 3 (qc 18 10) inv2)
                  (relax2d_init ex_zero2) in
      s_U s = s2_U s2
      ∧ s_it s = s2_it s2
      ∧ ((1 ≤ 2)%nat → s2_err s2 = fabs (qc 18 10) * s_err s).
Proof.
  assert (shape2 3 3 ex_zero2) as Hz.
  { split; [reflexivity|]. repeat constructor. }
  exact (X3_relax_and_relax2d_sweep_alike ex_one2 ex_one2 ex_one2 ex_one2
           ex_b2 ex_one2 ex_zero2 3 3 (qc 18 10) 2
           ex_b2_shape Hz ex_b2_nonzero).
Defined.

(** ** The ring of the diagonal *)

(** X4. [relax2d] and [relax3d] divide by the interior entries of [b]
    only: when [b] is nonzero at every interior node they return a field,
    whatever the ring of [b] holds, zeros included. *)
Theorem X4_zero_ring_of_b_is_harmless
    (ax ay cx cy b d_rhs U_initial : grid2) (n m : nat)
    (ax3 ay3 az3 cx3 cy3 cz3 b3 d_rhs3 U_initial3 : grid3) (nx ny nz : nat)
    (omega eps : Qc) (max_iter min_iter : Z) :
  shape2 n m b → nonzero_interior2 n m b →
  shape3 nx ny nz b3 → nonzero_interior3 nx ny nz b3 →
  (∀ fuel, (Z.to_nat (Z.max max_iter 100) ≤ fuel)%nat →
     is_Some (relax2d ax ay cx cy b d_rhs n m U_initial omega eps max_iter
                fuel))
  ∧ (∀ fuel, (Z.to_nat (Z.max max_iter min_iter) ≤ fuel)%nat →
       is_Some (relax3d ax3 ay3 az3 cx3 cy3 cz3 b3 d_rhs3 nx ny nz U_initial3
                  omega eps max_iter min_iter fuel)).
Proof.
  intros Hb Hnz Hb3 Hnz3. split.
  - intros fuel Hfuel. by apply relax2d_returns.
  - intros fuel Hfuel. by apply relax3d_returns.
Qed.

Lemma X4_zero_ring_of_b_is_harmless_witness :
  get2 ex_b2 0 0 = 0 ∧ get3 ex_b3 0 1 1 = 0
  ∧ is_Some (relax2d ex_one2 ex_one2 ex_one2 ex_one2 ex_b2 ex_one2 3 3
               ex_zero2 (qc 18 10) (qc 1 1000) 5 100)
  ∧ is_Some (relax3d ex_one3 ex_one3 ex_one3 ex_one3 ex_one3 ex_one3 ex_b3
               ex_one3 3 3 3 ex_zero3 (qc 18 10) (qc 1 1000) 5 2 5).
Proof.
  destruct (X4_zero_ring_of_b_is_harmless
              ex_one2 ex_one2 ex_one2 ex_one2 ex_b2 ex_one2 ex_zero2 3 3
              ex_one3 ex_one3 ex_one3 ex_one3 ex_one3 ex_one3 ex_b3 ex_one3
              ex_zero3 3 3 3 (qc 18 10) (qc 1 1000) 5 2
              ex_b2_shape ex_b2_nonzero ex_b3_shape ex_b3_nonzero)
    as (H2 & H3).
  split; [reflexivity|]. split; [reflexivity|]. split.
  - apply H2. vm_compute. lia.
  - apply H3. vm_compute. lia.
Defined.

(** ** Further properties of [thomas] *)

Lemma thomas_nil (h : heap) (a b c d : loc) :
  h !! b = Some [] → thomas a b c d h = None.
Proof.
  intros Hb. unfold thomas, array_len. rewrite Hb. simpl.
  assert (fresh (dom h) ≠ b) as Nb.
  { intros E. pose proof (is_fresh (dom h)) as Hf. rewrite E in Hf.
    by apply Hf, elem_of_dom_2 with []. }
  unfold load_last.
  destruct (_ !! d) as [ld|]; simpl; [|done].
  destruct (last ld); simpl; [|done].
  rewrite (lookup_insert_ne _ _ b) by done. by rewrite Hb.
Qed.

Section ThomasMore.
Variables (h : heap) (a b c d : loc) (la lb lc ld : list Qc) (n : nat).
Hypothesis Ha : h !! a = Some la.
Hypothesis Hb : h !! b = Some lb.
Hypothesis Hc : h !! c = Some lc.
Hypothesis Hd : h !! d = Some ld.
Hypothesis Hab : a ≠ b.
Hypothesis Had : a ≠ d.
Hypothesis Hcb : c ≠ b.
Hypothesis Hcd : c ≠ d.
Hypothesis Hbd : b ≠ d.
Hypothesis Hla : length la = n.
Hypothesis Hlb : length lb = n.
Hypothesis Hlc : length lc = n.
Hypothesis Hld : length ld = n.

(** The call returns exactly when the system is not empty and no pivot is
    zero, and then the returned array is [solution]. *)
Lemma thomas_Some_inv (h' : heap) (y : loc) :
  thomas a b c d h = Some (h', y) →
  (1 ≤ n)%nat ∧ (∀ j, (j < n)%nat → pivot_at la lb lc j ≠ 0)
  ∧ h' !! y = Some (solution la lb lc ld).
Proof.
  intros Hrun.
  destruct (decide (n = 0%nat)) as [->|Hn].
  { apply nil_length_inv in Hlb. subst lb.
    by rewrite (thomas_nil h a b c d Hb) in Hrun. }
  destruct (first_zero_pivot la lb lc n) as [Hnz|(k & Hk & Hz & Hlt)].
  2: { by rewrite (thomas_zero h a b c d la lb lc ld n Ha Hb Hc Hd Hab Had Hcb
                     Hcd Hbd Hla Hlb Hlc Hld k Hk Hlt Hz) in Hrun. }
  rewrite (thomas_ok h a b c d la lb lc ld n) in Hrun by (done || lia).
  injection Hrun as <- <-. split; [lia|]. split; [done|].
  by rewrite lookup_insert_eq.
Qed.
End ThomasMore.

(** ** Any solution of the system is the one [thomas] computes *)

Section ThomasUnique.
Variables (la lb lc ld z : list Qc) (n : nat).
Hypothesis Hlb : length lb = n.
Hypothesis Hlz : length z = n.
Hypothesis Hnz : ∀ j, (j < n)%nat → pivot_at la lb lc j ≠ 0.
Hypothesis Hrows : ∀ i, (i < n)%nat → tri_row la lb lc z i = at0 ld i.

(** Forward elimination applied to the rows that [z] satisfies. *)
Lemma rows_upper (i : nat) :
  (i < n)%nat →
  pivot_at la lb lc i * at0 z i
  + (if decide (S i < n)%nat then at0 lc i * at0 z (S i) else 0)
  = rhs_at la lb lc ld i.
Proof.
  induction i as [|i IH]; intros Hi.
  - pose proof (Hrows 0%nat Hi) as H0. unfold tri_row in H0.
    rewrite Hlz, decide_True in H0 by done. simpl. rewrite <- H0. ring.
  - specialize (IH ltac:(lia)). rewrite decide_True in IH by lia.
    pose proof (Hrows (S i) Hi) as H1. unfold tri_row in H1.
    rewrite Hlz, decide_False in H1 by done.
    replace (S i - 1)%nat with i in H1 by lia.
    pose proof (Hnz i ltac:(lia)) as Hp. simpl.
    rewrite <- H1, <- IH. field. done.
Qed.

Lemma rows_back (k : nat) :
  (k < n)%nat → at0 z (n - 1 - k) = sol_back n la lb lc ld k.
Proof.
  induction k as [|k IH]; intros Hk.
  - pose proof (rows_upper (n - 1) ltac:(lia)) as H.
    rewrite decide_False in H by lia. replace (n - 1 - 0)%nat with (n - 1)%nat by lia.
    simpl. rewrite <- H. field. apply Hnz. lia.
  - specialize (IH ltac:(lia)).
    pose proof (rows_upper (n - 2 - k) ltac:(lia)) as H.
    rewrite decide_True in H by lia.
    replace (S (n - 2 - k)) with (n - 1 - k)%nat in H by lia.
    replace (n - 1 - S k)%nat with (n - 2 - k)%nat by lia.
    simpl. rewrite <- IH, <- H. field. apply Hnz. lia.
Qed.

Lemma rows_solution : z = solution la lb lc ld.
Proof.
  apply (list_eq_same_length _ _ n); [by rewrite solution_length|done|].
  intros i x x' Hi Hx Hx'. rewrite solution_lookup in Hx' by lia.
  injection Hx' as <-. rewrite Hlb.
  pose proof (rows_back (n - 1 - i) ltac:(lia)) as H.
  replace (n - 1 - (n - 1 - i))%nat with i in H by lia.
  unfold at0 in H. rewrite Hx in H. done.
Qed.
End ThomasUnique.

(** ** Entries the solver does not read *)

Lemma pivot_at_ext (la la' lb lc lc' : list Qc) (n i : nat) :
  (∀ j, (1 ≤ j)%nat → at0 la' j = at0 la j) →
  (∀ j, (j + 1 < n)%nat → at0 lc' j = at0 lc j) →
  (i < n)%nat → pivot_at la' lb lc' i = pivot_at la lb lc i.
Proof.
  intros Ea Ec. induction i as [|i IH]; intros Hi; simpl; [done|].
  rewrite IH, Ea, Ec by lia. done.
Qed.

Lemma rhs_at_ext (la la' lb lc lc' ld : list Qc) (n i : nat) :
  (∀ j, (1 ≤ j)%nat → at0 la' j = at0 la j) →
  (∀ j, (j + 1 < n)%nat → at0 lc' j = at0 lc j) →
  (i < n)%nat → rhs_at la' lb lc' ld i = rhs_at la lb lc ld i.
Proof.
  intros Ea Ec. induction i as [|i IH]; intros Hi; simpl; [done|].
  rewrite IH, Ea, (pivot_at_ext la la' lb lc lc' n i) by (done || lia). done.
Qed.

Lemma sol_back_ext (la la' lb lc lc' ld : list Qc) (n k : nat) :
  (∀ j, (1 ≤ j)%nat → at0 la' j = at0 la j) →
  (∀ j, (j + 1 < n)%nat → at0 lc' j = at0 lc j) →
  (k < n)%nat → sol_back n la' lb lc' ld k = sol_back n la lb lc ld k.
Proof.
  intros Ea Ec. induction k as [|k IH]; intros Hk; simpl.
  - rewrite (rhs_at_ext la la' lb lc lc' ld n), (pivot_at_ext la la' lb lc lc' n)
      by (done || lia). done.
  - rewrite IH, Ec, (rhs_at_ext la la' lb lc lc' ld n),
      (pivot_at_ext la la' lb lc lc' n) by (done || lia). done.
Qed.

Lemma solution_ext (la la' lb lc lc' ld : list Qc) :
  (∀ j, (1 ≤ j)%nat → at0 la' j = at0 la j) →
  (∀ j, (j + 1 < length lb)%nat → at0 lc' j = at0 lc j) →
  solution la' lb lc' ld = solution la lb lc ld.
Proof.
  intros Ea Ec. unfold solution. apply list_fmap_ext.
  intros i x Hx. apply lookup_seq in Hx as [-> Hi]. simpl.
  apply (sol_back_ext la la' lb lc lc' ld (length lb)); [done|done|lia].
Qed.

(** X5. For arrays of one length [n >= 1], [b] and [d] being distinct
    arrays, distinct from [a] and [c], [thomas] returns if and only if no
    pivot of the forward elimination is zero: the divisions of the call are
    the divisions by the pivots. *)
Theorem X5_thomas_returns_iff_no_zero_pivot
    (h : heap) (a b c d : loc) (la lb lc ld : list Qc) (n : nat) :
  h !! a = Some la → h !! b = Some lb → h !! c = Some lc →
  h !! d = Some ld →
  a ≠ b → a ≠ d → c ≠ b → c ≠ d → b ≠ d →
  length la = n → length lb = n → length lc = n → length ld = n →
  (1 ≤ n)%nat →
  is_Some (thomas a b c d h) ↔ Forall (λ p, p ≠ 0) (pivots la lb lc).
Proof.
  intros Ha Hb Hc Hd Hab Had Hcb Hcd Hbd Hla Hlb Hlc Hld Hn.
  rewrite pivots_Forall, Hlb. split.
  - intros [[h' y] Hrun].
    by destruct (thomas_Some_inv h a b c d la lb lc ld n Ha Hb Hc Hd Hab Had
                   Hcb Hcd Hbd Hla Hlb Hlc Hld h' y Hrun) as (_ & Hnz & _).
  - intros Hnz. by rewrite (thomas_ok h a b c d la lb lc ld n).
Qed.

Lemma X5_thomas_returns_iff_no_zero_pivot_witness :
  is_Some (thomas 1%positive 2%positive 3%positive 4%positive ex_heap)
  ↔ Forall (λ p, p ≠ 0) (pivots ex_a ex_b ex_c).
Proof.
  destruct ex_heap_lookups as (Ha & Hb & Hc & Hd).
  apply (X5_thomas_returns_iff_no_zero_pivot ex_heap 1%positive 2%positive
           3%positive 4%positive ex_a ex_b ex_c ex_d 3 Ha Hb Hc Hd);
    [discriminate..|reflexivity|reflexivity|reflexivity|reflexivity|lia].
Defined.

(** X6. The vector [thomas] returns is the only solution of the system:
    any [z] of length [n] that satisfies every row of the original system is
    the returned array. *)
Theorem X6_thomas_solution_is_unique
    (h h' : heap) (a b c d y : loc) (la lb lc ld ly z : list Qc) (n : nat) :
  h !! a = Some la → h !! b = Some lb → h !! c = Some lc →
  h !! d = Some ld →
  a ≠ b → a ≠ d → c ≠ b → c ≠ d → b ≠ d →
  length la = n → length lb = n → length lc = n → length ld = n →
  thomas a b c d h = Some (h', y) → h' !! y = Some ly →
  length z = n →
  (∀ i, (i < n)%nat → tri_row la lb lc z i = at0 ld i) →
  z = ly.
Proof.
  intros Ha Hb Hc Hd Hab Had Hcb Hcd Hbd Hla Hlb Hlc Hld Hrun Hy Hlz Hrows.
  destruct (thomas_Some_inv h a b c d la lb lc ld n Ha Hb Hc Hd Hab Had
              Hcb Hcd Hbd Hla Hlb Hlc Hld h' y Hrun) as (_ & Hnz & Hsol).
  rewrite Hsol in Hy. injection Hy as <-.
  by apply (rows_solution la lb lc ld z n).
Qed.

Lemma ex_solution_rows :
  ∀ i, (i < 3)%nat →
    tri_row ex_a ex_b ex_c [qc 1 3; qc 1 3; qc 2 3] i = at0 ex_d i.
Proof.
  intros i Hi.
  destruct i as [|[|[|i]]]; [apply Qc_is_canon; reflexivity..|lia].
Defined.

Lemma X6_thomas_solution_is_unique_witness :
  ∃ h' y, thomas 1%positive 2%positive 3%positive 4%positive ex_heap
          = Some (h', y)
    ∧ h' !! y = Some [qc 1 3; qc 1 3; qc 2 3].
Proof.
  set (r := thomas 1%positive 2%positive 3%positive 4%positive ex_heap).
  set (h' := (default (∅, 1%positive) r).1).
  set (y := (default (∅, 1%positive) r).2).
  set (ly := default [] (h' !! y)).
  assert (r = Some (h', y)) as Hr by (vm_compute; reflexivity).
  assert (h' !! y = Some ly) as Hy by (vm_compute; reflexivity).
  clearbody ly. clearbody h' y. subst r.
  destruct ex_heap_lookups as (Ea & Eb & Ec & Ed).
  exists h', y. split; [exact Hr|].
  rewrite (X6_thomas_solution_is_unique ex_heap h' 1%positive 2%positive
             3%positive 4%positive y ex_a ex_b ex_c ex_d ly
             [qc 1 3; qc 1 3; qc 2 3] 3 Ea Eb Ec Ed);
    [exact Hy|discriminate..|reflexivity|reflexivity|reflexivity|reflexivity
    |exact Hr|exact Hy|reflexivity|exact ex_solution_rows].
Defined.

(** X7. [thomas] reads neither [a[0]] nor [c[-1]], the two entries that
    lie outside the matrix: called on two systems that differ at most
    there, it returns the same vector. *)
Theorem X7_thomas_ignores_a_first_and_c_last
    (h h2 h' : heap) (a b c d y : loc) (la la2 lb lc lc2 ld : list Qc)
    (n : nat) :
  h !! a = Some la → h !! b = Some lb → h !! c = Some lc →
  h !! d = Some ld →
  h2 !! a = Some la2 → h2 !! b = Some lb → h2 !! c = Some lc2 →
  h2 !! d = Some ld →
  a ≠ b → a ≠ d → c ≠ b → c ≠ d → b ≠ d →
  length la = n → length lb = n → length lc = n → length ld = n →
  length la2 = n → length lc2 = n →
  (∀ j, (1 ≤ j)%nat → at0 la2 j = at0 la j) →
  (∀ j, (j + 1 < n)%nat → at0 lc2 j = at0 lc j) →
  thomas a b c d h = Some (h', y) →
  ∃ h2' y2, thomas a b c d h2 = Some (h2', y2) ∧ h2' !! y2 = h' !! y.
Proof.
  intros Ha Hb Hc Hd Ha2 Hb2 Hc2 Hd2 Hab Had Hcb Hcd Hbd Hla Hlb Hlc Hld
    Hla2 Hlc2 Ea Ec Hrun.
  destruct (thomas_Some_inv h a b c d la lb lc ld n Ha Hb Hc Hd Hab Had
              Hcb Hcd Hbd Hla Hlb Hlc Hld h' y Hrun) as (Hn & Hnz & Hsol).
  eexists _, _. split.
  - apply (thomas_ok h2 a b c d la2 lb lc2 ld n); try done.
    intros j Hj. rewrite (pivot_at_ext la la2 lb lc lc2 n j) by done.
    by apply Hnz.
  - rewrite lookup_insert_eq, Hsol. f_equal.
    apply solution_ext; [done|]. by rewrite Hlb.
Qed.

Lemma ex_heap2_lookups :
  ex_heap2 !! 1%positive = Some (of_int <$> [7; 1; 1]%Z)
  ∧ ex_heap2 !! 2%positive = Some ex_b
  ∧ ex_heap2 !! 3%positive = Some (of_int <$> [1; 1; 9]%Z)
  ∧ ex_heap2 !! 4%positive = Some ex_d.
Proof. repeat split; vm_compute; reflexivity. Defined.

Lemma X7_thomas_ignores_a_first_and_c_last_witness :
  ∃ h' y h2' y2,
    thomas 1%positive 2%positive 3%positive 4%positive ex_heap = Some (h', y)
    ∧ thomas 1%positive 2%positive 3%positive 4%positive ex_heap2
      = Some (h2', y2)
    ∧ h2' !! y2 = h' !! y.
Proof.
  set (r := thomas 1%positive 2%positive 3%positive 4%positive ex_heap).
  set (h' := (default (∅, 1%positive) r).1).
  set (y := (default (∅, 1%positive) r).2).
  assert (r = Some (h', y)) as Hr by (vm_compute; reflexivity).
  clearbody h' y. subst r.
  destruct ex_heap_lookups as (Ea & Eb & Ec & Ed).
  destruct ex_heap2_lookups as (Ea2 & Eb2 & Ec2 & Ed2).
  destruct (X7_thomas_ignores_a_first_and_c_last ex_heap ex_heap2 h'
              1%positive 2%positive 3%positive 4%positive y
              ex_a (of_int <$> [7; 1; 1]%Z) ex_b ex_c (of_int <$> [1; 1; 9]%Z)
              ex_d 3 Ea Eb Ec Ed Ea2 Eb2 Ec2 Ed2)
    as (h2' & y2 & H2 & Hy);
    [discriminate..|reflexivity|reflexivity|reflexivity|reflexivity
    |reflexivity|reflexivity| | |exact Hr|].
  - intros j Hj. destruct j as [|[|[|j]]]; [lia|reflexivity..].
  - intros j Hj. destruct j as [|[|j]]; [reflexivity..|lia].
  - exists h', y, h2', y2. split; [exact Hr|]. split; [exact H2|exact Hy].
Defined.

(** X8. On a system that is strictly diagonally dominant by rows,
    [|a[i]| + |c[i]| < |b[i]|] for every [i], [thomas] returns, and the
    returned vector satisfies every row of the system. *)
Theorem X8_thomas_diagonally_dominant_system
    (h : heap) (a b c d : loc) (la lb lc ld : list Qc) (n : nat) :
  h !! a = Some la → h !! b = Some lb → h !! c = Some lc →
  h !! d = Some ld →
  a ≠ b → a ≠ d → c ≠ b → c ≠ d → b ≠ d →
  length la = n → length lb = n → length lc = n → length ld = n →
  (1 ≤ n)%nat →
  diag_dominant la lb lc →
  ∃ h' y ly, thomas a b c d h = Some (h', y)
    ∧ h' !! y = Some ly ∧ length ly = n
    ∧ ∀ i, (i < n)%nat → tri_row la lb lc ly i = at0 ld i.
Proof.
  intros Ha Hb Hc Hd Hab Had Hcb Hcd Hbd Hla Hlb Hlc Hld Hn Hdd.
  pose proof (proj1 (pivots_Forall la lb lc) (diag_dominant_pivots _ _ _ Hdd))
    as Hnz.
  rewrite Hlb in Hnz.
  eexists _, _, (solution la lb lc ld). split; [|split; [|split]].
  - by apply (thomas_ok h a b c d la lb lc ld n).
  - by rewrite lookup_insert_eq.
  - by rewrite solution_length.
  - intros i Hi. by apply (solution_solves la lb lc ld n).
Qed.

Lemma ex_diag_dominant : diag_dominant ex_a ex_b ex_c.
Proof.
  intros i Hi. destruct i as [|[|[|i]]]; [reflexivity..|simpl in Hi; lia].
Defined.

Lemma X8_thomas_diagonally_dominant_system_witness :
  ∃ h' y ly, thomas 1%positive 2%positive 3%positive 4%positive ex_heap
             = Some (h', y)
    ∧ h' !! y = Some ly ∧ length ly = 3%nat
    ∧ ∀ i, (i < 3)%nat → tri_row ex_a ex_b ex_c ly i = at0 ex_d i.
Proof.
  destruct ex_heap_lookups as (Ha & Hb & Hc & Hd).
  apply (X8_thomas_diagonally_dominant_system ex_heap 1%positive 2%positive
           3%positive 4%positive ex_a ex_b ex_c ex_d 3 Ha Hb Hc Hd);
    [discriminate..|reflexivity|reflexivity|reflexivity|reflexivity|lia
    |exact ex_diag_dominant].
Defined.

(** ** The Neumann surgery on the coefficients *)

Section NeumannMods.
Variables (q : coeffs) (nx ny i j : nat).
Hypothesis Hq : coeffs_shape nx ny q.
Hypothesis Hi : (i < nx)%nat.
Hypothesis Hj : (j < ny)%nat.

Lemma neumann_ax :
  get2 (c_ax (apply_neumann_coeff_mods q nx ny)) i j
  = if decide (i = 1%nat) then 0 else get2 (c_ax q) i j.
Proof.
  destruct q as [ax ay cx cy b d_rhs].
  destruct Hq as (Hax & _). simpl in *.
  by rewrite get2_row_update by (by eapply shape2_inb).
Qed.

Lemma neumann_ay :
  get2 (c_ay (apply_neumann_coeff_mods q nx ny)) i j
  = if decide (j = 1%nat) then 0 else get2 (c_ay q) i j.
Proof.
  destruct q as [ax ay cx cy b d_rhs].
  destruct Hq as (_ & Hay & _). simpl in *.
  by rewrite get2_col_update by (by eapply shape2_inb).
Qed.

Lemma neumann_cx :
  get2 (c_cx (apply_neumann_coeff_mods q nx ny)) i j
  = if decide (i = (nx - 2)%nat) then 0 else get2 (c_cx q) i j.
Proof.
  destruct q as [ax ay cx cy b d_rhs].
  destruct Hq as (_ & _ & Hcx & _). simpl in *.
  by rewrite get2_row_update by (by eapply shape2_inb).
Qed.

Lemma neumann_cy :
  get2 (c_cy (apply_neumann_coeff_mods q nx ny)) i j
  = if decide (j = (ny - 2)%nat) then 0 else get2 (c_cy q) i j.
Proof.
  destruct q as [ax ay cx cy b d_rhs].
  destruct Hq as (_ & _ & _ & Hcy & _). simpl in *.
  by rewrite get2_col_update by (by eapply shape2_inb).
Qed.

Lemma neumann_b :
  get2 (c_b (apply_neumann_coeff_mods q nx ny)) i j
  = get2 (c_b q) i j
    - (if decide (j = 1%nat) then get2 (c_ay q) i j else 0)
    - (if decide (j = (ny - 2)%nat) then get2 (c_cy q) i j else 0)
    - (if decide (i = 1%nat) then get2 (c_ax q) i j else 0)
    - (if decide (i = (nx - 2)%nat) then get2 (c_cx q) i j else 0).
Proof.
  destruct q as [ax ay cx cy b d_rhs].
  destruct Hq as (_ & _ & _ & _ & Hb & _). simpl in *.
  pose proof (shape2_inb nx ny b i j Hb Hi Hj) as Ib.
  rewrite get2_row_update
    by (by apply inb2_row_update, inb2_col_update, inb2_col_update).
  rewrite get2_row_update by (by apply inb2_col_update, inb2_col_update).
  rewrite get2_col_update by (by apply inb2_col_update).
  rewrite get2_col_update by done.
  assert (j = 1%nat → get2 ay i 1 = get2 ay i j) as H1 by (by intros <-).
  assert (j = (ny - 2)%nat → get2 cy i (ny - 2) = get2 cy i j) as H2
    by (by intros <-).
  assert (i = 1%nat → get2 ax 1 j = get2 ax i j) as H3 by (by intros <-).
  assert (i = (nx - 2)%nat → get2 cx (nx - 2) j = get2 cx i j) as H4
    by (by intros <-).
  destruct (decide (i = (nx - 2)%nat)) as [E3|_];
  destruct (decide (i = 1%nat)) as [E1|_];
  destruct (decide (j = (ny - 2)%nat)) as [E4|_];
  destruct (decide (j = 1%nat)) as [E2|_];
  rewrite ?(H1 E2), ?(H2 E4), ?(H3 E1), ?(H4 E3); ring.
Qed.

Lemma neumann_row_excess :
  row_excess (apply_neumann_coeff_mods q nx ny) i j = row_excess q i j.
Proof.
  unfold row_excess.
  rewrite neumann_b, neumann_ax, neumann_ay, neumann_cx, neumann_cy.
  destruct (decide (i = (nx - 2)%nat)); destruct (decide (i = 1%nat));
  destruct (decide (j = (ny - 2)%nat)); destruct (decide (j = 1%nat)); ring.
Qed.
End NeumannMods.

Lemma neumann_d_rhs (q : coeffs) (nx ny : nat) :
  c_d_rhs (apply_neumann_coeff_mods q nx ny) = c_d_rhs q.
Proof. by destruct q. Qed.

Lemma neumann_shape (q : coeffs) (nx ny n m : nat) :
  coeffs_shape n m q → coeffs_shape n m (apply_neumann_coeff_mods q nx ny).
Proof.
  destruct q as [ax ay cx cy b d_rhs].
  intros (Hax & Hay & Hcx & Hcy & Hb & Hd). unfold coeffs_shape. simpl in *.
  split; [by apply shape2_row_update|].
  split; [by apply shape2_col_update|].
  split; [by apply shape2_row_update|].
  split; [by apply shape2_col_update|].
  split; [|done].
  by apply shape2_row_update, shape2_row_update, shape2_col_update,
    shape2_col_update.
Qed.

(** X9. [apply_neumann_coeff_mods], on six arrays of shape [nx × ny] with
    [nx, ny >= 2]: at every node the excess of the diagonal over the four
    neighbour coefficients, [b - ax - ay - cx - cy], is what it was; [ay]
    is zero on column [1], [cy] on column [ny - 2], [ax] on row [1], [cx]
    on row [nx - 2], and these four arrays are unchanged elsewhere;
    [d_rhs] is unchanged; the shapes are kept. *)
Theorem X9_neumann_surgery_conserves_row_excess
    (q : coeffs) (nx ny i j : nat) :
  (2 ≤ nx)%nat → (2 ≤ ny)%nat → coeffs_shape nx ny q →
  (i < nx)%nat → (j < ny)%nat →
  let q' := apply_neumann_coeff_mods q nx ny in
  row_excess q' i j = row_excess q i j
  ∧ get2 (c_ay q') i j = (if decide (j = 1%nat) then 0 else get2 (c_ay q) i j)
  ∧ get2 (c_cy q') i j
    = (if decide (j = (ny - 2)%nat) then 0 else get2 (c_cy q) i j)
  ∧ get2 (c_ax q') i j = (if decide (i = 1%nat) then 0 else get2 (c_ax q) i j)
  ∧ get2 (c_cx q') i j
    = (if decide (i = (nx - 2)%nat) then 0 else get2 (c_cx q) i j)
  ∧ c_d_rhs q' = c_d_rhs q
  ∧ coeffs_shape nx ny q'.
Proof.
  intros _ _ Hq Hi Hj q'. unfold q'.
  split; [by apply neumann_row_excess|].
  split; [by apply neumann_ay|]. split; [by apply neumann_cy|].
  split; [by apply neumann_ax|]. split; [by apply neumann_cx|].
  split; [apply neumann_d_rhs|]. exact (neumann_shape q nx ny nx ny Hq).
Qed.

Lemma X9_neumann_surgery_conserves_row_excess_witness :
  let q := Coeffs ex_one2 ex_one2 ex_one2 ex_one2 ex_four2 ex_zero2 in
  let q' := apply_neumann_coeff_mods q 3 3 in
  row_excess q' 1 1 = row_excess q 1 1
  ∧ get2 (c_b q) 1 1 = of_int 4 ∧ get2 (c_b q') 1 1 = 0
  ∧ get2 (c_ay q') 1 1 = 0.
Proof.
  intros q q'.
  assert (coeffs_shape 3 3 q) as Hq.
  { unfold coeffs_shape, q. simpl.
    repeat split; try reflexivity; repeat constructor. }
  destruct (X9_neumann_surgery_conserves_row_excess q 3 3 1 1
              ltac:(lia) ltac:(lia) Hq ltac:(lia) ltac:(lia))
    as (He & Hay & _).
  split; [exact He|]. split; [reflexivity|]. split; [reflexivity|].
  exact Hay.
Defined.

(** ** The Neumann copy of the ring *)

Lemma half_double (x : Qc) : qc 1 2 * (x + x) = x.
Proof.
  assert (qc 1 2 = 1 / (1 + 1)) as -> by (apply Qc_is_canon; reflexivity).
  field. intros E. apply (f_equal this) in E. discriminate E.
Qed.

Lemma set2_same (U : grid2) (i j : nat) (v : Qc) :
  v = get2 U i j → set2 U i j v = U.
Proof. intros ->. apply set2_get2_same. Qed.

Section NeumannCopy.
Variables (U : grid2) (nx ny : nat).
Hypothesis HU : shape2 nx ny U.
Hypothesis Hnx : (3 ≤ nx)%nat.
Hypothesis Hny : (3 ≤ ny)%nat.

Let U1 := col_update (λ i _, get2 U i 1) 0 U.
Let U2 := col_update (λ i _, get2 U1 i (ny - 2)) (ny - 1) U1.
Let U3 := row_update (λ j _, get2 U2 1 j) 0 U2.
Let U4 := row_update (λ j _, get2 U3 (nx - 2) j) (nx - 1) U3.

Lemma copy_U1 i j : (i < nx)%nat → (j < ny)%nat →
  get2 U1 i j = if decide (j = 0%nat) then get2 U i 1 else get2 U i j.
Proof.
  intros Hi Hj. unfold U1.
  by rewrite get2_col_update by (by eapply shape2_inb).
Qed.

Lemma shape_U1 : shape2 nx ny U1.
Proof. by apply shape2_col_update. Qed.

Lemma copy_U2 i j : (i < nx)%nat → (j < ny)%nat →
  get2 U2 i j = get2 U i (nearest_inner ny j).
Proof.
  intros Hi Hj. unfold U2.
  rewrite get2_col_update by (eapply shape2_inb; [apply shape_U1|done..]).
  unfold nearest_inner.
  destruct (decide (j = (ny - 1)%nat)) as [->|Hne].
  - rewrite copy_U1 by lia. rewrite decide_False by lia.
    f_equal. lia.
  - rewrite copy_U1 by lia. destruct (decide (j = 0%nat)) as [->|Hj0].
    + f_equal.
    + f_equal. lia.
Qed.

Lemma shape_U2 : shape2 nx ny U2.
Proof. apply shape2_col_update, shape_U1. Qed.

Lemma copy_U3 i j : (i < nx)%nat → (j < ny)%nat →
  get2 U3 i j
  = get2 U (if decide (i = 0%nat) then 1%nat else i) (nearest_inner ny j).
Proof.
  intros Hi Hj. unfold U3.
  rewrite get2_row_update by (eapply shape2_inb; [apply shape_U2|done..]).
  destruct (decide (i = 0%nat)); by rewrite copy_U2 by lia.
Qed.

Lemma shape_U3 : shape2 nx ny U3.
Proof. apply shape2_row_update, shape_U2. Qed.

Lemma copy_U4 i j : (i < nx)%nat → (j < ny)%nat →
  get2 U4 i j = get2 U (nearest_inner nx i) (nearest_inner ny j).
Proof.
  intros Hi Hj. unfold U4.
  rewrite get2_row_update by (eapply shape2_inb; [apply shape_U3|done..]).
  unfold nearest_inner at 1.
  destruct (decide (i = (nx - 1)%nat)) as [->|Hne].
  - rewrite copy_U3 by lia. rewrite decide_False by lia. f_equal. lia.
  - rewrite copy_U3 by lia. destruct (decide (i = 0%nat)) as [->|Hi0].
    + f_equal.
    + f_equal. lia.
Qed.

Lemma shape_U4 : shape2 nx ny U4.
Proof. apply shape2_row_update, shape_U3. Qed.

(** The four corner assignments write what the corners already hold. *)
Lemma copy_neumann_boundaries_U4 : copy_neumann_boundaries U nx ny = U4.
Proof.
  unfold copy_neumann_boundaries. fold U1. fold U2. fold U3. fold U4.
  assert (∀ n, (3 ≤ n)%nat →
            nearest_inner n 0 = 1%nat ∧ nearest_inner n 1 = 1%nat
            ∧ nearest_inner n (n - 1) = (n - 2)%nat
            ∧ nearest_inner n (n - 2) = (n - 2)%nat) as Hnear.
  { intros n Hn. unfold nearest_inner. lia. }
  destruct (Hnear nx Hnx) as (X0 & X1 & X2 & X3).
  destruct (Hnear ny Hny) as (Y0 & Y1 & Y2 & Y3).
  rewrite (set2_same U4 0 0).
  2: { rewrite !copy_U4 by lia. rewrite X0, X1, Y0, Y1. apply half_double. }
  rewrite (set2_same U4 (nx - 1) (ny - 1)).
  2: { rewrite !copy_U4 by lia. rewrite X2, X3, Y2, Y3. apply half_double. }
  rewrite (set2_same U4 0 (ny - 1)).
  2: { rewrite !copy_U4 by lia. rewrite X0, X1, Y2, Y3. apply half_double. }
  apply set2_same.
  rewrite !copy_U4 by lia. rewrite X2, X3, Y0, Y1. apply half_double.
Qed.

Lemma copy_neumann_get i j : (i < nx)%nat → (j < ny)%nat →
  get2 (copy_neumann_boundaries U nx ny) i j
  = get2 U (nearest_inner nx i) (nearest_inner ny j).
Proof. intros Hi Hj. rewrite copy_neumann_boundaries_U4. by apply copy_U4. Qed.

Lemma copy_neumann_shape : shape2 nx ny (copy_neumann_boundaries U nx ny).
Proof. rewrite copy_neumann_boundaries_U4. apply shape_U4. Qed.
End NeumannCopy.

Lemma nearest_inner_lt (n i : nat) : (3 ≤ n)%nat → (nearest_inner n i < n)%nat.
Proof. unfold nearest_inner. lia. Qed.

Lemma nearest_inner_idem (n i : nat) :
  (3 ≤ n)%nat → nearest_inner n (nearest_inner n i) = nearest_inner n i.
Proof. unfold nearest_inner. lia. Qed.

Lemma nearest_inner_interior (n i : nat) :
  (1 ≤ i < n - 1)%nat → nearest_inner n i = i.
Proof. unfold nearest_inner. lia. Qed.

Lemma copy_neumann_mirror (U : grid2) (nx ny : nat) :
  shape2 nx ny U → (3 ≤ nx)%nat → (3 ≤ ny)%nat →
  mirror_ring nx ny (copy_neumann_boundaries U nx ny).
Proof.
  intros HU Hnx Hny i j Hi Hj.
  rewrite !(copy_neumann_get U nx ny HU Hnx Hny)
    by (done || by apply nearest_inner_lt).
  by rewrite !nearest_inner_idem.
Qed.

(** X10. On a field of shape [nx × ny] with [nx, ny >= 3],
    [copy_neumann_boundaries] gives every ring node the value of the
    nearest interior node (at a corner the average of the two neighbours
    is the value of the diagonal neighbour), leaves the interior as it is,
    and a second application changes nothing. *)
Theorem X10_neumann_copy_mirrors_the_first_interior_line
    (U : grid2) (nx ny : nat) :
  shape2 nx ny U → (3 ≤ nx)%nat → (3 ≤ ny)%nat →
  let V := copy_neumann_boundaries U nx ny in
  shape2 nx ny V
  ∧ (∀ i j, (i < nx)%nat → (j < ny)%nat →
       get2 V i j = get2 U (nearest_inner nx i) (nearest_inner ny j))
  ∧ (∀ i j, (1 ≤ i < nx - 1)%nat → (1 ≤ j < ny - 1)%nat →
       get2 V i j = get2 U i j)
  ∧ copy_neumann_boundaries V nx ny = V.
Proof.
  intros HU Hnx Hny V.
  pose proof (copy_neumann_shape U nx ny HU Hnx Hny) as HV. fold V in HV.
  split; [done|]. split; [|split].
  - intros i j Hi Hj. by apply copy_neumann_get.
  - intros i j Hi Hj. unfold V. rewrite copy_neumann_get by (done || lia).
    by rewrite !nearest_inner_interior.
  - apply (grid2_ext nx ny); [by apply copy_neumann_shape|done|].
    intros i j Hi Hj. rewrite copy_neumann_get by done.
    symmetry. by apply (copy_neumann_mirror U nx ny).
Qed.

Lemma X10_neumann_copy_mirrors_the_first_interior_line_witness :
  let V := copy_neumann_boundaries ex_ramp2 4 4 in
  get2 V 0 0 = of_int 5 ∧ get2 V 0 2 = of_int 6 ∧ get2 V 3 3 = of_int 10
  ∧ get2 V 2 1 = of_int 9 ∧ copy_neumann_boundaries V 4 4 = V.
Proof.
  intros V.
  destruct (X10_neumann_copy_mirrors_the_first_interior_line ex_ramp2 4 4
              (grid_init_shape 4 4 _) ltac:(lia) ltac:(lia))
    as (_ & Hget & Hin & Hid).
  fold V in Hget, Hin, Hid.
  split; [rewrite Hget by lia; apply Qc_is_canon; reflexivity|].
  split; [rewrite Hget by lia; apply Qc_is_canon; reflexivity|].
  split; [rewrite Hget by lia; apply Qc_is_canon; reflexivity|].
  split; [rewrite Hin by lia; apply Qc_is_canon; reflexivity|].
  exact Hid.
Defined.

(** ** The two-generator experiment *)

Lemma replicate_Forall {A : Type} (P : A → Prop) (n : nat) (x : A) :
  P x → Forall P (replicate n x).
Proof. intros Hx. apply Forall_forall. by intros y ->%elem_of_replicate_inv. Qed.

Lemma zeros2_shape (n m : nat) : shape2 n m (zeros2 n m).
Proof.
  unfold zeros2. split; [by rewrite length_replicate|].
  apply replicate_Forall. by rewrite length_replicate.
Qed.

Lemma same_row_refl (q : coeffs) (i j : nat) : same_row q q i j.
Proof. by repeat split. Qed.

Lemma same_row_trans (q1 q2 q3 : coeffs) (i j : nat) :
  same_row q1 q2 i j → same_row q2 q3 i j → same_row q1 q3 i j.
Proof.
  intros (A1 & A2 & A3 & A4 & A5 & A6) (B1 & B2 & B3 & B4 & B5 & B6).
  unfold same_row. rewrite B1, B2, B3, B4, B5, B6. done.
Qed.

Lemma isolated_row_same (q q' : coeffs) (i j : nat) (v : Qc) :
  same_row q q' i j → isolated_row q i j v → isolated_row q' i j v.
Proof.
  intros (A1 & A2 & A3 & A4 & A5 & A6). unfold isolated_row.
  by rewrite A1, A2, A3, A4, A5, A6.
Qed.

(** X11. In the experiment ['FREE_TWO_GENERATORS'], on arrays of shape
    [nx × ny] with [nx >= 2], [set_sources] returns; the rows of the nodes
    [(1, ny // 2)] and [(nx - 2, ny // 2)] are the isolated equation
    [b = 1], neighbour coefficients [0], right-hand side
    [amplitude * sin(pi * frequency_k * k * dt)]; and at every other node
    the six arrays are unchanged. *)
Theorem X11_two_generators_pin_two_rows
    (np_pi : Qc) (np_sin : Qc → Qc) (cfg : config) (k : nat) (q : coeffs) :
  cfg_experiment_type cfg = "FREE_TWO_GENERATORS"%string →
  (2 ≤ cfg_nx cfg)%nat → (1 ≤ cfg_ny cfg)%nat →
  coeffs_shape (cfg_nx cfg) (cfg_ny cfg) q →
  let nx := cfg_nx cfg in
  let J := (cfg_ny cfg `div` 2)%nat in
  let v := cfg_amplitude cfg
           * np_sin (np_pi * cfg_frequency_k cfg * of_int (Z.of_nat k)
                     * cfg_dt cfg) in
  ∃ q', set_sources np_pi np_sin k q cfg = Some q'
    ∧ coeffs_shape nx (cfg_ny cfg) q'
    ∧ isolated_row q' 1 J v ∧ isolated_row q' (nx - 2) J v
    ∧ ∀ i j, (i, j) ≠ (1%nat, J) → (i, j) ≠ ((nx - 2)%nat, J) →
        same_row q q' i j.
Proof.
  intros Ht Hnx Hny Hq nx J v.
  pose proof (Nat.Div0.div_lt_upper_bound (cfg_ny cfg) 2 (cfg_ny cfg)) as HJ.
  destruct (set_source_row_Some _ _ q 1 J v Hq) as (q1 & Hq1 & Hs1 & Hr1 & Hf1);
    [lia|unfold J; lia|].
  destruct (set_source_row_Some _ _ q1 (nx - 2) J v Hs1)
    as (q2 & Hq2 & Hs2 & Hr2 & Hf2); [unfold nx; lia|unfold J; lia|].
  exists q2. split; [|split; [done|split; [|split; [done|]]]].
  - unfold set_sources. rewrite Ht.
    rewrite decide_False by (intros [?|?]; discriminate).
    rewrite decide_True by done.
    change (source_value np_pi np_sin k cfg) with v. fold J.
    rewrite Hq1. simpl. exact Hq2.
  - destruct (decide ((1%nat, J) = ((nx - 2)%nat, J))) as [E|Hne].
    + injection E as E1. by rewrite E1.
    + apply (isolated_row_same q1); [|done]. unfold same_row.
      apply (Hf2 1%nat J). done.
  - intros i j N1 N2. apply (same_row_trans _ q1).
    + apply (Hf1 i j N1).
    + apply (Hf2 i j N2).
Qed.

Lemma ex_coeffs4_shape :
  coeffs_shape 4 4
    (Coeffs (zeros2 4 4) (zeros2 4 4) (zeros2 4 4) (zeros2 4 4) (zeros2 4 4)
       (zeros2 4 4)).
Proof.
  unfold coeffs_shape. simpl.
  repeat (split; [apply zeros2_shape|]). apply zeros2_shape.
Defined.

Lemma X11_two_generators_pin_two_rows_witness :
  let q := Coeffs (zeros2 4 4) (zeros2 4 4) (zeros2 4 4) (zeros2 4 4)
             (zeros2 4 4) (zeros2 4 4) in
  let v := source_value pi_approx sin_poly 1 ex_config_free in
  ∃ q', set_sources pi_approx sin_poly 1 q ex_config_free = Some q'
    ∧ isolated_row q' 1 2 v ∧ isolated_row q' 2 2 v
    ∧ same_row q q' 1 1.
Proof.
  intros q v.
  destruct (X11_two_generators_pin_two_rows pi_approx sin_poly ex_config_free
              1 q eq_refl) as (q' & Hq' & _ & H1 & H2 & Hf);
    [simpl; lia|simpl; lia|exact ex_coeffs4_shape|].
  exists q'. split; [exact Hq'|]. split; [exact H1|]. split; [exact H2|].
  apply Hf; intros E; discriminate E.
Defined.

(** ** The assembled system is diagonally dominant *)

(** Linear arithmetic on [Qc], by way of [Q]. *)
Ltac qc_lra :=
  unfold Qclt, Qcle, Qcminus, Qcplus, Qcopp in *;
  cbn [this Q2Qc] in *; rewrite ?Qred_correct in *; lra.

Lemma excess_pos (b ax ay cx cy : Qc) :
  0 <= ax → 0 <= ay → 0 <= cx → 0 <= cy → 0 < b - ax - ay - cx - cy → 0 < b.
Proof. intros. qc_lra. Qed.

Lemma get2_lookup2 (U : grid2) (i j : nat) (r : list Qc) (x : Qc) :
  U !! i = Some r → r !! j = Some x → get2 U i j = x.
Proof. intros Hr Hx. unfold get2. rewrite Hr. simpl. by rewrite Hx. Qed.

Lemma dominant_nonzero (n m : nat) (q : coeffs) :
  coeffs_shape n m q → dominant_rows n m q → nonzero_all (c_b q).
Proof.
  intros (_ & _ & _ & _ & [Hn Hm] & _) Hdom.
  unfold nonzero_all. rewrite Forall_lookup in Hm.
  apply Forall_lookup. intros i r Hr. apply Forall_lookup. intros j x Hx.
  pose proof (lookup_lt_Some _ _ _ Hr) as Hi.
  pose proof (lookup_lt_Some _ _ _ Hx) as Hj. rewrite (Hm i r Hr) in Hj.
  rewrite Hn in Hi.
  destruct (Hdom i j Hi Hj) as (H1 & H2 & H3 & H4 & H5).
  unfold row_excess in H5. rewrite (get2_lookup2 _ i j r x Hr Hx) in H5.
  apply Qc_pos_neq.
  exact (excess_pos _ _ _ _ _ H1 H2 H3 H4 H5).
Qed.

Lemma dominant_set_source_row (n m : nat) (q q' : coeffs) (i j : nat)
    (v : Qc) :
  coeffs_shape n m q → (i < n)%nat → (j < m)%nat →
  set_source_row q i j v = Some q' →
  dominant_rows n m q → coeffs_shape n m q' ∧ dominant_rows n m q'.
Proof.
  intros Hq Hi Hj Hset Hdom.
  destruct (set_source_row_Some n m q i j v Hq Hi Hj)
    as (q1 & Hq1 & Hs & Hr & Hf).
  rewrite Hq1 in Hset. injection Hset as <-. split; [done|].
  intros i' j' Hi' Hj'.
  destruct (decide ((i', j') = (i, j))) as [E|Hne].
  - injection E as -> ->. destruct Hr as (E1 & E2 & E3 & E4 & E5 & _).
    unfold row_excess. rewrite E1, E2, E3, E4, E5.
    repeat split; reflexivity.
  - destruct (Hf i' j' Hne) as (E1 & E2 & E3 & E4 & E5 & _).
    unfold row_excess. rewrite E1, E2, E3, E4, E5. by apply Hdom.
Qed.

Lemma dominant_set_sources np_pi np_sin (cfg : config) (k : nat)
    (q : coeffs) :
  (2 ≤ cfg_nx cfg)%nat → (2 ≤ cfg_ny cfg)%nat →
  coeffs_shape (cfg_nx cfg) (cfg_ny cfg) q →
  dominant_rows (cfg_nx cfg) (cfg_ny cfg) q →
  ∃ q', set_sources np_pi np_sin k q cfg = Some q'
    ∧ coeffs_shape (cfg_nx cfg) (cfg_ny cfg) q'
    ∧ dominant_rows (cfg_nx cfg) (cfg_ny cfg) q'.
Proof.
  intros Hnx Hny Hq Hdom. unfold set_sources.
  pose proof (Nat.Div0.div_lt_upper_bound (cfg_nx cfg) 2 (cfg_nx cfg)) as Hdx.
  pose proof (Nat.Div0.div_lt_upper_bound (cfg_ny cfg) 2 (cfg_ny cfg)) as Hdy.
  destruct (decide _) as [_|_].
  - destruct (set_source_row_Some _ _ q (cfg_nx cfg `div` 2)
                (cfg_ny cfg `div` 2) (source_value np_pi np_sin k cfg) Hq)
      as (q' & Hq' & _); [lia..|].
    exists q'. split; [done|].
    apply (dominant_set_source_row _ _ q q' (cfg_nx cfg `div` 2)
             (cfg_ny cfg `div` 2) (source_value np_pi np_sin k cfg) Hq);
      [lia|lia|done|done].
  - destruct (decide _) as [_|_]; [|by exists q].
    destruct (set_source_row_Some _ _ q 1 (cfg_ny cfg `div` 2)
                (source_value np_pi np_sin k cfg) Hq)
      as (q1 & Hq1 & Hs1 & _); [lia..|].
    destruct (dominant_set_source_row _ _ q q1 1 (cfg_ny cfg `div` 2)
                (source_value np_pi np_sin k cfg) Hq) as [_ Hd1];
      [lia|lia|done|done|].
    destruct (set_source_row_Some _ _ q1 (cfg_nx cfg - 2) (cfg_ny cfg `div` 2)
                (source_value np_pi np_sin k cfg) Hs1)
      as (q2 & Hq2 & _); [lia..|].
    exists q2. rewrite Hq1. simpl. split; [done|].
    apply (dominant_set_source_row _ _ q1 q2 (cfg_nx cfg - 2)
             (cfg_ny cfg `div` 2) (source_value np_pi np_sin k cfg) Hs1);
      [lia|lia|done|done].
Qed.

Lemma dominant_neumann (nx ny : nat) (q : coeffs) :
  coeffs_shape nx ny q → dominant_rows nx ny q →
  dominant_rows nx ny (apply_neumann_coeff_mods q nx ny).
Proof.
  intros Hq Hdom i j Hi Hj.
  destruct (Hdom i j Hi Hj) as (H1 & H2 & H3 & H4 & H5).
  rewrite (neumann_row_excess q nx ny i j Hq Hi Hj).
  rewrite (neumann_ax q nx ny i j Hq Hi Hj), (neumann_ay q nx ny i j Hq Hi Hj),
    (neumann_cx q nx ny i j Hq Hi Hj), (neumann_cy q nx ny i j Hq Hi Hj).
  assert ((0 : Qc) <= 0) as H0 by apply Qcle_refl.
  repeat split; try done; by destruct (decide _).
Qed.

Lemma get2_grid_init (n m : nat) (f : nat → nat → Qc) (i j : nat) :
  (i < n)%nat → (j < m)%nat → get2 (grid_init n m f) i j = f i j.
Proof.
  intros Hi Hj. unfold get2, grid_init.
  rewrite list_lookup_fmap, lookup_seq_lt by done. simpl.
  by rewrite list_lookup_fmap, lookup_seq_lt by done.
Qed.

Lemma dominant_base (n m : nat) (ex ey et : Qc) (d_rhs : grid2) :
  0 < ex → 0 < ey → 0 < et →
  dominant_rows n m
    (Coeffs (grid_init n m (λ _ _, ex * 1)) (grid_init n m (λ _ _, ey * 1))
       (grid_init n m (λ _ _, ex * 1)) (grid_init n m (λ _ _, ey * 1))
       (grid_init n m (λ _ _, ex * 1 + ex * 1 + ey * 1 + ey * 1 + et))
       d_rhs).
Proof.
  intros Hex Hey Het i j Hi Hj. unfold row_excess. simpl.
  rewrite !get2_grid_init by done. rewrite !Qcmult_1_r.
  assert (ex + ex + ey + ey + et - ex - ey - ex - ey = et) as -> by ring.
  repeat split; try done; by apply Qclt_le_weak.
Qed.

(** X19. The system [run_simulation] assembles is strictly diagonally
    dominant by rows, with neighbour coefficients that are not negative:
    the base coefficients are ([b] exceeds [ax + ay + cx + cy] by
    [1 / dt ** 2]), and on any such system of shape [nx × ny] with
    [nx, ny >= 2], [set_sources] returns and keeps the property, and so
    does [apply_neumann_coeff_mods] after it; in particular no entry of
    the diagonal is zero. *)
Theorem X19_assembly_keeps_the_system_diagonally_dominant
    (np_pi : Qc) (np_sin : Qc → Qc) (cfg : config) (k : nat) (q : coeffs)
    (ex ey et : Qc) (d_rhs : grid2) :
  (2 ≤ cfg_nx cfg)%nat → (2 ≤ cfg_ny cfg)%nat →
  let nx := cfg_nx cfg in
  let ny := cfg_ny cfg in
  (0 < ex → 0 < ey → 0 < et →
   dominant_rows nx ny
     (Coeffs (grid_init nx ny (λ _ _, ex * 1)) (grid_init nx ny (λ _ _, ey * 1))
        (grid_init nx ny (λ _ _, ex * 1)) (grid_init nx ny (λ _ _, ey * 1))
        (grid_init nx ny (λ _ _, ex * 1 + ex * 1 + ey * 1 + ey * 1 + et))
        d_rhs))
  ∧ (coeffs_shape nx ny q → dominant_rows nx ny q →
     ∃ q1, set_sources np_pi np_sin k q cfg = Some q1
       ∧ coeffs_shape nx ny q1 ∧ dominant_rows nx ny q1
       ∧ nonzero_all (c_b q1)
       ∧ dominant_rows nx ny (apply_neumann_coeff_mods q1 nx ny)
       ∧ nonzero_all (c_b (apply_neumann_coeff_mods q1 nx ny))).
Proof.
  intros Hnx Hny nx ny. split.
  - intros Hex Hey Het. by apply dominant_base.
  - intros Hq Hdom.
    destruct (dominant_set_sources np_pi np_sin cfg k q Hnx Hny Hq Hdom)
      as (q1 & Hq1 & Hs1 & Hd1).
    pose proof (dominant_neumann nx ny q1 Hs1 Hd1) as Hd2.
    pose proof (neumann_shape q1 nx ny nx ny Hs1) as Hs2.
    exists q1. split; [done|]. split; [done|]. split; [done|].
    split; [by apply (dominant_nonzero nx ny)|]. split; [done|].
    by apply (dominant_nonzero nx ny).
Qed.

Lemma ex_coeffs4_dominant :
  dominant_rows 4 4
    (Coeffs (zeros2 4 4) (zeros2 4 4) (zeros2 4 4) (zeros2 4 4)
       (grid_init 4 4 (λ _ _, 1)) (zeros2 4 4)).
Proof.
  intros i j Hi Hj. unfold row_excess. simpl c_ax. simpl c_ay. simpl c_cx.
  simpl c_cy. simpl c_b. rewrite !zeros2_get, get2_grid_init by done.
  repeat split; reflexivity.
Defined.

Lemma X19_assembly_keeps_the_system_diagonally_dominant_witness :
  let q := Coeffs (zeros2 4 4) (zeros2 4 4) (zeros2 4 4) (zeros2 4 4)
             (grid_init 4 4 (λ _ _, 1)) (zeros2 4 4) in
  ∃ q1, set_sources pi_approx sin_poly 1 q ex_config_free = Some q1
    ∧ dominant_rows 4 4 q1
    ∧ dominant_rows 4 4 (apply_neumann_coeff_mods q1 4 4)
    ∧ nonzero_all (c_b (apply_neumann_coeff_mods q1 4 4)).
Proof.
  intros q.
  destruct (X19_assembly_keeps_the_system_diagonally_dominant pi_approx
              sin_poly ex_config_free 1 q 1 1 1 (zeros2 4 4))
    as (_ & H); [simpl; lia|simpl; lia|].
  destruct H as (q1 & Hq1 & _ & Hd1 & _ & Hd2 & Hn2).
  - unfold coeffs_shape, q. simpl.
    repeat (split; [first [apply zeros2_shape|apply grid_init_shape]|]).
    apply zeros2_shape.
  - exact ex_coeffs4_dominant.
  - exists q1. split; [exact Hq1|]. split; [exact Hd1|].
    split; [exact Hd2|exact Hn2].
Defined.

(** ** One time step, whatever the boundary condition *)

Lemma shape2_copy_neumann (n m : nat) (U : grid2) (nx ny : nat) :
  shape2 n m U → shape2 n m (copy_neumann_boundaries U nx ny).
Proof.
  intros HU. unfold copy_neumann_boundaries.
  do 4 apply shape2_set2.
  by apply shape2_row_update, shape2_row_update, shape2_col_update,
    shape2_col_update.
Qed.

Lemma boundary_fix_shape (cfg : config) (n m : nat) (U : grid2) :
  shape2 n m U → shape2 n m (boundary_fix cfg U).
Proof.
  intros HU. unfold boundary_fix.
  destruct (decide _); [by apply shape2_copy_neumann|].
  destruct (decide _); [by apply zero_ring_shape|done].
Qed.

Section Step.
Variables (np_pi : Qc) (np_sin : Qc → Qc) (cfg : config).
Variables (hx hy ex ey et : Qc).
Hypothesis Hnx : (2 ≤ cfg_nx cfg)%nat.
Hypothesis Hny : (2 ≤ cfg_ny cfg)%nat.
Hypothesis Hex : 0 < ex.
Hypothesis Hey : 0 < ey.
Hypothesis Het : 0 < et.

Let nx := cfg_nx cfg.
Let ny := cfg_ny cfg.
Let ax0 := grid_init nx ny (λ _ _, ex * 1).
Let ay0 := grid_init nx ny (λ _ _, ey * 1).
Let b0 := grid_init nx ny (λ _ _, ex * 1 + ex * 1 + ey * 1 + ey * 1 + et).

(** The step assembles a diagonally dominant system, [relax] solves it
    without a fault, and the corrected field becomes the new layer and the
    frame [k - 1] of the stack. *)
Lemma sim_step_spec (s : sim_state) (k : nat) :
  ∃ q1 q U,
    set_sources np_pi np_sin k
      (Coeffs ax0 ay0 ax0 ay0 b0
         (assemble_rhs nx ny (cfg_dt cfg) hx hy (sim_U0 s) (sim_U1 s))) cfg
    = Some q1
    ∧ q = (if decide (cfg_boundary_condition cfg = "neumann"%string)
           then apply_neumann_coeff_mods q1 nx ny else q1)
    ∧ coeffs_shape nx ny q ∧ dominant_rows nx ny q
    ∧ relax (c_ax q) (c_ay q) (c_cx q) (c_cy q) (c_b q) (c_d_rhs q) nx ny
        (sim_U1 s) (cfg_relax_alfa cfg) (cfg_relax_eps cfg)
        (cfg_relax_max_iter cfg) (Z.to_nat (cfg_relax_max_iter cfg))
      = Some U
    ∧ sim_step np_pi np_sin cfg hx hy ax0 ay0 ax0 ay0 b0 s k
      = Some (SimState (sim_U1 s) (boundary_fix cfg U)
                (<[(k - 1)%nat := boundary_fix cfg U]> (sim_U_stack s))).
Proof.
  set (q0 := Coeffs ax0 ay0 ax0 ay0 b0
               (assemble_rhs nx ny (cfg_dt cfg) hx hy (sim_U0 s) (sim_U1 s))).
  assert (coeffs_shape nx ny q0) as Hq0.
  { unfold coeffs_shape, q0. simpl. repeat split; apply grid_init_shape. }
  assert (dominant_rows nx ny q0) as Hd0 by (by apply dominant_base).
  destruct (dominant_set_sources np_pi np_sin cfg k q0 Hnx Hny Hq0 Hd0)
    as (q1 & Hq1 & Hs1 & Hd1).
  set (q := if decide (cfg_boundary_condition cfg = "neumann"%string)
            then apply_neumann_coeff_mods q1 nx ny else q1).
  assert (coeffs_shape nx ny q ∧ dominant_rows nx ny q) as [Hs Hd].
  { unfold q. destruct (decide _); [|done].
    split; [by apply neumann_shape|by apply dominant_neumann]. }
  destruct (relax_returns (c_ax q) (c_ay q) (c_cx q) (c_cy q) (c_b q)
              (c_d_rhs q) nx ny (sim_U1 s)
              (cfg_relax_alfa cfg) (cfg_relax_eps cfg)
              (cfg_relax_max_iter cfg) (Z.to_nat (cfg_relax_max_iter cfg)))
    as [U HU]; [by apply (dominant_nonzero nx ny)|lia|].
  exists q1, q, U. split; [done|]. split; [done|]. split; [done|].
  split; [done|]. split; [done|].
  unfold sim_step. fold nx ny. fold q0. rewrite Hq1. simpl. fold q.
  rewrite HU. simpl. done.
Qed.
End Step.

(** ** The source node in a time step *)





(** ** The whole run *)

Lemma of_int_pred_nonzero (n : nat) :
  (2 ≤ n)%nat → of_int (Z.of_nat n - 1) ≠ 0.
Proof.
  intros Hn E. apply (f_equal this) in E. unfold of_int in E. simpl in E.
  assert (inject_Z (Z.of_nat n - 1) == 0)%Q as E'.
  { rewrite <- (Qred_correct (inject_Z _)). by rewrite E. }
  unfold Qeq in E'. simpl in E'. lia.
Qed.

Lemma Qc_div_nonzero (x y : Qc) : x ≠ 0 → y ≠ 0 → x / y ≠ 0.
Proof.
  intros Hx Hy E. apply Hx. rewrite <- (Qcmult_div_r x y Hy), E. ring.
Qed.

Lemma Qc_sq_zero (x : Qc) : x = 0 → x * x = 0.
Proof. intros ->. ring. Qed.

Lemma fdiv_zero (x y : Qc) : y = 0 → fdiv x y = None.
Proof. intros ->. unfold fdiv. by rewrite decide_True. Qed.

Section Run.
Variables (np_pi : Qc) (np_sin : Qc → Qc) (cfg : config).
Hypothesis Hnx : (2 ≤ cfg_nx cfg)%nat.
Hypothesis Hny : (2 ≤ cfg_ny cfg)%nat.

Let hx := cfg_Lx cfg / of_int (Z.of_nat (cfg_nx cfg) - 1).
Let hy := cfg_Ly cfg / of_int (Z.of_nat (cfg_ny cfg) - 1).
Let ex := qc 1 2 / (hx * hx).
Let ey := qc 1 2 / (hy * hy).
Let et := 1 / (cfg_dt cfg * cfg_dt cfg).

Lemma run_simulation_faults :
  cfg_Lx cfg = 0 ∨ cfg_Ly cfg = 0 ∨ cfg_dt cfg = 0 →
  run_simulation np_pi np_sin cfg = None.
Proof.
  intros H. unfold run_simulation.
  rewrite (fdiv_nonzero (cfg_Lx cfg) _ (of_int_pred_nonzero _ Hnx)). simpl.
  rewrite (fdiv_nonzero (cfg_Ly cfg) _ (of_int_pred_nonzero _ Hny)). simpl.
  fold hx hy.
  destruct (decide (cfg_Lx cfg = 0)) as [E|HLx].
  { rewrite (fdiv_zero (qc 1 2) (hx * hx)); [done|].
    apply Qc_sq_zero. unfold hx. rewrite E. unfold Qcdiv. ring. }
  assert (hx ≠ 0) as Hhx
    by (by apply Qc_div_nonzero; [|apply of_int_pred_nonzero]).
  rewrite (fdiv_nonzero (qc 1 2) (hx * hx))
    by (by apply Qc_pos_neq, Qc_sq_pos).
  simpl.
  destruct (decide (cfg_Ly cfg = 0)) as [E|HLy].
  { rewrite (fdiv_zero (qc 1 2) (hy * hy)); [done|].
    apply Qc_sq_zero. unfold hy. rewrite E. unfold Qcdiv. ring. }
  assert (hy ≠ 0) as Hhy
    by (by apply Qc_div_nonzero; [|apply of_int_pred_nonzero]).
  rewrite (fdiv_nonzero (qc 1 2) (hy * hy))
    by (by apply Qc_pos_neq, Qc_sq_pos).
  simpl.
  destruct H as [?|[?|E]]; [done|done|].
  rewrite (fdiv_zero 1 (cfg_dt cfg * cfg_dt cfg)); [done|].
  by apply Qc_sq_zero.
Qed.

Hypothesis HLx : cfg_Lx cfg ≠ 0.
Hypothesis HLy : cfg_Ly cfg ≠ 0.
Hypothesis Hdt : cfg_dt cfg ≠ 0.

Lemma run_coeffs_pos : 0 < ex ∧ 0 < ey ∧ 0 < et.
Proof.
  assert (hx ≠ 0) as Hhx
    by (by apply Qc_div_nonzero; [|apply of_int_pred_nonzero]).
  assert (hy ≠ 0) as Hhy
    by (by apply Qc_div_nonzero; [|apply of_int_pred_nonzero]).
  assert (0 < qc 1 2) as Hhalf by reflexivity.
  assert (0 < (1 : Qc)) as Hone by reflexivity.
  split; [|split]; apply Qc_div_pos; try done; by apply Qc_sq_pos.
Qed.

Lemma run_simulation_unfold :
  run_simulation np_pi np_sin cfg
  = s ← run_loop np_pi np_sin cfg hx hy ex ey et;
    Some (SimResult (sim_U_stack s) (linspace (cfg_Lx cfg) (cfg_nx cfg))
            (linspace (cfg_Ly cfg) (cfg_ny cfg)) cfg).
Proof.
  destruct run_coeffs_pos as (Hex & Hey & Het).
  unfold run_simulation.
  rewrite (fdiv_nonzero (cfg_Lx cfg) _ (of_int_pred_nonzero _ Hnx)). simpl.
  rewrite (fdiv_nonzero (cfg_Ly cfg) _ (of_int_pred_nonzero _ Hny)). simpl.
  fold hx hy.
  assert (hx ≠ 0) as Hhx
    by (by apply Qc_div_nonzero; [|apply of_int_pred_nonzero]).
  assert (hy ≠ 0) as Hhy
    by (by apply Qc_div_nonzero; [|apply of_int_pred_nonzero]).
  rewrite (fdiv_nonzero (qc 1 2) (hx * hx))
    by (by apply Qc_pos_neq, Qc_sq_pos).
  simpl.
  rewrite (fdiv_nonzero (qc 1 2) (hy * hy))
    by (by apply Qc_pos_neq, Qc_sq_pos).
  simpl.
  rewrite (fdiv_nonzero 1 (cfg_dt cfg * cfg_dt cfg))
    by (by apply Qc_pos_neq, Qc_sq_pos).
  simpl. done.
Qed.

(** The loop returns, and any property of the state that every step
    carries over holds at the end. *)
Lemma run_loop_inv (P : sim_state → Prop) :
  (∀ s k q1 q U,
     P s →
     set_sources np_pi np_sin k
       (Coeffs (grid_init (cfg_nx cfg) (cfg_ny cfg) (λ _ _, ex * 1))
          (grid_init (cfg_nx cfg) (cfg_ny cfg) (λ _ _, ey * 1))
          (grid_init (cfg_nx cfg) (cfg_ny cfg) (λ _ _, ex * 1))
          (grid_init (cfg_nx cfg) (cfg_ny cfg) (λ _ _, ey * 1))
          (grid_init (cfg_nx cfg) (cfg_ny cfg)
             (λ _ _, ex * 1 + ex * 1 + ey * 1 + ey * 1 + et))
          (assemble_rhs (cfg_nx cfg) (cfg_ny cfg) (cfg_dt cfg) hx hy
             (sim_U0 s) (sim_U1 s))) cfg
     = Some q1 →
     q = (if decide (cfg_boundary_condition cfg = "neumann"%string)
          then apply_neumann_coeff_mods q1 (cfg_nx cfg) (cfg_ny cfg) else q1) →
     coeffs_shape (cfg_nx cfg) (cfg_ny cfg) q →
     dominant_rows (cfg_nx cfg) (cfg_ny cfg) q →
     relax (c_ax q) (c_ay q) (c_cx q) (c_cy q) (c_b q) (c_d_rhs q)
       (cfg_nx cfg) (cfg_ny cfg) (sim_U1 s) (cfg_relax_alfa cfg)
       (cfg_relax_eps cfg) (cfg_relax_max_iter cfg)
       (Z.to_nat (cfg_relax_max_iter cfg))
     = Some U →
     P (SimState (sim_U1 s) (boundary_fix cfg U)
          (<[(k - 1)%nat := boundary_fix cfg U]> (sim_U_stack s)))) →
  P (SimState (zeros2 (cfg_nx cfg) (cfg_ny cfg))
       (grid_init (cfg_nx cfg) (cfg_ny cfg) (λ i j,
          if inner (cfg_nx cfg) i && inner (cfg_ny cfg) j
          then get2 (zeros2 (cfg_nx cfg) (cfg_ny cfg)) i j
               + cfg_dt cfg * get2 (zeros2 (cfg_nx cfg) (cfg_ny cfg)) i j
          else 0))
       (replicate (cfg_max_steps cfg) (zeros2 (cfg_nx cfg) (cfg_ny cfg)))) →
  ∃ s, run_loop np_pi np_sin cfg hx hy ex ey et = Some s ∧ P s.
Proof.
  intros Hstep Hinit. destruct run_coeffs_pos as (Hex & Hey & Het).
  unfold run_loop.
  generalize (range 1 (cfg_max_steps cfg + 1)). intros idxs.
  revert Hinit. generalize (SimState (zeros2 (cfg_nx cfg) (cfg_ny cfg))
       (grid_init (cfg_nx cfg) (cfg_ny cfg) (λ i j,
          if inner (cfg_nx cfg) i && inner (cfg_ny cfg) j
          then get2 (zeros2 (cfg_nx cfg) (cfg_ny cfg)) i j
               + cfg_dt cfg * get2 (zeros2 (cfg_nx cfg) (cfg_ny cfg)) i j
          else 0))
       (replicate (cfg_max_steps cfg) (zeros2 (cfg_nx cfg) (cfg_ny cfg)))).
  induction idxs as [|k idxs IH]; intros s Hs; simpl.
  - by exists s.
  - destruct (sim_step_spec np_pi np_sin cfg hx hy ex ey et Hnx Hny Hex Hey
                Het s k) as (q1 & q & U & Hq1 & Hq & Hsh & Hd & HU & ->).
    simpl. apply IH. by eapply Hstep.
Qed.
End Run.

Lemma linspace_length (L : Qc) (n : nat) : length (linspace L n) = n.
Proof. unfold linspace. by rewrite length_fmap, length_seq. Qed.

Lemma linspace_lookup (L : Qc) (n i : nat) :
  (i < n)%nat →
  linspace L n !! i
  = Some (of_int (Z.of_nat i) * (L / of_int (Z.of_nat n - 1))).
Proof.
  intros Hi. unfold linspace. by rewrite list_lookup_fmap, lookup_seq_lt.
Qed.

Lemma of_int_0 : of_int 0 = 0.
Proof. apply Qc_is_canon. reflexivity. Qed.

Lemma linspace_first (L : Qc) (n : nat) :
  (1 ≤ n)%nat → linspace L n !! 0%nat = Some 0.
Proof.
  intros Hn. rewrite linspace_lookup by lia.
  change (Z.of_nat 0) with 0%Z. rewrite of_int_0. f_equal. ring.
Qed.

Lemma linspace_last (L : Qc) (n : nat) :
  (2 ≤ n)%nat → linspace L n !! (n - 1)%nat = Some L.
Proof.
  intros Hn. rewrite linspace_lookup by lia. f_equal.
  replace (Z.of_nat (n - 1)) with (Z.of_nat n - 1)%Z by lia.
  field. by apply of_int_pred_nonzero.
Qed.

(** With a grid of at least [2 × 2] nodes and nonzero [Lx], [Ly] and [dt]
    the run returns, under either boundary condition. *)
Lemma run_simulation_returns (np_pi : Qc) (np_sin : Qc → Qc) (cfg : config) :
  (2 ≤ cfg_nx cfg)%nat → (2 ≤ cfg_ny cfg)%nat →
  cfg_Lx cfg ≠ 0 → cfg_Ly cfg ≠ 0 → cfg_dt cfg ≠ 0 →
  ∃ r, run_simulation np_pi np_sin cfg = Some r
    ∧ length (res_U_stack r) = cfg_max_steps cfg
    ∧ Forall (shape2 (cfg_nx cfg) (cfg_ny cfg)) (res_U_stack r)
    ∧ res_x r = linspace (cfg_Lx cfg) (cfg_nx cfg)
    ∧ res_y r = linspace (cfg_Ly cfg) (cfg_ny cfg)
    ∧ res_config r = cfg.
Proof.
  intros Hnx Hny HLx HLy Hdt.
  rewrite (run_simulation_unfold np_pi np_sin cfg Hnx Hny HLx HLy Hdt).
  destruct (run_loop_inv np_pi np_sin cfg Hnx Hny HLx HLy Hdt
              (λ s, shape2 (cfg_nx cfg) (cfg_ny cfg) (sim_U1 s)
                    ∧ length (sim_U_stack s) = cfg_max_steps cfg
                    ∧ Forall (shape2 (cfg_nx cfg) (cfg_ny cfg))
                        (sim_U_stack s)))
    as (s & -> & _ & Hlen & Hall).
  - intros s k q1 q U (Hs1 & Hlen & Hall) _ _ _ _ HU. simpl.
    pose proof (relax_shape _ _ _ _ _ _ _ _ _ _ _ _ _ _ _ _ Hs1 HU) as HsU.
    split; [by apply boundary_fix_shape|].
    split; [by rewrite length_insert|].
    apply Forall_insert; [done|]. by apply boundary_fix_shape.
  - simpl. split; [apply grid_init_shape|].
    split; [by rewrite length_replicate|].
    apply replicate_Forall, zeros2_shape.
  - simpl. eexists. split; [done|]. simpl. done.
Qed.

Lemma run_simulation_Some_inv (np_pi : Qc) (np_sin : Qc → Qc) (cfg : config)
    (r : sim_result) :
  (2 ≤ cfg_nx cfg)%nat → (2 ≤ cfg_ny cfg)%nat →
  run_simulation np_pi np_sin cfg = Some r →
  cfg_Lx cfg ≠ 0 ∧ cfg_Ly cfg ≠ 0 ∧ cfg_dt cfg ≠ 0.
Proof.
  intros Hnx Hny Hr.
  destruct (decide (cfg_Lx cfg = 0)) as [E|HLx].
  { rewrite run_simulation_faults in Hr by auto. done. }
  destruct (decide (cfg_Ly cfg = 0)) as [E|HLy].
  { rewrite run_simulation_faults in Hr by auto. done. }
  destruct (decide (cfg_dt cfg = 0)) as [E|Hdt].
  { rewrite run_simulation_faults in Hr by auto. done. }
  done.
Qed.

(** X12. On a grid of at least [2 × 2] nodes, whatever the experiment type
    and the boundary condition, [run_simulation] returns if and only if
    [Lx], [Ly] and [dt] are nonzero (a zero there is a division by zero in
    the set-up): no system handed to [relax] has a zero on its diagonal.
    When it returns, the history holds [max_steps] frames of shape
    [nx × ny], [x] and [y] have [nx] and [ny] points running from [0] to
    [Lx] and to [Ly], and the configuration is handed back. *)
Theorem X12_run_simulation_returns_iff_steps_are_nonzero
    (np_pi : Qc) (np_sin : Qc → Qc) (cfg : config) :
  (2 ≤ cfg_nx cfg)%nat → (2 ≤ cfg_ny cfg)%nat →
  (is_Some (run_simulation np_pi np_sin cfg)
   ↔ cfg_Lx cfg ≠ 0 ∧ cfg_Ly cfg ≠ 0 ∧ cfg_dt cfg ≠ 0)
  ∧ ∀ r, run_simulation np_pi np_sin cfg = Some r →
      length (res_U_stack r) = cfg_max_steps cfg
      ∧ Forall (shape2 (cfg_nx cfg) (cfg_ny cfg)) (res_U_stack r)
      ∧ length (res_x r) = cfg_nx cfg ∧ length (res_y r) = cfg_ny cfg
      ∧ res_x r !! 0%nat = Some 0
      ∧ res_x r !! (cfg_nx cfg - 1)%nat = Some (cfg_Lx cfg)
      ∧ res_y r !! 0%nat = Some 0
      ∧ res_y r !! (cfg_ny cfg - 1)%nat = Some (cfg_Ly cfg)
      ∧ res_config r = cfg.
Proof.
  intros Hnx Hny. split.
  - split.
    + intros [r Hr]. by apply (run_simulation_Some_inv np_pi np_sin cfg r).
    + intros (HLx & HLy & Hdt).
      destruct (run_simulation_returns np_pi np_sin cfg Hnx Hny HLx HLy Hdt)
        as (r & -> & _). done.
  - intros r Hr.
    destruct (run_simulation_Some_inv np_pi np_sin cfg r Hnx Hny Hr)
      as (HLx & HLy & Hdt).
    destruct (run_simulation_returns np_pi np_sin cfg Hnx Hny HLx HLy Hdt)
      as (r' & Hr' & Hlen & Hall & Ex & Ey & Ec).
    rewrite Hr in Hr'. injection Hr' as <-.
    split; [done|]. split; [done|]. rewrite Ex, Ey.
    split; [apply linspace_length|]. split; [apply linspace_length|].
    split; [apply linspace_first; lia|].
    split; [by apply linspace_last|].
    split; [apply linspace_first; lia|].
    split; [by apply linspace_last|]. done.
Qed.

Lemma X12_run_simulation_returns_iff_steps_are_nonzero_witness :
  (is_Some (run_simulation pi_approx sin_poly ex_config_free)
   ↔ cfg_Lx ex_config_free ≠ 0 ∧ cfg_Ly ex_config_free ≠ 0
     ∧ cfg_dt ex_config_free ≠ 0)
  ∧ is_Some (run_simulation pi_approx sin_poly ex_config_free).
Proof.
  destruct (X12_run_simulation_returns_iff_steps_are_nonzero pi_approx sin_poly
              ex_config_free) as [Hiff _]; [simpl; lia|simpl; lia|].
  split; [exact Hiff|]. apply Hiff.
  split; [qc_neq|]. split; qc_neq.
Defined.

(** ** Free edges: every frame mirrors its first interior line *)

Lemma zeros2_mirror (nx ny : nat) : mirror_ring nx ny (zeros2 nx ny).
Proof. intros i j _ _. by rewrite !zeros2_get. Qed.

(** X13. Under the Neumann condition, on a grid of at least [3 × 3]
    nodes, every frame of the history returned by [run_simulation] has at
    each ring node the value of the nearest interior node. *)
Theorem X13_neumann_frames_mirror_the_interior
    (np_pi : Qc) (np_sin : Qc → Qc) (cfg : config) (r : sim_result)
    (U : grid2) (i j : nat) :
  cfg_boundary_condition cfg = "neumann"%string →
  (3 ≤ cfg_nx cfg)%nat → (3 ≤ cfg_ny cfg)%nat →
  run_simulation np_pi np_sin cfg = Some r →
  U ∈ res_U_stack r →
  (i < cfg_nx cfg)%nat → (j < cfg_ny cfg)%nat →
  get2 U i j
  = get2 U (nearest_inner (cfg_nx cfg) i) (nearest_inner (cfg_ny cfg) j).
Proof.
  intros Hbc Hnx Hny Hrun HU Hi Hj.
  assert (2 ≤ cfg_nx cfg)%nat as Hnx2 by lia.
  assert (2 ≤ cfg_ny cfg)%nat as Hny2 by lia.
  destruct (run_simulation_Some_inv np_pi np_sin cfg r Hnx2 Hny2 Hrun)
    as (HLx & HLy & Hdt).
  rewrite (run_simulation_unfold np_pi np_sin cfg Hnx2 Hny2 HLx HLy Hdt)
    in Hrun.
  destruct (run_loop_inv np_pi np_sin cfg Hnx2 Hny2 HLx HLy Hdt
              (λ s, shape2 (cfg_nx cfg) (cfg_ny cfg) (sim_U1 s)
                    ∧ Forall (mirror_ring (cfg_nx cfg) (cfg_ny cfg))
                        (sim_U_stack s)))
    as (s & Hs & _ & Hall).
  - intros s k q1 q V (Hs1 & Hall) _ _ _ _ HV. simpl.
    pose proof (relax_shape _ _ _ _ _ _ _ _ _ _ _ _ _ _ _ _ Hs1 HV) as HsV.
    split; [by apply boundary_fix_shape|].
    apply Forall_insert; [done|]. unfold boundary_fix.
    rewrite decide_True by done. by apply copy_neumann_mirror.
  - simpl. split; [apply grid_init_shape|].
    apply replicate_Forall, zeros2_mirror.
  - rewrite Hs in Hrun. simpl in Hrun. injection Hrun as <-. simpl in HU.
    rewrite Forall_forall in Hall. by apply (Hall U HU).
Qed.

Lemma X13_neumann_frames_mirror_the_interior_witness :
  ∃ r U, run_simulation pi_approx sin_poly ex_config_free = Some r
    ∧ U ∈ res_U_stack r
    ∧ get2 U 1 2 ≠ 0
    ∧ get2 U 0 3 = get2 U 1 2 ∧ get2 U 3 1 = get2 U 2 1.
Proof.
  set (r' := default (SimResult [] [] [] ex_config_free)
               (run_simulation pi_approx sin_poly ex_config_free)).
  set (U := default [] (res_U_stack r' !! 0%nat)).
  assert (run_simulation pi_approx sin_poly ex_config_free = Some r') as Hr
    by (vm_compute; reflexivity).
  assert (res_U_stack r' !! 0%nat = Some U) as HU by (vm_compute; reflexivity).
  assert (get2 U 1 2 < 0) as Hneg by (vm_compute; reflexivity).
  clearbody U r'.
  pose proof (list_elem_of_lookup_2 _ _ _ HU) as Hin.
  exists r', U. split; [exact Hr|]. split; [exact Hin|].
  split.
  { intros E. rewrite E in Hneg. exact (Qclt_not_eq _ _ Hneg eq_refl). }
  split.
  - apply (X13_neumann_frames_mirror_the_interior pi_approx sin_poly
             ex_config_free r' U 0 3 eq_refl); [simpl; lia|simpl; lia|exact Hr
             |exact Hin|simpl; lia|simpl; lia].
  - apply (X13_neumann_frames_mirror_the_interior pi_approx sin_poly
             ex_config_free r' U 3 1 eq_refl); [simpl; lia|simpl; lia|exact Hr
             |exact Hin|simpl; lia|simpl; lia].
Defined.

(** ** No source, no motion *)

Lemma set_source_row_d_rhs (n m : nat) (q q' : coeffs) (i j : nat) (v : Qc) :
  coeffs_shape n m q → (i < n)%nat → (j < m)%nat →
  set_source_row q i j v = Some q' →
  coeffs_shape n m q'
  ∧ ∀ i' j', get2 (c_d_rhs q') i' j' = v
             ∨ get2 (c_d_rhs q') i' j' = get2 (c_d_rhs q) i' j'.
Proof.
  intros Hq Hi Hj Hset.
  destruct (set_source_row_Some n m q i j v Hq Hi Hj)
    as (q1 & Hq1 & Hs & Hr & Hf).
  rewrite Hq1 in Hset. injection Hset as <-. split; [done|].
  intros i' j'. destruct (decide ((i', j') = (i, j))) as [E|Hne].
  - injection E as -> ->. left. apply Hr.
  - right. apply (Hf i' j' Hne).
Qed.

Lemma set_sources_d_rhs np_pi np_sin (cfg : config) (k : nat)
    (q q' : coeffs) :
  (2 ≤ cfg_nx cfg)%nat → (2 ≤ cfg_ny cfg)%nat →
  coeffs_shape (cfg_nx cfg) (cfg_ny cfg) q →
  set_sources np_pi np_sin k q cfg = Some q' →
  ∀ i j, get2 (c_d_rhs q') i j = source_value np_pi np_sin k cfg
         ∨ get2 (c_d_rhs q') i j = get2 (c_d_rhs q) i j.
Proof.
  intros Hnx Hny Hq. unfold set_sources.
  pose proof (Nat.Div0.div_lt_upper_bound (cfg_nx cfg) 2 (cfg_nx cfg)) as Hdx.
  pose proof (Nat.Div0.div_lt_upper_bound (cfg_ny cfg) 2 (cfg_ny cfg)) as Hdy.
  destruct (decide _) as [_|_].
  - intros Hset.
    destruct (set_source_row_d_rhs _ _ q q' (cfg_nx cfg `div` 2)
                (cfg_ny cfg `div` 2) (source_value np_pi np_sin k cfg) Hq)
      as [_ H]; [lia|lia|done|done].
  - destruct (decide _) as [_|_]; [|intros [= <-]; by right].
    destruct (set_source_row _ _ _ _) as [q1|] eqn:Hq1; simpl; [|done].
    intros Hq2.
    destruct (set_source_row_d_rhs _ _ q q1 1 (cfg_ny cfg `div` 2)
                (source_value np_pi np_sin k cfg) Hq) as [Hs1 H1];
      [lia|lia|done|].
    destruct (set_source_row_d_rhs _ _ q1 q' (cfg_nx cfg - 2)
                (cfg_ny cfg `div` 2) (source_value np_pi np_sin k cfg) Hs1)
      as [_ H2]; [lia|lia|done|].
    intros i j. destruct (H2 i j) as [E|E]; [by left|].
    rewrite E. apply H1.
Qed.

Lemma assemble_rhs_zeros (nx ny : nat) (dt hx hy : Qc) (i j : nat) :
  get2 (assemble_rhs nx ny dt hx hy (zeros2 nx ny) (zeros2 nx ny)) i j = 0.
Proof.
  destruct (decide (i < nx ∧ j < ny)%nat) as [[Hi Hj]|Hout].
  2: { apply (get2_oob nx ny); [apply grid_init_shape|done]. }
  unfold assemble_rhs. rewrite get2_grid_init by done.
  destruct (inner nx i && inner ny j); [|done].
  rewrite !zeros2_get. unfold Qcdiv. ring.
Qed.

Lemma zero_ring_get (n m : nat) (U : grid2) (i j : nat) :
  shape2 n m U → (i < n)%nat → (j < m)%nat →
  get2 (zero_ring U) i j = 0 ∨ get2 (zero_ring U) i j = get2 U i j.
Proof.
  intros HU Hi Hj.
  pose proof (shape2_row_update n m (λ _ _, 0) 0 U HU) as H1.
  pose proof (shape2_row_update n m (λ _ _, 0) (n - 1) _ H1) as H2.
  pose proof (shape2_col_update n m (λ _ _, 0) 0 _ H2) as H3.
  unfold zero_ring. rewrite (proj1 H1).
  rewrite (get2_last_col _ i j m (proj2 H3)) by (by eapply shape2_inb).
  destruct (decide (j = (m - 1)%nat)) as [|Hjm]; [by left|].
  rewrite get2_col_update by (by eapply shape2_inb).
  destruct (decide (j = 0%nat)) as [|Hj0]; [by left|].
  rewrite get2_row_update by (by eapply shape2_inb).
  destruct (decide (i = (n - 1)%nat)) as [|Hin]; [by left|].
  rewrite get2_row_update by (by eapply shape2_inb).
  destruct (decide (i = 0%nat)) as [|Hi0]; [by left|by right].
Qed.

Lemma boundary_fix_zeros (cfg : config) :
  (3 ≤ cfg_nx cfg)%nat → (3 ≤ cfg_ny cfg)%nat →
  boundary_fix cfg (zeros2 (cfg_nx cfg) (cfg_ny cfg))
  = zeros2 (cfg_nx cfg) (cfg_ny cfg).
Proof.
  intros Hnx Hny.
  apply (grid2_ext (cfg_nx cfg) (cfg_ny cfg));
    [apply boundary_fix_shape, zeros2_shape|apply zeros2_shape|].
  intros i j Hi Hj. rewrite zeros2_get. unfold boundary_fix.
  destruct (decide _).
  - rewrite copy_neumann_get by (done || apply zeros2_shape).
    apply zeros2_get.
  - destruct (decide _); [|apply zeros2_get].
    destruct (zero_ring_get _ _ _ i j (zeros2_shape _ _) Hi Hj) as [E|E];
      [done|]. rewrite E. apply zeros2_get.
Qed.

(** X14. With [amplitude = 0], on a grid of at least [3 × 3] nodes, every
    frame of the history returned by [run_simulation] is the zero field,
    under either boundary condition and for every experiment type: a
    membrane at rest stays at rest. *)
Theorem X14_zero_amplitude_leaves_the_membrane_at_rest
    (np_pi : Qc) (np_sin : Qc → Qc) (cfg : config) (r : sim_result)
    (U : grid2) :
  cfg_amplitude cfg = 0 →
  (3 ≤ cfg_nx cfg)%nat → (3 ≤ cfg_ny cfg)%nat →
  run_simulation np_pi np_sin cfg = Some r →
  U ∈ res_U_stack r →
  U = zeros2 (cfg_nx cfg) (cfg_ny cfg).
Proof.
  intros Hamp Hnx Hny Hrun HU.
  assert (2 ≤ cfg_nx cfg)%nat as Hnx2 by lia.
  assert (2 ≤ cfg_ny cfg)%nat as Hny2 by lia.
  destruct (run_simulation_Some_inv np_pi np_sin cfg r Hnx2 Hny2 Hrun)
    as (HLx & HLy & Hdt).
  rewrite (run_simulation_unfold np_pi np_sin cfg Hnx2 Hny2 HLx HLy Hdt)
    in Hrun.
  set (Z0 := zeros2 (cfg_nx cfg) (cfg_ny cfg)) in *.
  destruct (run_loop_inv np_pi np_sin cfg Hnx2 Hny2 HLx HLy Hdt
              (λ s, sim_U0 s = Z0 ∧ sim_U1 s = Z0
                    ∧ Forall (λ V, V = Z0) (sim_U_stack s)))
    as (s & Hs & _ & _ & Hall).
  - intros s k q1 q V (E0 & E1 & Hall) Hq1 Hq Hsh Hdom HV. simpl.
    rewrite E0, E1 in Hq1. rewrite E1 in HV.
    assert (V = Z0) as ->.
    { assert (∀ i j, get2 (c_d_rhs q) i j = 0) as Hd.
      { intros i j.
        assert (c_d_rhs q = c_d_rhs q1) as ->.
        { rewrite Hq. destruct (decide _); [apply neumann_d_rhs|done]. }
        match type of Hq1 with
        | set_sources _ _ _ ?q0 _ = _ =>
            assert (coeffs_shape (cfg_nx cfg) (cfg_ny cfg) q0) as Hq0
              by (unfold coeffs_shape; simpl;
                  repeat (split; [apply grid_init_shape|]);
                  apply grid_init_shape)
        end.
        destruct (set_sources_d_rhs np_pi np_sin cfg k _ q1 Hnx2 Hny2 Hq0
                    Hq1 i j) as [E|E]; rewrite E.
        - unfold source_value. rewrite Hamp. ring.
        - simpl. apply assemble_rhs_zeros. }
      rewrite relax_solved in HV.
      - by injection HV as <-.
      - apply Hsh.
      - apply nonzero_all_interior; [apply Hsh|].
        by apply (dominant_nonzero (cfg_nx cfg) (cfg_ny cfg)).
      - intros i j _ _. unfold Z0. rewrite !zeros2_get, Hd. ring.
      - lia. }
    rewrite boundary_fix_zeros by done.
    split; [done|]. split; [done|]. by apply Forall_insert.
  - simpl. split; [done|]. split.
    + apply (grid2_ext (cfg_nx cfg) (cfg_ny cfg));
        [apply grid_init_shape|apply zeros2_shape|].
      intros i j Hi Hj. rewrite get2_grid_init by done.
      unfold Z0. rewrite !zeros2_get. destruct (_ && _); ring.
    + by apply replicate_Forall.
  - rewrite Hs in Hrun. simpl in Hrun. injection Hrun as <-. simpl in HU.
    rewrite Forall_forall in Hall. by apply (Hall U HU).
Qed.

Lemma X14_zero_amplitude_leaves_the_membrane_at_rest_witness :
  ∃ r, run_simulation pi_approx sin_poly ex_config_still = Some r
    ∧ res_U_stack r !! 1%nat = Some (zeros2 4 4).
Proof.
  set (r' := default (SimResult [] [] [] ex_config_still)
               (run_simulation pi_approx sin_poly ex_config_still)).
  set (U := default [] (res_U_stack r' !! 1%nat)).
  assert (run_simulation pi_approx sin_poly ex_config_still = Some r') as Hr
    by (vm_compute; reflexivity).
  assert (res_U_stack r' !! 1%nat = Some U) as HU by (vm_compute; reflexivity).
  clearbody U r'.
  pose proof (list_elem_of_lookup_2 _ _ _ HU) as Hin.
  exists r'. split; [exact Hr|]. rewrite HU. f_equal.
  apply (X14_zero_amplitude_leaves_the_membrane_at_rest pi_approx sin_poly
           ex_config_still r' U eq_refl); [simpl; lia|simpl; lia|exact Hr
           |exact Hin].
Defined.

(** ** Configurations *)

Lemma get_config_Some (t : string) (cfg : config) :
  get_config t = Some cfg →
  t ∈ experiment_choices
  ∧ cfg_experiment_type cfg = t
  ∧ cfg_boundary_condition cfg
    = (if decide (t = "CLAMPED_CENTER"%string) then "dirichlet"
       else "neumann")%string
  ∧ cfg_nx cfg = 101%nat ∧ cfg_ny cfg = 101%nat
  ∧ cfg_Lx cfg = 1 ∧ cfg_Ly cfg = 1 ∧ cfg_dt cfg = qc 1 100
  ∧ cfg_max_steps cfg = 500%nat
  ∧ cfg_light_k cfg = 2%Z ∧ cfg_ds cfg = 4%Z.
Proof.
  unfold get_config, experiment_choices.
  destruct (decide _) as [[->| ->]|Hfree].
  - intros [= <-]. simpl. split; [set_solver|]. done.
  - intros [= <-]. simpl. split; [set_solver|]. done.
  - destruct (decide _) as [->|Hcl]; [|done].
    intros [= <-]. simpl. split; [set_solver|]. done.
Qed.

Lemma get_config_choices (t : string) :
  t ∈ experiment_choices → is_Some (get_config t).
Proof.
  unfold experiment_choices. intros Ht.
  apply elem_of_cons in Ht as [->|Ht]; [by eexists|].
  apply elem_of_cons in Ht as [->|Ht]; [by eexists|].
  apply elem_of_cons in Ht as [->|Ht]; [by eexists|].
  by apply elem_of_nil in Ht.
Qed.

(** X15. [get_config] returns a configuration exactly for the experiment
    types the command line of [main] accepts, and raises for every other
    string.  The configuration records the type it was asked for; its
    boundary condition is ['dirichlet'] exactly for ['CLAMPED_CENTER'] and
    ['neumann'] exactly for the two free-edge types. *)
Theorem X15_get_config_accepts_exactly_the_cli_choices (t : string) :
  (is_Some (get_config t) ↔ t ∈ experiment_choices)
  ∧ ∀ cfg, get_config t = Some cfg →
      cfg_experiment_type cfg = t
      ∧ (cfg_boundary_condition cfg = "dirichlet"%string
         ↔ t = "CLAMPED_CENTER"%string)
      ∧ (cfg_boundary_condition cfg = "neumann"%string
         ↔ t = "FREE_CENTER"%string ∨ t = "FREE_TWO_GENERATORS"%string).
Proof.
  split.
  - split; [|apply get_config_choices].
    intros [cfg Hcfg]. by destruct (get_config_Some t cfg Hcfg) as (Ht & _).
  - intros cfg Hcfg.
    destruct (get_config_Some t cfg Hcfg) as (Ht & Et & Ebc & _).
    split; [done|]. rewrite Ebc. unfold experiment_choices in Ht.
    destruct (decide (t = "CLAMPED_CENTER"%string)) as [->|Hne].
    + split; [done|]. split; [done|]. by intros [?|?].
    + split; [done|]. split; [|done]. intros _.
      apply elem_of_cons in Ht as [->|Ht]; [by left|].
      apply elem_of_cons in Ht as [->|Ht]; [done|].
      apply elem_of_cons in Ht as [->|Ht]; [by right|].
      by apply elem_of_nil in Ht.
Qed.

(** ** Slices with a step *)

Lemma omap_all_Some {A B : Type} (f : A → option B) (l : list A) (i : nat) :
  (∀ x, x ∈ l → is_Some (f x)) → omap f l !! i = l !! i ≫= f.
Proof.
  revert i. induction l as [|x l IH]; intros i Hall; [done|].
  simpl. destruct (Hall x) as [y Hy]; [by left|]. rewrite Hy.
  destruct i as [|i]; simpl; [done|].
  apply IH. intros z Hz. apply Hall. by right.
Qed.

Lemma omap_all_None {A B : Type} (f : A → option B) (l : list A) :
  (∀ x, x ∈ l → f x = None) → omap f l = [].
Proof.
  induction l as [|x l IH]; intros Hall; [done|].
  simpl. rewrite (Hall x) by left. apply IH. intros z Hz. apply Hall. by right.
Qed.

(** The number of multiples of [k] below [n]. *)
Lemma div_up_lt (n k i : nat) :
  (1 ≤ k)%nat → (i < (n + k - 1) `div` k)%nat ↔ (i * k < n)%nat.
Proof.
  intros Hk. pose proof (Nat.div_mod_eq (n + k - 1) k) as E.
  pose proof (Nat.mod_upper_bound (n + k - 1) k ltac:(lia)) as Hm.
  split; intros H; nia.
Qed.

Lemma div_up_le (n k : nat) : (1 ≤ k)%nat → ((n + k - 1) `div` k ≤ n)%nat.
Proof.
  intros Hk. pose proof (Nat.div_mod_eq (n + k - 1) k) as E.
  pose proof (Nat.mod_upper_bound (n + k - 1) k ltac:(lia)) as Hm. nia.
Qed.

Lemma stride_lookup {A : Type} (k : nat) (l : list A) (i : nat) :
  (1 ≤ k)%nat → stride k l !! i = l !! (i * k)%nat.
Proof.
  intros Hk. unfold stride.
  set (n := length l). set (c := ((n + k - 1) `div` k)%nat).
  pose proof (div_up_le n k Hk) as Hc. fold c in Hc.
  replace n with (c + (n - c))%nat at 1 by lia.
  rewrite seq_app, omap_app.
  rewrite (omap_all_None _ (seq (0 + c) (n - c))).
  2: { intros j Hj. apply elem_of_seq in Hj. apply lookup_ge_None. fold n.
       assert (¬ (j < c)%nat) as Hnc by lia. unfold c in Hnc.
       rewrite div_up_lt in Hnc by done. lia. }
  rewrite app_nil_r, omap_all_Some.
  2: { intros j Hj. apply elem_of_seq in Hj. apply lookup_lt_is_Some. fold n.
       apply div_up_lt; [done|]. fold c. lia. }
  destruct (decide (i < c)%nat) as [Hi|Hi].
  - by rewrite lookup_seq_lt.
  - rewrite lookup_seq_ge by lia. simpl. symmetry. apply lookup_ge_None.
    fold n. unfold c in Hi. rewrite div_up_lt in Hi by done. lia.
Qed.

Lemma stride_length {A : Type} (k : nat) (l : list A) :
  (1 ≤ k)%nat → length (stride k l) = ((length l + k - 1) `div` k)%nat.
Proof.
  intros Hk. set (c := ((length l + k - 1) `div` k)%nat).
  destruct (decide (length (stride k l) < c)%nat) as [H1|H1].
  - exfalso.
    assert (is_Some (stride k l !! length (stride k l))) as [x Hx].
    { rewrite stride_lookup by done. apply lookup_lt_is_Some.
      by apply div_up_lt. }
    apply lookup_lt_Some in Hx. lia.
  - destruct (decide (c < length (stride k l))%nat) as [H2|H2]; [|lia].
    exfalso. destruct (lookup_lt_is_Some_2 (stride k l) c H2) as [x Hx].
    rewrite stride_lookup in Hx by done. apply lookup_lt_Some in Hx.
    apply div_up_lt in Hx; [|done]. fold c in Hx. lia.
Qed.

Lemma slice_step_pos {A : Type} (k : Z) (l : list A) :
  (1 ≤ k)%Z → slice_step k l = Some (stride (Z.to_nat k) l).
Proof.
  intros Hk. unfold slice_step.
  rewrite decide_False by lia. by rewrite decide_True by lia.
Qed.

(** ** Limits of the colour scale *)

Lemma foldl_min_le (l : list Qc) (x : Qc) :
  let m := foldl (λ m y, if gtb m y then y else m) x l in
  m <= x ∧ ∀ y, y ∈ l → m <= y.
Proof.
  revert x. induction l as [|z l IH]; intros x; simpl.
  - split; [apply Qcle_refl|]. intros y Hy. by apply elem_of_nil in Hy.
  - destruct (gtb x z) eqn:Hg.
    + destruct (IH z) as [H1 H2]. apply gtb_true in Hg.
      split; [eapply Qcle_trans; [exact H1|by apply Qclt_le_weak]|].
      intros y Hy. apply elem_of_cons in Hy as [->|Hy]; [done|by apply H2].
    + destruct (IH x) as [H1 H2]. apply gtb_false in Hg.
      split; [done|].
      intros y Hy. apply elem_of_cons in Hy as [->|Hy]; [|by apply H2].
      by eapply Qcle_trans.
Qed.

Lemma foldl_max_ge (l : list Qc) (x : Qc) :
  let m := foldl (λ m y, if gtb y m then y else m) x l in
  x <= m ∧ ∀ y, y ∈ l → y <= m.
Proof.
  revert x. induction l as [|z l IH]; intros x; simpl.
  - split; [apply Qcle_refl|]. intros y Hy. by apply elem_of_nil in Hy.
  - destruct (gtb z x) eqn:Hg.
    + destruct (IH z) as [H1 H2]. apply gtb_true in Hg.
      split; [eapply Qcle_trans; [by apply Qclt_le_weak|exact H1]|].
      intros y Hy. apply elem_of_cons in Hy as [->|Hy]; [done|by apply H2].
    + destruct (IH x) as [H1 H2]. apply gtb_false in Hg.
      split; [done|].
      intros y Hy. apply elem_of_cons in Hy as [->|Hy]; [|by apply H2].
      by eapply Qcle_trans.
Qed.

Lemma np_min_le (l : list Qc) (m : Qc) :
  np_min l = Some m → ∀ y, y ∈ l → m <= y.
Proof.
  destruct l as [|x l]; [done|]. simpl. intros [= <-] y Hy.
  destruct (foldl_min_le l x) as [H1 H2].
  apply elem_of_cons in Hy as [->|Hy]; [done|by apply H2].
Qed.

Lemma np_max_ge (l : list Qc) (m : Qc) :
  np_max l = Some m → ∀ y, y ∈ l → y <= m.
Proof.
  destruct l as [|x l]; [done|]. simpl. intros [= <-] y Hy.
  destruct (foldl_max_ge l x) as [H1 H2].
  apply elem_of_cons in Hy as [->|Hy]; [done|by apply H2].
Qed.

Lemma np_min_is_Some (l : list Qc) : l ≠ [] → is_Some (np_min l).
Proof. destruct l; [done|]. by eexists. Qed.

Lemma np_max_is_Some (l : list Qc) : l ≠ [] → is_Some (np_max l).
Proof. destruct l; [done|]. by eexists. Qed.

Lemma get2_entries (frames : list grid2) (F : grid2) (n m i j : nat) :
  F ∈ frames → shape2 n m F → (i < n)%nat → (j < m)%nat →
  get2 F i j ∈ entries frames.
Proof.
  intros HF [Hn Hm] Hi Hj. rewrite Forall_lookup in Hm.
  destruct (lookup_lt_is_Some_2 F i) as [r Hr]; [lia|].
  destruct (lookup_lt_is_Some_2 r j) as [x Hx]; [rewrite (Hm i r Hr); lia|].
  rewrite (get2_lookup2 F i j r x Hr Hx).
  unfold entries. apply list_elem_of_join. exists r.
  split; [by eapply list_elem_of_lookup_2|].
  apply list_elem_of_join. exists F. split; [by eapply list_elem_of_lookup_2|done].
Qed.

(** ** Transposition *)

Lemma transpose2_shape (n m : nat) (U : grid2) :
  (1 ≤ n)%nat → shape2 n m U → shape2 m n (transpose2 U).
Proof.
  intros Hn [Hl Hm]. unfold transpose2.
  destruct U as [|r U]; [simpl in Hl; lia|]. simpl.
  apply Forall_cons in Hm as [Hr _]. rewrite Hr.
  simpl in Hl. rewrite Hl. apply grid_init_shape.
Qed.

Lemma transpose2_get (n m : nat) (U : grid2) (i j : nat) :
  shape2 n m U → (i < n)%nat → (j < m)%nat →
  get2 (transpose2 U) j i = get2 U i j.
Proof.
  intros [Hl Hm] Hi Hj. unfold transpose2.
  destruct U as [|r U]; [simpl in Hl; lia|].
  apply Forall_cons in Hm as [Hr _]. simpl head. simpl default.
  rewrite Hr, Hl. by rewrite get2_grid_init.
Qed.

(** ** The frames of the flat animation *)

Lemma entries_nonempty (frames : list grid2) (F : grid2) (n m : nat) :
  F ∈ frames → shape2 n m F → (1 ≤ n)%nat → (1 ≤ m)%nat →
  entries frames ≠ [].
Proof.
  intros HF HsF Hn Hm E.
  pose proof (get2_entries frames F n m 0 0 HF HsF ltac:(lia) ltac:(lia)) as H.
  rewrite E in H. by apply elem_of_nil in H.
Qed.

Lemma create_2d_animation_zero_step (r : sim_result) :
  create_2d_animation r 0 = None.
Proof. done. Qed.

Lemma stride_nil {A : Type} (k : nat) : stride k ([] : list A) = [].
Proof. done. Qed.

Lemma create_2d_animation_no_frame (r : sim_result) (light_k : Z) :
  res_U_stack r = [] → create_2d_animation r light_k = None.
Proof.
  intros E. unfold create_2d_animation, slice_step. rewrite E.
  destruct (decide _); [done|]. destruct (decide _); done.
Qed.

(** With a positive step and at least one frame the function returns: it
    draws the frames [0], [light_k], [2 light_k], ... of the history, each
    transposed, between limits that bound every value drawn. *)
Lemma create_2d_animation_frames
    (r : sim_result) (light_k : Z) (nx ny : nat) :
  (1 ≤ light_k)%Z → (1 ≤ nx)%nat → (1 ≤ ny)%nat →
  res_U_stack r ≠ [] → Forall (shape2 nx ny) (res_U_stack r) →
  ∃ a, create_2d_animation r light_k = Some a
    ∧ a2_count a = length (a2_frames a)
    ∧ a2_count a
      = ((length (res_U_stack r) + Z.to_nat light_k - 1)
         `div` Z.to_nat light_k)%nat
    ∧ (∀ t, a2_label a t = (Z.of_nat t * light_k)%Z)
    ∧ ∀ t, (t < a2_count a)%nat →
        ∃ F U, a2_frames a !! t = Some F
          ∧ res_U_stack r !! (t * Z.to_nat light_k)%nat = Some U
          ∧ shape2 ny nx F
          ∧ ∀ i j, (i < nx)%nat → (j < ny)%nat →
              get2 F j i = get2 U i j
              ∧ a2_vmin a <= get2 F j i ∧ get2 F j i <= a2_vmax a.
Proof.
  intros Hk Hnx Hny Hne Hall.
  set (k := Z.to_nat light_k). assert (1 ≤ k)%nat as Hk1 by lia.
  set (frames := transpose2 <$> stride k (res_U_stack r)).
  assert (∀ t F, frames !! t = Some F →
            ∃ U, res_U_stack r !! (t * k)%nat = Some U ∧ F = transpose2 U
                 ∧ shape2 nx ny U ∧ shape2 ny nx F) as Hframe.
  { intros t F HF. unfold frames in HF. rewrite list_lookup_fmap in HF.
    destruct (stride k (res_U_stack r) !! t) as [U|] eqn:HU; [|done].
    injection HF as <-. rewrite stride_lookup in HU by done.
    rewrite Forall_lookup in Hall. pose proof (Hall _ _ HU) as HsU.
    exists U. split; [done|]. split; [done|]. split; [done|].
    by apply (transpose2_shape nx ny). }
  assert (length frames
          = ((length (res_U_stack r) + k - 1) `div` k)%nat) as Hlen.
  { unfold frames. by rewrite length_fmap, stride_length. }
  assert (entries frames ≠ []) as Hent.
  { destruct (res_U_stack r) as [|U0 st] eqn:Est; [done|].
    destruct (lookup_lt_is_Some_2 frames 0) as [F HF].
    { rewrite Hlen. apply div_up_lt; [done|]. simpl. lia. }
    destruct (Hframe 0%nat F HF) as (U & _ & _ & _ & HsF).
    apply (entries_nonempty frames F ny nx); [|done..].
    by eapply list_elem_of_lookup_2. }
  destruct (np_min_is_Some _ Hent) as [vmin Hmin].
  destruct (np_max_is_Some _ Hent) as [vmax Hmax].
  eexists. split.
  { unfold create_2d_animation. rewrite slice_step_pos by done. simpl.
    fold k. fold frames. rewrite Hmin, Hmax. simpl. reflexivity. }
  simpl. split; [done|]. split; [done|]. split; [done|].
  intros t Ht. destruct (lookup_lt_is_Some_2 frames t Ht) as [F HF].
  destruct (Hframe t F HF) as (U & HU & -> & HsU & HsF).
  exists (transpose2 U), U. split; [done|]. split; [done|]. split; [done|].
  intros i j Hi Hj.
  split; [by apply (transpose2_get nx ny)|].
  assert (get2 (transpose2 U) j i ∈ entries frames) as Hin.
  { apply (get2_entries frames (transpose2 U) ny nx); [|done..].
    by eapply list_elem_of_lookup_2. }
  split; [by apply (np_min_le _ _ Hmin)|by apply (np_max_ge _ _ Hmax)].
Qed.

(** X16. [create_2d_animation]: a step [light_k = 0] is an error, and so
    is a history without frames (the limits of the colour scale are the
    minimum and maximum of an empty array).  With [light_k >= 1] and at
    least one frame of shape [nx × ny] the function draws
    [ceil(steps / light_k)] frames; frame [t] is the transpose of the
    stored frame [t * light_k], it carries the label [t * light_k], and
    every value drawn lies between [vmin] and [vmax]. *)
Theorem X16_flat_animation_shows_every_kth_frame
    (r : sim_result) (light_k : Z) (nx ny : nat) :
  (light_k = 0%Z → create_2d_animation r light_k = None)
  ∧ (res_U_stack r = [] → create_2d_animation r light_k = None)
  ∧ ((1 ≤ light_k)%Z → (1 ≤ nx)%nat → (1 ≤ ny)%nat →
     res_U_stack r ≠ [] → Forall (shape2 nx ny) (res_U_stack r) →
     ∃ a, create_2d_animation r light_k = Some a
       ∧ a2_count a = length (a2_frames a)
       ∧ a2_count a
         = ((length (res_U_stack r) + Z.to_nat light_k - 1)
            `div` Z.to_nat light_k)%nat
       ∧ (∀ t, a2_label a t = (Z.of_nat t * light_k)%Z)
       ∧ ∀ t, (t < a2_count a)%nat →
           ∃ F U, a2_frames a !! t = Some F
             ∧ res_U_stack r !! (t * Z.to_nat light_k)%nat = Some U
             ∧ shape2 ny nx F
             ∧ ∀ i j, (i < nx)%nat → (j < ny)%nat →
                 get2 F j i = get2 U i j
                 ∧ a2_vmin a <= get2 F j i ∧ get2 F j i <= a2_vmax a).
Proof.
  split; [intros ->; apply create_2d_animation_zero_step|].
  split; [apply create_2d_animation_no_frame|].
  apply create_2d_animation_frames.
Qed.

Lemma ex_result_shapes : Forall (shape2 4 4) (res_U_stack ex_result).
Proof.
  repeat constructor.
Defined.

Lemma X16_flat_animation_shows_every_kth_frame_witness :
  create_2d_animation ex_result 0 = None
  ∧ ∃ a, create_2d_animation ex_result 2 = Some a
      ∧ a2_count a = 2%nat ∧ a2_label a 1 = 2%Z
      ∧ ∃ F, a2_frames a !! 1%nat = Some F
          ∧ get2 F 3 1 = get2 ex_ramp2 1 3.
Proof.
  split.
  - destruct (X16_flat_animation_shows_every_kth_frame ex_result 0 4 4)
      as (H0 & _). apply H0. reflexivity.
  - destruct (X16_flat_animation_shows_every_kth_frame ex_result 2 4 4)
      as (_ & _ & H).
    destruct H as (a & Ha & _ & Hc & Hl & Hf);
      [lia|lia|lia|intros E; discriminate E|exact ex_result_shapes|].
    exists a. split; [exact Ha|]. split; [rewrite Hc; reflexivity|].
    split; [rewrite Hl; reflexivity|].
    destruct (Hf 1%nat) as (F & U & HF & HU & _ & Hget).
    { rewrite Hc. vm_compute. lia. }
    exists F. split; [exact HF|].
    destruct (Hget 1%nat 3%nat) as (E & _); [lia|lia|].
    rewrite E. injection HU as <-. reflexivity.
Defined.

(** ** The arrays of the surface animation *)

Lemma bind_Some {A B : Type} (x : A) (f : A → option B) : Some x ≫= f = f x.
Proof. done. Qed.

Lemma mapM_total {A B : Type} (f : A → option B) (g : A → B) (l : list A) :
  (∀ x, f x = Some (g x)) → mapM f l = Some (g <$> l).
Proof.
  intros Hf. induction l as [|x l IH]; [done|].
  simpl. rewrite Hf. simpl. by rewrite IH.
Qed.

(** [F[::k, ::k]] *)
Lemma stride2_shape (n m k : nat) (F : grid2) :
  (1 ≤ k)%nat → shape2 n m F →
  shape2 ((n + k - 1) `div` k) ((m + k - 1) `div` k)
    (stride k <$> stride k F).
Proof.
  intros Hk [Hn Hm]. split.
  - by rewrite length_fmap, stride_length, Hn.
  - rewrite Forall_lookup in Hm. apply Forall_lookup. intros p row Hrow.
    rewrite list_lookup_fmap in Hrow.
    destruct (stride k F !! p) as [r0|] eqn:Hr0; [|done].
    injection Hrow as <-. rewrite stride_lookup in Hr0 by done.
    by rewrite stride_length, (Hm _ _ Hr0).
Qed.

Lemma stride2_get (k : nat) (F : grid2) (p q : nat) :
  (1 ≤ k)%nat →
  get2 (stride k <$> stride k F) p q = get2 F (p * k) (q * k).
Proof.
  intros Hk. unfold get2.
  rewrite list_lookup_fmap, stride_lookup by done.
  destruct (F !! (p * k)%nat) as [r0|]; simpl; [|done].
  by rewrite stride_lookup.
Qed.

Lemma meshgrid_shape (a b : list Qc) :
  shape2 (length b) (length a) (meshgrid a b).1
  ∧ shape2 (length b) (length a) (meshgrid a b).2.
Proof.
  unfold meshgrid. simpl. split.
  - split; [by rewrite length_replicate|]. by apply replicate_Forall.
  - split; [by rewrite length_fmap|].
    apply Forall_fmap, Forall_forall. intros y _. simpl.
    by rewrite length_replicate.
Qed.

Lemma meshgrid_get (a b : list Qc) (p q : nat) :
  (p < length b)%nat → (q < length a)%nat →
  get2 (meshgrid a b).1 p q = at0 a q ∧ get2 (meshgrid a b).2 p q = at0 b p.
Proof.
  intros Hp Hq. unfold meshgrid, get2, at0. simpl. split.
  - by rewrite lookup_replicate_2.
  - rewrite list_lookup_fmap.
    destruct (lookup_lt_is_Some_2 b p Hp) as [y ->]. simpl.
    by rewrite lookup_replicate_2.
Qed.

Lemma at0_stride (k : nat) (l : list Qc) (i : nat) :
  (1 ≤ k)%nat → at0 (stride k l) i = at0 l (i * k).
Proof. intros Hk. unfold at0. by rewrite stride_lookup. Qed.

(** With positive steps and at least one frame the function returns: the
    coordinate arrays and every surface have one shape, and they hold the
    coordinates and the values of every [ds]-th node. *)
Lemma create_3d_animation_arrays
    (r : sim_result) (light_k ds : Z) (nx ny : nat) :
  (1 ≤ light_k)%Z → (1 ≤ ds)%Z → (1 ≤ nx)%nat → (1 ≤ ny)%nat →
  res_U_stack r ≠ [] → Forall (shape2 nx ny) (res_U_stack r) →
  length (res_x r) = nx → length (res_y r) = ny →
  let k := Z.to_nat ds in
  let mx := ((nx + k - 1) `div` k)%nat in
  let my := ((ny + k - 1) `div` k)%nat in
  ∃ a, create_3d_animation r light_k ds = Some a
    ∧ shape2 mx my (a3_X a) ∧ shape2 mx my (a3_Y a)
    ∧ Forall (shape2 mx my) (a3_Z a)
    ∧ a3_count a = length (a3_Z a)
    ∧ a3_count a
      = ((length (res_U_stack r) + Z.to_nat light_k - 1)
         `div` Z.to_nat light_k)%nat
    ∧ ∀ p q, (p < mx)%nat → (q < my)%nat →
        get2 (a3_X a) p q = at0 (res_y r) (q * k)
        ∧ get2 (a3_Y a) p q = at0 (res_x r) (p * k)
        ∧ ∀ t, (t < a3_count a)%nat →
            ∃ Z U, a3_Z a !! t = Some Z
              ∧ res_U_stack r !! (t * Z.to_nat light_k)%nat = Some U
              ∧ get2 Z p q = get2 U (p * k) (q * k)
              ∧ a3_vmin a <= get2 Z p q ∧ get2 Z p q <= a3_vmax a.
Proof.
  intros Hl Hds Hnx Hny Hne Hall Hx Hy k mx my.
  set (kl := Z.to_nat light_k).
  assert (1 ≤ k)%nat as Hk by (unfold k; lia).
  assert (1 ≤ kl)%nat as Hkl by (unfold kl; lia).
  assert (1 ≤ mx)%nat as Hmx.
  { assert (0 < mx)%nat; [|lia]. apply div_up_lt; [done|]. lia. }
  assert (1 ≤ my)%nat as Hmy.
  { assert (0 < my)%nat; [|lia]. apply div_up_lt; [done|]. lia. }
  set (Zs := (λ F : grid2, stride k <$> stride k F) <$> stride kl (res_U_stack r)).
  assert (∀ t Z, Zs !! t = Some Z →
            ∃ U, res_U_stack r !! (t * kl)%nat = Some U
                 ∧ Z = (stride k <$> stride k U) ∧ shape2 mx my Z) as Hframe.
  { intros t Z HZ. unfold Zs in HZ. rewrite list_lookup_fmap in HZ.
    destruct (stride kl (res_U_stack r) !! t) as [U|] eqn:HU; [|done].
    injection HZ as <-. rewrite stride_lookup in HU by done.
    rewrite Forall_lookup in Hall. pose proof (Hall _ _ HU) as HsU.
    exists U. split; [done|]. split; [done|]. by apply stride2_shape. }
  assert (length Zs = ((length (res_U_stack r) + kl - 1) `div` kl)%nat)
    as Hlen.
  { unfold Zs. by rewrite length_fmap, stride_length. }
  assert (entries Zs ≠ []) as Hent.
  { destruct (res_U_stack r) as [|U0 st] eqn:Est; [done|].
    destruct (lookup_lt_is_Some_2 Zs 0) as [Z HZ].
    { rewrite Hlen. apply div_up_lt; [done|]. simpl. lia. }
    destruct (Hframe 0%nat Z HZ) as (U & _ & _ & HsZ).
    apply (entries_nonempty Zs Z mx my); [|done..].
    by eapply list_elem_of_lookup_2. }
  destruct (np_min_is_Some _ Hent) as [vmin Hmin].
  destruct (np_max_is_Some _ Hent) as [vmax Hmax].
  assert (length (stride k (res_x r)) = mx) as Hlx
    by (by rewrite stride_length, Hx).
  assert (length (stride k (res_y r)) = my) as Hly
    by (by rewrite stride_length, Hy).
  destruct (meshgrid_shape (stride k (res_y r)) (stride k (res_x r)))
    as [HsX HsY].
  rewrite Hlx, Hly in HsX, HsY.
  assert (∀ p q, (p < mx)%nat → (q < my)%nat →
            get2 (meshgrid (stride k (res_y r)) (stride k (res_x r))).1 p q
            = at0 (res_y r) (q * k)
            ∧ get2 (meshgrid (stride k (res_y r)) (stride k (res_x r))).2 p q
              = at0 (res_x r) (p * k)) as Hmesh.
  { intros p q Hp Hq.
    destruct (meshgrid_get (stride k (res_y r)) (stride k (res_x r)) p q)
      as [EX EY]; [lia|lia|].
    by rewrite EX, EY, !at0_stride. }
  destruct (meshgrid (stride k (res_y r)) (stride k (res_x r))) as [X Y]
    eqn:EM.
  simpl in HsX, HsY, Hmesh.
  eexists. split.
  { unfold create_3d_animation.
    rewrite (slice_step_pos light_k (res_U_stack r)) by done.
    rewrite bind_Some. fold kl.
    rewrite (mapM_total _ (λ F : grid2, stride k <$> stride k F)).
    2: { intros F. rewrite slice_step_pos by done. rewrite bind_Some.
         fold k. apply mapM_total. intros row. by apply slice_step_pos. }
    rewrite bind_Some. fold Zs. rewrite !slice_step_pos by done.
    rewrite !bind_Some. fold k. rewrite EM, Hmin, Hmax. reflexivity. }
  simpl.
  split; [done|]. split; [done|].
  split.
  { apply Forall_lookup. intros t Z HZ.
    by destruct (Hframe t Z HZ) as (U & _ & _ & HsZ). }
  split; [done|]. split; [done|].
  intros p q Hp Hq. destruct (Hmesh p q Hp Hq) as [EX EY].
  split; [done|]. split; [done|].
  intros t Ht. destruct (lookup_lt_is_Some_2 Zs t Ht) as [Z HZ].
  destruct (Hframe t Z HZ) as (U & HU & -> & HsZ).
  eexists _, U. split; [done|]. split; [done|].
  split; [by apply stride2_get|].
  assert (get2 (stride k <$> stride k U) p q ∈ entries Zs) as Hin.
  { apply (get2_entries Zs _ mx my); [|done..].
    by eapply list_elem_of_lookup_2. }
  split; [by apply (np_min_le _ _ Hmin)|by apply (np_max_ge _ _ Hmax)].
Qed.

Lemma create_3d_animation_zero_step (r : sim_result) (light_k ds : Z) :
  light_k = 0%Z ∨ ds = 0%Z → create_3d_animation r light_k ds = None.
Proof.
  intros [-> | ->]; [done|]. unfold create_3d_animation.
  destruct (slice_step light_k _) as [frames|]; [|done].
  rewrite bind_Some. destruct (mapM _ frames); done.
Qed.

(** X17. [create_3d_animation]: a step [light_k = 0] or [ds = 0] is an
    error.  With [light_k, ds >= 1], at least one frame of shape
    [nx × ny] and coordinate vectors of [nx] and [ny] points, the function
    returns; [X], [Y] and every surface have the one shape
    [ceil(nx / ds) × ceil(ny / ds)]; [X[p, q] = y[q * ds]],
    [Y[p, q] = x[p * ds]], surface [t] holds at [(p, q)] the value of the
    stored frame [t * light_k] at node [(p * ds, q * ds)], between [vmin]
    and [vmax]; and there are [ceil(steps / light_k)] surfaces. *)
Theorem X17_surface_animation_arrays_fit_together
    (r : sim_result) (light_k ds : Z) (nx ny : nat) :
  (light_k = 0%Z ∨ ds = 0%Z → create_3d_animation r light_k ds = None)
  ∧ ((1 ≤ light_k)%Z → (1 ≤ ds)%Z → (1 ≤ nx)%nat → (1 ≤ ny)%nat →
     res_U_stack r ≠ [] → Forall (shape2 nx ny) (res_U_stack r) →
     length (res_x r) = nx → length (res_y r) = ny →
     let k := Z.to_nat ds in
     let mx := ((nx + k - 1) `div` k)%nat in
     let my := ((ny + k - 1) `div` k)%nat in
     ∃ a, create_3d_animation r light_k ds = Some a
       ∧ shape2 mx my (a3_X a) ∧ shape2 mx my (a3_Y a)
       ∧ Forall (shape2 mx my) (a3_Z a)
       ∧ a3_count a = length (a3_Z a)
       ∧ a3_count a
         = ((length (res_U_stack r) + Z.to_nat light_k - 1)
            `div` Z.to_nat light_k)%nat
       ∧ ∀ p q, (p < mx)%nat → (q < my)%nat →
           get2 (a3_X a) p q = at0 (res_y r) (q * k)
           ∧ get2 (a3_Y a) p q = at0 (res_x r) (p * k)
           ∧ ∀ t, (t < a3_count a)%nat →
               ∃ Z U, a3_Z a !! t = Some Z
                 ∧ res_U_stack r !! (t * Z.to_nat light_k)%nat = Some U
                 ∧ get2 Z p q = get2 U (p * k) (q * k)
                 ∧ a3_vmin a <= get2 Z p q ∧ get2 Z p q <= a3_vmax a).
Proof.
  split; [apply create_3d_animation_zero_step|].
  apply create_3d_animation_arrays.
Qed.

Lemma X17_surface_animation_arrays_fit_together_witness :
  ∃ a, create_3d_animation ex_result 2 2 = Some a
    ∧ shape2 2 2 (a3_X a) ∧ shape2 2 2 (a3_Y a)
    ∧ Forall (shape2 2 2) (a3_Z a)
    ∧ a3_count a = 2%nat
    ∧ get2 (a3_X a) 0 1 = at0 (res_y ex_result) 2
    ∧ get2 (a3_Y a) 0 1 = at0 (res_x ex_result) 0.
Proof.
  destruct (X17_surface_animation_arrays_fit_together ex_result 2 2 4 4)
    as (_ & H).
  destruct H as (a & Ha & HX & HY & HZ & _ & Hc & Hget);
    [lia|lia|lia|lia|intros E; discriminate E|exact ex_result_shapes
    |reflexivity|reflexivity|].
  exists a. split; [exact Ha|]. split; [exact HX|]. split; [exact HY|].
  split; [exact HZ|]. split; [rewrite Hc; reflexivity|].
  destruct (Hget 0%nat 1%nat) as (EX & EY & _);
    [vm_compute; lia|vm_compute; lia|].
  split; [exact EX|exact EY].
Defined.

(** ** The whole program *)

(** X18. [main] stops with an error for an experiment type outside the
    three choices of its command line.  For each of the three, with any
    values for [np.pi] and [np.sin], the configuration exists, the run
    returns and the arrays of both animations are prepared without error:
    each animation has [250] frames, the flat frames of shape [101 × 101],
    the coordinate arrays and the surfaces of shape [26 × 26].  So [main]
    can fail only in the creation of the output directory or in the
    drawing and saving of an animation, and it completes when these three
    steps do. *)
Theorem X18_main_fails_only_outside_the_computation
    (np_pi : Qc) (np_sin : Qc → Qc) (os_makedirs : string → option unit)
    (os_path_join : string → string → string)
    (save_2d : string → anim2d → option unit)
    (save_3d : string → anim3d → option unit) (t output_dir : string) :
  (t ∉ experiment_choices →
   main np_pi np_sin os_makedirs os_path_join save_2d save_3d t output_dir
   = None)
  ∧ (t ∈ experiment_choices →
     ∃ a2 a3,
       a2_count a2 = 250%nat ∧ a3_count a3 = 250%nat
       ∧ length (a2_frames a2) = 250%nat
       ∧ Forall (shape2 101 101) (a2_frames a2)
       ∧ shape2 26 26 (a3_X a3) ∧ shape2 26 26 (a3_Y a3)
       ∧ Forall (shape2 26 26) (a3_Z a3)
       ∧ main np_pi np_sin os_makedirs os_path_join save_2d save_3d t
           output_dir
         = (_ ← os_makedirs output_dir;
            _ ← save_2d (os_path_join output_dir
                           ("membrane_" +:+ t +:+ "_2d.mp4")%string) a2;
            save_3d (os_path_join output_dir
                       ("membrane_" +:+ t +:+ "_3d.mp4")%string) a3)).
Proof.
  split.
  { intros Ht. unfold main. by rewrite decide_False. }
  intros Ht. destruct (get_config_choices t Ht) as [cfg Hcfg].
  destruct (get_config_Some t cfg Hcfg)
    as (_ & _ & _ & Enx & Eny & ELx & ELy & Edt & Esteps & Elk & Eds).
  destruct (run_simulation_returns np_pi np_sin cfg)
    as (r & Hr & Hlen & Hall & Ex & Ey & _).
  { rewrite Enx. lia. } { rewrite Eny. lia. }
  { rewrite ELx. qc_neq. } { rewrite ELy. qc_neq. } { rewrite Edt. qc_neq. }
  rewrite Enx, Eny in Hall. rewrite Esteps in Hlen.
  assert (res_U_stack r ≠ []) as Hne.
  { intros E. rewrite E in Hlen. discriminate Hlen. }
  destruct (create_2d_animation_frames r 2 101 101)
    as (a2 & Ha2 & Hc2 & Hn2 & _ & Hf2); [lia|lia|lia|done|done|].
  destruct (create_3d_animation_arrays r 2 4 101 101)
    as (a3 & Ha3 & HX & HY & HZ & _ & Hn3 & _);
    [lia|lia|lia|lia|done|done| | |].
  { by rewrite Ex, linspace_length. } { by rewrite Ey, linspace_length. }
  rewrite Hlen in Hn2, Hn3.
  assert (((500 + Z.to_nat 2 - 1) `div` Z.to_nat 2)%nat = 250%nat) as E250
    by reflexivity.
  rewrite E250 in Hn2, Hn3.
  exists a2, a3.
  split; [done|]. split; [done|]. split; [by rewrite <- Hc2|].
  split.
  { apply Forall_lookup. intros i F HF.
    destruct (Hf2 i) as (F' & U & HF' & _ & HsF & _).
    { rewrite Hc2. by eapply lookup_lt_Some. }
    rewrite HF in HF'. by injection HF' as <-. }
  split; [done|]. split; [done|]. split; [done|].
  unfold main. rewrite decide_True by done.
  destruct (os_makedirs output_dir) as [[]|]; simpl; [|done].
  rewrite Hcfg. simpl. rewrite Hr. simpl. rewrite Elk, Eds, Ha2. simpl.
  destruct (save_2d _ a2) as [[]|]; simpl; [|done].
  by rewrite Ha3.
Qed.
